(** * Priority-queue graph algorithms and binary-lifting LCA

    A shallow embedding of [src/src/dijkstra.ts] (class [MinHeap], function
    [dijkstra]) and of [src/src/LCA.ts] (class [LCA], function [astarGrid]),
    followed by the properties of these programs.

    The other functions of the library are embedded in the same way:
    [kruskal] (dijkstra.ts), [quickSort] and [bfs] (LCA.ts), [binarySearch]
    and [topologicalSort] (binarySearch.ts), [dfs], [kmpSearch] and
    [mergeSort] (dfs.ts), [gcd] (gcd.ts), [binPow] (binPow.ts), [knapsack]
    and [isPowerOfTwo] (knapsack.ts).

    Conventions of the embedding.
    - A JavaScript [number] is an integer or [+Infinity] (type [num]).  The
      sum of two numbers is the sum of doubles ([double_add]: rounded to 53
      bits above [2 ^ 53]) in [dijkstra] and [knapsack], and the exact sum
      ([num_add]) where the values are path lengths in a grid.
    - A JavaScript array is a [list]; reading index [i] is [aget a i], which
      is [None] (JavaScript [undefined]) outside [0 .. length-1].
    - A [while] loop is a [Fixpoint] on a fuel argument.  The loops of the
      heap are given the fuel they provably need; the main loops of
      [dijkstra], [astarGrid] and the recursion of [LCA.dfs] return [None]
      when the fuel runs out.
    - A JavaScript exception is the outcome [Throw].
    - Arrays are values in this embedding.  Which objects a run stores
      into, and what a second run finds, is about objects with an identity:
      for these properties [MinHeap], [dijkstra], [astarGrid] and
      [LCA.query] are embedded a second time, on a store of objects with
      references (module [Mem]). *)

From stdpp Require Import base list numbers strings sorting.
From Stdlib Require Import ZArith Lia Wellfounded Ascii DecimalString DecimalZ.

Local Open Scope Z_scope.

(** ** JavaScript values used by the programs *)

(** A [number]: an integer or [+Infinity]. *)
Inductive num : Type :=
  | Fin (z : Z)
  | Inf.

Global Instance num_eq_dec : EqDecision num.
Proof. solve_decision. Defined.

(** [a <= b] on numbers. *)
Definition num_leb (a b : num) : bool :=
  match a, b with
  | Fin x, Fin y => x <=? y
  | _, Inf => true
  | Inf, Fin _ => false
  end.

(** [a < b] on numbers. *)
Definition num_ltb (a b : num) : bool :=
  match a, b with
  | Fin x, Fin y => x <? y
  | Fin _, Inf => true
  | Inf, _ => false
  end.

(** [a + b] on numbers, as an exact sum: what the sum of two doubles is as
    long as it is an integer of magnitude at most [2 ^ 53] (the step counts
    and Manhattan distances of [astarGrid]). *)
Definition num_add (a b : num) : num :=
  match a, b with
  | Fin x, Fin y => Fin (x + y)
  | _, _ => Inf
  end.

(** *** Sums of doubles

    A [number] is a double.  Every integer of magnitude up to [2 ^ 53] is
    a double; above, the doubles are the integers [q * 2 ^ e] with
    [2 ^ 52 <= q < 2 ^ 53], below [2 ^ 1024]. *)

(** The double nearest to the natural number [m], a tie going to the even
    [q]; a value of [2 ^ 1024] or more is beyond the finite doubles. *)
Definition round_nat (m : Z) : Z :=
  if m <=? 2 ^ 53 then m
  else
    let e := Z.log2 m - 52 in
    let q := m / 2 ^ e in
    let r := m mod 2 ^ e in
    let half := 2 ^ (e - 1) in
    if (r <? half) || ((r =? half) && Z.even q) then q * 2 ^ e
    else (q + 1) * 2 ^ e.

(** [x + y] for two doubles that are integers: the exact sum, rounded to
    the nearest double, [Infinity] from [2 ^ 1024] on.  [None]: the sum is
    [-Infinity], a value that [num] does not hold. *)
Definition double_add (x y : Z) : option num :=
  let s := x + y in
  let m := round_nat (Z.abs s) in
  if m <? 2 ^ 1024 then Some (Fin (Z.sgn s * m))
  else if 0 <? s then Some Inf
  else None.

(** [a > b] where either side may be [undefined] or [NaN] ([None]): every
    comparison with such a value is [false]. *)
Definition js_gt (a b : option num) : bool :=
  match a, b with
  | Some x, Some y => num_ltb y x
  | _, _ => false
  end.

(** [a[i]] for an array [a] and an integer index [i]. *)
Definition aget {A : Type} (a : list A) (i : Z) : option A :=
  if decide (0 <= i) then a !! Z.to_nat i else None.

(** [a[i] = x] for an index inside the array.  Outside the array JavaScript
    would add a property; in the programs below such a store only happens
    on a path that throws before the array is read again, so the store is
    modelled as leaving the list as it is. *)
Definition aset {A : Type} (a : list A) (i : Z) (x : A) : list A :=
  if decide (0 <= i) then <[Z.to_nat i := x]> a else a.

(** How a call ends: with a value, or with a JavaScript exception. *)
Inductive outcome (A : Type) : Type :=
  | Ret (a : A)
  | Throw.
Arguments Ret {A} a.
Arguments Throw {A}.

(** ** [class MinHeap<T>] (dijkstra.ts, lines 2-34) *)

Record entry (T : Type) : Type := Entry { key : num; val : T }.
Arguments Entry {T} key val.
Arguments key {T} e.
Arguments val {T} e.

(** The field [data]. *)
Abbreviation heap T := (list (entry T)).

(** [[a[i], a[j]] = [a[j], a[i]]]. *)
Definition swap {A : Type} (a : list A) (i j : nat) : list A :=
  match a !! i, a !! j with
  | Some x, Some y => <[j := x]> (<[i := y]> a)
  | _, _ => a
  end.

(** [(i - 1) >> 1], for [i > 0]. *)
Definition heap_parent (i : nat) : nat := Nat.shiftr (i - 1) 1.
Arguments heap_parent : simpl never.

(** [size()]. *)
Definition size {T : Type} (h : heap T) : nat := length h.

(** The [while (i > 0)] loop of [push]. *)
Fixpoint sift_up {T : Type} (fuel : nat) (data : heap T) (i : nat) : heap T :=
  match fuel with
  | O => data
  | S fuel' =>
      if (0 <? i)%nat then
        let p := heap_parent i in
        match data !! p, data !! i with
        | Some ep, Some ei =>
            if num_leb (key ep) (key ei) then data
            else sift_up fuel' (swap data p i) p
        | _, _ => data
        end
      else data
  end.

(** [push(key, val)].  The loop halves [i] at each round, so [length data]
    rounds are more than it can take (lemma [sift_up_fuel]). *)
Definition push {T : Type} (h : heap T) (k : num) (v : T) : heap T :=
  let data := h ++ [Entry k v] in
  let i := (length data - 1)%nat in
  sift_up (length data) data i.

(** [data[a].key < data[b].key], for indices inside the array. *)
Definition key_lt {T : Type} (data : heap T) (a b : nat) : bool :=
  match data !! a, data !! b with
  | Some ea, Some eb => num_ltb (key ea) (key eb)
  | _, _ => false
  end.

(** The [while (true)] loop of [pop]. *)
Fixpoint sift_down {T : Type} (fuel : nat) (data : heap T) (i : nat) : heap T :=
  match fuel with
  | O => data
  | S fuel' =>
      let l := (i * 2 + 1)%nat in
      let r := (i * 2 + 2)%nat in
      let smallest := i in
      let smallest :=
        if (l <? length data)%nat && key_lt data l smallest then l else smallest in
      let smallest :=
        if (r <? length data)%nat && key_lt data r smallest then r else smallest in
      if (smallest =? i)%nat then data
      else sift_down fuel' (swap data i smallest) smallest
  end.

(** [pop()]: the returned entry ([None] is [null]) and the new [data].
    The loop at least doubles [i] at each round, so [length data] rounds are
    more than it can take (lemma [sift_down_fuel]). *)
Definition pop {T : Type} (h : heap T) : option (entry T) * heap T :=
  match h with
  | [] => (None, h)
  | res :: _ =>
      match list.last h with
      | None => (None, h)
      | Some last =>
          let data := removelast h in
          if (0 <? length data)%nat then
            let data := <[0%nat := last]> data in
            (Some res, sift_down (length data) data 0)
          else (Some res, data)
      end
  end.

(** A client of the queue: a sequence of pushes and pops from the empty
    queue; the trace records what each pop returned. *)
Inductive heap_op (T : Type) : Type :=
  | OpPush (k : num) (v : T)
  | OpPop.
Arguments OpPush {T} k v.
Arguments OpPop {T}.

Fixpoint run_ops {T : Type} (ops : list (heap_op T)) (h : heap T)
  : list (option (entry T)) * heap T :=
  match ops with
  | [] => ([], h)
  | OpPush k v :: ops' => run_ops ops' (push h k v)
  | OpPop :: ops' =>
      let '(r, h') := pop h in
      let '(rs, h'') := run_ops ops' h' in
      (r :: rs, h'')
  end.

(** The heap order on the array: no entry is smaller than its parent. *)
Definition heap_ordered {T : Type} (data : heap T) : Prop :=
  forall (i : nat) (ei ep : entry T),
    (0 < i)%nat -> data !! i = Some ei -> data !! heap_parent i = Some ep ->
    num_leb (key ep) (key ei) = true.

(** ** [dijkstra] (dijkstra.ts, lines 35-54) *)

(** [adj: Array<Array<[number, number]>>]: [adj[u]] lists the pairs
    [[v, w]] of the edges [u -> v] of weight [w].  Targets and weights are
    integers. *)
Abbreviation graph := (list (list (Z * Z))).

(** [a + b] where [a] may be [undefined] (the sum is then [NaN]). *)
Definition js_add (a : option num) (b : num) : option num :=
  match a with
  | Some x => Some (num_add x b)
  | None => None
  end.

(** The value of [dist[u] + w]: a number, [NaN] when [dist[u]] is
    [undefined], or [-Infinity]. *)
Inductive sum_value : Type :=
  | SNum (x : num)
  | SNaN
  | SNegInf.

Definition add_weight (a : option num) (w : Z) : sum_value :=
  match a with
  | None => SNaN
  | Some Inf => SNum Inf
  | Some (Fin x) =>
      match double_add x w with
      | Some s => SNum s
      | None => SNegInf
      end
  end.

(** The objects [dijkstra] works with: the caller's [adj] and the local
    [dist] and [pq]. *)
Record dijkstra_state : Type := DijkstraState {
  ds_adj : graph;
  ds_dist : list num;
  ds_pq : heap Z
}.

(** [for (const [v, w] of adj[u]) if (dist[v] > dist[u] + w) { ... }],
    on the edge list [es = adj[u]].  [None]: the code stores [-Infinity]
    into [dist]; the model stops there. *)
Fixpoint relax (u : Z) (es : list (Z * Z)) (dist : list num) (pq : heap Z)
  : option (list num * heap Z) :=
  match es with
  | [] => Some (dist, pq)
  | (v, w) :: es' =>
      match add_weight (aget dist u) w with
      | SNum nd =>
          if js_gt (aget dist v) (Some nd) then
            relax u es' (aset dist v nd) (push pq nd v)
          else relax u es' dist pq
      | SNaN => relax u es' dist pq
      | SNegInf =>
          match aget dist v with
          | Some _ => None
          | None => relax u es' dist pq
          end
      end
  end.

(** The [while (pq.size())] loop.  [None]: the fuel ran out, or [relax]
    stopped. *)
Fixpoint dijkstra_loop (fuel : nat) (st : dijkstra_state)
  : option (outcome dijkstra_state) :=
  match fuel with
  | O => None
  | S fuel' =>
      if (size (ds_pq st) =? 0)%nat then Some (Ret st)
      else
        match pop (ds_pq st) with
        | (None, _) => Some Throw
        | (Some cur, pq) =>
            let u := val cur in
            let d := key cur in
            if js_gt (Some d) (aget (ds_dist st) u) then
              dijkstra_loop fuel' (DijkstraState (ds_adj st) (ds_dist st) pq)
            else
              match aget (ds_adj st) u with
              | None => Some Throw
              | Some es =>
                  match relax u es (ds_dist st) pq with
                  | Some (dist, pq) =>
                      dijkstra_loop fuel' (DijkstraState (ds_adj st) dist pq)
                  | None => None
                  end
              end
        end
  end.

(** The state on entry to the loop. *)
Definition dijkstra_init (adj : graph) (src : Z) : dijkstra_state :=
  let n := length adj in
  let dist := replicate n Inf in
  let dist := aset dist src (Fin 0) in
  let pq := push [] (Fin 0) src in
  DijkstraState adj dist pq.

(** The whole call, with the objects as they are when it returns. *)
Definition dijkstra_run (fuel : nat) (adj : graph) (src : Z)
  : option (outcome dijkstra_state) :=
  dijkstra_loop fuel (dijkstra_init adj src).

(** [dijkstra(adj, src)]: the returned [dist]. *)
Definition dijkstra (fuel : nat) (adj : graph) (src : Z)
  : option (outcome (list num)) :=
  match dijkstra_run fuel adj src with
  | Some (Ret st) => Some (Ret (ds_dist st))
  | Some Throw => Some Throw
  | None => None
  end.

(** *** Shortest paths in the graph *)

(** [adj] has an edge [u -> v] of weight [w]. *)
Definition edge (adj : graph) (u v w : Z) : Prop :=
  exists es, aget adj u = Some es /\ (v, w) ∈ es.

(** [walk adj u v len]: a sequence of edges leads from [u] to [v], and its
    weights add up to [len]. *)
Inductive walk (adj : graph) (u : Z) : Z -> Z -> Prop :=
  | walk_nil : walk adj u u 0
  | walk_step v t w len :
      walk adj u v len -> edge adj v t w -> walk adj u t (len + w).

(** [rwalk adj u v z]: a sequence of edges leads from [u] to [v], and [z]
    is its length as the code adds it, edge by edge, in doubles. *)
Inductive rwalk (adj : graph) (u : Z) : Z -> Z -> Prop :=
  | rwalk_nil : rwalk adj u u 0
  | rwalk_step v t w a z :
      rwalk adj u v a -> edge adj v t w -> double_add a w = Some (Fin z) ->
      rwalk adj u t z.

(** Every weight is non-negative. *)
Definition nonneg_weights (adj : graph) : Prop :=
  Forall (Forall (fun e : Z * Z => 0 <= e.2)) adj.

(** [d] is the shortest-path distance from [src] to [v]: the length of a
    shortest walk, or [Inf] when no walk reaches [v]. *)
Definition shortest_dist (adj : graph) (src v : Z) (d : num) : Prop :=
  match d with
  | Fin z => walk adj src v z /\ forall z', walk adj src v z' -> z <= z'
  | Inf => forall z', ~ walk adj src v z'
  end.

(** The shortest-path distances from [src] are at most [2 ^ 53]: a node
    that a walk reaches is reached by a walk of at most this length. *)
Definition short_distances (adj : graph) (src : Z) : Prop :=
  forall v z, walk adj src v z -> exists z', walk adj src v z' /\ z' <= 2 ^ 53.

(** ** [astarGrid] (LCA.ts, lines 44-90) *)

(** A template literal [`${x}`] for an integer [x], and [Number(s)] on the
    strings such literals produce ([None] is [NaN]).  The literal is the
    decimal numeral of [x], as JavaScript prints the integers of magnitude
    up to [2 ^ 53]. *)
Definition number_to_string (z : Z) : string :=
  NilZero.string_of_int (Z.to_int z).

Definition string_to_number (s : string) : option Z :=
  if decide (s = ""%string) then Some 0
  else Z.of_int <$> NilZero.int_of_string s.

(** [function key(x, y) { return `${x},${y}`; }] (named [node_key] here:
    [key] is the field of the heap entries). *)
Definition node_key (x y : Z) : string :=
  (number_to_string x +:+ "," +:+ number_to_string y)%string.

(** [s.split(',')]. *)
Fixpoint split_comma (s : string) : list string :=
  match s with
  | EmptyString => [EmptyString]
  | String c s' =>
      if Ascii.eqb c ","%char then EmptyString :: split_comma s'
      else
        match split_comma s' with
        | [] => [String c EmptyString]
        | p :: ps => String c p :: ps
        end
  end.

(** [const [cx, cy] = k.split(',').map(Number)].  [None] when a component
    is missing or is not a number; the programs only parse keys made by
    [node_key], where this does not happen (lemma [parse_node_key]). *)
Definition parse_key (k : string) : option (Z * Z) :=
  match split_comma k with
  | a :: b :: _ =>
      match string_to_number a, string_to_number b with
      | Some x, Some y => Some (x, y)
      | _, _ => None
      end
  | _ => None
  end.

(** A JavaScript [Map] with string keys, in insertion order. *)
Abbreviation jsmap V := (list (string * V)).

(** [m.get(k)]. *)
Fixpoint map_get {V : Type} (m : jsmap V) (k : string) : option V :=
  match m with
  | [] => None
  | (k', v) :: m' => if String.eqb k' k then Some v else map_get m' k
  end.

(** [m.set(k, v)]: a present key keeps its place, a new key goes last. *)
Fixpoint map_set {V : Type} (m : jsmap V) (k : string) (v : V) : jsmap V :=
  match m with
  | [] => [(k, v)]
  | (k', v') :: m' =>
      if String.eqb k' k then (k', v) :: m' else (k', v') :: map_set m' k v
  end.

(** [m.delete(k)]. *)
Fixpoint map_delete {V : Type} (m : jsmap V) (k : string) : jsmap V :=
  match m with
  | [] => []
  | (k', v') :: m' =>
      if String.eqb k' k then map_delete m' k else (k', v') :: map_delete m' k
  end.

(** The objects [astarGrid] works with: the caller's [grid] and the local
    maps. *)
Record astar_state : Type := AstarState {
  as_grid : list (list Z);
  as_open : jsmap num;
  as_gScore : jsmap num;
  as_parent : jsmap (option string)
}.

(** [inBounds(x, y)]. *)
Definition inBounds (R C : Z) (x y : Z) : bool :=
  (0 <=? x) && (0 <=? y) && (x <? R) && (y <? C).

(** [h(x, y)]: the Manhattan distance to [goal]. *)
Definition h (goal : Z * Z) (x y : Z) : Z :=
  Z.abs (x - goal.1) + Z.abs (y - goal.2).

Definition dirs : list (Z * Z) := [(1, 0); (-1, 0); (0, 1); (0, -1)].

(** [for (const [k, f] of open) if (f < curF) { curF = f; curKey = k; }]. *)
Fixpoint scan_min (open : jsmap num) (curKey : option string) (curF : num)
  : option string * num :=
  match open with
  | [] => (curKey, curF)
  | (k, f) :: open' =>
      if num_ltb f curF then scan_min open' (Some k) f
      else scan_min open' curKey curF
  end.

(** [v === 1] for a cell value that may be [undefined]. *)
Definition is_blocked (v : option Z) : bool :=
  match v with
  | Some 1 => true
  | _ => false
  end.

(** One round of [for (const [dx, dy] of dirs) { ... }]. *)
Definition astar_neighbor (goal : Z * Z) (R C : Z) (cx cy : Z)
    (curKey : string) (gCur : option num) (st : astar_state) (d : Z * Z)
  : outcome astar_state :=
  let nx := cx + d.1 in
  let ny := cy + d.2 in
  if negb (inBounds R C nx ny) then Ret st
  else
    match aget (as_grid st) nx with
    | None => Throw
    | Some row =>
        if is_blocked (aget row ny) then Ret st
        else
          let nk := node_key nx ny in
          let tentativeG := js_add gCur (Fin 1) in
          if js_gt (Some (default Inf (map_get (as_gScore st) nk))) tentativeG then
            match tentativeG with
            | Some tg =>
                Ret (AstarState (as_grid st)
                       (map_set (as_open st) nk (num_add tg (Fin (h goal nx ny))))
                       (map_set (as_gScore st) nk tg)
                       (map_set (as_parent st) nk (Some curKey)))
            | None => Ret st
            end
          else Ret st
    end.

Fixpoint astar_neighbors (goal : Z * Z) (R C : Z) (cx cy : Z)
    (curKey : string) (gCur : option num) (st : astar_state) (ds : list (Z * Z))
  : outcome astar_state :=
  match ds with
  | [] => Ret st
  | d :: ds' =>
      match astar_neighbor goal R C cx cy curKey gCur st d with
      | Ret st' => astar_neighbors goal R C cx cy curKey gCur st' ds'
      | Throw => Throw
      end
  end.

(** [while (p) { path.push(parse(p)); p = parent.get(p) ?? null; }].
    [None]: the fuel ran out, or [p] is not a key. *)
Fixpoint reconstruct (fuel : nat) (parent : jsmap (option string))
    (p : option string) (path : list (Z * Z)) : option (list (Z * Z)) :=
  match fuel with
  | O => None
  | S fuel' =>
      match p with
      | None => Some path
      | Some k =>
          if decide (k = ""%string) then Some path
          else
            match parse_key k with
            | None => None
            | Some c =>
                reconstruct fuel' parent (default None (map_get parent k))
                  (path ++ [c])
            end
      end
  end.

(** The [while (open.size)] loop.  The value is the returned path ([None]
    is [null]) with the objects as they are on return. *)
Fixpoint astar_loop (fuel : nat) (goal : Z * Z) (R C : Z) (st : astar_state)
  : option (outcome (option (list (Z * Z)) * astar_state)) :=
  match fuel with
  | O => None
  | S fuel' =>
      if (length (as_open st) =? 0)%nat then Some (Ret (None, st))
      else
        match scan_min (as_open st) None Inf with
        | (None, _) => Some (Ret (None, st))
        | (Some curKey, _) =>
            if decide (curKey = ""%string) then Some (Ret (None, st))
            else
              let st := AstarState (as_grid st) (map_delete (as_open st) curKey)
                          (as_gScore st) (as_parent st) in
              match parse_key curKey with
              | None => None
              | Some (cx, cy) =>
                  if (cx =? goal.1) && (cy =? goal.2) then
                    match reconstruct fuel' (as_parent st) (Some curKey) [] with
                    | None => None
                    | Some path => Some (Ret (Some (rev path), st))
                    end
                  else
                    let gCur := map_get (as_gScore st) curKey in
                    match astar_neighbors goal R C cx cy curKey gCur st dirs with
                    | Throw => Some Throw
                    | Ret st => astar_loop fuel' goal R C st
                    end
              end
        end
  end.

(** The state on entry to the loop. *)
Definition astar_init (start goal : Z * Z) (grid : list (list Z)) : astar_state :=
  let startKey := node_key start.1 start.2 in
  AstarState grid
    (map_set [] startKey (Fin (h goal start.1 start.2)))
    (map_set [] startKey (Fin 0))
    (map_set [] startKey None).

(** The whole call, with the objects as they are when it returns. *)
Definition astar_run (fuel : nat) (start goal : Z * Z) (grid : list (list Z))
  : option (outcome (option (list (Z * Z)) * astar_state)) :=
  match aget grid 0 with
  | None => Some Throw
  | Some row0 =>
      let R := Z.of_nat (length grid) in
      let C := Z.of_nat (length row0) in
      astar_loop fuel goal R C (astar_init start goal grid)
  end.

(** [astarGrid(start, goal, grid)]: the returned path, or [null]. *)
Definition astarGrid (fuel : nat) (start goal : Z * Z) (grid : list (list Z))
  : option (outcome (option (list (Z * Z)))) :=
  match astar_run fuel start goal grid with
  | Some (Ret (r, _)) => Some (Ret r)
  | Some Throw => Some Throw
  | None => None
  end.

(** *** Paths on the grid *)

(** The grid is rectangular: every row is as long as the first. *)
Definition rectangular (grid : list (list Z)) : Prop :=
  forall row0, grid !! 0%nat = Some row0 ->
    Forall (fun row => length row = length row0) grid.

(** Cell [(x, y)] is inside the grid and is not blocked (its value is not 1). *)
Definition free_cell (grid : list (list Z)) (c : Z * Z) : Prop :=
  exists row v, aget grid c.1 = Some row /\ aget row c.2 = Some v /\ v <> 1.

(** One cardinal unit step. *)
Definition adjacent (c c' : Z * Z) : Prop :=
  Z.abs (c.1 - c'.1) + Z.abs (c.2 - c'.2) = 1.

(** [steps grid c p]: starting from [c], the cells of [p] are free, and each
    is adjacent to the one before. *)
Fixpoint steps (grid : list (list Z)) (c : Z * Z) (p : list (Z * Z)) : Prop :=
  match p with
  | [] => True
  | c' :: p' => adjacent c c' /\ free_cell grid c' /\ steps grid c' p'
  end.

(** [p] is a path from [s] to [t]: it starts with [s], ends with [t], and
    moves through free cells by cardinal unit steps. *)
Definition grid_path (grid : list (list Z)) (s t : Z * Z) (p : list (Z * Z)) : Prop :=
  exists p', p = s :: p' /\ free_cell grid s /\ steps grid s p' /\
    list.last p = Some t.

(** ** [class LCA] (LCA.ts, lines 2-42) *)

(** 32-bit integers of the bitwise operators: [ToInt32], [a << k], [a & b]. *)
Definition int32 (z : Z) : Z := (z + 2 ^ 31) mod 2 ^ 32 - 2 ^ 31.

Definition js_shl (a k : Z) : Z := int32 (Z.shiftl (int32 a) (k mod 32)).

Definition js_and (a b : Z) : Z := Z.land (int32 a) (int32 b).

(** [a < b] and [a - b] where a side may be [undefined] ([None]); the
    difference is then [NaN] ([None]). *)
Definition js_lt (a b : option Z) : bool :=
  match a, b with
  | Some x, Some y => x <? y
  | _, _ => false
  end.

Definition js_sub (a b : option Z) : option Z :=
  match a, b with
  | Some x, Some y => Some (x - y)
  | _, _ => None
  end.

(** The truth value of [diff & (1 << k)]; [NaN & x] is 0. *)
Definition bit_set (diff : option Z) (k : Z) : bool :=
  match diff with
  | Some d => negb (js_and d (js_shl 1 k) =? 0)
  | None => false
  end.

(** A [for] loop over the values [xs] whose body may throw ([Throw]) or
    leave the model ([None]). *)
Fixpoint for_each {S : Type} (xs : list Z) (body : Z -> S -> option (outcome S))
    (s : S) : option (outcome S) :=
  match xs with
  | [] => Some (Ret s)
  | x :: xs' =>
      match body x s with
      | Some (Ret s') => for_each xs' body s'
      | r => r
      end
  end.

Module LCA.

(** The fields of an [LCA] object. *)
Record t : Type := mk {
  n : Z;
  LOG : Z;
  up : list (list Z);
  depth : list Z;
  adj : list (list Z)
}.

(** [this.up[k][i]] where [i] may be [undefined]: a [TypeError] when the
    row [this.up[k]] is missing, [undefined] ([None]) when the entry is. *)
Definition up_get (o : t) (k : Z) (i : option Z) : outcome (option Z) :=
  match aget (up o) k with
  | None => Throw
  | Some row => Ret (match i with Some i => aget row i | None => None end)
  end.

(** [this.up[k][i] = x]. *)
Definition up_set (o : t) (k i x : Z) : outcome t :=
  match aget (up o) k with
  | None => Throw
  | Some row => Ret (mk (n o) (LOG o) (aset (up o) k (aset row i x)) (depth o) (adj o))
  end.

(** [this.depth[i] = x]. *)
Definition depth_set (o : t) (i x : Z) : t :=
  mk (n o) (LOG o) (up o) (aset (depth o) i x) (adj o).

(** [for (const v of this.adj[u]) if (v !== p) { ... this.dfs(v, u); }],
    on the list [vs = this.adj[u]]; [rec] is the recursive call.  [None] when
    [this.depth[u]] is [undefined], which needs [u] outside [depth] but
    inside [adj]. *)
Fixpoint dfs_children (rec : t -> Z -> option (outcome t)) (u p : Z)
    (vs : list Z) (o : t) : option (outcome t) :=
  match vs with
  | [] => Some (Ret o)
  | v :: vs' =>
      if decide (v <> p) then
        match aget (depth o) u with
        | None => None
        | Some du =>
            match rec (depth_set o v (du + 1)) v with
            | Some (Ret o') => dfs_children rec u p vs' o'
            | r => r
            end
        end
      else dfs_children rec u p vs' o
  end.

(** [dfs(u, p)].  The fuel bounds the depth of the recursion. *)
Fixpoint dfs (fuel : nat) (o : t) (u p : Z) : option (outcome t) :=
  match fuel with
  | O => None
  | S fuel' =>
      match up_set o 0 u p with
      | Throw => Some Throw
      | Ret o =>
          match aget (adj o) u with
          | None => Some Throw
          | Some vs => dfs_children (fun o' v => dfs fuel' o' v u) u p vs o
          end
      end
  end.

(** The body of the two nested [for] loops of the constructor.  [None]
    when [undefined] would be stored in the table. *)
Definition fill_entry (k v : Z) (o : t) : option (outcome t) :=
  match up_get o (k - 1) (Some v) with
  | Throw => Some Throw
  | Ret None => None
  | Ret (Some mid) =>
      if mid =? -1 then Some (up_set o k v (-1))
      else
        match up_get o (k - 1) (Some mid) with
        | Throw => Some Throw
        | Ret None => None
        | Ret (Some x) => Some (up_set o k v x)
        end
  end.

Definition fill_level (k : Z) (o : t) : option (outcome t) :=
  for_each (seqZ 0 (n o)) (fill_entry k) o.

(** [new LCA(adj, root)].  [Math.ceil(Math.log2(x))] is taken exact
    ([Z.log2_up]). *)
Definition new (fuel : nat) (adj0 : list (list Z)) (root : Z) : option (outcome t) :=
  let n0 := Z.of_nat (length adj0) in
  let LOG0 := Z.log2_up (Z.max 2 n0) in
  let o := mk n0 LOG0
             (replicate (Z.to_nat LOG0) (replicate (Z.to_nat n0) (-1)))
             (replicate (Z.to_nat n0) 0) adj0 in
  match dfs fuel o root root with
  | Some (Ret o) => for_each (seqZ 1 (LOG o - 1)) fill_level o
  | r => r
  end.

(** [for (let k = 0; k < this.LOG; k++) if (diff & (1 << k)) u = this.up[k][u]],
    over the list [ks] of the values of [k]. *)
Fixpoint lift (o : t) (diff : option Z) (ks : list Z) (u : option Z)
  : outcome (option Z) :=
  match ks with
  | [] => Ret u
  | k :: ks' =>
      if bit_set diff k then
        match up_get o k u with
        | Throw => Throw
        | Ret u' => lift o diff ks' u'
        end
      else lift o diff ks' u
  end.

(** [for (let k = this.LOG - 1; k >= 0; k--) if (this.up[k][u] !== this.up[k][v]) { ... }]. *)
Fixpoint descend (o : t) (ks : list Z) (u v : option Z)
  : outcome (option Z * option Z) :=
  match ks with
  | [] => Ret (u, v)
  | k :: ks' =>
      match up_get o k u, up_get o k v with
      | Ret a, Ret b =>
          if decide (a <> b) then descend o ks' a b else descend o ks' u v
      | _, _ => Throw
      end
  end.

(** [query(u, v)]; the result [None] is [undefined]. *)
Definition query (o : t) (u v : Z) : outcome (option Z) :=
  let '(u, v) :=
    if js_lt (aget (depth o) u) (aget (depth o) v) then (v, u) else (u, v) in
  let diff := js_sub (aget (depth o) u) (aget (depth o) v) in
  match lift o diff (seqZ 0 (LOG o)) (Some u) with
  | Throw => Throw
  | Ret u =>
      if decide (u = Some v) then Ret u
      else
        match descend o (reverse (seqZ 0 (LOG o))) u (Some v) with
        | Throw => Throw
        | Ret (u, v) => up_get o 0 u
        end
  end.

End LCA.

(** *** Rooted trees *)

(** The nodes [S] of [adj] form a tree rooted at [root], with parent
    function [par] (the root is its own parent) and depth function [dep]:
    the list [adj[u]] of a node of [S] holds children of [u] and possibly
    the parent of [u], and every child is in the list of its parent. *)
Record rooted_tree_on (adj : list (list Z)) (root : Z) (S : Z -> bool)
    (par : Z -> Z) (dep : Z -> nat) : Prop := {
  rt_range : forall v, S v = true -> 0 <= v < Z.of_nat (length adj);
  rt_root : S root = true;
  rt_par_root : par root = root;
  rt_dep_root : dep root = O;
  rt_par : forall v, S v = true -> v <> root ->
    S (par v) = true /\ dep v = Datatypes.S (dep (par v));
  rt_adj : forall u vs v, S u = true -> aget adj u = Some vs -> v ∈ vs ->
    (u <> root /\ v = par u) \/ (S v = true /\ v <> root /\ par v = u);
  rt_child : forall v, S v = true -> v <> root ->
    exists vs, aget adj (par v) = Some vs /\ v ∈ vs
}.

(** [adj] is a valid rooted tree: all its nodes form a tree rooted at
    [root]. *)
Definition in_range (adj : list (list Z)) (v : Z) : bool :=
  (0 <=? v) && (v <? Z.of_nat (length adj)).

Definition rooted_tree (adj : list (list Z)) (root : Z)
    (par : Z -> Z) (dep : Z -> nat) : Prop :=
  rooted_tree_on adj root (in_range adj) par dep.

(** [a] is an ancestor of [v] (every node is an ancestor of itself). *)
Definition ancestor (par : Z -> Z) (a v : Z) : Prop :=
  exists j : nat, Nat.iter j par v = a.

(** [v] can be reached from [root] along the lists of [adj]. *)
Inductive reachable (adj : list (list Z)) (root : Z) : Z -> Prop :=
  | reach_root : reachable adj root root
  | reach_step u v vs :
      reachable adj root u -> aget adj u = Some vs -> v ∈ vs ->
      reachable adj root v.

(** [a] is a lowest common ancestor of [u] and [v]: an ancestor of both of
    which no proper descendant is an ancestor of both. *)
Definition lowest_common_ancestor (par : Z -> Z) (u v a : Z) : Prop :=
  ancestor par a u /\ ancestor par a v /\
  forall b, ancestor par a b -> b <> a ->
    ~ (ancestor par b u /\ ancestor par b v).

(** Two small inputs used as examples: a tree of three nodes (0 is the
    root, 1 and 2 are its children) with its parent and depth functions,
    and two nodes without any edge. *)
Definition small_tree : list (list Z) := [[1; 2]; [0]; [0]].
Definition small_par (v : Z) : Z := 0.
Definition small_dep (v : Z) : nat := if decide (v = 0) then O else 1%nat.
Definition two_isolated : list (list Z) := [[]; []].

(** *** Edges that leave the graph *)

(** The target of the edge [e = (v, w)] is a node of a graph of [n] nodes. *)
Definition known_target (n : nat) (e : Z * Z) : bool :=
  (0 <=? e.1) && (e.1 <? Z.of_nat n).

(** [adj] without the edges whose target is not one of its nodes. *)
Definition drop_unknown_targets (adj : graph) : graph :=
  filter (fun e => known_target (length adj) e) <$> adj.
(** *** A forest *)

(** The tree of three nodes and a fourth node without edges. *)
Definition small_forest : list (list Z) := [[1; 2]; [0]; [0]; []].

(** The nodes of the tree in [small_forest]. *)
Definition small_forest_nodes (v : Z) : bool := (0 <=? v) && (v <? 3).

(** *** Grids without walls *)

(** No cell of the grid is blocked. *)
Definition obstacle_free (grid : list (list Z)) : Prop :=
  Forall (Forall (fun v : Z => v <> 1)) grid.

(** ** [bfs] (LCA.ts, lines 114-132) *)

(** The array [visited]: its entries, and the indices outside the array at
    which a store has added a property (JavaScript accepts such a store, and
    a later read at the same index finds the stored value). *)
Record marks : Type := Marks { in_array : list bool; beside : list Z }.

(** The truth value of [visited[v]] ([undefined] counts as false). *)
Definition marked (m : marks) (v : Z) : bool :=
  match aget (in_array m) v with
  | Some b => b
  | None => bool_decide (v ∈ beside m)
  end.

(** [visited[v] = true]. *)
Definition mark (m : marks) (v : Z) : marks :=
  match aget (in_array m) v with
  | Some _ => Marks (aset (in_array m) v true) (beside m)
  | None => Marks (in_array m) (v :: beside m)
  end.

(** The local objects of [bfs]. *)
Record bfs_state : Type := BfsState {
  bs_visited : marks;
  bs_q : list Z;
  bs_out : list Z
}.

(** [for (const v of adj[u]) if (!visited[v]) { visited[v] = true; q.push(v); }],
    on the list [vs = adj[u]]. *)
Fixpoint bfs_visit (vs : list Z) (visited : marks) (q : list Z)
  : marks * list Z :=
  match vs with
  | [] => (visited, q)
  | v :: vs' =>
      if marked visited v then bfs_visit vs' visited q
      else bfs_visit vs' (mark visited v) (q ++ [v])
  end.

(** The [while (q.length)] loop; the value is the returned [out].  [None]:
    the fuel ran out. *)
Fixpoint bfs_loop (fuel : nat) (adj : list (list Z)) (st : bfs_state)
  : option (outcome (list Z)) :=
  match fuel with
  | O => None
  | S fuel' =>
      match bs_q st with
      | [] => Some (Ret (bs_out st))
      | u :: q =>
          let out := bs_out st ++ [u] in
          match aget adj u with
          | None => Some Throw
          | Some vs =>
              let '(visited, q) := bfs_visit vs (bs_visited st) q in
              bfs_loop fuel' adj (BfsState visited q out)
          end
      end
  end.

(** The state on entry to the loop. *)
Definition bfs_init (adj : list (list Z)) (start : Z) : bfs_state :=
  let n := length adj in
  let visited := Marks (replicate n false) [] in
  BfsState (mark visited start) [start] [].

(** [bfs(adj, start)]. *)
Definition bfs (fuel : nat) (adj : list (list Z)) (start : Z)
  : option (outcome (list Z)) :=
  bfs_loop fuel adj (bfs_init adj start).

(** *** Distances in number of edges *)

(** [hops adj s v k]: [k] edges lead from [s] to [v]. *)
Inductive hops (adj : list (list Z)) (s : Z) : Z -> nat -> Prop :=
  | hops_O : hops adj s s O
  | hops_S u v vs k :
      hops adj s u k -> aget adj u = Some vs -> v ∈ vs -> hops adj s v (S k).

(** [d] is the distance from [s] to [v]: the least number of edges. *)
Definition level (adj : list (list Z)) (s v : Z) (d : nat) : Prop :=
  hops adj s v d /\ forall k, hops adj s v k -> (d <= k)%nat.

(** [x] is not farther from [s] than [y]. *)
Definition level_le (adj : list (list Z)) (s x y : Z) : Prop :=
  forall dx dy, level adj s x dx -> level adj s y dy -> (dx <= dy)%nat.

(** ** [kruskal] (dijkstra.ts, lines 56-77) *)

(** An edge [[u, v, w]] between the nodes [u] and [v], of weight [w]. *)
Abbreviation wedge := (Z * Z * Z)%type.

Definition weight (e : wedge) : Z := e.2.

(** [edges.slice().sort((a, b) => a[2] - b[2])]: a sorted copy.  The sort
    of JavaScript is stable, so on integer weights the result is the
    arrangement by non-decreasing weight in which edges of equal weight keep
    their order; insertion from the right computes it. *)
Fixpoint insert_edge (e : wedge) (l : list wedge) : list wedge :=
  match l with
  | [] => [e]
  | y :: l' =>
      if weight e <=? weight y then e :: l else y :: insert_edge e l'
  end.

Definition sort_edges (l : list wedge) : list wedge := foldr insert_edge [] l.

(** [find(a)]: the representative of [a], with the array [parent] as the
    call leaves it.  [None]: the fuel (the depth of the recursion) ran out,
    or [a] is outside the array, a case the model leaves out. *)
Fixpoint find (fuel : nat) (parent : list Z) (a : Z) : option (list Z * Z) :=
  match fuel with
  | O => None
  | S fuel' =>
      match aget parent a with
      | None => None
      | Some p =>
          if decide (p <> a) then
            match find fuel' parent p with
            | None => None
            | Some (parent, r) =>
                let parent := aset parent a r in
                match aget parent a with
                | None => None
                | Some x => Some (parent, x)
                end
            end
          else Some (parent, p)
      end
  end.

(** [unite(a, b)]: the arrays as the call leaves them, and the returned
    boolean. *)
Definition unite (fuel : nat) (parent rank : list Z) (a b : Z)
  : option (list Z * list Z * bool) :=
  match find fuel parent a with
  | None => None
  | Some (parent, a) =>
      match find fuel parent b with
      | None => None
      | Some (parent, b) =>
          if decide (a = b) then Some (parent, rank, false)
          else
            match aget rank a, aget rank b with
            | Some ra, Some rb =>
                let '(a, b) := if ra <? rb then (b, a) else (a, b) in
                let parent := aset parent b a in
                match aget rank a, aget rank b with
                | Some ra, Some rb =>
                    let rank := if ra =? rb then aset rank a (ra + 1) else rank in
                    Some (parent, rank, true)
                | _, _ => None
                end
            | _, _ => None
            end
      end
  end.

(** [for (const e of edges) if (unite(e[0], e[1])) mst.push(e);]. *)
Fixpoint kruskal_loop (fuel : nat) (es : list wedge) (parent rank : list Z)
    (mst : list wedge) : option (list wedge) :=
  match es with
  | [] => Some mst
  | e :: es' =>
      match unite fuel parent rank e.1.1 e.1.2 with
      | None => None
      | Some (parent, rank, true) => kruskal_loop fuel es' parent rank (mst ++ [e])
      | Some (parent, rank, false) => kruskal_loop fuel es' parent rank mst
      end
  end.

(** [kruskal(n, edges)].  [new Array(n)] throws a [RangeError] unless [n] is
    a valid array length. *)
Definition kruskal (fuel : nat) (n : Z) (edges : list wedge)
  : option (outcome (list wedge)) :=
  let edges := sort_edges edges in
  if (n <? 0) || (2 ^ 32 <=? n) then Some Throw
  else
    let parent := seqZ 0 n in
    let rank := replicate (Z.to_nat n) 0 in
    match kruskal_loop fuel edges parent rank [] with
    | Some mst => Some (Ret mst)
    | None => None
    end.

(** *** Spanning forests *)

(** An edge of [es] joins [u] and [v], in either direction. *)
Definition joins (es : list wedge) (u v : Z) : Prop :=
  exists w, (u, v, w) ∈ es \/ (v, u, w) ∈ es.

(** [u] and [v] are connected by edges of [es]. *)
Inductive connected (es : list wedge) (u : Z) : Z -> Prop :=
  | conn_refl : connected es u u
  | conn_step v x : connected es u v -> joins es v x -> connected es u x.

(** The ends of every edge are nodes of a graph of [n] nodes. *)
Definition ends_in_range (n : Z) (es : list wedge) : Prop :=
  Forall (fun e : wedge => 0 <= e.1.1 < n /\ 0 <= e.1.2 < n) es.

(** [es] has no cycle: taking any one edge out disconnects its ends. *)
Definition acyclic (es : list wedge) : Prop :=
  forall (i : nat) (e : wedge), es !! i = Some e ->
    ~ connected (delete i es) e.1.1 e.1.2.

(** The sum of the weights. *)
Definition total_weight (es : list wedge) : Z :=
  foldr (fun e s => weight e + s) 0 es.

(** ** [quickSort] (LCA.ts, lines 92-112) *)

(** The values of [Math.random()]: the call number [k] returns the fraction
    [p / q] where [(p, q) = rnd k]; it lies in [[0, 1)] when [0 <= p < q].
    The product with [r - l + 1] is taken exact. *)
Abbreviation randoms := (nat -> Z * Z).

(** [while (a[i] < pivot) i++]: the final [i].  A comparison with
    [undefined] is false, so the loop stops outside the array.  [None]: the
    fuel ran out. *)
Fixpoint scan_up (fuel : nat) (a : list Z) (pivot i : Z) : option Z :=
  match fuel with
  | O => None
  | S fuel' =>
      match aget a i with
      | Some x => if x <? pivot then scan_up fuel' a pivot (i + 1) else Some i
      | None => Some i
      end
  end.

(** [while (a[j] > pivot) j--]: the final [j]. *)
Fixpoint scan_down (fuel : nat) (a : list Z) (pivot j : Z) : option Z :=
  match fuel with
  | O => None
  | S fuel' =>
      match aget a j with
      | Some x => if x >? pivot then scan_down fuel' a pivot (j - 1) else Some j
      | None => Some j
      end
  end.

(** The [while (i <= j)] loop of [qs]: the array and the final [i] and [j].
    [None]: the fuel ran out, or the exchange reads outside the array (it
    would store [undefined]), a case the model leaves out. *)
Fixpoint partition (fuel : nat) (a : list Z) (pivot i j : Z)
  : option (list Z * Z * Z) :=
  match fuel with
  | O => None
  | S fuel' =>
      if i <=? j then
        match scan_up fuel' a pivot i with
        | None => None
        | Some i =>
            match scan_down fuel' a pivot j with
            | None => None
            | Some j =>
                if i <=? j then
                  match aget a i, aget a j with
                  | Some tmp, Some y =>
                      let a := aset a i y in
                      let a := aset a j tmp in
                      partition fuel' a pivot (i + 1) (j - 1)
                  | _, _ => None
                  end
                else partition fuel' a pivot i j
            end
        end
      else Some (a, i, j)
  end.

(** [qs(l, r)]: the array, and the number of calls of [Math.random] so far.
    [None]: the fuel ran out, or the pivot is read outside the array. *)
Fixpoint qs (fuel : nat) (rnd : randoms) (a : list Z) (k : nat) (l r : Z)
  : option (list Z * nat) :=
  match fuel with
  | O => None
  | S fuel' =>
      if l >=? r then Some (a, k)
      else
        let pivotIdx := l + ((rnd k).1 * (r - l + 1)) / (rnd k).2 in
        match aget a pivotIdx with
        | None => None
        | Some pivot =>
            match partition fuel' a pivot l r with
            | None => None
            | Some (a, i, j) =>
                match (if l <? j then qs fuel' rnd a (S k) l j
                       else Some (a, S k)) with
                | None => None
                | Some (a, k) =>
                    if i <? r then qs fuel' rnd a k i r else Some (a, k)
                end
            end
        end
  end.

(** [quickSort(arr)]: the sorted copy. *)
Definition quickSort (fuel : nat) (rnd : randoms) (arr : list Z)
  : option (list Z) :=
  match qs fuel rnd arr O 0 (Z.of_nat (length arr) - 1) with
  | Some (a, _) => Some a
  | None => None
  end.

(** Every value of [Math.random()] lies in [[0, 1)]. *)
Definition unit_interval (rnd : randoms) : Prop :=
  forall k, 0 <= (rnd k).1 < (rnd k).2.

(** ** [dfs] (dfs.ts, lines 2-13) *)

(** [for (const v of adj[u]) if (!visited[v]) go(v);] on the list
    [vs = adj[u]]; [rec] is the recursive call.  The state is the pair of
    [visited] and [out]. *)
Fixpoint dfs_for (rec : marks * list Z -> Z -> option (outcome (marks * list Z)))
    (vs : list Z) (st : marks * list Z) : option (outcome (marks * list Z)) :=
  match vs with
  | [] => Some (Ret st)
  | v :: vs' =>
      if marked st.1 v then dfs_for rec vs' st
      else
        match rec st v with
        | Some (Ret st') => dfs_for rec vs' st'
        | r => r
        end
  end.

(** [go(u)].  The fuel bounds the depth of the recursion. *)
Fixpoint dfs_go (fuel : nat) (adj : list (list Z)) (st : marks * list Z) (u : Z)
  : option (outcome (marks * list Z)) :=
  match fuel with
  | O => None
  | S fuel' =>
      let visited := mark st.1 u in
      let out := st.2 ++ [u] in
      match aget adj u with
      | None => Some Throw
      | Some vs => dfs_for (dfs_go fuel' adj) vs (visited, out)
      end
  end.

(** [dfs(adj, start)]. *)
Definition dfs (fuel : nat) (adj : list (list Z)) (start : Z)
  : option (outcome (list Z)) :=
  let n := length adj in
  let visited := Marks (replicate n false) [] in
  match dfs_go fuel adj (visited, []) start with
  | Some (Ret st) => Some (Ret st.2)
  | Some Throw => Some Throw
  | None => None
  end.

(** ** [gcd] (gcd.ts, lines 2-10) *)

(** The [while (b !== 0)] loop; [%] on numbers is the remainder of the
    truncating division.  [None]: the fuel ran out. *)
Fixpoint gcd_loop (fuel : nat) (a b : Z) : option Z :=
  match fuel with
  | O => None
  | S fuel' =>
      if negb (b =? 0) then
        let t := Z.rem a b in
        gcd_loop fuel' b t
      else Some a
  end.

(** [gcd(a, b)], on integers. *)
Definition gcd (fuel : nat) (a b : Z) : option Z :=
  gcd_loop fuel (Z.abs a) (Z.abs b).

(** ** [binPow] (binPow.ts, lines 2-16) *)

(** An integer as a [number] or as a [bigint]. *)
Inductive jsint : Type :=
  | Number (z : Z)
  | BigInt (z : Z).

(** The integer a value stands for. *)
Definition int_of (v : jsint) : Z :=
  match v with
  | Number z => z
  | BigInt z => z
  end.

(** The [while (e > 0)] loop, on [bigint] values.  [None]: the fuel ran
    out. *)
Fixpoint binPow_loop (fuel : nat) (b e res : Z) : option Z :=
  match fuel with
  | O => None
  | S fuel' =>
      if e >? 0 then
        let res := if negb (Z.land e 1 =? 0) then res * b else res in
        binPow_loop fuel' (b * b) (Z.shiftr e 1) res
      else Some res
  end.

(** [Number.MAX_SAFE_INTEGER]. *)
Definition MAX_SAFE_INTEGER : Z := 2 ^ 53 - 1.

(** [binPow(base, exp)] for an integer [base] (a [number] or a [bigint])
    and an integer [exp].  [Number(res)] is finite and at most
    [MAX_SAFE_INTEGER] in absolute value exactly when [res] is. *)
Definition binPow (fuel : nat) (base : jsint) (exp : Z) : option jsint :=
  match binPow_loop fuel (int_of base) exp 1 with
  | None => None
  | Some res =>
      match base with
      | Number _ =>
          if Z.abs res <=? MAX_SAFE_INTEGER then Some (Number res)
          else Some (BigInt res)
      | BigInt _ => Some (BigInt res)
      end
  end.

(** ** [binarySearch] (binarySearch.ts, lines 3-13) *)

(** [a >> k], on 32-bit integers. *)
Definition js_shr (a k : Z) : Z := Z.shiftr (int32 a) (k mod 32).

(** The [while (lo <= hi)] loop.  An entry outside the array is
    [undefined], which is neither equal to nor below the target.  [None]:
    the fuel ran out. *)
Fixpoint binarySearch_loop (fuel : nat) (arr : list Z) (target lo hi : Z)
  : option Z :=
  match fuel with
  | O => None
  | S fuel' =>
      if lo <=? hi then
        let mid := js_shr (lo + hi) 1 in
        match aget arr mid with
        | Some v =>
            if v =? target then Some mid
            else if v <? target then binarySearch_loop fuel' arr target (mid + 1) hi
            else binarySearch_loop fuel' arr target lo (mid - 1)
        | None => binarySearch_loop fuel' arr target lo (mid - 1)
        end
      else Some (-1)
  end.

(** [binarySearch(arr, target)]. *)
Definition binarySearch (fuel : nat) (arr : list Z) (target : Z) : option Z :=
  binarySearch_loop fuel arr target 0 (Z.of_nat (length arr) - 1).

(** ** [mergeSort] (dfs.ts, lines 39-53) *)

(** [while (i < left.length && j < right.length) { ... }]: the final [i],
    [j] and [out].  [None]: the fuel ran out. *)
Fixpoint merge_loop (fuel : nat) (left right : list Z) (i j : nat)
    (out : list Z) : option (nat * nat * list Z) :=
  match fuel with
  | O => None
  | S fuel' =>
      if (i <? length left)%nat && (j <? length right)%nat then
        match left !! i, right !! j with
        | Some x, Some y =>
            if x <=? y then merge_loop fuel' left right (S i) j (out ++ [x])
            else merge_loop fuel' left right i (S j) (out ++ [y])
        | _, _ => None
        end
      else Some (i, j, out)
  end.

(** [while (i < l.length) out.push(l[i++])]. *)
Fixpoint copy_loop (fuel : nat) (l : list Z) (i : nat) (out : list Z)
  : option (nat * list Z) :=
  match fuel with
  | O => None
  | S fuel' =>
      if (i <? length l)%nat then
        match l !! i with
        | Some x => copy_loop fuel' l (S i) (out ++ [x])
        | None => None
        end
      else Some (i, out)
  end.

(** [mergeSort(arr)].  The fuel bounds the depth of the recursion and the
    rounds of each loop. *)
Fixpoint mergeSort (fuel : nat) (arr : list Z) : option (list Z) :=
  match fuel with
  | O => None
  | S fuel' =>
      if (length arr <=? 1)%nat then Some arr
      else
        let mid := (length arr / 2)%nat in
        match mergeSort fuel' (take mid arr) with
        | None => None
        | Some left' =>
            match mergeSort fuel' (drop mid arr) with
            | None => None
            | Some right' =>
                match merge_loop fuel' left' right' 0 0 [] with
                | None => None
                | Some (i, j, out) =>
                    match copy_loop fuel' left' i out with
                    | None => None
                    | Some (_, out) =>
                        match copy_loop fuel' right' j out with
                        | None => None
                        | Some (_, out) => Some out
                        end
                    end
                end
            end
        end
  end.

(** ** [knapsack] (knapsack.ts, lines 2-11) *)

(** [for (let w = W; w >= wt; w--) dp[w] = Math.max(dp[w], dp[w - wt] + v)],
    from the current [w], with [k] rounds to go.  The values, the weights
    and [W] are integers; the sum is the sum of doubles.  [None]: the code
    stores a value that is not a finite number, which the model leaves
    out: [NaN] when an operand is [undefined] (this needs a negative
    weight), or an infinity when the sum is beyond the finite doubles. *)
Fixpoint knapsack_row (k : nat) (dp : list Z) (wt v w : Z) : option (list Z) :=
  match k with
  | O => Some dp
  | S k' =>
      match aget dp w, aget dp (w - wt) with
      | Some a, Some b =>
          match double_add b v with
          | Some (Fin s) =>
              knapsack_row k' (aset dp w (Z.max a s)) wt v (w - 1)
          | _ => None
          end
      | _, _ => None
      end
  end.

(** The body of [for (let i = 0; i < n; i++)]: the inner loop runs from
    [W] down to [weights[i]], and not at all when [weights[i]] is
    [undefined] or above [W]. *)
Definition knapsack_item (values weights : list Z) (W : Z) (dp : list Z)
    (i : nat) : option (list Z) :=
  match values !! i, weights !! i with
  | Some v, Some wt => knapsack_row (Z.to_nat (W - wt + 1)) dp wt v W
  | _, _ => Some dp
  end.

(** The outer loop, from item [i], with [k] items to go. *)
Fixpoint knapsack_items (k : nat) (values weights : list Z) (W : Z)
    (dp : list Z) (i : nat) : option (list Z) :=
  match k with
  | O => Some dp
  | S k' =>
      match knapsack_item values weights W dp i with
      | Some dp => knapsack_items k' values weights W dp (S i)
      | None => None
      end
  end.

(** [knapsack(values, weights, W)] for an integer [W]: the returned
    [dp[W]] ([undefined] is [Ret None]).  [new Array(W + 1)] throws a
    [RangeError] unless [W + 1] is a valid array length.  The outer [None]:
    the run left the model. *)
Definition knapsack (values weights : list Z) (W : Z)
  : option (outcome (option Z)) :=
  if (W + 1 <? 0) || (2 ^ 32 <=? W + 1) then Some Throw
  else
    let n := length values in
    let dp := replicate (Z.to_nat (W + 1)) 0 in
    match knapsack_items n values weights W dp 0 with
    | Some dp => Some (Ret (aget dp W))
    | None => None
    end.

(** *** Selections of items *)

(** The sum of the entries of [xs] at the indices below [i] that [sel]
    selects. *)
Fixpoint selected_sum (xs : list Z) (sel : nat -> bool) (i : nat) : Z :=
  match i with
  | O => 0
  | S i' =>
      selected_sum xs sel i' + (if sel i' then default 0 (xs !! i') else 0)
  end.

(** The best value of a selection among the first [i] items whose weight
    is at most [c]. *)
Fixpoint best_value (values weights : list Z) (i : nat) (c : Z) : Z :=
  match i with
  | O => 0
  | S i' =>
      let skip := best_value values weights i' c in
      match values !! i', weights !! i' with
      | Some v, Some wt =>
          if wt <=? c then Z.max skip (best_value values weights i' (c - wt) + v)
          else skip
      | _, _ => skip
      end
  end.

(** The sum of the magnitudes of the entries of [xs]. *)
Fixpoint total_abs (xs : list Z) : Z :=
  match xs with
  | [] => 0
  | x :: xs' => Z.abs x + total_abs xs'
  end.
(** ** [topologicalSort] (binarySearch.ts, lines 15-32) *)

(** [indeg[v] += d].  At an index outside the array the sum is [NaN]
    ([undefined + d]) and the store keeps it beside the entries of the
    array, which stay as they are; no later test [indeg[v] === 0] holds
    of it. *)
Definition add_at (indeg : list Z) (v d : Z) : list Z :=
  match aget indeg v with
  | Some x => aset indeg v (x + d)
  | None => indeg
  end.

(** [for (const v of adj[u]) indeg[v]++], on the list [vs = adj[u]]. *)
Fixpoint count_targets (vs : list Z) (indeg : list Z) : list Z :=
  match vs with
  | [] => indeg
  | v :: vs' => count_targets vs' (add_at indeg v 1)
  end.

(** [for (let u = 0; u < n; u++) for (const v of adj[u]) indeg[v]++], on the
    lists of [adj] that are left. *)
Fixpoint in_degrees (rows : list (list Z)) (indeg : list Z) : list Z :=
  match rows with
  | [] => indeg
  | vs :: rows' => in_degrees rows' (count_targets vs indeg)
  end.

(** [for (let i = 0; i < n; i++) if (indeg[i] === 0) q.push(i)]. *)
Definition sources (n : nat) (indeg : list Z) : list Z :=
  filter (fun i => aget indeg i = Some 0) (seqZ 0 (Z.of_nat n)).

(** [for (const v of adj[u]) { indeg[v]--; if (indeg[v] === 0) q.push(v); }],
    on the list [vs = adj[u]]. *)
Fixpoint release (vs : list Z) (indeg q : list Z) : list Z * list Z :=
  match vs with
  | [] => (indeg, q)
  | v :: vs' =>
      let indeg := add_at indeg v (-1) in
      release vs' indeg
        (if bool_decide (aget indeg v = Some 0) then q ++ [v] else q)
  end.

(** The [while (q.length)] loop; the value is [order] at its end.  [None]:
    the fuel ran out. *)
Fixpoint topo_loop (fuel : nat) (adj : list (list Z)) (indeg q order : list Z)
  : option (outcome (list Z)) :=
  match fuel with
  | O => None
  | S fuel' =>
      match q with
      | [] => Some (Ret order)
      | u :: q =>
          let order := order ++ [u] in
          match aget adj u with
          | None => Some Throw
          | Some vs =>
              let '(indeg, q) := release vs indeg q in
              topo_loop fuel' adj indeg q order
          end
      end
  end.

(** [topologicalSort(adj)]; [Ret None] is the result [null]. *)
Definition topologicalSort (fuel : nat) (adj : list (list Z))
  : option (outcome (option (list Z))) :=
  let n := length adj in
  let indeg := in_degrees adj (replicate n 0) in
  match topo_loop fuel adj indeg (sources n indeg) [] with
  | None => None
  | Some Throw => Some Throw
  | Some (Ret order) =>
      Some (Ret (if bool_decide (length order = n) then Some order else None))
  end.

(** [order] lists every node of the graph once, and each edge of the graph
    leads from a node to a node that is listed later. *)
Definition topological (adj : list (list Z)) (order : list Z) : Prop :=
  order ≡ₚ seqZ 0 (Z.of_nat (length adj)) /\
  forall i j u v vs,
    order !! i = Some u -> order !! j = Some v ->
    aget adj u = Some vs -> v ∈ vs -> (i < j)%nat.
(** ** [kmpSearch] (dfs.ts, lines 16-37) *)

(** A string is the list of its code units: [s !! i] is [s[i]], and [None]
    is the [undefined] of an index outside the string.  The indices [i] and
    [j] and the entries of [pi] are counts. *)
Section kmp.
Context {A : Type} `{EqDecision A}.

(** [while (j > 0 && c !== pattern[j]) j = pi[j - 1]].  [None]: the fuel ran
    out, or an entry of [pi] is missing. *)
Fixpoint fall_back (fuel : nat) (pi : list nat) (pattern : list A)
    (c : option A) (j : nat) : option nat :=
  match j with
  | O => Some O
  | S j' =>
      if decide (c = pattern !! j) then Some j
      else
        match fuel, pi !! j' with
        | S fuel', Some k => fall_back fuel' pi pattern c k
        | _, _ => None
        end
  end.

(** The [while] loop, then [if (c === pattern[j]) j++]. *)
Definition advance (pi : list nat) (pattern : list A) (c : option A) (j : nat)
  : option nat :=
  match fall_back j pi pattern c j with
  | Some j => Some (if decide (c = pattern !! j) then S j else j)
  | None => None
  end.

(** [k] rounds of [for (let i = 1; i < m; i++)], from [i] on. *)
Fixpoint prefix_loop (k : nat) (pattern : list A) (pi : list nat) (i : nat)
  : option (list nat) :=
  match k with
  | O => Some pi
  | S k' =>
      match pi !! (i - 1)%nat with
      | Some j =>
          match advance pi pattern (pattern !! i) j with
          | Some j => prefix_loop k' pattern (<[i := j]> pi) (S i)
          | None => None
          end
      | None => None
      end
  end.

(** The array [pi] of a pattern that is not empty. *)
Definition prefix_function (pattern : list A) : option (list nat) :=
  let m := length pattern in
  prefix_loop (m - 1) pattern (replicate m 0%nat) 1.

(** [k] rounds of [for (let i = 0; i < n; i++)], from [i] on. *)
Fixpoint search_loop (k : nat) (text pattern : list A) (pi : list nat)
    (i j : nat) (results : list Z) : option (list Z) :=
  match k with
  | O => Some results
  | S k' =>
      match advance pi pattern (text !! i) j with
      | Some j =>
          if decide (j = length pattern) then
            match pi !! (j - 1)%nat with
            | Some j' =>
                search_loop k' text pattern pi (S i) j'
                  (results ++ [Z.of_nat i - Z.of_nat (length pattern) + 1])
            | None => None
            end
          else search_loop k' text pattern pi (S i) j results
      | None => None
      end
  end.

(** [kmpSearch(text, pattern)]. *)
Definition kmpSearch (text pattern : list A) : option (list Z) :=
  let n := length text in
  let m := length pattern in
  if decide (m = 0%nat) then Some []
  else
    match prefix_function pattern with
    | Some pi => search_loop n text pattern pi 0 0 []
    | None => None
    end.
End kmp.
(** ** [isPowerOfTwo] (knapsack.ts, lines 26-28) *)

(** [(n & (n - 1)) === 0], the test [fft] makes of the length of its
    input. *)
Definition isPowerOfTwo (n : Z) : bool := js_and n (n - 1) =? 0.
(** ** The programs on a store of objects

    Which arrays a run stores into, and what a second run finds, is about
    the identity of objects.  For these properties the programs are
    embedded a second time, on a store of objects.  Every array, [Map] and
    object of a run lives in the store under a reference; [new], an array
    literal and an object literal add an object; an assignment to an
    element or to a property, [push], [pop], [reverse], [set] and [delete]
    replace the object at the reference they are applied to.

    The numbers are integers and [Infinity], as before.  A run is stuck
    ([None]) where it leaves these values: at an integer above [2 ^ 53]
    used as an index or in a key, at [-Infinity], at a method of arrays
    applied to what is not an array. *)
Module Mem.

(** A reference to an object. *)
Abbreviation ref := nat.

(** The values: numbers ([NaN] apart), strings, [null], [undefined], and
    references to objects. *)
Inductive value : Type :=
  | VNum (x : num)
  | VNaN
  | VStr (s : string)
  | VNull
  | VUndef
  | VRef (r : ref).

Global Instance value_eq_dec : EqDecision value.
Proof. solve_decision. Defined.

(** An array with its elements, in order, and its named properties; an
    object that is not an array, with its properties; or a [Map] with its
    entries in insertion order. *)
Inductive object : Type :=
  | Arr (elems : list value) (props : jsmap value)
  | Obj (props : jsmap value)
  | OMap (entries : jsmap value).

Abbreviation store := (list object).

Definition elems (o : object) : list value :=
  match o with
  | Arr es _ => es
  | Obj _ | OMap _ => []
  end.

Definition props (o : object) : jsmap value :=
  match o with
  | Arr _ ps | Obj ps => ps
  | OMap _ => []
  end.

Definition entries (o : object) : jsmap value :=
  match o with
  | Arr _ _ | Obj _ => []
  | OMap m => m
  end.

(** *** Runs

    A run takes the store and gives the store back with how it ended: a
    value, an exception ([Throw]), or [None]: the fuel ran out, or the run
    met a value that the model does not cover. *)
Definition M (A : Type) : Type := store -> option (outcome A) * store.

Definition ret {A : Type} (a : A) : M A := fun s => (Some (Ret a), s).

Definition throw {A : Type} : M A := fun s => (Some Throw, s).

Definition stuck {A : Type} : M A := fun s => (None, s).

Definition bind {A B : Type} (m : M A) (f : A -> M B) : M B :=
  fun s =>
    match m s with
    | (Some (Ret a), s') => f a s'
    | (Some Throw, s') => (Some Throw, s')
    | (None, s') => (None, s')
    end.

Notation "'let*' x ':=' m 'in' f" := (bind m (fun x => f))
  (at level 10, x pattern, f at level 200, only parsing).

(** A new object: it gets the next reference. *)
Definition alloc (o : object) : M value :=
  fun s => (Some (Ret (VRef (length s))), s ++ [o]).

(** The object behind a value, for an access to an element or a property:
    a [TypeError] on [undefined] and [null]. *)
Definition deref (v : value) : M (ref * object) :=
  fun s =>
    match v with
    | VRef r =>
        match s !! r with
        | Some o => (Some (Ret (r, o)), s)
        | None => (None, s)
        end
    | VUndef | VNull => (Some Throw, s)
    | _ => (None, s)
    end.

(** The store proper: the object at [r] is replaced. *)
Definition put (r : ref) (o : object) : M unit :=
  fun s => (Some (Ret tt), <[r := o]> s).

(** *** Elements and properties *)

(** [o[i]] for an integer [i]: the element, or the property of this
    name. *)
Definition read_index (o : object) (i : Z) : value :=
  match aget (elems o) i with
  | Some v => v
  | None => default VUndef (map_get (props o) (number_to_string i))
  end.

(** [o.k]. *)
Definition read_prop (o : object) (k : string) : value :=
  default VUndef (map_get (props o) k).

(** [o[i] = x] for an integer [i].  In an array: inside the array the
    element changes; from the length on the array grows up to [i] (the
    holes read as [undefined]); any other [i] names a property.  In
    another object [i] names a property. *)
Definition write_index (o : object) (i : Z) (x : value) : object :=
  match o with
  | Arr es ps =>
      if (0 <=? i) && (i <? Z.of_nat (length es)) then Arr (aset es i x) ps
      else if (0 <=? i) && (i <? 2 ^ 32 - 1) then
        Arr (es ++ replicate (Z.to_nat i - length es) VUndef ++ [x]) ps
      else Arr es (map_set ps (number_to_string i) x)
  | Obj ps => Obj (map_set ps (number_to_string i) x)
  | OMap m => OMap m
  end.

(** [a[i]], for a key [i] that is [undefined] or an integer of magnitude up
    to [2 ^ 53] (the integers whose name as a property is their decimal
    numeral). *)
Definition get (a i : value) : M value :=
  let* (_, o) := deref a in
  match i with
  | VNum (Fin z) =>
      if Z.abs z <=? 2 ^ 53 then ret (read_index o z) else stuck
  | VUndef => ret (read_prop o "undefined")
  | _ => stuck
  end.

(** [a.k]. *)
Definition prop (a : value) (k : string) : M value :=
  let* (_, o) := deref a in ret (read_prop o k).

(** [a[i] = x], for an integer [i] of magnitude up to [2 ^ 53] and an
    object that is not a [Map]. *)
Definition set (a i x : value) : M unit :=
  let* (r, o) := deref a in
  match i, o with
  | VNum (Fin z), (Arr _ _ | Obj _) =>
      if Z.abs z <=? 2 ^ 53 then put r (write_index o z x) else stuck
  | _, _ => stuck
  end.

(** [a.length], [a.push(x)], [a.pop()] and [a.reverse()] on an array. *)
Definition length_of (a : value) : M Z :=
  let* (_, o) := deref a in
  match o with
  | Arr es _ => ret (Z.of_nat (length es))
  | _ => stuck
  end.

Definition array_push (a x : value) : M unit :=
  let* (r, o) := deref a in
  match o with
  | Arr es ps => put r (Arr (es ++ [x]) ps)
  | _ => stuck
  end.

Definition array_pop (a : value) : M value :=
  let* (r, o) := deref a in
  match o with
  | Arr es ps =>
      match list.last es with
      | Some x => let* _ := put r (Arr (removelast es) ps) in ret x
      | None => ret VUndef
      end
  | _ => stuck
  end.

Definition array_reverse (a : value) : M unit :=
  let* (r, o) := deref a in
  match o with
  | Arr es ps => put r (Arr (rev es) ps)
  | _ => stuck
  end.

(** [const [x, y] = e], for an array [e]: its first two elements, with
    [undefined] for a missing one. *)
Definition pair_of (e : value) : M (value * value) :=
  let* (_, o) := deref e in
  match o with
  | Arr es _ => ret (nth 0 es VUndef, nth 1 es VUndef)
  | _ => stuck
  end.

(** [for (const e of a) body], from the index [i] on, for an array [a]: in
    each round the iterator of the array compares the index with the
    length that the array has then, and reads the element that the array
    has then. *)
Fixpoint for_of (fuel : nat) (a : value) (i : Z) (body : value -> M unit)
  : M unit :=
  match fuel with
  | O => stuck
  | S fuel' =>
      let* n := length_of a in
      if i <? n then
        let* e := get a (VNum (Fin i)) in
        let* _ := body e in
        for_of fuel' a (i + 1) body
      else ret tt
  end.

(** [m.size], [m.get(k)], [m.set(k, x)] and [m.delete(k)] on a [Map]. *)
Definition map_size (m : value) : M Z :=
  let* (_, o) := deref m in
  match o with
  | OMap es => ret (Z.of_nat (length es))
  | _ => stuck
  end.

Definition map_lookup (m : value) (k : string) : M value :=
  let* (_, o) := deref m in
  match o with
  | OMap es => ret (default VUndef (map_get es k))
  | _ => stuck
  end.

Definition map_store (m : value) (k : string) (x : value) : M unit :=
  let* (r, o) := deref m in
  match o with
  | OMap es => put r (OMap (map_set es k x))
  | _ => stuck
  end.

Definition map_remove (m : value) (k : string) : M unit :=
  let* (r, o) := deref m in
  match o with
  | OMap es => put r (OMap (map_delete es k))
  | _ => stuck
  end.

(** *** Numbers *)

(** [a < b] on numbers and [undefined]; a comparison with [NaN] or
    [undefined] is [false].  [None]: not a comparison of numbers. *)
Definition v_lt (a b : value) : option bool :=
  match a, b with
  | VNum x, VNum y => Some (num_ltb x y)
  | VNum _, (VNaN | VUndef)
  | (VNaN | VUndef), (VNum _ | VNaN | VUndef) => Some false
  | _, _ => None
  end.

(** [a <= b], likewise. *)
Definition v_le (a b : value) : option bool :=
  match a, b with
  | VNum x, VNum y => Some (num_leb x y)
  | VNum _, (VNaN | VUndef)
  | (VNaN | VUndef), (VNum _ | VNaN | VUndef) => Some false
  | _, _ => None
  end.

(** [a === b]: [NaN] is not equal to itself, and two references are equal
    when they are the same. *)
Definition v_eq (a b : value) : bool :=
  match a, b with
  | VNaN, _ | _, VNaN => false
  | _, _ => bool_decide (a = b)
  end.

(** [a + b] on numbers and [undefined]: the sum of doubles.  It is stuck
    on [-Infinity] and on what is not a number. *)
Definition v_add (a b : value) : M value :=
  match a, b with
  | VNum (Fin x), VNum (Fin y) =>
      match double_add x y with
      | Some s => ret (VNum s)
      | None => stuck
      end
  | VNum _, VNum _ => ret (VNum Inf)
  | VNum _, (VNaN | VUndef)
  | (VNaN | VUndef), (VNum _ | VNaN | VUndef) => ret VNaN
  | _, _ => stuck
  end.

(** A value that has to be an integer. *)
Definition as_int (v : value) : M Z :=
  match v with
  | VNum (Fin z) => ret z
  | _ => stuck
  end.

(** A finite sum or difference of two integers, as doubles. *)
Definition int_add (x y : Z) : M Z :=
  match double_add x y with
  | Some (Fin s) => ret s
  | _ => stuck
  end.

(** *** [class MinHeap] (dijkstra.ts, lines 2-34)

    [this] is the object with the property [data]; an entry is an object
    with the properties [key] and [val]. *)

(** [a[i].key]. *)
Definition key_at (a : value) (i : Z) : M value :=
  let* e := get a (VNum (Fin i)) in prop e "key".

(** [[a[i], a[j]] = [a[j], a[i]]]: the right-hand side is a new array, and
    the two elements are stored from it. *)
Definition swap (a : value) (i j : Z) : M unit :=
  let* x := get a (VNum (Fin j)) in
  let* y := get a (VNum (Fin i)) in
  let* _ := alloc (Arr [x; y] []) in
  let* _ := set a (VNum (Fin i)) x in
  set a (VNum (Fin j)) y.

(** [size()]. *)
Definition size (this : value) : M Z :=
  let* d := prop this "data" in length_of d.

(** The [while (i > 0)] loop of [push]. *)
Fixpoint sift_up (fuel : nat) (this : value) (i : Z) : M unit :=
  match fuel with
  | O => stuck
  | S fuel' =>
      if 0 <? i then
        let p := js_shr (i - 1) 1 in
        let* d := prop this "data" in
        let* kp := key_at d p in
        let* ki := key_at d i in
        match v_le kp ki with
        | None => stuck
        | Some true => ret tt
        | Some false =>
            let* _ := swap d p i in
            sift_up fuel' this p
        end
      else ret tt
  end.

(** [push(key, val)]. *)
Definition push (fuel : nat) (this key val : value) : M unit :=
  let* d := prop this "data" in
  let* e := alloc (Obj [("key"%string, key); ("val"%string, val)]) in
  let* _ := array_push d e in
  let* n := length_of d in
  sift_up fuel this (n - 1).

(** [if (c < this.data.length && this.data[c].key < this.data[smallest].key)
    smallest = c]: the new [smallest]. *)
Definition pick (d : value) (n c smallest : Z) : M Z :=
  if c <? n then
    let* kc := key_at d c in
    let* ks := key_at d smallest in
    match v_lt kc ks with
    | None => stuck
    | Some true => ret c
    | Some false => ret smallest
    end
  else ret smallest.

(** The [while (true)] loop of [pop]. *)
Fixpoint sift_down (fuel : nat) (this : value) (i : Z) : M unit :=
  match fuel with
  | O => stuck
  | S fuel' =>
      let l := i * 2 + 1 in
      let r := i * 2 + 2 in
      let* d := prop this "data" in
      let* n := length_of d in
      let* smallest := pick d n l i in
      let* smallest := pick d n r smallest in
      if smallest =? i then ret tt
      else
        let* _ := swap d i smallest in
        sift_down fuel' this smallest
  end.

(** [pop()]. *)
Definition pop (fuel : nat) (this : value) : M value :=
  let* d := prop this "data" in
  let* n := length_of d in
  if n =? 0 then ret VNull
  else
    let* res := get d (VNum (Fin 0)) in
    let* last := array_pop d in
    let* n := length_of d in
    if 0 <? n then
      let* _ := set d (VNum (Fin 0)) last in
      let* _ := sift_down fuel this 0 in
      ret res
    else ret res.

(** *** [dijkstra] (dijkstra.ts, lines 35-54) *)

(** The body of [for (const [v, w] of adj[u])], on the element [e] of
    [adj[u]]: [if (dist[v] > dist[u] + w) { dist[v] = dist[u] + w;
    pq.push(dist[v], v); }]. *)
Definition relax (fuel : nat) (dist pq u : value) (e : value) : M unit :=
  let* (v, w) := pair_of e in
  let* dv := get dist v in
  let* du := get dist u in
  let* s := v_add du w in
  match v_lt s dv with
  | None => stuck
  | Some true =>
      let* du := get dist u in
      let* s := v_add du w in
      let* _ := set dist v s in
      let* dv := get dist v in
      push fuel pq dv v
  | Some false => ret tt
  end.

(** The [while (pq.size())] loop. *)
Fixpoint loop (fuel : nat) (adj dist pq : value) : M unit :=
  match fuel with
  | O => stuck
  | S fuel' =>
      let* n := size pq in
      if n =? 0 then ret tt
      else
        let* cur := pop fuel' pq in
        let* u := prop cur "val" in
        let* d := prop cur "key" in
        let* du := get dist u in
        match v_lt du d with
        | None => stuck
        | Some true => loop fuel' adj dist pq
        | Some false =>
            let* row := get adj u in
            let* _ := for_of fuel' row 0 (relax fuel' dist pq u) in
            loop fuel' adj dist pq
        end
  end.

(** [dijkstra(adj, src)], for a reference [adj] and an integer [src]. *)
Definition dijkstra (fuel : nat) (adj : value) (src : Z) : M value :=
  let* n := length_of adj in
  let* dist := alloc (Arr (replicate (Z.to_nat n) (VNum Inf)) []) in
  let* _ := set dist (VNum (Fin src)) (VNum (Fin 0)) in
  let* data := alloc (Arr [] []) in
  let* pq := alloc (Obj [("data"%string, data)]) in
  let* _ := push fuel pq (VNum (Fin 0)) (VNum (Fin src)) in
  let* _ := loop fuel adj dist pq in
  ret dist.

(** *** [astarGrid] (LCA.ts, lines 44-90) *)

(** [key(x, y)], for integers that a template literal prints digit by
    digit. *)
Definition key (x y : Z) : M string :=
  if (Z.abs x <=? 2 ^ 53) && (Z.abs y <=? 2 ^ 53) then ret (node_key x y)
  else stuck.

(** [h(x, y)]: [Math.abs(x - goal[0]) + Math.abs(y - goal[1])]. *)
Definition h (goal : value) (x y : Z) : M Z :=
  let* g0 := get goal (VNum (Fin 0)) in
  let* g0 := as_int g0 in
  let* a := int_add x (- g0) in
  let* g1 := get goal (VNum (Fin 1)) in
  let* g1 := as_int g1 in
  let* b := int_add y (- g1) in
  int_add (Z.abs a) (Z.abs b).

(** [const [cx, cy] = k.split(',').map(Number)]: two new arrays, and the
    two numbers. *)
Definition split_key (k : string) : M (Z * Z) :=
  let* _ := alloc (Arr (VStr <$> split_comma k) []) in
  match parse_key k with
  | Some (x, y) =>
      let* _ := alloc (Arr [VNum (Fin x); VNum (Fin y)] []) in
      ret (x, y)
  | None => stuck
  end.

(** [for (const [k, f] of open) if (f < curF) { curF = f; curKey = k; }],
    on the entries of [open] (the body stores nothing, so they are the
    entries that [open] has at the start); each round gets its entry as a
    new array. *)
Fixpoint scan_min (open : jsmap value) (curKey : value) (curF : value)
  : M value :=
  match open with
  | [] => ret curKey
  | (k, f) :: open' =>
      let* _ := alloc (Arr [VStr k; f] []) in
      match v_lt f curF with
      | None => stuck
      | Some true => scan_min open' (VStr k) f
      | Some false => scan_min open' curKey curF
      end
  end.

(** [while (p) { ...; path.push([px, py]); p = parent.get(p) ?? null; }]. *)
Fixpoint reconstruct (fuel : nat) (parent path : value) (p : value) : M unit :=
  match fuel with
  | O => stuck
  | S fuel' =>
      match p with
      | VStr k =>
          if decide (k = ""%string) then ret tt
          else
            let* (px, py) := split_key k in
            let* c := alloc (Arr [VNum (Fin px); VNum (Fin py)] []) in
            let* _ := array_push path c in
            let* q := map_lookup parent k in
            reconstruct fuel' parent path
              (match q with VUndef => VNull | _ => q end)
      | VNull | VUndef => ret tt
      | _ => stuck
      end
  end.

(** The body of [for (const [dx, dy] of dirs)], on the element [d] of
    [dirs]. *)
Definition neighbor (goal grid open gScore parent : value) (R C cx cy : Z)
    (curKey : string) (gCur : value) (d : value) : M unit :=
  let* (dx, dy) := pair_of d in
  let* dx := as_int dx in
  let* dy := as_int dy in
  let* nx := int_add cx dx in
  let* ny := int_add cy dy in
  if negb (inBounds R C nx ny) then ret tt
  else
    let* row := get grid (VNum (Fin nx)) in
    let* cell := get row (VNum (Fin ny)) in
    if v_eq cell (VNum (Fin 1)) then ret tt
    else
      let* nk := key nx ny in
      let* tentativeG := v_add gCur (VNum (Fin 1)) in
      let* g := map_lookup gScore nk in
      match
        v_lt tentativeG (match g with VUndef | VNull => VNum Inf | _ => g end)
      with
      | None => stuck
      | Some true =>
          let* _ := map_store parent nk (VStr curKey) in
          let* _ := map_store gScore nk tentativeG in
          let* hn := h goal nx ny in
          let* f := v_add tentativeG (VNum (Fin hn)) in
          map_store open nk f
      | Some false => ret tt
      end.

(** [cx === goal[0] && cy === goal[1]]. *)
Definition is_goal (goal : value) (cx cy : Z) : M bool :=
  let* g0 := get goal (VNum (Fin 0)) in
  if v_eq (VNum (Fin cx)) g0 then
    let* g1 := get goal (VNum (Fin 1)) in
    ret (v_eq (VNum (Fin cy)) g1)
  else ret false.

(** The [while (open.size)] loop; the value is what [astarGrid]
    returns. *)
Fixpoint search (fuel : nat) (goal grid open gScore parent dirs : value)
    (R C : Z) : M value :=
  match fuel with
  | O => stuck
  | S fuel' =>
      let* n := map_size open in
      if n =? 0 then ret VNull
      else
        let* (_, o) := deref open in
        let* curKey := scan_min (entries o) VNull (VNum Inf) in
        match curKey with
        | VStr k =>
            if decide (k = ""%string) then ret VNull
            else
              let* _ := map_remove open k in
              let* (cx, cy) := split_key k in
              let* at_goal := is_goal goal cx cy in
              if at_goal : bool then
                let* path := alloc (Arr [] []) in
                let* _ := reconstruct fuel' parent path (VStr k) in
                let* _ := array_reverse path in
                ret path
              else
                let* gCur := map_lookup gScore k in
                let* _ :=
                  for_of fuel' dirs 0
                    (neighbor goal grid open gScore parent R C cx cy k gCur) in
                search fuel' goal grid open gScore parent dirs R C
        | _ => ret VNull
        end
  end.

(** [astarGrid(start, goal, grid)], for three references. *)
Definition astarGrid (fuel : nat) (start goal grid : value) : M value :=
  let* R := length_of grid in
  let* row0 := get grid (VNum (Fin 0)) in
  let* C := length_of row0 in
  let* open := alloc (OMap []) in
  let* gScore := alloc (OMap []) in
  let* parent := alloc (OMap []) in
  let* s0 := get start (VNum (Fin 0)) in
  let* s0 := as_int s0 in
  let* s1 := get start (VNum (Fin 1)) in
  let* s1 := as_int s1 in
  let* startKey := key s0 s1 in
  let* h0 := h goal s0 s1 in
  let* _ := map_store open startKey (VNum (Fin h0)) in
  let* _ := map_store gScore startKey (VNum (Fin 0)) in
  let* _ := map_store parent startKey VNull in
  let* d1 := alloc (Arr [VNum (Fin 1); VNum (Fin 0)] []) in
  let* d2 := alloc (Arr [VNum (Fin (-1)); VNum (Fin 0)] []) in
  let* d3 := alloc (Arr [VNum (Fin 0); VNum (Fin 1)] []) in
  let* d4 := alloc (Arr [VNum (Fin 0); VNum (Fin (-1))] []) in
  let* dirs := alloc (Arr [d1; d2; d3; d4] []) in
  search fuel goal grid open gScore parent dirs R C.

(** *** [LCA.query] (LCA.ts, lines 29-41)

    [this] is the object with the properties [n], [LOG], [up], [depth] and
    [adj]; [u] and [v] are integers on entry, and may be [undefined]
    later. *)

(** [this.depth[u]]. *)
Definition depth_at (this u : value) : M value :=
  let* depth := prop this "depth" in get depth u.

(** [this.up[k][u]]. *)
Definition up_at (this : value) (k : Z) (u : value) : M value :=
  let* up := prop this "up" in
  let* row := get up (VNum (Fin k)) in
  get row u.

(** [a - b] on integers and [undefined]. *)
Definition v_sub (a b : value) : M value :=
  match a, b with
  | VNum (Fin x), VNum (Fin y) =>
      match double_add x (- y) with
      | Some s => ret (VNum s)
      | None => stuck
      end
  | VNum (Fin _), VUndef
  | VUndef, (VNum (Fin _) | VUndef) => ret VNaN
  | _, _ => stuck
  end.

(** The truth value of [diff & (1 << k)]; [NaN] and [Infinity] count as 0
    in [&]. *)
Definition v_bit (diff : value) (k : Z) : M bool :=
  match diff with
  | VNum (Fin d) => ret (negb (js_and d (js_shl 1 k) =? 0))
  | VNum Inf | VNaN => ret false
  | _ => stuck
  end.

(** [for (let k = 0; k < this.LOG; k++) if (diff & (1 << k)) u = this.up[k][u]],
    on the values [ks] of [k]. *)
Fixpoint lift (this diff : value) (ks : list Z) (u : value) : M value :=
  match ks with
  | [] => ret u
  | k :: ks' =>
      let* b := v_bit diff k in
      if b then
        let* u' := up_at this k u in
        lift this diff ks' u'
      else lift this diff ks' u
  end.

(** [for (let k = this.LOG - 1; k >= 0; k--) if (this.up[k][u] !==
    this.up[k][v]) { u = this.up[k][u]; v = this.up[k][v]; }]. *)
Fixpoint descend (this : value) (ks : list Z) (u v : value)
  : M (value * value) :=
  match ks with
  | [] => ret (u, v)
  | k :: ks' =>
      let* a := up_at this k u in
      let* b := up_at this k v in
      if negb (v_eq a b) then
        let* a := up_at this k u in
        let* b := up_at this k v in
        descend this ks' a b
      else descend this ks' u v
  end.

(** [query(u, v)]. *)
Definition query (this : value) (u v : Z) : M value :=
  let* du := depth_at this (VNum (Fin u)) in
  let* dv := depth_at this (VNum (Fin v)) in
  match v_lt du dv with
  | None => stuck
  | Some swapped =>
      let* _ :=
        if swapped then alloc (Arr [VNum (Fin v); VNum (Fin u)] [])
        else ret VUndef in
      let '(u, v) := if swapped then (v, u) else (u, v) in
      let* du := depth_at this (VNum (Fin u)) in
      let* dv := depth_at this (VNum (Fin v)) in
      let* diff := v_sub du dv in
      let* LOG := prop this "LOG" in
      let* LOG := as_int LOG in
      let* u := lift this diff (seqZ 0 LOG) (VNum (Fin u)) in
      if v_eq u (VNum (Fin v)) then ret u
      else
        let* (u, v) :=
          descend this (reverse (seqZ 0 LOG)) u (VNum (Fin v)) in
        up_at this 0 u
  end.

(** *** Frames *)

(** Every object that [s] holds is in [s'] at the same reference, as it
    is in [s]. *)
Definition unchanged (s s' : store) : Prop :=
  forall (r : ref) (o : object), s !! r = Some o -> s' !! r = Some o.

End Mem.

(** *** Invariants of the heap loops *)

(** [e1.key <= e2.key]. *)
Definition kle {T : Type} (e1 e2 : entry T) : Prop :=
  num_leb (key e1) (key e2) = true.

(** The order may fail at one place while an entry travels: between [i] and
    its parent when it moves up, between [i] and its children when it moves
    down.  In both cases the children of [i] are already above the parent
    of [i]. *)
Definition ordered_at {T : Type} (data : heap T) (j : nat) : Prop :=
  forall ej ep, data !! j = Some ej -> data !! heap_parent j = Some ep -> kle ep ej.

Definition skip_ok {T : Type} (data : heap T) (i : nat) : Prop :=
  (0 < i)%nat -> forall c ec epp, (0 < c)%nat -> heap_parent c = i ->
    data !! c = Some ec -> data !! heap_parent i = Some epp -> kle epp ec.

Definition up_inv {T : Type} (data : heap T) (i : nat) : Prop :=
  (forall j, (0 < j)%nat -> j <> i -> ordered_at data j) /\ skip_ok data i.

Definition down_inv {T : Type} (data : heap T) (i : nat) : Prop :=
  (forall j, (0 < j)%nat -> heap_parent j <> i -> ordered_at data j) /\ skip_ok data i.

(** *** Invariants of the [dijkstra] loop *)

(** Every edge out of [x] is relaxed: [dist[v] <= dist[x] + w]. *)
Definition relaxed (adj : graph) (dist : list num) (x : Z) : Prop :=
  forall v w dv nd, edge adj x v w ->
    aget dist v = Some dv -> add_weight (aget dist x) w = SNum nd ->
    num_leb dv nd = true.

(** What holds each time the loop tests [pq.size()]: recorded distances are
    lengths of walks as the code adds them, and a node whose edges are not
    all relaxed is in the queue with its current distance. *)
Record dijkstra_inv (adj : graph) (src : Z) (st : dijkstra_state) : Prop := {
  di_adj : ds_adj st = adj;
  di_len : length (ds_dist st) = length adj;
  di_src : aget (ds_dist st) src = Some (Fin 0);
  di_walk : forall v z, aget (ds_dist st) v = Some (Fin z) -> rwalk adj src v z;
  di_queue : forall x z, aget (ds_dist st) x = Some (Fin z) ->
    Entry (Fin z) x ∈ ds_pq st \/ relaxed adj (ds_dist st) x;
  di_range : forall e, e ∈ ds_pq st -> 0 <= val e < Z.of_nat (length adj)
}.

(** The measure of progress: how many entries are still [Inf], and the sum
    of the finite ones. *)
Fixpoint count_inf (dist : list num) : nat :=
  match dist with
  | [] => O
  | Inf :: dist' => S (count_inf dist')
  | Fin _ :: dist' => count_inf dist'
  end.

Fixpoint sum_fin (dist : list num) : Z :=
  match dist with
  | [] => 0
  | Inf :: dist' => sum_fin dist'
  | Fin z :: dist' => z + sum_fin dist'
  end.

Definition dist_lt (d' d : list num) : Prop :=
  (count_inf d' < count_inf d)%nat \/
  (count_inf d' = count_inf d /\ sum_fin d' < sum_fin d).

(** How the [for] loop over the edges of a node changes [dist] and [pq]:
    entries only decrease, a changed entry is pushed with its new value,
    and nothing leaves the queue. *)
Record relax_rel (adj : graph) (src : Z)
    (dist : list num) (pq : heap Z) (dist' : list num) (pq' : heap Z) : Prop := {
  rr_len : length dist' = length dist;
  rr_mono : forall x dx, aget dist x = Some dx ->
    exists dx', aget dist' x = Some dx' /\
      (dx' = dx \/ exists z, dx' = Fin z /\ Entry (Fin z) x ∈ pq' /\ num_ltb dx' dx = true);
  rr_keep : forall e, e ∈ pq -> e ∈ pq';
  rr_new : forall e, e ∈ pq' -> e ∈ pq \/ 0 <= val e < Z.of_nat (length dist);
  rr_walk : forall v z, aget dist' v = Some (Fin z) -> rwalk adj src v z;
  rr_progress : (dist' = dist /\ pq' = pq) \/ dist_lt dist' dist
}.

(** *** Invariants of the [astarGrid] loop *)

(** No character of [s] is a comma. *)
Fixpoint no_comma (s : string) : Prop :=
  match s with
  | EmptyString => True
  | String c s' => Ascii.eqb c ","%char = false /\ no_comma s'
  end.


(** The key of a cell. *)
Definition ckey (c : Z * Z) : string := node_key c.1 c.2.

(** Every free neighbour of [c] has a score of at most [z + 1]. *)
Definition relaxed_cell (grid : list (list Z)) (g : jsmap num) (c : Z * Z) (z : Z) : Prop :=
  forall c', adjacent c c' -> free_cell grid c' ->
    exists z', map_get g (ckey c') = Some (Fin z') /\ z' <= z + 1.

(** What holds each time the loop tests [open.size], and ([skip] being the
    cell under expansion) between two rounds of the loop over [dirs]. *)
Record astar_inv (grid : list (list Z)) (start goal : Z * Z)
    (skip : option (Z * Z)) (st : astar_state) : Prop := {
  ai_grid : as_grid st = grid;
  ai_nodup : NoDup (as_open st).*1;
  ai_open : forall k f, (k, f) ∈ as_open st ->
    exists c z, k = ckey c /\ map_get (as_gScore st) k = Some (Fin z) /\
      f = Fin (z + h goal c.1 c.2);
  ai_start : map_get (as_gScore st) (ckey start) = Some (Fin 0) /\
    map_get (as_parent st) (ckey start) = Some None;
  ai_g : forall k gv, map_get (as_gScore st) k = Some gv ->
    exists c z, k = ckey c /\ gv = Fin z /\ 0 <= z /\
      (c = start \/
       exists c' z', map_get (as_parent st) k = Some (Some (ckey c')) /\
         adjacent c' c /\ free_cell grid c /\
         map_get (as_gScore st) (ckey c') = Some (Fin z') /\ z' + 1 <= z);
  ai_gnonneg : Forall (fun p => exists z, p.2 = Fin z /\ 0 <= z) (as_gScore st);
  ai_relaxed : forall c z, Some c <> skip ->
    map_get (as_gScore st) (ckey c) = Some (Fin z) ->
    map_get (as_open st) (ckey c) = None ->
    relaxed_cell grid (as_gScore st) c z;
  ai_goal : forall gv, map_get (as_gScore st) (ckey goal) = Some gv ->
    is_Some (map_get (as_open st) (ckey goal))
}.

(** The cells that can get a score: [start] and the cells of the grid. *)
Definition all_cells (grid : list (list Z)) (start : Z * Z) : list (Z * Z) :=
  let R := Z.of_nat (length grid) in
  let C := Z.of_nat (length (default [] (grid !! 0%nat))) in
  start :: (x ← seqZ 0 R; y ← seqZ 0 C; [(x, y)]).

(** The measure of progress: how many cells have no score yet, and the sum
    of the scores. *)
Definition missing (cells : list (Z * Z)) (g : jsmap num) : nat :=
  length (filter (fun c => map_get g (ckey c) = None) cells).

Fixpoint sum_g (g : jsmap num) : Z :=
  match g with
  | [] => 0
  | (_, Fin z) :: g' => z + sum_g g'
  | (_, Inf) :: g' => sum_g g'
  end.

Definition astar_lt (cells : list (Z * Z)) (g' g : jsmap num) : Prop :=
  (missing cells g' < missing cells g)%nat \/
  (missing cells g' = missing cells g /\ sum_g g' < sum_g g).

(** How a round of the loop over [dirs] changes the state: scores only
    decrease, and either nothing changes or the measure goes down. *)
Record astar_rel (cells : list (Z * Z)) (st st' : astar_state) : Prop := {
  ar_mono : forall k z, map_get (as_gScore st) k = Some (Fin z) ->
    exists z', map_get (as_gScore st') k = Some (Fin z') /\ z' <= z;
  ar_progress : st' = st \/ astar_lt cells (as_gScore st') (as_gScore st)
}.

(** What [astarGrid] owes for its result [r]: a returned path leads from
    [start] to [goal] by steps through free cells and no such sequence of
    steps is shorter; [null] is returned only when there is none. *)
Definition astar_result_ok (grid : list (list Z)) (start goal : Z * Z)
    (r : option (list (Z * Z))) : Prop :=
  match r with
  | Some p =>
      (exists q, p = start :: q /\ steps grid start q /\ list.last p = Some goal) /\
      (forall q', steps grid start q' -> list.last (start :: q') = Some goal ->
         (length p <= length (start :: q'))%nat)
  | None =>
      forall q', steps grid start q' -> list.last (start :: q') = Some goal -> False
  end.

(** *** Invariants of the [LCA] construction *)

(** [w] is in the subtree of [u]. *)
Definition desc (S : Z -> bool) (par : Z -> Z) (dep : Z -> nat) (u w : Z) : Prop :=
  S w = true /\ (dep u <= dep w)%nat /\ Nat.iter (dep w - dep u) par w = u.

Global Instance desc_dec S par dep u w : Decision (desc S par dep u w).
Proof. unfold desc. apply _. Defined.

(** [w] is in the subtree of a child of [u] listed in [vs]. *)
Definition covered (S : Z -> bool) (par : Z -> Z) (dep : Z -> nat)
    (u : Z) (vs : list Z) (w : Z) : Prop :=
  Exists (fun c => c <> par u /\ desc S par dep c w) vs.

Global Instance covered_dec S par dep u vs w : Decision (covered S par dep u vs w).
Proof. unfold covered. apply _. Defined.

(** What the table holds at level [k] for node [v]: [2^k] parent steps up
    from a node of the tree, the sentinel elsewhere. *)
Definition up_spec (S : Z -> bool) (par : Z -> Z) (k : nat) (v : Z) : Z :=
  if S v then Nat.iter (2 ^ k) par v else -1.

(** The shape of the object, which no step of the construction changes. *)
Record lca_shape (adj : list (list Z)) (o : LCA.t) : Prop := {
  ls_n : LCA.n o = Z.of_nat (length adj);
  ls_LOG : LCA.LOG o = Z.log2_up (Z.max 2 (LCA.n o));
  ls_adj : LCA.adj o = adj;
  ls_depth : length (LCA.depth o) = length adj;
  ls_up : length (LCA.up o) = Z.to_nat (LCA.LOG o);
  ls_rows : Forall (fun row => length row = length adj) (LCA.up o)
}.

(** What [dfs(u, par u)] has done when it returns: the entries of the nodes
    [w] that satisfy [cover] hold their parent and depth, the others are as
    before, and the levels above 0 are as before. *)
Record dfs_post (adj : list (list Z)) (par : Z -> Z) (dep : Z -> nat)
    (cover : Z -> Prop) (o o' : LCA.t) : Prop := {
  dp_shape : lca_shape adj o';
  dp_levels : forall k i, k <> 0 -> LCA.up_get o' k i = LCA.up_get o k i;
  dp_in : forall w, cover w ->
    LCA.up_get o' 0 (Some w) = Ret (Some (par w)) /\
    aget (LCA.depth o') w = Some (Z.of_nat (dep w));
  dp_out : forall w, ~ cover w ->
    LCA.up_get o' 0 (Some w) = LCA.up_get o 0 (Some w) /\
    aget (LCA.depth o') w = aget (LCA.depth o) w
}.

(** The levels below [K] of the table are filled as [up_spec] says. *)
Definition rows_ok (adj : list (list Z)) (S : Z -> bool) (par : Z -> Z)
    (o : LCA.t) (K : Z) : Prop :=
  forall k v, 0 <= k < K -> 0 <= v < Z.of_nat (length adj) ->
    LCA.up_get o k (Some v) = Ret (Some (up_spec S par (Z.to_nat k) v)).

(** The table of depths: the depth of a node of the tree, 0 elsewhere. *)
Definition depth_ok (adj : list (list Z)) (S : Z -> bool) (dep : Z -> nat)
    (o : LCA.t) : Prop :=
  forall v, 0 <= v < Z.of_nat (length adj) ->
    aget (LCA.depth o) v = Some (if S v then Z.of_nat (dep v) else 0).

(** *** Invariant of the [bfs] loops *)

(** What holds of the local objects; [pending] is [Some (u, rest)] inside
    the [for] loop over the list of [u], where [rest] is still to come, and
    [None] at the test of the [while] loop.  The visited nodes are those of
    [out ++ q], each once and by non-decreasing distance from [start]; the
    lists of the nodes of [out] have been gone through; the nodes of [q]
    are at most one edge farther than the node being expanded. *)
Record bfs_inv (adj : list (list Z)) (start : Z)
    (pending : option (Z * list Z)) (st : bfs_state) : Prop := {
  bi_len : length (in_array (bs_visited st)) = length adj;
  bi_nodup : NoDup (bs_out st ++ bs_q st);
  bi_marked : forall v,
    marked (bs_visited st) v = true <-> v ∈ bs_out st ++ bs_q st;
  bi_start : exists s', bs_out st ++ bs_q st = start :: s';
  bi_range : forall u, u ∈ bs_out st -> 0 <= u < Z.of_nat (length adj);
  bi_closed : forall u vs v,
    u ∈ bs_out st -> aget adj u = Some vs -> v ∈ vs ->
    v ∈ bs_out st ++ bs_q st \/
    (exists rest, pending = Some (u, rest) /\ v ∈ rest);
  bi_level : forall v, v ∈ bs_out st ++ bs_q st -> exists d, level adj start v d;
  bi_sorted : StronglySorted (level_le adj start) (bs_out st ++ bs_q st);
  bi_front :
    match pending with
    | Some (u, rest) =>
        (exists out0, bs_out st = out0 ++ [u]) /\
        (exists vs, aget adj u = Some vs /\ rest ⊆ vs) /\
        forall v du dv, v ∈ bs_q st ->
          level adj start u du -> level adj start v dv -> (dv <= S du)%nat
    | None =>
        forall u q' v du dv, bs_q st = u :: q' -> v ∈ q' ->
          level adj start u du -> level adj start v dv -> (dv <= S du)%nat
    end
}.

(** What [bfs] owes for the list it returns. *)
Definition bfs_result_ok (adj : list (list Z)) (start : Z) (out : list Z) : Prop :=
  NoDup out /\
  (forall v, v ∈ out <-> reachable adj start v) /\
  head out = Some start /\
  (forall v, v ∈ out -> 0 <= v < Z.of_nat (length adj)) /\
  (forall v, v ∈ out -> exists d, level adj start v d) /\
  StronglySorted (level_le adj start) out.

(** *** Invariants of [kruskal] *)

(** [r] is the representative of [x]: the end of the chain of [parent]
    entries from [x]. *)
Inductive root_of (parent : list Z) : Z -> Z -> Prop :=
  | root_self x : aget parent x = Some x -> root_of parent x x
  | root_up x p r :
      aget parent x = Some p -> p <> x -> root_of parent p r ->
      root_of parent x r.

(** [x] and [y] have the same representative. *)
Definition same_set (parent : list Z) (x y : Z) : Prop :=
  exists r, root_of parent x r /\ root_of parent y r.

(** The two arrays of the union-find structure: entries of [parent] are
    indices of the array, ranks lie between 0 and [bound], and the rank
    grows strictly from a node to its parent. *)
Record uf_inv (bound : Z) (parent rank : list Z) : Prop := {
  ui_len : length rank = length parent;
  ui_parent : forall x p,
    aget parent x = Some p -> 0 <= p < Z.of_nat (length parent);
  ui_rank : forall x r, aget rank x = Some r -> 0 <= r <= bound;
  ui_up : forall x p rx rp,
    aget parent x = Some p -> p <> x ->
    aget rank x = Some rx -> aget rank p = Some rp -> rx < rp
}.

(** A list of edges built by adding, one at a time, an edge between two
    nodes that the edges before it leave apart. *)
Inductive forest_seq : list wedge -> Prop :=
  | fs_nil : forest_seq []
  | fs_snoc l e :
      forest_seq l -> ~ connected l e.1.1 e.1.2 -> forest_seq (l ++ [e]).

(** [r] picks one node in each set of nodes connected by [es], among the
    nodes [0 .. n-1]. *)
Definition rep_ok (n : Z) (es : list wedge) (r : Z -> Z) : Prop :=
  (forall x, 0 <= x < n -> 0 <= r x < n /\ connected es x (r x)) /\
  (forall x y, 0 <= x < n -> connected es x y -> r x = r y).

(** The nodes picked by [r]. *)
Definition picked (n : Z) (r : Z -> Z) : list Z :=
  filter (fun x => r x = x) (seqZ 0 n).

(** The edges of weight at most [w]. *)
Definition upto (w : Z) (es : list wedge) : list wedge :=
  filter (fun e => weight e <= w) es.

(** What holds each time the [for] loop of [kruskal] takes an edge: [done]
    are the edges taken so far, [mst] the ones kept. *)
Record kruskal_inv (n : Z) (done mst : list wedge) (parent rank : list Z)
  : Prop := {
  ki_uf : uf_inv (Z.of_nat (length done)) parent rank;
  ki_len : Z.of_nat (length parent) = n;
  ki_sub : sublist mst done;
  ki_same : forall x y, 0 <= x < n -> 0 <= y < n ->
    same_set parent x y <-> connected mst x y;
  ki_forest : forest_seq mst;
  ki_done : forall e, e ∈ done -> connected (upto (weight e) mst) e.1.1 e.1.2
}.

(** *** Invariant of the partition loop of [quickSort] *)

(** The entries of [a] between [l] and [r] are in order. *)
Definition sorted_between (a : list Z) (l r : Z) : Prop :=
  forall p q x y, l <= p -> p <= q -> q <= r ->
    aget a p = Some x -> aget a q = Some y -> x <= y.

(** [a] is [a0] with the entries between [l] and [r] rearranged. *)
Record rearranged (a0 a : list Z) (l r : Z) : Prop := {
  re_len : length a = length a0;
  re_perm : a ≡ₚ a0;
  re_out : forall m, m < l \/ r < m -> aget a m = aget a0 m;
  re_from : forall m x, l <= m <= r -> aget a m = Some x ->
    exists m', l <= m' <= r /\ aget a0 m' = Some x
}.

(** What holds at the test of [while (i <= j)]: the entries before [i] are
    at most the pivot, those after [j] at least the pivot, and while
    [i <= j] each of the inner loops has an entry that stops it. *)
Record partition_inv (a0 : list Z) (l r pivot : Z) (a : list Z) (i j : Z)
  : Prop := {
  pi_re : rearranged a0 a l r;
  pi_range : 0 <= l /\ l < r /\ r < Z.of_nat (length a0);
  pi_i : l <= i <= r + 1;
  pi_j : l - 1 <= j <= r;
  pi_low : forall m x, l <= m < i -> aget a m = Some x -> x <= pivot;
  pi_high : forall m x, j < m <= r -> aget a m = Some x -> pivot <= x;
  pi_stop : i <= j ->
    (exists k x, i <= k <= r /\ aget a k = Some x /\ pivot <= x) /\
    (exists k x, l <= k <= j /\ aget a k = Some x /\ x <= pivot);
  pi_moved : (i = l /\ j = r) \/ (l < i /\ j < r)
}.

(** *** Invariant of [dfs] *)

(** What holds of [visited] and [out] between two calls of [go]: the
    visited nodes are those of [out], each once, and all are nodes of the
    graph. *)
Record go_inv (adj : list (list Z)) (st : marks * list Z) : Prop := {
  gi_len : length (in_array st.1) = length adj;
  gi_nodup : NoDup st.2;
  gi_marked : forall v, marked st.1 v = true <-> v ∈ st.2;
  gi_range : forall v, v ∈ st.2 -> 0 <= v < Z.of_nat (length adj)
}.

(** The neighbours of [w] are all in [out]. *)
Definition go_closed (adj : list (list Z)) (out : list Z) (w : Z) : Prop :=
  forall vs v, aget adj w = Some vs -> v ∈ vs -> v ∈ out.

(** What a run that starts in [st] owes: it returns a state [st'] in which
    [out] has grown by [first] and further nodes, all reachable from
    [start] and with their neighbours listed, and [Q] holds of the new
    [out]; or it throws, and a node outside the graph is reachable. *)
Definition go_post (adj : list (list Z)) (start : Z) (st : marks * list Z)
    (first : list Z) (Q : list Z -> Prop)
    (r : option (outcome (marks * list Z))) : Prop :=
  match r with
  | Some (Ret st') =>
      go_inv adj st' /\ Q st'.2 /\
      exists new, st'.2 = st.2 ++ first ++ new /\
        forall w, w ∈ first ++ new ->
          reachable adj start w /\ go_closed adj st'.2 w
  | Some Throw =>
      exists v, reachable adj start v /\ ~ (0 <= v < Z.of_nat (length adj))
  | None => False
  end.
(** ** The invariant of [topologicalSort] *)

(** How often [v] occurs in [vs]. *)
Fixpoint count_in (vs : list Z) (v : Z) : Z :=
  match vs with
  | [] => 0
  | x :: vs' => (if decide (x = v) then 1 else 0) + count_in vs' v
  end.

(** The number of edges into [v] from the nodes [i], [i + 1], ... (whose
    lists are [rows]) that are not in [done]. *)
Fixpoint waiting_from (rows : list (list Z)) (i : Z) (done : list Z) (v : Z)
  : Z :=
  match rows with
  | [] => 0
  | vs :: rows' =>
      (if bool_decide (i ∈ done) then 0 else count_in vs v)
      + waiting_from rows' (i + 1) done v
  end.

Definition waiting (adj : list (list Z)) (done : list Z) (v : Z) : Z :=
  waiting_from adj 0 done v.

(** At the head of the [while] loop: [indeg[v]] counts the edges into [v]
    from nodes that are not in [order] yet; the nodes without such an edge
    are those of [order] and [q]; a node of [order] comes after the sources
    of its incoming edges. *)
Record topo_inv (adj : list (list Z)) (indeg q order : list Z) : Prop := {
  ti_len : length indeg = length adj;
  ti_nodup : NoDup (order ++ q);
  ti_range : forall x, x ∈ order ++ q -> 0 <= x < Z.of_nat (length adj);
  ti_indeg : forall v, 0 <= v < Z.of_nat (length adj) ->
    aget indeg v = Some (waiting adj order v);
  ti_zero : forall v, 0 <= v < Z.of_nat (length adj) ->
    (v ∈ order ++ q <-> waiting adj order v = 0);
  ti_before : forall i u w vs,
    order !! i = Some u -> aget adj w = Some vs -> u ∈ vs ->
    w ∈ take i order
}.
(** ** The invariants of [kmpSearch] *)

Section kmp_invs.
Context {A : Type}.
Implicit Types (p s : list A) (pi : list nat).

(** The first [k] units of [p] are the last [k] units of [s]. *)
Definition fits p s (k : nat) : Prop :=
  (k <= length p)%nat /\ (k <= length s)%nat /\
  forall x, (x < k)%nat -> p !! x = s !! (length s - k + x)%nat.

(** [j] is the greatest such length below [B]. *)
Definition best p s (B j : nat) : Prop :=
  fits p s j /\ (j < B)%nat /\
  forall k, (k < B)%nat -> fits p s k -> (k <= j)%nat.

(** The entries of [pi] below [i] are filled: [pi[x]] is the greatest
    length, below [x + 1], of a prefix of [p] that ends [p[0 .. x]]. *)
Definition pi_ok p pi (i : nat) : Prop :=
  length pi = length p /\
  forall x, (x < i)%nat ->
    exists k, pi !! x = Some k /\ best p (take (S x) p) (S x) k.
End kmp_invs.
(** ** Frames of the runs on the store *)

(** [s'] follows [s] and has the first [n] objects as [s] has them. *)
Definition frame (n : nat) (s s' : Mem.store) : Prop :=
  (length s <= length s')%nat /\
  forall r, (r < n)%nat -> s' !! r = s !! r.

(** The run [m], started in a store that holds the [n] objects of the
    entry and has the property [P], keeps these [n] objects and [P],
    however it ends; a value it returns has the property [Q]. *)
Definition keeps (n : nat) (P : Mem.store -> Prop) {A : Type}
    (m : Mem.M A) (Q : A -> Prop) : Prop :=
  forall s, (n <= length s)%nat -> P s ->
    frame n s (m s).2 /\ P (m s).2 /\
    forall a, (m s).1 = Some (Ret a) -> Q a.

(** A value through which a run may store: if it is a reference, then one
    of [W]. *)
Definition writable (W : Mem.ref -> Prop) (v : Mem.value) : Prop :=
  forall r, v = Mem.VRef r -> W r.

(** The queue of [dijkstra]: the object at [p] has the array at [d] as its
    [data]. *)
Definition queue_at (p d : Mem.ref) (s : Mem.store) : Prop :=
  s !! p = Some (Mem.Obj [("data"%string, Mem.VRef d)]).

(** A value that is not a reference. *)
Definition plain (v : Mem.value) : Prop :=
  match v with
  | Mem.VRef _ => False
  | _ => True
  end.

(** The table of [dijkstra]: the object at [t] is an array that holds no
    reference, as an element or as a property. *)
Definition table_at (t : Mem.ref) (s : Mem.store) : Prop :=
  exists es ps,
    s !! t = Some (Mem.Arr es ps) /\
    Forall plain es /\ Forall (fun kv => plain kv.2) ps.

(** *** Three stores

    The graph [[[1, 4], [2, 1]], [], [[1, 2]]] with its rows and edges, the
    array at 6; a grid of two rows with a wall, the array at 2, with the
    start [[0, 0]] at 3 and the goal [[1, 1]] at 4; and the [LCA] object of
    the tree with the edges 0-1, 0-2 and 1-3, at 8. *)
Definition graph_store : Mem.store :=
  [ Mem.Arr [Mem.VNum (Fin 1); Mem.VNum (Fin 4)] [];
    Mem.Arr [Mem.VNum (Fin 2); Mem.VNum (Fin 1)] [];
    Mem.Arr [Mem.VNum (Fin 1); Mem.VNum (Fin 2)] [];
    Mem.Arr [Mem.VRef 0; Mem.VRef 1] [];
    Mem.Arr [] [];
    Mem.Arr [Mem.VRef 2] [];
    Mem.Arr [Mem.VRef 3; Mem.VRef 4; Mem.VRef 5] [] ].

Definition grid_store : Mem.store :=
  [ Mem.Arr [Mem.VNum (Fin 0); Mem.VNum (Fin 1)] [];
    Mem.Arr [Mem.VNum (Fin 0); Mem.VNum (Fin 0)] [];
    Mem.Arr [Mem.VRef 0; Mem.VRef 1] [];
    Mem.Arr [Mem.VNum (Fin 0); Mem.VNum (Fin 0)] [];
    Mem.Arr [Mem.VNum (Fin 1); Mem.VNum (Fin 1)] [] ].

Definition tree_store : Mem.store :=
  [ Mem.Arr [Mem.VNum (Fin 1); Mem.VNum (Fin 2)] [];
    Mem.Arr [Mem.VNum (Fin 0); Mem.VNum (Fin 3)] [];
    Mem.Arr [Mem.VNum (Fin 0)] [];
    Mem.Arr [Mem.VNum (Fin 1)] [];
    Mem.Arr [Mem.VRef 0; Mem.VRef 1; Mem.VRef 2; Mem.VRef 3] [];
    Mem.Arr [Mem.VNum (Fin 0); Mem.VNum (Fin 0); Mem.VNum (Fin 0);
             Mem.VNum (Fin 1)] [];
    Mem.Arr [Mem.VNum (Fin 0); Mem.VNum (Fin 0); Mem.VNum (Fin 0);
             Mem.VNum (Fin 0)] [];
    Mem.Arr [Mem.VRef 5; Mem.VRef 6] [];
    Mem.Obj [("n"%string, Mem.VNum (Fin 4));
             ("adj"%string, Mem.VRef 4);
             ("LOG"%string, Mem.VNum (Fin 2));
             ("up"%string, Mem.VRef 7);
             ("depth"%string, Mem.VRef 9)];
    Mem.Arr [Mem.VNum (Fin 0); Mem.VNum (Fin 1); Mem.VNum (Fin 1);
             Mem.VNum (Fin 2)] [] ].
(** ** One run after another

    A second run finds the store as the first has left it: with the objects
    of the entry, and after them the objects that the first run has made.
    What the second run makes gets later references than in the first run.
    [ren_ref n k] is this shift: the [n] references of the entry stay, the
    later ones move up by [k]. *)
Definition ren_ref (n k : nat) (r : Mem.ref) : Mem.ref :=
  if decide (r < n)%nat then r else (r + k)%nat.

Definition ren_value (n k : nat) (v : Mem.value) : Mem.value :=
  match v with
  | Mem.VRef r => Mem.VRef (ren_ref n k r)
  | _ => v
  end.

Definition ren_props (n k : nat) (m : jsmap Mem.value) : jsmap Mem.value :=
  prod_map id (ren_value n k) <$> m.

Definition ren_object (n k : nat) (o : Mem.object) : Mem.object :=
  match o with
  | Mem.Arr es ps => Mem.Arr (ren_value n k <$> es) (ren_props n k ps)
  | Mem.Obj ps => Mem.Obj (ren_props n k ps)
  | Mem.OMap m => Mem.OMap (ren_props n k m)
  end.

Definition ren_found (n k : nat) (p : Mem.ref * Mem.object)
  : Mem.ref * Mem.object :=
  (ren_ref n k p.1, ren_object n k p.2).

(** How a run ends, shifted. *)
Definition ren_end {A : Type} (f : A -> A) (o : option (outcome A))
  : option (outcome A) :=
  match o with
  | Some (Ret a) => Some (Ret (f a))
  | Some Throw => Some Throw
  | None => None
  end.

(** [s'] is [s] shifted: it holds every object of [s], shifted, at the
    shifted reference (and [k] more objects, at the references from [n] to
    [n + k - 1]). *)
Definition shifted (n k : nat) (s s' : Mem.store) : Prop :=
  length s' = (length s + k)%nat /\
  (n <= length s)%nat /\
  forall r, s' !! ren_ref n k r = ren_object n k <$> s !! r.

(** The run [m'] in a shifted store does what [m] does, shifted: the two
    end in the same way, with shifted values, in a shifted store. *)
Definition alike (n k : nat) {A : Type} (f : A -> A) (m m' : Mem.M A)
  : Prop :=
  forall s s', shifted n k s s' ->
    shifted n k (m s).2 (m' s').2 /\ (m' s').1 = ren_end f (m s).1.

(** A store without dangling references: every reference in an object is
    the reference of an object of the store. *)
Definition closed_value (n : nat) (v : Mem.value) : bool :=
  match v with
  | Mem.VRef r => bool_decide (r < n)%nat
  | _ => true
  end.

Definition closed_object (n : nat) (o : Mem.object) : bool :=
  match o with
  | Mem.Arr es ps =>
      forallb (closed_value n) es && forallb (fun kv => closed_value n kv.2) ps
  | Mem.Obj m | Mem.OMap m => forallb (fun kv => closed_value n kv.2) m
  end.

Definition closed_store (s : Mem.store) : bool :=
  forallb (closed_object (length s)) s.

(** * Properties *)

(** ** Numbers *)

Lemma num_leb_refl a : num_leb a a = true.
Proof. destruct a; simpl; [apply Z.leb_refl | done]. Qed.

Lemma num_leb_trans a b c :
  num_leb a b = true -> num_leb b c = true -> num_leb a c = true.
Proof.
  destruct a, b, c; simpl; try done.
  rewrite !Z.leb_le. lia.
Qed.

Lemma num_ltb_leb a b : num_ltb a b = true -> num_leb a b = true.
Proof. destruct a, b; simpl; try done. rewrite Z.ltb_lt, Z.leb_le. lia. Qed.

Lemma num_leb_false a b : num_leb a b = false -> num_ltb b a = true.
Proof. destruct a, b; simpl; try done. rewrite Z.leb_gt, Z.ltb_lt. lia. Qed.

Lemma num_ltb_false a b : num_ltb a b = false -> num_leb b a = true.
Proof. destruct a, b; simpl; try done. rewrite Z.ltb_ge, Z.leb_le. lia. Qed.

(** ** Arrays *)

Lemma aget_Some {A} (a : list A) i x :
  aget a i = Some x <-> 0 <= i /\ a !! Z.to_nat i = Some x.
Proof. unfold aget. destruct (decide (0 <= i)); [tauto | split; [done | tauto]]. Qed.

Lemma aget_lt {A} (a : list A) i x :
  aget a i = Some x -> 0 <= i < Z.of_nat (length a).
Proof.
  rewrite aget_Some. intros [? H]. apply lookup_lt_Some in H. lia.
Qed.

Lemma aget_is_Some {A} (a : list A) i :
  0 <= i < Z.of_nat (length a) -> is_Some (aget a i).
Proof.
  intros ?. unfold aget. rewrite decide_True by lia.
  apply lookup_lt_is_Some. lia.
Qed.

Lemma aget_None {A} (a : list A) i :
  aget a i = None <-> i < 0 \/ Z.of_nat (length a) <= i.
Proof.
  unfold aget. case_decide.
  - rewrite lookup_ge_None. lia.
  - split; [lia | done].
Qed.

Lemma length_aset {A} (a : list A) i x : length (aset a i x) = length a.
Proof. unfold aset. case_decide; [apply length_insert | done]. Qed.

Lemma aget_aset_eq {A} (a : list A) i x :
  0 <= i < Z.of_nat (length a) -> aget (aset a i x) i = Some x.
Proof.
  intros ?. unfold aget, aset. rewrite !decide_True by lia.
  apply list_lookup_insert_eq. lia.
Qed.

Lemma aget_aset_ne {A} (a : list A) i j x :
  i <> j -> aget (aset a i x) j = aget a j.
Proof.
  intros ?. unfold aget, aset. repeat case_decide; try done.
  apply list_lookup_insert_ne. lia.
Qed.

Lemma length_swap {A} (a : list A) i j : length (swap a i j) = length a.
Proof.
  unfold swap. destruct (a !! i), (a !! j); try done.
  by rewrite !length_insert.
Qed.

Lemma swap_perm {A} (a : list A) i j : swap a i j ≡ₚ a.
Proof.
  unfold swap. destruct (a !! i) eqn:Hi, (a !! j) eqn:Hj; try done.
  by apply Permutation_insert_swap.
Qed.

Lemma lookup_swap {A} (a : list A) i j k x y :
  a !! i = Some x -> a !! j = Some y ->
  swap a i j !! k =
    if decide (k = j) then Some x else if decide (k = i) then Some y else a !! k.
Proof.
  intros Hi Hj. unfold swap. rewrite Hi, Hj.
  pose proof (lookup_lt_Some _ _ _ Hi). pose proof (lookup_lt_Some _ _ _ Hj).
  destruct (decide (k = j)) as [->|Hkj].
  - rewrite list_lookup_insert_eq; [done | by rewrite length_insert].
  - rewrite list_lookup_insert_ne by done.
    destruct (decide (k = i)) as [->|Hki].
    + by rewrite list_lookup_insert_eq.
    + by rewrite list_lookup_insert_ne.
Qed.

(** ** The binary heap *)

Section heap_facts.
Context {T : Type}.
Implicit Types (data h : heap T) (e : entry T).

Local Open Scope nat_scope.

Lemma kle_trans e1 e2 e3 : kle e1 e2 -> kle e2 e3 -> kle e1 e3.
Proof. apply num_leb_trans. Qed.

Lemma heap_parent_div i : heap_parent i = (i - 1) / 2.
Proof. unfold heap_parent. by rewrite Nat.shiftr_div_pow2. Qed.

Lemma parent_lt i : 0 < i -> heap_parent i < i.
Proof.
  intros. rewrite heap_parent_div. apply Nat.Div0.div_lt_upper_bound; lia.
Qed.

Lemma parent_left i : heap_parent (i * 2 + 1) = i.
Proof.
  rewrite heap_parent_div.
  replace (i * 2 + 1 - 1) with (i * 2) by lia. apply Nat.div_mul. lia.
Qed.

Lemma parent_right i : heap_parent (i * 2 + 2) = i.
Proof.
  rewrite heap_parent_div.
  replace (i * 2 + 2 - 1) with (1 + i * 2) by lia.
  rewrite Nat.div_add by lia. done.
Qed.

Lemma parent_children j i :
  0 < j -> heap_parent j = i -> j = i * 2 + 1 \/ j = i * 2 + 2.
Proof.
  rewrite heap_parent_div. intros Hj Hp.
  pose proof (Nat.div_mod_eq (j - 1) 2) as Hd.
  pose proof (Nat.mod_upper_bound (j - 1) 2). lia.
Qed.

(** The loops stop by their own tests before the fuel is used up. *)
Lemma sift_up_fuel f1 f2 data i :
  i <= f1 -> i <= f2 -> sift_up f1 data i = sift_up f2 data i.
Proof.
  revert f2 data i. induction f1 as [|f1 IH]; intros f2 data i H1 H2.
  - assert (i = 0) as -> by lia. by destruct f2.
  - destruct f2 as [|f2].
    + assert (i = 0) as -> by lia. done.
    + simpl. destruct (0 <? i) eqn:Hi; [|done].
      apply Nat.ltb_lt in Hi. pose proof (parent_lt i Hi).
      destruct (data !! heap_parent i) as [ep|], (data !! i) as [ei|]; try done.
      destruct (num_leb (key ep) (key ei)); [done|]. apply IH; lia.
Qed.

Lemma length_sift_up f data i : length (sift_up f data i) = length data.
Proof.
  revert data i. induction f as [|f IH]; intros data i; simpl; [done|].
  destruct (0 <? i); [|done].
  destruct (data !! heap_parent i) as [ep|], (data !! i) as [ei|]; try done.
  destruct (num_leb (key ep) (key ei)); [done|]. by rewrite IH, length_swap.
Qed.

Lemma sift_up_perm f data i : sift_up f data i ≡ₚ data.
Proof.
  revert data i. induction f as [|f IH]; intros data i; simpl; [done|].
  destruct (0 <? i); [|done].
  destruct (data !! heap_parent i) as [ep|], (data !! i) as [ei|]; try done.
  destruct (num_leb (key ep) (key ei)); [done|]. by rewrite IH, swap_perm.
Qed.

Lemma length_sift_down f data i : length (sift_down f data i) = length data.
Proof.
  revert data i. induction f as [|f IH]; intros data i; simpl; [done|].
  destruct (_ =? i); [done|]. by rewrite IH, length_swap.
Qed.

Lemma sift_down_perm f data i : sift_down f data i ≡ₚ data.
Proof.
  revert data i. induction f as [|f IH]; intros data i; simpl; [done|].
  destruct (_ =? i); [done|]. by rewrite IH, swap_perm.
Qed.

Lemma sift_down_fuel f1 f2 data i :
  length data - i <= f1 -> length data - i <= f2 ->
  sift_down f1 data i = sift_down f2 data i.
Proof.
  revert f2 data i. induction f1 as [|f1 IH]; intros f2 data i H1 H2.
  - destruct f2 as [|f2]; [done|]. simpl.
    replace (i * 2 + 1 <? length data) with false
      by (symmetry; apply Nat.ltb_ge; lia).
    replace (i * 2 + 2 <? length data) with false
      by (symmetry; apply Nat.ltb_ge; lia).
    simpl. by rewrite Nat.eqb_refl.
  - destruct f2 as [|f2].
    + simpl.
      replace (i * 2 + 1 <? length data) with false
        by (symmetry; apply Nat.ltb_ge; lia).
      replace (i * 2 + 2 <? length data) with false
        by (symmetry; apply Nat.ltb_ge; lia).
      simpl. by rewrite Nat.eqb_refl.
    + simpl.
      set (s1 := if (i * 2 + 1 <? length data) && key_lt data (i * 2 + 1) i
                 then i * 2 + 1 else i).
      set (s := if (i * 2 + 2 <? length data) && key_lt data (i * 2 + 2) s1
                then i * 2 + 2 else s1).
      destruct (s =? i) eqn:Hs; [done|]. apply Nat.eqb_neq in Hs.
      assert (i < s /\ s < length data) as [? ?].
      { subst s s1.
        destruct (i * 2 + 1 <? length data) eqn:E1,
                 (i * 2 + 2 <? length data) eqn:E2; simpl in *;
          try apply Nat.ltb_lt in E1; try apply Nat.ltb_lt in E2;
          repeat (destruct (key_lt _ _ _); simpl in * ); lia. }
      apply IH; rewrite length_swap; lia.
Qed.

Lemma heap_ordered_alt data :
  heap_ordered data <-> forall j, 0 < j -> ordered_at data j.
Proof.
  unfold heap_ordered, ordered_at, kle. split.
  - intros H j Hj ej ep Hej Hep. by apply (H j).
  - intros H j ej ep Hj Hej Hep. by apply (H j).
Qed.

Lemma sift_up_ordered f data i :
  i <= f -> i < length data -> up_inv data i -> heap_ordered (sift_up f data i).
Proof.
  revert data i. induction f as [|f IH]; intros data i Hf Hlen [Hord Hskip].
  - assert (i = 0) as -> by lia. cbn. apply heap_ordered_alt.
    intros j Hj. apply Hord; lia.
  - cbn [sift_up]. destruct (0 <? i) eqn:Hi.
    2:{ apply Nat.ltb_ge in Hi. assert (i = 0) as -> by lia.
        apply heap_ordered_alt. intros j Hj. apply Hord; lia. }
    apply Nat.ltb_lt in Hi. pose proof (parent_lt i Hi) as Hp.
    destruct (lookup_lt_is_Some_2 data (heap_parent i)) as [ep Hep]; [lia|].
    destruct (lookup_lt_is_Some_2 data i) as [ei Hei]; [lia|].
    rewrite Hep, Hei.
    destruct (num_leb (key ep) (key ei)) eqn:Hle.
    { apply heap_ordered_alt. intros j Hj.
      destruct (decide (j = i)) as [->|Hne]; [|by apply Hord].
      intros ej ep' Hj1 Hj2. unfold kle. by simplify_eq. }
    apply num_leb_false, num_ltb_leb in Hle.
    apply IH; [lia | rewrite length_swap; lia |].
    set (p := heap_parent i) in *.
    assert (Hsw : forall k, swap data p i !! k =
      if decide (k = i) then Some ep else if decide (k = p) then Some ei
      else data !! k) by (intros k; by apply lookup_swap).
    split.
    + intros j Hj Hjp ej epj. rewrite !Hsw.
      destruct (decide (j = i)) as [->|Hji].
      { fold p. rewrite decide_False by lia. rewrite decide_True by done.
        intros [= <-] [= <-]. done. }
      rewrite decide_False by done.
      destruct (decide (heap_parent j = i)) as [Hpj|Hpj].
      { intros Hj1 [= <-]. by apply (Hskip Hi j ej ep). }
      destruct (decide (heap_parent j = p)) as [Hpj'|Hpj'].
      { intros Hj1 [= <-].
        apply kle_trans with ep; [done|]. apply (Hord j); [done..|].
        by rewrite Hpj'. }
      intros Hj1 Hj2. by apply (Hord j).
    + intros Hp0 c ec epp Hc Hcp. rewrite !Hsw.
      pose proof (parent_lt p Hp0) as Hpp.
      rewrite (decide_False (P := heap_parent p = i)) by lia.
      rewrite (decide_False (P := heap_parent p = p)) by lia.
      assert (c <> p) by (pose proof (parent_lt c Hc); lia).
      rewrite (decide_False (P := c = p)) by done.
      destruct (decide (c = i)) as [->|Hci].
      { intros [= <-] Hpp'. apply (Hord p); [done | lia | done | done]. }
      intros Hc1 Hpp'. apply kle_trans with ep.
      * apply (Hord p); [done | lia | done | done].
      * apply (Hord c); [done | done | done | by rewrite Hcp].
Qed.

Lemma push_ordered h k v : heap_ordered h -> heap_ordered (push h k v).
Proof.
  intros Hh. unfold push. rewrite length_app. cbn [length].
  apply sift_up_ordered; [lia | rewrite length_app; cbn; lia |].
  replace (length h + 1 - 1) with (length h) by lia.
  split.
  - intros j Hj Hne ej ep Hj1 Hj2.
    assert (j < length h).
    { apply lookup_lt_Some in Hj1. rewrite length_app in Hj1. cbn in Hj1. lia. }
    pose proof (parent_lt j Hj).
    rewrite lookup_app_l in Hj1, Hj2 by lia. by apply (Hh j).
  - intros Hi c ec epp Hc Hcp Hc1 _.
    apply lookup_lt_Some in Hc1. rewrite length_app in Hc1. cbn in Hc1.
    pose proof (parent_lt c Hc). lia.
Qed.

Lemma push_perm h k v : push h k v ≡ₚ Entry k v :: h.
Proof.
  unfold push. rewrite sift_up_perm. by rewrite Permutation_app_comm.
Qed.

Lemma length_push h k v : length (push h k v) = S (length h).
Proof. unfold push. rewrite length_sift_up, length_app. cbn. lia. Qed.

(** What the two comparisons of [pop]'s loop select. *)
Lemma select_spec data i :
  let l := i * 2 + 1 in
  let r := i * 2 + 2 in
  let s1 := if (l <? length data) && key_lt data l i then l else i in
  let s := if (r <? length data) && key_lt data r s1 then r else s1 in
  (s = i /\
   forall c ec ei, 0 < c -> heap_parent c = i ->
     data !! c = Some ec -> data !! i = Some ei -> kle ei ec)
  \/
  (i < s /\ heap_parent s = i /\ s < length data /\
   exists es ei, data !! s = Some es /\ data !! i = Some ei /\ kle es ei /\
     forall c ec, 0 < c -> heap_parent c = i -> data !! c = Some ec -> kle es ec).
Proof.
  intros l r s1 s.
  assert (Hch : forall c, 0 < c -> heap_parent c = i -> c = l \/ c = r)
    by (intros c ? ?; by apply parent_children).
  pose proof (parent_left i) as Hpl. pose proof (parent_right i) as Hpr.
  fold l in Hpl. fold r in Hpr.
  destruct (decide (l < length data)) as [Hl|Hl].
  2:{ left. subst s s1.
      rewrite (proj2 (Nat.ltb_ge l _)), (proj2 (Nat.ltb_ge r _)) by lia.
      split; [done|]. intros c ec ei Hc Hp Hc1 _.
      apply lookup_lt_Some in Hc1. destruct (Hch c Hc Hp); lia. }
  destruct (lookup_lt_is_Some_2 data l Hl) as [el Hel].
  destruct (lookup_lt_is_Some_2 data i) as [ei Hei]; [lia|].
  assert (Hs1 : s1 = if num_ltb (key el) (key ei) then l else i).
  { subst s1. rewrite (proj2 (Nat.ltb_lt l _)) by done.
    unfold key_lt. by rewrite Hel, Hei. }
  destruct (decide (r < length data)) as [Hr|Hr].
  - destruct (lookup_lt_is_Some_2 data r Hr) as [er Her].
    assert (Hs : s = if key_lt data r s1 then r else s1).
    { subst s. by rewrite (proj2 (Nat.ltb_lt r _)) by done. }
    destruct (num_ltb (key el) (key ei)) eqn:Hli.
    + assert (Hs' : s = if num_ltb (key er) (key el) then r else l).
      { rewrite Hs, Hs1. unfold key_lt. by rewrite Her, Hel. }
      right. destruct (num_ltb (key er) (key el)) eqn:Hrl; rewrite Hs'.
      * split_and!; [lia | done | done |]. exists er, ei. split_and!; try done.
        { eapply kle_trans; by apply num_ltb_leb. }
        intros c ec Hc Hp Hc1. destruct (Hch c Hc Hp); simplify_eq.
        -- by apply num_ltb_leb.
        -- apply num_leb_refl.
      * split_and!; [lia | done | done |]. exists el, ei. split_and!; try done.
        { by apply num_ltb_leb. }
        intros c ec Hc Hp Hc1. destruct (Hch c Hc Hp); simplify_eq.
        -- apply num_leb_refl.
        -- by apply num_ltb_false.
    + assert (Hs' : s = if num_ltb (key er) (key ei) then r else i).
      { rewrite Hs, Hs1. unfold key_lt. by rewrite Her, Hei. }
      destruct (num_ltb (key er) (key ei)) eqn:Hri; rewrite Hs'.
      * right. split_and!; [lia | done | done |]. exists er, ei.
        split_and!; try done.
        { by apply num_ltb_leb. }
        intros c ec Hc Hp Hc1. destruct (Hch c Hc Hp); simplify_eq.
        -- eapply kle_trans; [by apply num_ltb_leb | by apply num_ltb_false].
        -- apply num_leb_refl.
      * left. split; [done|]. intros c ec ei' Hc Hp Hc1 Hi'.
        destruct (Hch c Hc Hp); simplify_eq; by apply num_ltb_false.
  - assert (Hs : s = s1).
    { subst s. by rewrite (proj2 (Nat.ltb_ge r _)) by lia. }
    rewrite Hs, Hs1.
    destruct (num_ltb (key el) (key ei)) eqn:Hli.
    + right. split_and!; [lia | done | done |]. exists el, ei.
      split_and!; try done.
      { by apply num_ltb_leb. }
      intros c ec Hc Hp Hc1. destruct (Hch c Hc Hp); simplify_eq.
      * apply num_leb_refl.
      * apply lookup_lt_Some in Hc1. lia.
    + left. split; [done|]. intros c ec ei' Hc Hp Hc1 Hi'.
      destruct (Hch c Hc Hp); simplify_eq.
      * by apply num_ltb_false.
      * apply lookup_lt_Some in Hc1. lia.
Qed.

Lemma sift_down_ordered f data i :
  length data - i <= f -> down_inv data i -> heap_ordered (sift_down f data i).
Proof.
  revert data i. induction f as [|f IH]; intros data i Hf [Hord Hskip].
  - cbn. apply heap_ordered_alt. intros j Hj ej ep Hj1 Hj2.
    apply (Hord j); [done | | done | done].
    apply lookup_lt_Some in Hj1. pose proof (parent_lt j Hj).
    intros Hp. apply lookup_lt_Some in Hj2. lia.
  - cbn [sift_down]. cbv zeta.
    destruct (select_spec data i) as [[Hs Hmin]|(Hlt & Hps & Hslen & es & ei & Hes & Hei & Hsi & Hmin)].
    + rewrite Hs, Nat.eqb_refl. apply heap_ordered_alt.
      intros j Hj ej ep Hj1 Hj2.
      destruct (decide (heap_parent j = i)) as [Hp|Hp].
      * rewrite Hp in Hj2. by apply (Hmin j ej ep).
      * by apply (Hord j).
    + set (s := if (i * 2 + 2 <? length data) && _ then _ else _) in *.
      rewrite (proj2 (Nat.eqb_neq s i)) by lia.
      apply IH; [rewrite length_swap; lia|].
      assert (Hsw : forall k, swap data i s !! k =
        if decide (k = s) then Some ei else if decide (k = i) then Some es
        else data !! k) by (intros k; by apply lookup_swap).
      split.
      * intros j Hj Hjp ej epj. rewrite !Hsw.
        destruct (decide (j = s)) as [->|Hjs].
        { rewrite Hps. rewrite decide_False by lia. rewrite decide_True by done.
          intros [= <-] [= <-]. done. }
        rewrite (decide_False (P := heap_parent j = s)) by done.
        destruct (decide (j = i)) as [->|Hji].
        { pose proof (parent_lt i Hj).
          rewrite decide_False by lia.
          intros [= <-] Hpp. apply (Hskip Hj s es epj); [lia | done..]. }
        destruct (decide (heap_parent j = i)) as [Hpj|Hpj].
        { intros Hj1 [= <-]. by apply (Hmin j). }
        intros Hj1 Hj2. by apply (Hord j).
      * intros Hs0 c ec epp Hc Hcp. rewrite Hps, !Hsw.
        pose proof (parent_lt c Hc).
        rewrite (decide_False (P := c = s)) by lia.
        rewrite (decide_False (P := c = i)) by lia.
        rewrite (decide_False (P := i = s)) by lia.
        rewrite decide_True by done.
        intros Hc1 [= <-]. apply (Hord c); [done | lia | done |].
        by rewrite Hcp.
Qed.

Lemma root_min h r :
  heap_ordered h -> h !! 0 = Some r ->
  forall j e, h !! j = Some e -> kle r e.
Proof.
  intros Hh Hr j. induction (lt_wf j) as [j _ IH]. intros e He.
  destruct (decide (j = 0)) as [->|Hj].
  - simplify_eq. apply num_leb_refl.
  - assert (0 < j) as Hj0 by lia. pose proof (parent_lt j Hj0) as Hp.
    destruct (lookup_lt_is_Some_2 h (heap_parent j)) as [ep Hep].
    { apply lookup_lt_Some in He. lia. }
    apply kle_trans with ep; [by apply (IH (heap_parent j)) | by apply (Hh j)].
Qed.

Lemma pop_nil h : (pop h).1 = None <-> h = [].
Proof.
  unfold pop. destruct h as [|res t]; [done|].
  destruct (list.last (res :: t)) eqn:Hlast.
  - by destruct (0 <? _).
  - by apply last_None in Hlast.
Qed.

Lemma pop_perm h e h' : pop h = (Some e, h') -> h ≡ₚ e :: h'.
Proof.
  unfold pop. destruct h as [|res t]; [done|].
  destruct (list.last (res :: t)) as [last|] eqn:Hlast; [|done].
  apply last_Some in Hlast as [l' Hl'].
  destruct l' as [|x l']; cbn in Hl'; simplify_eq.
  - cbn. by intros [= <- <-].
  - change (x :: l' ++ [last]) with ((x :: l') ++ [last]).
    rewrite removelast_last.
    change (0 <? length (x :: l')) with true. cbv iota.
    set (sd := sift_down _ _ _).
    assert (sd ≡ₚ last :: l') as Hsd by apply sift_down_perm.
    clearbody sd. intros [= <- <-]. rewrite Hsd.
    change (<[0:=last]> (x :: l')) with (last :: l').
    rewrite <- Permutation_cons_append. apply perm_swap.
Qed.

Lemma pop_ordered h : heap_ordered h -> heap_ordered (pop h).2.
Proof.
  intros Hh. unfold pop. destruct h as [|res t]; [done|].
  destruct (list.last (res :: t)) as [last|] eqn:Hlast; [|done].
  apply last_Some in Hlast as [l' Hl'].
  destruct l' as [|x l']; cbn in Hl'; simplify_eq.
  - cbn. intros j ej ep _ Hj. done.
  - change (x :: l' ++ [last]) with ((x :: l') ++ [last]) in *.
    rewrite removelast_last.
    change (0 <? length (x :: l')) with true. cbv iota.
    unfold snd. apply sift_down_ordered; [lia|].
    change (<[0:=last]> (x :: l')) with (last :: l'). split.
    + intros j Hj Hp ej ep Hj1 Hj2.
      pose proof (parent_lt j Hj).
      assert (j < length (x :: l')) by (apply lookup_lt_Some in Hj1; by cbn in * ).
      destruct j as [|j]; [lia|]. cbn in Hj1.
      apply (Hh (S j)); [done | |].
      * rewrite lookup_app_l by done. done.
      * rewrite lookup_app_l by lia.
        destruct (heap_parent (S j)) eqn:E; [done | done].
    + intros ?. lia.
Qed.

Lemma pop_min h e h' :
  heap_ordered h -> pop h = (Some e, h') -> Forall (kle e) h'.
Proof.
  intros Hh Hpop. pose proof (pop_perm _ _ _ Hpop) as Hperm.
  assert (Hroot : h !! 0 = Some e).
  { unfold pop in Hpop. destruct h as [|res t]; [done|].
    destruct (list.last (res :: t)); [|done].
    destruct (0 <? _); by simplify_eq. }
  apply Forall_forall. intros e' He'.
  assert (e' ∈ h) as Hin by (rewrite Hperm; by right).
  apply list_elem_of_lookup in Hin as [j Hj]. by apply (root_min h e Hh Hroot j).
Qed.

Lemma run_ops_ordered (ops : list (heap_op T)) h :
  heap_ordered h -> heap_ordered (run_ops ops h).2.
Proof.
  revert h. induction ops as [|[k v|] ops IH]; intros h Hh; cbn; [done| |].
  - apply IH. by apply push_ordered.
  - destruct (pop h) as [r h1] eqn:Hpop.
    specialize (IH h1). destruct (run_ops ops h1) as [rs h2]. cbn in *.
    apply IH. pose proof (pop_ordered h Hh) as Ho. by rewrite Hpop in Ho.
Qed.
End heap_facts.

(** ** Dijkstra *)

Lemma num_ltb_irrefl a : num_ltb a a = false.
Proof. destruct a; simpl; [apply Z.ltb_irrefl | done]. Qed.

Lemma num_ltb_trans a b c :
  num_ltb a b = true -> num_ltb b c = true -> num_ltb a c = true.
Proof.
  destruct a, b, c; simpl; try done.
  rewrite !Z.ltb_lt. lia.
Qed.

Lemma num_leb_ltb_trans a b c :
  num_leb a b = true -> num_ltb b c = true -> num_ltb a c = true.
Proof.
  destruct a, b, c; simpl; try done.
  rewrite Z.leb_le, !Z.ltb_lt. lia.
Qed.

Lemma dist_lt_trans d1 d2 d3 : dist_lt d1 d2 -> dist_lt d2 d3 -> dist_lt d1 d3.
Proof. unfold dist_lt. lia. Qed.

Lemma dist_lt_insert (l : list num) (i : nat) old z :
  l !! i = Some old -> num_ltb (Fin z) old = true ->
  dist_lt (<[i := Fin z]> l) l.
Proof.
  revert i. induction l as [|h t IH]; intros i Hi Hlt; [done|].
  destruct i as [|i]; cbn in Hi.
  - simplify_eq. unfold dist_lt. destruct old as [zo|]; cbn in *.
    + apply Z.ltb_lt in Hlt. right. split; [done | lia].
    + left. lia.
  - specialize (IH i Hi Hlt).
    change (<[S i:=Fin z]> (h :: t)) with (h :: <[i:=Fin z]> t).
    unfold dist_lt in *. destruct h; cbn [count_inf sum_fin]; lia.
Qed.

Lemma sum_fin_nonneg (l : list num) :
  (forall i z, l !! i = Some (Fin z) -> 0 <= z) -> 0 <= sum_fin l.
Proof.
  induction l as [|h t IH]; intros H; cbn; [done|].
  assert (0 <= sum_fin t) by (apply IH; intros i z Hi; by apply (H (S i))).
  destruct h as [z|]; [|done]. specialize (H O z eq_refl). lia.
Qed.

Lemma num_leb_antisym a b :
  num_leb a b = true -> num_leb b a = true -> a = b.
Proof.
  destruct a, b; simpl; try done.
  rewrite !Z.leb_le. intros. f_equal. lia.
Qed.

(** *** Rounding *)

Lemma round_nat_exact m : m <= 2 ^ 53 -> round_nat m = m.
Proof. intros Hm. unfold round_nat. by rewrite (proj2 (Z.leb_le _ _)). Qed.

Lemma round_nat_large m : 2 ^ 53 < m -> 2 ^ 53 <= round_nat m.
Proof.
  intros Hm. unfold round_nat. rewrite (proj2 (Z.leb_gt _ _)) by done.
  assert (53 <= Z.log2 m) as Hlog.
  { rewrite <- (Z.log2_pow2 53) by lia. apply Z.log2_le_mono. lia. }
  pose proof (Z.log2_spec m ltac:(lia)) as [Hlo _].
  set (e := Z.log2 m - 52) in *.
  assert (Z.log2 m = 52 + e) as Heq by (unfold e; lia).
  rewrite Heq, Z.pow_add_r in Hlo by lia.
  assert (2 <= 2 ^ e) as He.
  { change 2 with (2 ^ 1) at 1. apply Z.pow_le_mono_r; lia. }
  assert (2 ^ 52 <= m / 2 ^ e) as Hq.
  { apply Z.div_le_lower_bound; lia. }
  destruct (_ || _); nia.
Qed.

(** The sum of two doubles whose exact sum is not negative. *)
Lemma double_add_nonneg x y :
  0 <= x + y ->
  exists d, double_add x y = Some d /\
    (d = Inf \/
     exists z, d = Fin z /\ 0 <= z /\
       (x + y <= 2 ^ 53 -> z = x + y) /\ (z < 2 ^ 53 -> z = x + y)).
Proof.
  intros Hs. unfold double_add. rewrite Z.abs_eq by done.
  destruct (decide (x + y = 0)) as [H0|Hpos].
  - rewrite H0. cbn. eexists. split; [done|]. right. exists 0.
    split_and!; [done|lia|lia|lia].
  - rewrite Z.sgn_pos by lia.
    assert (0 <= round_nat (x + y) /\
            (x + y <= 2 ^ 53 -> round_nat (x + y) = x + y) /\
            (round_nat (x + y) < 2 ^ 53 -> round_nat (x + y) = x + y))
      as (Hr0 & Hr1 & Hr2).
    { destruct (decide (x + y <= 2 ^ 53)) as [Hle|Hgt].
      - rewrite round_nat_exact by done. lia.
      - pose proof (round_nat_large (x + y) ltac:(lia)). lia. }
    destruct (round_nat (x + y) <? 2 ^ 1024).
    + eexists. split; [done|]. right. eexists. split; [done|]. lia.
    + rewrite (proj2 (Z.ltb_lt 0 (x + y))) by lia. eexists. split; [done|].
      by left.
Qed.

(** A sum of magnitude at most [2 ^ 53] is exact. *)
Lemma double_add_exact x y :
  Z.abs (x + y) <= 2 ^ 53 -> double_add x y = Some (Fin (x + y)).
Proof.
  intros Hs. unfold double_add. rewrite round_nat_exact by done.
  rewrite (proj2 (Z.ltb_lt _ _)).
  - do 2 f_equal. destruct (Z.abs_spec (x + y)) as [[? ->]|[? ->]].
    + destruct (decide (x + y = 0)) as [->|]; [done|].
      rewrite Z.sgn_pos by lia. lia.
    + rewrite Z.sgn_neg by lia. lia.
  - apply Z.le_lt_trans with (2 ^ 53); [done|]. by apply Z.pow_lt_mono_r.
Qed.

Section dijkstra_facts.
Variable adj : graph.
Variable src : Z.
Hypothesis Hnonneg : nonneg_weights adj.

Lemma edge_nonneg u v w : edge adj u v w -> 0 <= w.
Proof.
  intros (es & Hes & Hin). apply aget_Some in Hes as [_ Hes].
  unfold nonneg_weights in Hnonneg. rewrite Forall_lookup in Hnonneg.
  specialize (Hnonneg _ _ Hes). rewrite Forall_forall in Hnonneg.
  by apply (Hnonneg (v, w)).
Qed.

Lemma walk_nonneg u v z : walk adj u v z -> 0 <= z.
Proof.
  induction 1 as [|v t w len _ IH He]; [done|].
  apply edge_nonneg in He. lia.
Qed.

Lemma edge_range u v w : edge adj u v w -> 0 <= u < Z.of_nat (length adj).
Proof. intros (es & Hes & _). by apply aget_lt in Hes. Qed.

Lemma rwalk_nonneg u v z : rwalk adj u v z -> 0 <= z.
Proof.
  induction 1 as [|v t w a z _ IH He Hadd]; [done|].
  apply edge_nonneg in He.
  destruct (double_add_nonneg a w ltac:(lia)) as (d & Hd & [->|(z' & -> & ? & _)]);
    by simplify_eq.
Qed.

(** Below [2 ^ 53] nothing was rounded. *)
Lemma rwalk_exact u v z : rwalk adj u v z -> z < 2 ^ 53 -> walk adj u v z.
Proof.
  induction 1 as [|v t w a z Hr IH He Hadd]; intros Hz; [constructor|].
  pose proof (rwalk_nonneg _ _ _ Hr) as Ha.
  pose proof (edge_nonneg _ _ _ He) as Hw.
  destruct (double_add_nonneg a w ltac:(lia))
    as (d & Hd & [->|(z' & -> & _ & _ & Hex)]); simplify_eq.
  rewrite (Hex Hz). econstructor; [|done]. apply IH. specialize (Hex Hz). lia.
Qed.

Lemma rwalk_reaches u v z : rwalk adj u v z -> exists z', walk adj u v z'.
Proof.
  induction 1 as [|v t w a z _ [z' IH] He _].
  - exists 0. constructor.
  - exists (z' + w). by econstructor.
Qed.

Lemma relax_rel_refl dist pq :
  (forall v z, aget dist v = Some (Fin z) -> rwalk adj src v z) ->
  relax_rel adj src dist pq dist pq.
Proof.
  intros Hw. split; try done.
  - intros x dx Hx. exists dx. by split; [|left].
  - intros e He. by left.
  - by left.
Qed.

Lemma relax_rel_trans d1 q1 d2 q2 d3 q3 :
  relax_rel adj src d1 q1 d2 q2 -> relax_rel adj src d2 q2 d3 q3 ->
  relax_rel adj src d1 q1 d3 q3.
Proof.
  intros [L1 M1 K1 N1 W1 P1] [L2 M2 K2 N2 W2 P2]. split.
  - congruence.
  - intros x dx Hx. destruct (M1 x dx Hx) as (dx1 & Hx1 & Hc1).
    destruct (M2 x dx1 Hx1) as (dx2 & Hx2 & Hc2).
    exists dx2. split; [done|].
    destruct Hc2 as [->|(z & -> & Hin & Hlt)].
    + destruct Hc1 as [->|(z & -> & Hin & Hlt)]; [by left|].
      right. exists z. split_and!; [done | by apply K2 | done].
    + right. exists z. split_and!; [done..|].
      destruct Hc1 as [->|(z1 & -> & _ & Hlt1)]; [done|].
      by eapply num_ltb_trans.
  - intros e He. by apply K2, K1.
  - intros e He. destruct (N2 e He) as [?|?]; [by apply N1 | right; by rewrite <- L1].
  - done.
  - destruct P1 as [[-> ->]|P1]; [done|].
    destruct P2 as [[-> ->]|P2]; right; [done|]. by eapply dist_lt_trans.
Qed.

Lemma relax_rel_le dist pq dist' pq' x dx dx' :
  relax_rel adj src dist pq dist' pq' ->
  aget dist x = Some dx -> aget dist' x = Some dx' -> num_leb dx' dx = true.
Proof.
  intros Hrel Hx Hx'. destruct (rr_mono _ _ _ _ _ _ Hrel x dx Hx) as (d & Hd & Hc).
  simplify_eq. destruct Hc as [->|(z & -> & _ & Hlt)].
  - apply num_leb_refl.
  - by apply num_ltb_leb.
Qed.

(** One successful test [dist[v] > dist[u] + w]. *)
Lemma relax_rel_update dist pq u v w zu z dv :
  (forall x z, aget dist x = Some (Fin z) -> rwalk adj src x z) ->
  edge adj u v w ->
  aget dist u = Some (Fin zu) -> aget dist v = Some dv ->
  double_add zu w = Some (Fin z) ->
  num_ltb (Fin z) dv = true ->
  relax_rel adj src dist pq (aset dist v (Fin z)) (push pq (Fin z) v).
Proof.
  intros Hw He Hu Hv Hadd Hlt.
  pose proof (aget_lt _ _ _ Hv) as Hvr.
  split.
  - apply length_aset.
  - intros x dx Hx. destruct (decide (x = v)) as [->|Hne].
    + exists (Fin z). split; [by apply aget_aset_eq|].
      right. exists z. split_and!; [done | | by simplify_eq].
      rewrite push_perm. by left.
    + exists dx. split; [by rewrite aget_aset_ne | by left].
  - intros e Hin. rewrite push_perm. by right.
  - intros e Hin. rewrite push_perm in Hin.
    apply elem_of_cons in Hin as [->|Hin]; [by right | by left].
  - intros x z' Hx. destruct (decide (x = v)) as [->|Hne].
    + rewrite aget_aset_eq in Hx by done. simplify_eq.
      econstructor; [by apply Hw | done..].
    + rewrite aget_aset_ne in Hx by done. by apply Hw.
  - right. unfold aset. rewrite decide_True by lia.
    apply aget_Some in Hv as [_ Hv]. by eapply dist_lt_insert.
Qed.

(** The [for] loop over the edges of [u]: it does not stop, and if
    [dist[u]] is at its end what it was, every edge of the list is
    relaxed. *)
Lemma relax_spec u es : forall dist pq,
  (forall x z, aget dist x = Some (Fin z) -> rwalk adj src x z) ->
  (forall v w, (v, w) ∈ es -> edge adj u v w) ->
  exists dist' pq',
    relax u es dist pq = Some (dist', pq') /\
    relax_rel adj src dist pq dist' pq' /\
    forall du, aget dist u = Some du -> aget dist' u = Some du ->
      forall v w dv nd, (v, w) ∈ es -> aget dist' v = Some dv ->
        add_weight (Some du) w = SNum nd -> num_leb dv nd = true.
Proof.
  induction es as [|[v w] es IH]; intros dist pq Hw Hes.
  - exists dist, pq. split_and!; [done | by apply relax_rel_refl |].
    intros du _ _ v w dv nd Hin. by apply elem_of_nil in Hin.
  - assert (Hedge : edge adj u v w) by (apply Hes; by left).
    assert (Hes' : forall v w, (v, w) ∈ es -> edge adj u v w)
      by (intros ? ? ?; apply Hes; by right).
    pose proof (edge_nonneg _ _ _ Hedge) as Hw0.
    (* the rounds in which [dist] stays as it is *)
    assert (Hskip :
      (forall du nd dv0, aget dist u = Some du ->
         add_weight (Some du) w = SNum nd ->
         aget dist v = Some dv0 -> num_leb dv0 nd = true) ->
      exists dist' pq',
        relax u es dist pq = Some (dist', pq') /\
        relax_rel adj src dist pq dist' pq' /\
        forall du, aget dist u = Some du -> aget dist' u = Some du ->
          forall v' w' dv nd, (v', w') ∈ (v, w) :: es ->
            aget dist' v' = Some dv ->
            add_weight (Some du) w' = SNum nd -> num_leb dv nd = true).
    { intros Hle. destruct (IH dist pq Hw Hes') as (dist' & pq' & Heq & Hrel & Hall).
      exists dist', pq'. split_and!; [done..|].
      intros du Hu Hu' v' w' dv nd Hin Hv' Hnd.
      apply elem_of_cons in Hin as [[= -> ->]|Hin]; [|by eapply Hall].
      destruct (aget_is_Some dist v) as [dv0 Hdv0].
      { apply aget_lt in Hv'. by rewrite (rr_len _ _ _ _ _ _ Hrel) in Hv'. }
      eapply num_leb_trans; [by eapply relax_rel_le|]. by eapply Hle. }
    cbn [relax]. destruct (aget dist u) as [[zu|]|] eqn:Hu; cbn [add_weight].
    + pose proof (rwalk_nonneg _ _ _ (Hw _ _ Hu)) as Hzu.
      destruct (double_add_nonneg zu w ltac:(lia)) as (d & Hd & Hcase).
      rewrite Hd. destruct d as [z|].
      * destruct (js_gt (aget dist v) (Some (Fin z))) eqn:Hgt.
        -- destruct (aget dist v) as [dv|] eqn:Hv; [|done]. cbn in Hgt.
           pose proof (relax_rel_update dist pq u v w zu z dv Hw Hedge Hu Hv Hd Hgt)
             as Hrel.
           destruct (IH (aset dist v (Fin z)) (push pq (Fin z) v))
             as (dist' & pq' & Heq & Hrel' & Hall); [apply Hrel|done|].
           exists dist', pq'. split_and!; [done | by eapply relax_rel_trans |].
           intros du [= <-] Hu' v' w' dv' nd Hin Hv' Hnd.
           assert (Hvu : v <> u).
           { intros ->. simplify_eq.
             pose proof (relax_rel_le _ _ _ _ u (Fin z) (Fin zu) Hrel') as Hle.
             rewrite aget_aset_eq in Hle by (by eapply aget_lt).
             specialize (Hle eq_refl Hu'). cbn in Hle, Hgt.
             apply Z.leb_le in Hle. apply Z.ltb_lt in Hgt. lia. }
           assert (Hu1 : aget (aset dist v (Fin z)) u = Some (Fin zu))
             by (by rewrite aget_aset_ne).
           apply elem_of_cons in Hin as [[= -> ->]|Hin];
             [|by eapply (Hall _ Hu1 Hu')].
           cbn [add_weight] in Hnd. rewrite Hd in Hnd. simplify_eq.
           eapply (relax_rel_le _ _ _ _ v (Fin z) dv' Hrel'); [|done].
           apply aget_aset_eq. by eapply aget_lt.
        -- apply Hskip. intros du nd dv0 [= <-] Hnd Hv0.
           cbn [add_weight] in Hnd. rewrite Hd in Hnd. simplify_eq.
           rewrite Hv0 in Hgt. cbn in Hgt. by apply num_ltb_false.
      * assert (js_gt (aget dist v) (Some Inf) = false) as ->.
        { by destruct (aget dist v) as [[?|]|]. }
        apply Hskip. intros du nd dv0 [= <-] Hnd _.
        cbn [add_weight] in Hnd. rewrite Hd in Hnd. simplify_eq. by destruct dv0.
    + assert (js_gt (aget dist v) (Some Inf) = false) as ->.
      { by destruct (aget dist v) as [[?|]|]. }
      apply Hskip. intros du nd dv0 [= <-] Hnd _. cbn in Hnd. simplify_eq.
      by destruct dv0.
    + apply Hskip. intros du nd dv0 Hdu. done.
Qed.

(** One round of the [while] loop. *)
Lemma dijkstra_step st :
  dijkstra_inv adj src st -> ds_pq st <> [] ->
  exists st1,
    (forall f, dijkstra_loop (S f) st = dijkstra_loop f st1) /\
    dijkstra_inv adj src st1 /\
    (dist_lt (ds_dist st1) (ds_dist st) \/
     (ds_dist st1 = ds_dist st /\ (length (ds_pq st1) < length (ds_pq st))%nat)).
Proof.
  intros [Hadj Hlen Hsrc Hwalk Hqueue Hrange] Hne.
  destruct st as [adj0 dist pq]. cbn [ds_adj ds_dist ds_pq] in *. subst adj0.
  destruct (pop pq) as [r pq1] eqn:Hpop.
  destruct r as [cur|].
  2:{ exfalso. apply Hne. apply pop_nil. by rewrite Hpop. }
  pose proof (pop_perm _ _ _ Hpop) as Hperm.
  assert (Hsize : (size pq =? 0)%nat = false).
  { apply Nat.eqb_neq. unfold size. by destruct pq. }
  assert (Hlen1 : (length pq1 < length pq)%nat).
  { rewrite Hperm. cbn. lia. }
  assert (Hur : 0 <= val cur < Z.of_nat (length adj)).
  { apply Hrange. rewrite Hperm. by left. }
  destruct (aget_is_Some dist (val cur)) as [du Hdu]; [lia|].
  destruct (js_gt (Some (key cur)) (aget dist (val cur))) eqn:Hstale.
  - exists (DijkstraState adj dist pq1). split_and!.
    + intros f. cbn [dijkstra_loop ds_pq ds_dist ds_adj].
      by rewrite Hsize, Hpop, Hstale.
    + split; cbn; try done.
      * intros x z Hx. destruct (Hqueue x z Hx) as [Hin|Hrel]; [|by right].
        left. rewrite Hperm in Hin. apply elem_of_cons in Hin as [<-|Hin]; [|done].
        cbn in Hstale. rewrite Hx in Hstale. cbn in Hstale.
        by rewrite Z.ltb_irrefl in Hstale.
      * intros e He. apply Hrange. rewrite Hperm. by right.
    + right. by cbn.
  - destruct (aget_is_Some adj (val cur)) as [es Hes]; [lia|].
    destruct (relax_spec (val cur) es dist pq1 Hwalk) as
      (dist' & pq' & Hrelax & Hrel & Hall).
    { intros v w Hin. by exists es. }
    exists (DijkstraState adj dist' pq'). split_and!.
    + intros f. cbn [dijkstra_loop ds_pq ds_dist ds_adj].
      by rewrite Hsize, Hpop, Hstale, Hes, Hrelax.
    + pose proof (rr_len _ _ _ _ _ _ Hrel) as Hlen'.
      split; cbn; try done.
      * congruence.
      * destruct (rr_mono _ _ _ _ _ _ Hrel src _ Hsrc) as (d & Hd & [->|(z & -> & _ & Hlt)]);
          [done|].
        apply (rr_walk _ _ _ _ _ _ Hrel), rwalk_nonneg in Hd.
        cbn in Hlt. apply Z.ltb_lt in Hlt. lia.
      * apply (rr_walk _ _ _ _ _ _ Hrel).
      * intros x z Hx.
        destruct (aget_is_Some dist x) as [dx Hdx].
        { apply aget_lt in Hx. lia. }
        destruct (rr_mono _ _ _ _ _ _ Hrel x dx Hdx) as (d & Hd & Hc).
        simplify_eq. destruct Hc as [Heq|(z' & [= <-] & Hin & _)]; [|by left].
        subst dx. destruct (decide (x = val cur)) as [->|Hxu].
        { right. intros v w dv nd (es' & Hes' & Hin) Hv Hnd. simplify_eq.
          rewrite Hx in Hnd. by eapply (Hall _ Hdu Hx v w). }
        destruct (Hqueue x z Hdx) as [Hin|Hrelaxed].
        { left. apply (rr_keep _ _ _ _ _ _ Hrel).
          rewrite Hperm in Hin. apply elem_of_cons in Hin as [<-|Hin]; done. }
        right. intros v w dv nd He Hv Hnd. rewrite Hx, <- Hdx in Hnd.
        destruct (aget_is_Some dist v) as [dv0 Hdv0].
        { apply aget_lt in Hv. lia. }
        eapply num_leb_trans; [by eapply relax_rel_le|].
        by apply (Hrelaxed v w).
      * intros e He. destruct (rr_new _ _ _ _ _ _ Hrel e He) as [Hin|?]; [|lia].
        apply Hrange. rewrite Hperm. by right.
    + cbn. destruct (rr_progress _ _ _ _ _ _ Hrel) as [[-> ->]|?]; [by right | by left].
Qed.

Lemma dist_nonneg st i z :
  dijkstra_inv adj src st -> ds_dist st !! i = Some (Fin z) -> 0 <= z.
Proof.
  intros Hinv Hi. apply (rwalk_nonneg src (Z.of_nat i)).
  apply (di_walk _ _ _ Hinv). apply aget_Some. split; [lia|].
  by rewrite Nat2Z.id.
Qed.

(** The loop ends, with an empty queue and the invariant. *)
Lemma dijkstra_loop_ends st :
  dijkstra_inv adj src st ->
  exists f0 st',
    (forall f, (f0 <= f)%nat -> dijkstra_loop f st = Some (Ret st')) /\
    dijkstra_inv adj src st' /\ ds_pq st' = [].
Proof.
  remember (count_inf (ds_dist st)) as a eqn:Ha.
  remember (Z.to_nat (sum_fin (ds_dist st))) as b eqn:Hb.
  remember (length (ds_pq st)) as c eqn:Hc.
  revert b c st Ha Hb Hc.
  induction (lt_wf a) as [a _ IHa]. intros b.
  induction (lt_wf b) as [b _ IHb]. intros c.
  induction (lt_wf c) as [c _ IHc]. intros st Ha Hb Hc Hinv.
  destruct (decide (ds_pq st = [])) as [Hnil|Hne].
  - exists 1%nat, st. split_and!; [|done..].
    intros [|f] ?; [lia|]. cbn. by rewrite Hnil.
  - destruct (dijkstra_step st Hinv Hne) as (st1 & Hstep & Hinv1 & Hdec).
    assert (exists f0 st', (forall f, (f0 <= f)%nat ->
              dijkstra_loop f st1 = Some (Ret st')) /\
              dijkstra_inv adj src st' /\ ds_pq st' = [])
      as (f0 & st' & Hrun & Hinv' & Hnil').
    { destruct Hdec as [[Hlt|[Heq Hlt]]|[Heq Hlt]].
      - eapply (IHa (count_inf (ds_dist st1))); [lia | done..].
      - assert (0 <= sum_fin (ds_dist st1)).
        { apply sum_fin_nonneg. intros i z. by apply dist_nonneg. }
        eapply (IHb (Z.to_nat (sum_fin (ds_dist st1)))); [lia | | done..].
        congruence.
      - eapply (IHc (length (ds_pq st1))); [lia | | | done..]; congruence. }
    exists (S f0), st'. split_and!; [|done..].
    intros [|f] ?; [lia|]. rewrite Hstep. apply Hrun. lia.
Qed.

Lemma dijkstra_init_inv :
  0 <= src < Z.of_nat (length adj) ->
  dijkstra_inv adj src (dijkstra_init adj src).
Proof.
  intros Hsrc. unfold dijkstra_init.
  assert (Hrep : forall v d, aget (aset (replicate (length adj) Inf) src (Fin 0)) v
                   = Some d -> (v = src /\ d = Fin 0) \/ d = Inf).
  { intros v d Hv. destruct (decide (v = src)) as [->|Hne].
    - rewrite aget_aset_eq in Hv by (by rewrite length_replicate). left. by simplify_eq.
    - rewrite aget_aset_ne in Hv by done. apply aget_Some in Hv as [_ Hv].
      apply lookup_replicate in Hv as [-> _]. by right. }
  split; cbn [ds_adj ds_dist ds_pq].
  - done.
  - by rewrite length_aset, length_replicate.
  - apply aget_aset_eq. by rewrite length_replicate.
  - intros v z Hv. destruct (Hrep v _ Hv) as [[-> [= ->]]|?]; [constructor | done].
  - intros x z Hx. left. destruct (Hrep x _ Hx) as [[-> [= ->]]|?]; [|done].
    rewrite push_perm. by left.
  - intros e He. rewrite push_perm in He.
    apply elem_of_cons in He as [->|He]; [done | by apply elem_of_nil in He].
Qed.

(** With an empty queue every edge is relaxed, so no walk of a length up
    to [2 ^ 53], along which every sum is exact, beats [dist]. *)
Lemma dijkstra_final_le st v z dv :
  dijkstra_inv adj src st -> ds_pq st = [] ->
  walk adj src v z -> z <= 2 ^ 53 -> aget (ds_dist st) v = Some dv ->
  num_leb dv (Fin z) = true.
Proof.
  intros Hinv Hnil Hwalk. revert dv.
  induction Hwalk as [|v t w len Hw IH He]; intros dv Hz Hv.
  - rewrite (di_src _ _ _ Hinv) in Hv. by simplify_eq.
  - pose proof (edge_nonneg _ _ _ He) as Hw0.
    destruct (aget_is_Some (ds_dist st) v) as [d Hd].
    { rewrite (di_len _ _ _ Hinv). by eapply edge_range. }
    specialize (IH d ltac:(lia) Hd). destruct d as [zv|]; [|done].
    cbn in IH. apply Z.leb_le in IH.
    pose proof (rwalk_nonneg _ _ _ (di_walk _ _ _ Hinv _ _ Hd)) as Hzv.
    destruct (di_queue _ _ _ Hinv v zv Hd) as [Hin|Hrel].
    { rewrite Hnil in Hin. by apply elem_of_nil in Hin. }
    destruct (double_add_nonneg zv w ltac:(lia))
      as (d & Hadd & [->|(z' & -> & _ & Hex & _)]).
    { (* a sum of at most [2 ^ 53] is finite *)
      exfalso. unfold double_add in Hadd.
      rewrite Z.abs_eq, round_nat_exact in Hadd by lia.
      rewrite (proj2 (Z.ltb_lt _ _)) in Hadd; [done|].
      apply Z.le_lt_trans with (2 ^ 53); [lia|]. by apply Z.pow_lt_mono_r. }
    specialize (Hrel t w dv (Fin z') He Hv). rewrite Hd in Hrel.
    cbn [add_weight] in Hrel. rewrite Hadd in Hrel. specialize (Hrel eq_refl).
    destruct dv as [zt|]; [|done].
    cbn in *. apply Z.leb_le in Hrel. apply Z.leb_le. lia.
Qed.

Lemma dijkstra_final_shortest st v :
  short_distances adj src ->
  dijkstra_inv adj src st -> ds_pq st = [] ->
  0 <= v < Z.of_nat (length adj) ->
  exists d, aget (ds_dist st) v = Some d /\ shortest_dist adj src v d.
Proof.
  intros Hshort Hinv Hnil Hv.
  destruct (aget_is_Some (ds_dist st) v) as [d Hd].
  { by rewrite (di_len _ _ _ Hinv). }
  exists d. split; [done|]. destruct d as [z|]; cbn.
  - pose proof (di_walk _ _ _ Hinv _ _ Hd) as Hr.
    destruct (rwalk_reaches _ _ _ Hr) as [z0 Hz0].
    destruct (Hshort v z0 Hz0) as (z1 & Hz1 & Hb1).
    pose proof (dijkstra_final_le st v z1 _ Hinv Hnil Hz1 Hb1 Hd) as Hle1.
    cbn in Hle1. apply Z.leb_le in Hle1.
    split.
    + destruct (decide (z < 2 ^ 53)) as [Hlt|Hge]; [by apply rwalk_exact|].
      by replace z with z1 by lia.
    + intros z' Hw'. destruct (decide (z' <= 2 ^ 53)) as [Hb|Hb]; [|lia].
      pose proof (dijkstra_final_le st v z' _ Hinv Hnil Hw' Hb Hd) as Hle.
      cbn in Hle. by apply Z.leb_le.
  - intros z' Hw. destruct (Hshort v z' Hw) as (z1 & Hz1 & Hb1).
    by pose proof (dijkstra_final_le st v z1 _ Hinv Hnil Hz1 Hb1 Hd).
Qed.
End dijkstra_facts.

(** More fuel does not change the outcome of a run that ended. *)
Lemma dijkstra_loop_mono f f' st r :
  dijkstra_loop f st = Some r -> (f <= f')%nat -> dijkstra_loop f' st = Some r.
Proof.
  revert f' st. induction f as [|f IH]; intros f' st Hrun Hle; [done|].
  destruct f' as [|f']; [lia|]. cbn [dijkstra_loop] in *.
  destruct (size (ds_pq st) =? 0)%nat; [done|].
  destruct (pop (ds_pq st)) as [[cur|] pq]; [|done].
  destruct (js_gt _ _); [apply IH; [done | lia]|].
  destruct (aget (ds_adj st) (val cur)); [|done].
  destruct (relax _ _ _ _) as [[dist pq']|]; [|done]. apply IH; [done | lia].
Qed.

(** The loop never stores into [adj]. *)
Lemma dijkstra_loop_adj f st st' :
  dijkstra_loop f st = Some (Ret st') -> ds_adj st' = ds_adj st.
Proof.
  revert st. induction f as [|f IH]; intros st Hrun; [done|].
  cbn [dijkstra_loop] in Hrun.
  destruct (size (ds_pq st) =? 0)%nat; [by simplify_eq|].
  destruct (pop (ds_pq st)) as [[cur|] pq]; [|done].
  destruct (js_gt _ _); [by apply IH in Hrun|].
  destruct (aget (ds_adj st) (val cur)); [|done].
  destruct (relax _ _ _ _) as [[dist pq']|]; [|done]. by apply IH in Hrun.
Qed.

(** ** Keys and maps of [astarGrid] *)

Lemma split_comma_no_comma s : no_comma s -> split_comma s = [s].
Proof.
  induction s as [|c s IH]; [done|]. cbn. intros [Hc Hs].
  by rewrite Hc, (IH Hs).
Qed.

Lemma split_comma_app s t :
  no_comma s -> split_comma (s +:+ "," +:+ t) = s :: split_comma t.
Proof.
  induction s as [|c s IH]; [done|]. intros [Hc Hs].
  change (split_comma (String c s +:+ "," +:+ t))
    with (if Ascii.eqb c ","%char then EmptyString :: split_comma (s +:+ "," +:+ t)
          else match split_comma (s +:+ "," +:+ t) with
               | [] => [String c EmptyString]
               | p :: ps => String c p :: ps
               end).
  by rewrite Hc, (IH Hs).
Qed.

Lemma no_comma_uint d : no_comma (NilEmpty.string_of_uint d).
Proof. induction d; cbn; auto. Qed.

Lemma no_comma_number z : no_comma (number_to_string z).
Proof.
  unfold number_to_string. destruct (Z.to_int z) as [d|d]; cbn.
  - destruct d; try apply (no_comma_uint (_ _)). by cbn.
  - split; [done|]. destruct d; try apply (no_comma_uint (_ _)). by cbn.
Qed.

Lemma number_to_string_nonempty z : number_to_string z <> ""%string.
Proof.
  unfold number_to_string. destruct (Z.to_int z) as [d|d]; cbn; [|done].
  by destruct d.
Qed.

Lemma string_to_number_to_string z :
  string_to_number (number_to_string z) = Some z.
Proof.
  unfold string_to_number.
  rewrite decide_False by apply number_to_string_nonempty.
  unfold number_to_string. rewrite NilZero.isi.
  - cbn. by rewrite DecimalZ.of_to.
  - intros Hnil. pose proof (DecimalZ.of_to z) as Hz. rewrite Hnil in Hz.
    cbn in Hz. subst z. done.
  - intros Hnil. pose proof (DecimalZ.of_to z) as Hz. rewrite Hnil in Hz.
    cbn in Hz. subst z. done.
Qed.

Lemma parse_node_key x y : parse_key (node_key x y) = Some (x, y).
Proof.
  unfold parse_key, node_key.
  rewrite split_comma_app by apply no_comma_number.
  rewrite split_comma_no_comma by apply no_comma_number.
  by rewrite !string_to_number_to_string.
Qed.

Lemma node_key_inj x y x' y' : node_key x y = node_key x' y' -> x = x' /\ y = y'.
Proof.
  intros Heq. pose proof (parse_node_key x y) as H1.
  rewrite Heq, parse_node_key in H1. by simplify_eq.
Qed.

Lemma node_key_nonempty x y : node_key x y <> ""%string.
Proof.
  intros Heq. pose proof (parse_node_key x y) as H1. by rewrite Heq in H1.
Qed.

Section jsmap_facts.
Context {V : Type}.
Implicit Types (m : jsmap V) (k : string) (v : V).

Lemma map_get_set_eq m k v : map_get (map_set m k v) k = Some v.
Proof.
  induction m as [|[k' v'] m IH]; cbn.
  - by rewrite String.eqb_refl.
  - destruct (String.eqb k' k) eqn:E; cbn; by rewrite E.
Qed.

Lemma map_get_set_ne m k k' v : k <> k' -> map_get (map_set m k v) k' = map_get m k'.
Proof.
  intros Hne. induction m as [|[k0 v0] m IH]; cbn.
  - by rewrite (proj2 (String.eqb_neq k k')).
  - destruct (String.eqb k0 k) eqn:E; cbn; [|by rewrite IH].
    apply String.eqb_eq in E. subst k0.
    by rewrite (proj2 (String.eqb_neq k k')).
Qed.

Lemma map_get_delete_eq m k : map_get (map_delete m k) k = None.
Proof.
  induction m as [|[k' v'] m IH]; cbn; [done|].
  destruct (String.eqb k' k) eqn:E; cbn; [done|]. by rewrite E.
Qed.

Lemma map_get_delete_ne m k k' : k <> k' -> map_get (map_delete m k) k' = map_get m k'.
Proof.
  intros Hne. induction m as [|[k0 v0] m IH]; cbn; [done|].
  destruct (String.eqb k0 k) eqn:E; cbn; [|by rewrite IH].
  apply String.eqb_eq in E. subst k0.
  by rewrite (proj2 (String.eqb_neq k k')).
Qed.

Lemma map_get_elem m k v : map_get m k = Some v -> (k, v) ∈ m.
Proof.
  induction m as [|[k' v'] m IH]; cbn; [done|].
  destruct (String.eqb k' k) eqn:E.
  - apply String.eqb_eq in E. intros [= ->]. subst. by left.
  - intros H. right. by apply IH.
Qed.

Lemma map_get_None m k : map_get m k = None <-> k ∉ m.*1.
Proof.
  induction m as [|[k' v'] m IH]; cbn.
  - split; [intros _; apply not_elem_of_nil | done].
  - rewrite not_elem_of_cons. destruct (String.eqb k' k) eqn:E.
    + apply String.eqb_eq in E. split; [done | by intros [? _]].
    + apply String.eqb_neq in E. rewrite IH. split; [by intros ? | by intros [_ ?]].
Qed.

Lemma elem_map_get m k v : NoDup m.*1 -> (k, v) ∈ m -> map_get m k = Some v.
Proof.
  induction m as [|[k' v'] m IH]; cbn; intros Hnd Hin.
  - by apply elem_of_nil in Hin.
  - apply NoDup_cons in Hnd as [Hk' Hnd].
    apply elem_of_cons in Hin as [[= <- <-]|Hin].
    + by rewrite String.eqb_refl.
    + destruct (String.eqb k' k) eqn:E; [|by apply IH].
      apply String.eqb_eq in E. subst k'. exfalso. apply Hk'.
      apply list_elem_of_fmap. by exists (k, v).
Qed.

Lemma map_set_keys m k v :
  (map_set m k v).*1 = match map_get m k with Some _ => m.*1 | None => m.*1 ++ [k] end.
Proof.
  induction m as [|[k' v'] m IH]; cbn; [done|].
  destruct (String.eqb k' k) eqn:E; cbn; [done|].
  rewrite IH. by destruct (map_get m k).
Qed.

Lemma map_set_nodup m k v : NoDup m.*1 -> NoDup (map_set m k v).*1.
Proof.
  intros Hnd. rewrite map_set_keys. destruct (map_get m k) eqn:E; [done|].
  apply NoDup_app. split_and!; [done | | apply NoDup_singleton].
  intros x Hx ->%list_elem_of_singleton. by apply map_get_None in E.
Qed.

Lemma map_delete_elem m k k' v : (k', v) ∈ map_delete m k <-> (k', v) ∈ m /\ k' <> k.
Proof.
  induction m as [|[k0 v0] m IH]; cbn.
  - split; [by intros ?%elem_of_nil | by intros [?%elem_of_nil _]].
  - destruct (String.eqb k0 k) eqn:E.
    + apply String.eqb_eq in E. subst k0. rewrite IH, elem_of_cons. split.
      * intros [? ?]. split; [by right | done].
      * intros [[[= -> ->]|?] ?]; done.
    + apply String.eqb_neq in E. rewrite !elem_of_cons, IH. split.
      * intros [[= -> ->]|[? ?]]; [split; [by left | congruence] | split; [by right | done]].
      * intros [[[= -> ->]|?] ?]; [by left | by right].
Qed.

Lemma map_delete_nodup m k : NoDup m.*1 -> NoDup (map_delete m k).*1.
Proof.
  induction m as [|[k0 v0] m IH]; cbn; [done|].
  intros [Hk Hnd]%NoDup_cons. destruct (String.eqb k0 k); [by apply IH|].
  cbn. apply NoDup_cons. split; [|by apply IH].
  intros Hin. apply Hk. apply list_elem_of_fmap in Hin as [[k1 v1] [-> Hin]].
  apply map_delete_elem in Hin as [Hin _]. apply list_elem_of_fmap. by exists (k1, v1).
Qed.

Lemma map_delete_length m k : (length (map_delete m k) <= length m)%nat.
Proof.
  induction m as [|[k0 v0] m IH]; cbn; [done|].
  destruct (String.eqb k0 k); cbn; lia.
Qed.

Lemma map_delete_length_lt m k v :
  (k, v) ∈ m -> (length (map_delete m k) < length m)%nat.
Proof.
  induction m as [|[k0 v0] m IH]; cbn; intros Hin.
  - by apply elem_of_nil in Hin.
  - destruct (String.eqb k0 k) eqn:E.
    + pose proof (map_delete_length m k). lia.
    + apply String.eqb_neq in E.
      apply elem_of_cons in Hin as [[= -> ->]|Hin]; [done|].
      cbn. specialize (IH Hin). lia.
Qed.

End jsmap_facts.

(** ** The measure of [astarGrid] *)

Lemma sum_g_set (g : jsmap num) k zo z :
  map_get g k = Some (Fin zo) -> sum_g (map_set g k (Fin z)) = sum_g g - zo + z.
Proof.
  induction g as [|[k' v'] g IH]; cbn; [done|].
  destruct (String.eqb k' k) eqn:E.
  - intros [= ->]. cbn. lia.
  - intros Hg. cbn. rewrite (IH Hg). destruct v'; lia.
Qed.

Lemma sum_g_nonneg (g : jsmap num) :
  Forall (fun p => exists z, p.2 = Fin z /\ 0 <= z) g -> 0 <= sum_g g.
Proof.
  induction 1 as [|[k v] g (z & Hv & Hz) _ IH]; cbn; [done|].
  cbn in Hv. subst v. lia.
Qed.

Lemma Forall_map_set {V} (P : string * V -> Prop) (m : jsmap V) k v :
  (forall k', P (k', v)) -> Forall P m -> Forall P (map_set m k v).
Proof.
  intros Hv. induction 1 as [|[k' v'] m Hp Hm IH]; cbn.
  - by constructor.
  - destruct (String.eqb k' k); constructor; auto.
Qed.

Lemma filter_length_lt {A} (P P' : A -> Prop)
    `{!forall x, Decision (P x)} `{!forall x, Decision (P' x)} (l : list A) x0 :
  (forall x, P' x -> P x) -> x0 ∈ l -> P x0 -> ~ P' x0 ->
  (length (filter P' l) < length (filter P l))%nat.
Proof.
  intros Himp Hin HP HP'.
  assert (Hle : forall l', (length (filter P' l') <= length (filter P l'))%nat).
  { induction l' as [|a l' IH]; [done|]. rewrite !filter_cons.
    destruct (decide (P' a)) as [Ha|Ha].
    - rewrite decide_True by auto. cbn. lia.
    - destruct (decide (P a)); cbn; lia. }
  induction l as [|a l IH]; [by apply elem_of_nil in Hin|].
  rewrite !filter_cons. apply elem_of_cons in Hin as [<-|Hin].
  - destruct (decide (P' x0)); [done|]. destruct (decide (P x0)); [|done].
    cbn. specialize (Hle l). lia.
  - specialize (IH Hin). destruct (decide (P' a)) as [Ha|Ha].
    + rewrite decide_True by auto. cbn. lia.
    + destruct (decide (P a)); cbn; lia.
Qed.

Lemma missing_set_same cells (g : jsmap num) k v :
  is_Some (map_get g k) -> missing cells (map_set g k v) = missing cells g.
Proof.
  intros [v0 Hv0]. unfold missing. f_equal. apply list_filter_iff. intros c.
  destruct (decide (k = ckey c)) as [<-|Hne].
  - rewrite map_get_set_eq, Hv0. done.
  - by rewrite map_get_set_ne.
Qed.

Lemma missing_set_new cells (g : jsmap num) n v :
  map_get g (ckey n) = None -> n ∈ cells ->
  (missing cells (map_set g (ckey n) v) < missing cells g)%nat.
Proof.
  intros Hnone Hin. unfold missing.
  apply (filter_length_lt _ _ cells n); [|done|done|].
  - intros c Hc. destruct (decide (ckey n = ckey c)) as [<-|Hne]; [done|].
    by rewrite map_get_set_ne in Hc.
  - by rewrite map_get_set_eq.
Qed.

Lemma astar_lt_trans cells g1 g2 g3 :
  astar_lt cells g1 g2 -> astar_lt cells g2 g3 -> astar_lt cells g1 g3.
Proof. unfold astar_lt. lia. Qed.

Lemma ckey_inj c c' : ckey c = ckey c' -> c = c'.
Proof.
  destruct c, c'. unfold ckey. cbn. intros [-> ->]%node_key_inj. done.
Qed.

Lemma parse_ckey c : parse_key (ckey c) = Some c.
Proof. destruct c. apply parse_node_key. Qed.

(** ** Geometry of the grid *)

Lemma adjacent_dirs c c' :
  adjacent c c' <-> exists d, d ∈ dirs /\ c' = (c.1 + d.1, c.2 + d.2).
Proof.
  destruct c as [x y], c' as [x' y']. unfold adjacent, dirs. cbn. split.
  - intros Hadj.
    assert ((x' = x + 1 /\ y' = y) \/ (x' = x - 1 /\ y' = y) \/
            (x' = x /\ y' = y + 1) \/ (x' = x /\ y' = y - 1))
      as [[-> ->]|[[-> ->]|[[-> ->]|[-> ->]]]] by lia.
    + exists (1, 0). split; [by repeat constructor|]. cbn. f_equal; lia.
    + exists (-1, 0). split; [by repeat constructor|]. cbn. f_equal; lia.
    + exists (0, 1). split; [by repeat constructor|]. cbn. f_equal; lia.
    + exists (0, -1). split; [by repeat constructor|]. cbn. f_equal; lia.
  - intros ([dx dy] & Hd & [= -> ->]).
    repeat (apply elem_of_cons in Hd as [[= -> ->]|Hd]); cbn; try lia.
    by apply elem_of_nil in Hd.
Qed.

Lemma adjacent_sym c c' : adjacent c c' -> adjacent c' c.
Proof. unfold adjacent. lia. Qed.

Lemma h_adjacent goal c c' :
  adjacent c c' -> h goal c.1 c.2 <= h goal c'.1 c'.2 + 1.
Proof. unfold adjacent, h. lia. Qed.

Lemma h_le_steps grid goal c q :
  steps grid c q -> list.last (c :: q) = Some goal ->
  h goal c.1 c.2 <= Z.of_nat (length q).
Proof.
  revert c. induction q as [|c' q IH]; intros c Hsteps Hlast.
  - cbn in Hlast. simplify_eq. unfold h. cbn. lia.
  - destruct Hsteps as (Hadj & _ & Hsteps).
    specialize (IH c' Hsteps). rewrite last_cons_cons in Hlast.
    specialize (IH Hlast). pose proof (h_adjacent goal c c' Hadj). cbn [length]. lia.
Qed.

Lemma h_goal goal : h goal goal.1 goal.2 = 0.
Proof. unfold h. lia. Qed.

Lemma steps_snoc grid c q c1 c2 :
  steps grid c q -> list.last (c :: q) = Some c1 ->
  adjacent c1 c2 -> free_cell grid c2 -> steps grid c (q ++ [c2]).
Proof.
  revert c. induction q as [|c' q IH]; intros c Hsteps Hlast Hadj Hfree.
  - cbn in Hlast. simplify_eq. cbn. done.
  - destruct Hsteps as (Hadj' & Hfree' & Hsteps).
    change (adjacent c c' /\ free_cell grid c' /\ steps grid c' (q ++ [c2])).
    split; [done|]. split; [done|].
    by apply IH.
Qed.

Lemma map_set_elem {V} (m : jsmap V) k v k' v' :
  NoDup m.*1 -> (k', v') ∈ map_set m k v ->
  (k' = k /\ v' = v) \/ ((k', v') ∈ m /\ k' <> k).
Proof.
  intros Hnd Hin. apply elem_map_get in Hin; [|by apply map_set_nodup].
  destruct (decide (k = k')) as [->|Hne].
  - rewrite map_get_set_eq in Hin. left. by simplify_eq.
  - rewrite map_get_set_ne in Hin by done. right. split; [|done].
    by apply map_get_elem.
Qed.

(** ** The loop of [astarGrid] *)

Section astar_facts.
Variables (grid : list (list Z)) (start goal : Z * Z) (row0 : list Z).
Hypothesis Hrow0 : grid !! 0%nat = Some row0.
Hypothesis Hrect : rectangular grid.

Local Abbreviation R := (Z.of_nat (length grid)).
Local Abbreviation C := (Z.of_nat (length row0)).
Local Abbreviation cells := (all_cells grid start).

Lemma row_length x row : aget grid x = Some row -> length row = length row0.
Proof.
  intros [_ Hrow]%aget_Some. specialize (Hrect row0 Hrow0).
  rewrite Forall_lookup in Hrect. by apply (Hrect _ _ Hrow).
Qed.

Lemma free_inBounds c : free_cell grid c -> inBounds R C c.1 c.2 = true.
Proof.
  intros (row & v & Hrow & Hv & _). pose proof (row_length _ _ Hrow) as Hlen.
  apply aget_lt in Hrow. apply aget_lt in Hv. rewrite Hlen in Hv.
  unfold inBounds. rewrite !andb_true_iff, !Z.leb_le, !Z.ltb_lt. lia.
Qed.

Lemma inBounds_row x y :
  inBounds R C x y = true -> exists row, aget grid x = Some row.
Proof.
  unfold inBounds. rewrite !andb_true_iff, !Z.leb_le, !Z.ltb_lt. intros ?.
  apply (aget_is_Some grid x). lia.
Qed.

Lemma inBounds_free x y row :
  inBounds R C x y = true -> aget grid x = Some row ->
  is_blocked (aget row y) = false -> free_cell grid (x, y).
Proof.
  intros Hin Hrow Hb. pose proof (row_length _ _ Hrow) as Hlen.
  unfold inBounds in Hin. rewrite !andb_true_iff, !Z.leb_le, !Z.ltb_lt in Hin.
  destruct (aget_is_Some row y) as [v Hv]; [lia|].
  exists row, v. split_and!; [done..|]. intros ->. by rewrite Hv in Hb.
Qed.

Lemma blocked_not_free x y row :
  aget grid x = Some row -> is_blocked (aget row y) = true -> ~ free_cell grid (x, y).
Proof.
  intros Hrow Hb (row' & v & Hrow' & Hv & Hne). cbn in *. simplify_eq.
  rewrite Hv in Hb. cbn in Hb. destruct v as [|[| |]|]; done.
Qed.

Lemma inBounds_cells x y : inBounds R C x y = true -> (x, y) ∈ cells.
Proof.
  unfold inBounds. rewrite !andb_true_iff, !Z.leb_le, !Z.ltb_lt. intros ?.
  unfold all_cells. rewrite Hrow0. change (default [] (Some row0)) with row0. right.
  apply list_elem_of_bind. exists x. split; [|apply elem_of_seqZ; lia].
  apply list_elem_of_bind. exists y. split; [|apply elem_of_seqZ; lia].
  by left.
Qed.

(** The body of [if (tentativeG < ...) { ... }]. *)
Lemma astar_update_spec st cur zc n :
  astar_inv grid start goal (Some cur) st ->
  map_get (as_open st) (ckey cur) = None ->
  map_get (as_gScore st) (ckey cur) = Some (Fin zc) ->
  adjacent cur n -> free_cell grid n ->
  (map_get (as_gScore st) (ckey n) = None \/
   exists zo, map_get (as_gScore st) (ckey n) = Some (Fin zo) /\ zc + 1 < zo) ->
  let st' := AstarState (as_grid st)
               (map_set (as_open st) (ckey n) (Fin (zc + 1 + h goal n.1 n.2)))
               (map_set (as_gScore st) (ckey n) (Fin (zc + 1)))
               (map_set (as_parent st) (ckey n) (Some (ckey cur))) in
  astar_inv grid start goal (Some cur) st' /\
  map_get (as_open st') (ckey cur) = None /\
  map_get (as_gScore st') (ckey cur) = Some (Fin zc) /\
  astar_rel cells st st'.
Proof.
  intros [Hgrid Hnd Hopen [Hs1 Hs2] Hg Hnn Hrel Hgoal] Hco Hcg Hadj Hfree Hlt st'.
  destruct st as [grid0 open g parent]. cbn [as_grid as_open as_gScore as_parent] in *.
  subst grid0.
  assert (Hzc : 0 <= zc).
  { destruct (Hg _ _ Hcg) as (c & z & _ & [= <-] & Hz & _). done. }
  assert (Hncur : ckey n <> ckey cur).
  { intros Heq%ckey_inj. subst. unfold adjacent in Hadj. lia. }
  assert (Hnstart : ckey n <> ckey start).
  { intros Heq. rewrite Heq, Hs1 in Hlt. destruct Hlt as [?|(zo & [= <-] & ?)]; [done | lia]. }
  assert (Hmono : forall k z, map_get g k = Some (Fin z) ->
            exists z', map_get (map_set g (ckey n) (Fin (zc + 1))) k = Some (Fin z') /\ z' <= z).
  { intros k z Hk. destruct (decide (ckey n = k)) as [<-|Hne].
    - rewrite map_get_set_eq. exists (zc + 1). split; [done|].
      destruct Hlt as [Hnone|(zo & Hzo & ?)]; [congruence|]. simplify_eq. lia.
    - rewrite map_get_set_ne by done. exists z. split; [done | lia]. }
  subst st'. split_and!.
  - split; cbn [as_grid as_open as_gScore as_parent].
    + done.
    + by apply map_set_nodup.
    + intros k f Hin. apply map_set_elem in Hin; [|done].
      destruct Hin as [[-> ->]|[Hin Hne]].
      * exists n, (zc + 1). by rewrite map_get_set_eq.
      * destruct (Hopen k f Hin) as (c & z & -> & Hgc & ->).
        exists c, z. by rewrite map_get_set_ne.
    + by rewrite !map_get_set_ne.
    + intros k gv. destruct (decide (ckey n = k)) as [<-|Hne].
      * rewrite map_get_set_eq. intros [= <-]. exists n, (zc + 1).
        split_and!; [done | done | lia |]. right. exists cur, zc.
        rewrite map_get_set_eq, map_get_set_ne by done. split_and!; [done..|lia].
      * rewrite map_get_set_ne by done. intros Hk.
        destruct (Hg k gv Hk) as (c & z & -> & -> & Hz & Hc).
        exists c, z. split_and!; [done..|].
        destruct Hc as [->|(c' & z' & Hp & Hadj' & Hfree' & Hg' & Hle)]; [by left|].
        right. destruct (Hmono _ _ Hg') as (z'' & Hg'' & Hle').
        exists c', z''. rewrite map_get_set_ne by done.
        split_and!; [done..|lia].
    + apply Forall_map_set; [|done]. intros k'. exists (zc + 1). cbn. split; [done | lia].
    + intros c z Hc Hgc Hoc.
      assert (ckey n <> ckey c) as Hne.
      { intros Heq. by rewrite <- Heq, map_get_set_eq in Hoc. }
      rewrite map_get_set_ne in Hgc, Hoc by done.
      intros c' Hadj' Hfree'.
      destruct (Hrel c z Hc Hgc Hoc c' Hadj' Hfree') as (z' & Hz' & Hle).
      destruct (Hmono _ _ Hz') as (z'' & Hz'' & Hle'). exists z''. split; [done | lia].
    + intros gv. destruct (decide (ckey n = ckey goal)) as [<-|Hne].
      * rewrite !map_get_set_eq. intros _. by eexists.
      * rewrite !map_get_set_ne by done. apply Hgoal.
  - cbn. by rewrite map_get_set_ne.
  - cbn. by rewrite map_get_set_ne.
  - split; cbn [as_gScore]; [done|]. right.
    destruct Hlt as [Hnone|(zo & Hzo & Hlt)].
    + left. apply missing_set_new; [done|].
      destruct n. apply inBounds_cells. by apply (free_inBounds (_, _)).
    + right. split.
      * apply missing_set_same. by rewrite Hzo.
      * rewrite (sum_g_set _ _ zo) by done. lia.
Qed.

Lemma astar_rel_refl st : astar_rel cells st st.
Proof.
  split; [|by left]. intros k z Hk. exists z. split; [done | lia].
Qed.

Lemma astar_rel_trans st1 st2 st3 :
  astar_rel cells st1 st2 -> astar_rel cells st2 st3 -> astar_rel cells st1 st3.
Proof.
  intros [M1 P1] [M2 P2]. split.
  - intros k z Hk. destruct (M1 k z Hk) as (z1 & Hk1 & Hle1).
    destruct (M2 k z1 Hk1) as (z2 & Hk2 & Hle2). exists z2. split; [done | lia].
  - destruct P1 as [->|P1]; [done|]. destruct P2 as [->|P2]; [by right|].
    right. by eapply astar_lt_trans.
Qed.

(** One round of the loop over [dirs], for the cell [cur] under expansion. *)
Lemma astar_neighbor_spec st cur zc d :
  astar_inv grid start goal (Some cur) st ->
  map_get (as_open st) (ckey cur) = None ->
  map_get (as_gScore st) (ckey cur) = Some (Fin zc) ->
  d ∈ dirs ->
  exists st',
    astar_neighbor goal R C cur.1 cur.2 (ckey cur) (Some (Fin zc)) st d = Ret st' /\
    astar_inv grid start goal (Some cur) st' /\
    map_get (as_open st') (ckey cur) = None /\
    map_get (as_gScore st') (ckey cur) = Some (Fin zc) /\
    astar_rel cells st st' /\
    (free_cell grid (cur.1 + d.1, cur.2 + d.2) ->
     exists z', map_get (as_gScore st') (ckey (cur.1 + d.1, cur.2 + d.2)) = Some (Fin z') /\
       z' <= zc + 1).
Proof.
  intros Hinv Hco Hcg Hd.
  assert (Hadj : adjacent cur (cur.1 + d.1, cur.2 + d.2)).
  { apply adjacent_dirs. by exists d. }
  set (n := (cur.1 + d.1, cur.2 + d.2)) in *.
  assert (Hsame : astar_inv grid start goal (Some cur) st /\
            map_get (as_open st) (ckey cur) = None /\
            map_get (as_gScore st) (ckey cur) = Some (Fin zc) /\
            astar_rel cells st st) by (split_and!; [done..|apply astar_rel_refl]).
  pose proof (ai_grid _ _ _ _ _ Hinv) as Hgrid.
  destruct st as [grid0 open g parent].
  cbn [as_grid as_open as_gScore as_parent] in *. subst grid0.
  unfold astar_neighbor. cbv zeta.
  change (cur.1 + d.1) with n.1. change (cur.2 + d.2) with n.2.
  destruct (inBounds R C n.1 n.2) eqn:Hin; cbn [negb].
  2:{ eexists. split; [done|]. destruct Hsame as (? & ? & ? & ?).
      split_and!; [done..|]. intros Hfree%free_inBounds. congruence. }
  cbn [as_grid as_open as_gScore as_parent].
  destruct (inBounds_row _ _ Hin) as [row Hrow]. rewrite Hrow.
  destruct (is_blocked (aget row n.2)) eqn:Hb.
  { eexists. split; [done|]. destruct Hsame as (? & ? & ? & ?).
    split_and!; [done..|]. intros Hfree. exfalso.
    by apply (blocked_not_free n.1 n.2 row). }
  assert (Hfree : free_cell grid n) by (by apply (inBounds_free n.1 n.2 row)).
  cbn [js_add num_add js_gt].
  change (node_key n.1 n.2) with (ckey n).
  destruct (map_get g (ckey n)) as [gv|] eqn:Hgn.
  - destruct (ai_g _ _ _ _ _ Hinv _ _ Hgn) as (c0 & zo & _ & -> & Hzo & _).
    cbv [from_option id]. cbn [num_ltb]. destruct (zc + 1 <? zo) eqn:Hlt.
    + apply Z.ltb_lt in Hlt.
      destruct (astar_update_spec _ cur zc n Hinv Hco Hcg Hadj Hfree)
        as (Hinv' & Hco' & Hcg' & Hrel').
      { right. by exists zo. }
      eexists. split; [done|]. split_and!; [done..|].
      intros _. exists (zc + 1). cbn. by rewrite map_get_set_eq.
    + apply Z.ltb_ge in Hlt. eexists. split; [done|].
      destruct Hsame as (? & ? & ? & ?). split_and!; [done..|].
      intros _. by exists zo.
  - cbv [from_option id]. cbn [num_ltb].
    destruct (astar_update_spec _ cur zc n Hinv Hco Hcg Hadj Hfree)
      as (Hinv' & Hco' & Hcg' & Hrel').
    { by left. }
    eexists. split; [done|]. split_and!; [done..|].
    intros _. exists (zc + 1). cbn. by rewrite map_get_set_eq.
Qed.

Lemma astar_neighbors_spec st cur zc ds :
  astar_inv grid start goal (Some cur) st ->
  map_get (as_open st) (ckey cur) = None ->
  map_get (as_gScore st) (ckey cur) = Some (Fin zc) ->
  (forall d, d ∈ ds -> d ∈ dirs) ->
  exists st',
    astar_neighbors goal R C cur.1 cur.2 (ckey cur) (Some (Fin zc)) st ds = Ret st' /\
    astar_inv grid start goal (Some cur) st' /\
    map_get (as_open st') (ckey cur) = None /\
    map_get (as_gScore st') (ckey cur) = Some (Fin zc) /\
    astar_rel cells st st' /\
    (forall d, d ∈ ds -> free_cell grid (cur.1 + d.1, cur.2 + d.2) ->
     exists z', map_get (as_gScore st') (ckey (cur.1 + d.1, cur.2 + d.2)) = Some (Fin z') /\
       z' <= zc + 1).
Proof.
  revert st. induction ds as [|d ds IH]; intros st Hinv Hco Hcg Hds.
  - exists st. split_and!; [done.. | apply astar_rel_refl |].
    intros d Hd. by apply elem_of_nil in Hd.
  - destruct (astar_neighbor_spec st cur zc d Hinv Hco Hcg)
      as (st1 & Hstep & Hinv1 & Hco1 & Hcg1 & Hrel1 & Hd1).
    { apply Hds. by left. }
    destruct (IH st1 Hinv1 Hco1 Hcg1) as (st' & Hrun & Hinv' & Hco' & Hcg' & Hrel' & Hds').
    { intros d' Hd'. apply Hds. by right. }
    exists st'. cbn [astar_neighbors]. rewrite Hstep.
    split_and!; [done.. | by eapply astar_rel_trans |].
    intros d' [->|Hd']%elem_of_cons Hfree; [|by apply Hds'].
    destruct (Hd1 Hfree) as (z1 & Hz1 & Hle1).
    destruct (ar_mono _ _ _ Hrel' _ _ Hz1) as (z' & Hz' & Hle').
    exists z'. split; [done | lia].
Qed.

Lemma scan_min_spec (open : jsmap num) ck cf :
  num_leb (scan_min open ck cf).2 cf = true /\
  (forall k' f', (k', f') ∈ open -> num_leb (scan_min open ck cf).2 f' = true) /\
  (scan_min open ck cf = (ck, cf) \/
   exists k, (scan_min open ck cf).1 = Some k /\ (k, (scan_min open ck cf).2) ∈ open).
Proof.
  revert ck cf. induction open as [|[k f] open IH]; intros ck cf; cbn [scan_min].
  - split_and!; [apply num_leb_refl | | by left].
    intros k' f' Hin. by apply elem_of_nil in Hin.
  - destruct (num_ltb f cf) eqn:Hlt.
    + destruct (IH (Some k) f) as (Hle & Hall & Hor). split_and!.
      * eapply num_leb_trans; [done | by apply num_ltb_leb].
      * intros k' f' [[= -> ->]|Hin]%elem_of_cons; [done | by apply (Hall k')].
      * right. destruct Hor as [->|(k1 & Hk1 & Hin)].
        -- exists k. split; [done | by left].
        -- exists k1. split; [done | by right].
    + destruct (IH ck cf) as (Hle & Hall & Hor). split_and!; [done | |].
      * intros k' f' [[= -> ->]|Hin]%elem_of_cons; [|by apply (Hall k')].
        eapply num_leb_trans; [done | by apply num_ltb_false].
      * destruct Hor as [->|(k1 & Hk1 & Hin)]; [by left|].
        right. exists k1. split; [done | by right].
Qed.

Lemma astar_inv_pop st cur :
  astar_inv grid start goal None st -> cur <> goal ->
  astar_inv grid start goal (Some cur)
    (AstarState (as_grid st) (map_delete (as_open st) (ckey cur))
       (as_gScore st) (as_parent st)).
Proof.
  intros [Hgrid Hnd Hopen Hs Hg Hnn Hrel Hgoal] Hne.
  split; cbn [as_grid as_open as_gScore as_parent]; try done.
  - by apply map_delete_nodup.
  - intros k f [Hin _]%map_delete_elem. by apply Hopen.
  - intros c z Hc Hgc Hoc. apply Hrel; [done | done |].
    rewrite map_get_delete_ne in Hoc; [done|].
    intros Heq%ckey_inj. by subst.
  - intros gv Hgv. rewrite map_get_delete_ne; [by eapply Hgoal|].
    intros Heq%ckey_inj. by subst.
Qed.

Lemma astar_inv_close st cur zc :
  astar_inv grid start goal (Some cur) st ->
  map_get (as_gScore st) (ckey cur) = Some (Fin zc) ->
  (forall d, d ∈ dirs -> free_cell grid (cur.1 + d.1, cur.2 + d.2) ->
     exists z', map_get (as_gScore st) (ckey (cur.1 + d.1, cur.2 + d.2)) = Some (Fin z') /\
       z' <= zc + 1) ->
  astar_inv grid start goal None st.
Proof.
  intros [Hgrid Hnd Hopen Hs Hg Hnn Hrel Hgoal] Hcg Hdirs.
  split; try done. intros c z _ Hgc Hoc.
  destruct (decide (c = cur)) as [->|Hne].
  - intros c' [d [Hd ->]]%adjacent_dirs Hfree. simplify_eq. by apply Hdirs.
  - apply Hrel; [congruence | done..].
Qed.

(** Following the [parent] links from a scored cell: the loop of the path
    reconstruction ends at [start], and the cells it lists, reversed, are
    steps from [start]. *)
Lemma reconstruct_spec st skip n c z :
  astar_inv grid start goal skip st ->
  map_get (as_gScore st) (ckey c) = Some (Fin z) -> z <= Z.of_nat n ->
  exists chain q,
    (forall fuel acc, (n + 2 <= fuel)%nat ->
       reconstruct fuel (as_parent st) (Some (ckey c)) acc = Some (acc ++ chain)) /\
    rev chain = start :: q /\ steps grid start q /\
    list.last (start :: q) = Some c /\
    Z.of_nat (length chain) <= z + 1.
Proof.
  intros Hinv. revert c z. induction n as [|n IH]; intros c z Hgc Hz.
  - destruct (ai_g _ _ _ _ _ Hinv _ _ Hgc) as (c0 & z0 & Hk & [= <-] & Hz0 & Hc).
    apply ckey_inj in Hk. subst c0.
    destruct Hc as [->|(c' & z' & _ & _ & _ & Hg' & Hle)].
    2:{ destruct (ai_g _ _ _ _ _ Hinv _ _ Hg') as (_ & z1 & _ & [= <-] & Hz1 & _). lia. }
    exists [start], []. split_and!; [|done|done|done|cbn; lia].
    intros [|[|fuel]] acc Hf; [lia | lia |]. cbn [reconstruct].
    rewrite decide_False by apply node_key_nonempty.
    rewrite parse_ckey. by rewrite (proj2 (ai_start _ _ _ _ _ Hinv)).
  - destruct (ai_g _ _ _ _ _ Hinv _ _ Hgc) as (c0 & z0 & Hk & [= <-] & Hz0 & Hc).
    apply ckey_inj in Hk. subst c0.
    destruct Hc as [->|(c' & z' & Hp & Hadj & Hfree & Hg' & Hle)].
    + exists [start], []. split_and!; [|done|done|done|cbn; lia].
      intros [|[|fuel]] acc Hf; [lia | lia |]. cbn [reconstruct].
      rewrite decide_False by apply node_key_nonempty.
      rewrite parse_ckey. by rewrite (proj2 (ai_start _ _ _ _ _ Hinv)).
    + destruct (IH c' z' Hg') as (chain & q & Hrec & Hrev & Hsteps & Hlast & Hlen); [lia|].
      exists (c :: chain), (q ++ [c]). split_and!.
      * intros [|fuel] acc Hf; [lia|]. cbn [reconstruct].
        rewrite decide_False by apply node_key_nonempty.
        rewrite parse_ckey, Hp. cbn [default from_option id].
        rewrite Hrec by lia. by rewrite <- app_assoc.
      * cbn [rev]. by rewrite Hrev.
      * by eapply steps_snoc.
      * change (start :: q ++ [c]) with ((start :: q) ++ [c]). apply last_snoc.
      * cbn [length]. lia.
Qed.

(** Along any sequence of steps to [goal], either some cell is still open
    with an [f] value of at most the length of the sequence, or [goal] has
    been closed with a score of at most that length. *)
Lemma astar_frontier st q c i z :
  astar_inv grid start goal None st ->
  steps grid c q -> list.last (c :: q) = Some goal ->
  map_get (as_gScore st) (ckey c) = Some (Fin z) -> z <= i ->
  (exists k zf, (k, Fin zf) ∈ as_open st /\ zf <= i + Z.of_nat (length q)) \/
  (exists zt, map_get (as_gScore st) (ckey goal) = Some (Fin zt) /\
     zt <= i + Z.of_nat (length q) /\ map_get (as_open st) (ckey goal) = None).
Proof.
  intros Hinv. revert c i z. induction q as [|c' q IH]; intros c i z Hsteps Hlast Hgc Hz.
  - cbn in Hlast. simplify_eq.
    destruct (map_get (as_open st) (ckey goal)) as [f|] eqn:Hopen.
    + left. apply map_get_elem in Hopen.
      destruct (ai_open _ _ _ _ _ Hinv _ _ Hopen) as (c0 & z0 & Hk & Hg0 & ->).
      apply ckey_inj in Hk. subst c0. exists (ckey goal), (z0 + h goal goal.1 goal.2).
      split; [done|]. rewrite h_goal. cbn [length]. simplify_eq. lia.
    + right. exists z. split_and!; [done | cbn [length]; lia | done].
  - pose proof (h_le_steps _ _ _ _ Hsteps Hlast) as Hh.
    destruct Hsteps as (Hadj & Hfree & Hsteps). rewrite last_cons_cons in Hlast.
    destruct (map_get (as_open st) (ckey c)) as [f|] eqn:Hopen.
    + left. apply map_get_elem in Hopen.
      destruct (ai_open _ _ _ _ _ Hinv _ _ Hopen) as (c0 & z0 & Hk & Hg0 & ->).
      apply ckey_inj in Hk. subst c0. exists (ckey c), (z0 + h goal c.1 c.2).
      split; [done|]. simplify_eq. lia.
    + destruct (ai_relaxed _ _ _ _ _ Hinv c z) with (c' := c')
        as (z' & Hz' & Hle); [done..|].
      destruct (IH c' (i + 1) z' Hsteps Hlast Hz') as [(k & zf & Hin & Hzf)|(zt & Hgt & Hzt & Hot)];
        [lia | left | right].
      * exists k, zf. split; [done|]. cbn [length]. lia.
      * exists zt. split_and!; [done | cbn [length]; lia | done].
Qed.

(** One round of the [while] loop: it returns a shortest path, or goes on
    from a state that is smaller in the measure. *)
Lemma astar_step st :
  astar_inv grid start goal None st -> as_open st <> [] ->
  (exists f0 p st',
     (forall f, (f0 <= f)%nat ->
        astar_loop f goal R C st = Some (Ret (Some p, st'))) /\
     as_grid st' = grid /\ astar_result_ok grid start goal (Some p))
  \/
  (exists st1,
     (forall f, astar_loop (S f) goal R C st = astar_loop f goal R C st1) /\
     astar_inv grid start goal None st1 /\
     (astar_lt cells (as_gScore st1) (as_gScore st) \/
      (as_gScore st1 = as_gScore st /\
       (length (as_open st1) < length (as_open st))%nat))).
Proof.
  intros Hinv Hne.
  assert (Hsize : (length (as_open st) =? 0)%nat = false).
  { apply Nat.eqb_neq. by destruct (as_open st). }
  destruct (scan_min_spec (as_open st) None Inf) as (_ & Hall & Hor).
  destruct (scan_min (as_open st) None Inf) as [ck fmin] eqn:Hscan.
  cbn [fst snd] in *.
  assert (exists k, ck = Some k /\ (k, fmin) ∈ as_open st) as (k & -> & Hin).
  { destruct Hor as [[= -> ->]|Hk]; [|done]. exfalso.
    destruct (as_open st) as [|[k0 f0] o] eqn:Ho; [done|].
    assert ((k0, f0) ∈ (k0, f0) :: o) as Hin0 by (by left).
    pose proof (Hall _ _ Hin0) as Hle. rewrite <- Ho in Hin0.
    destruct (ai_open _ _ _ _ _ Hinv _ _ Hin0) as (? & ? & _ & _ & Hf0).
    by rewrite Hf0 in Hle. }
  destruct (ai_open _ _ _ _ _ Hinv _ _ Hin) as (cur & zc & -> & Hcg & ->).
  pose proof (elem_map_get _ _ _ (ai_nodup _ _ _ _ _ Hinv) Hin) as Hco.
  set (st_del := AstarState (as_grid st) (map_delete (as_open st) (ckey cur))
                   (as_gScore st) (as_parent st)).
  assert (Hunfold : forall f, astar_loop (S f) goal R C st =
    if (cur.1 =? goal.1) && (cur.2 =? goal.2) then
      match reconstruct f (as_parent st) (Some (ckey cur)) [] with
      | None => None
      | Some path => Some (Ret (Some (rev path), st_del))
      end
    else
      match astar_neighbors goal R C cur.1 cur.2 (ckey cur) (Some (Fin zc)) st_del dirs with
      | Throw => Some Throw
      | Ret st1 => astar_loop f goal R C st1
      end).
  { intros f. cbn [astar_loop]. rewrite Hsize, Hscan.
    rewrite decide_False by apply node_key_nonempty.
    rewrite parse_ckey. destruct cur as [cx cy].
    cbn [as_grid as_open as_gScore as_parent fst snd]. by rewrite Hcg. }
  destruct ((cur.1 =? goal.1) && (cur.2 =? goal.2)) eqn:Htest.
  - left. apply andb_true_iff in Htest as [H1%Z.eqb_eq H2%Z.eqb_eq].
    assert (cur = goal) as -> by (destruct cur, goal; cbn in *; congruence).
    destruct (reconstruct_spec st None (Z.to_nat zc) goal zc Hinv Hcg)
      as (chain & q & Hrec & Hrev & Hsteps & Hlast & Hlen); [lia|].
    exists (S (Z.to_nat zc + 2)), (rev chain), st_del. split_and!.
    + intros [|f] Hf; [lia|]. rewrite Hunfold, Hrec by lia. done.
    + apply (ai_grid _ _ _ _ _ Hinv).
    + split.
      * exists q. rewrite Hrev. done.
      * intros q' Hsteps' Hlast'. rewrite length_rev. cbn [length].
        assert (zc <= Z.of_nat (length q')); [|lia].
        pose proof (proj1 (ai_start _ _ _ _ _ Hinv)) as Hgs.
        destruct (astar_frontier st q' start 0 0 Hinv Hsteps' Hlast' Hgs)
          as [(k' & zf & Hin' & Hzf)|(zt & _ & _ & Hot)]; [lia | |congruence].
        pose proof (Hall _ _ Hin') as Hle. cbn in Hle. apply Z.leb_le in Hle.
        rewrite h_goal in Hle. lia.
  - right. apply andb_false_iff in Htest.
    assert (cur <> goal) as Hcur by (intros ->; rewrite !Z.eqb_refl in Htest; by destruct Htest).
    pose proof (astar_inv_pop st cur Hinv Hcur) as Hinv_del. fold st_del in Hinv_del.
    destruct (astar_neighbors_spec st_del cur zc dirs Hinv_del)
      as (st1 & Hrun & Hinv1 & Hco1 & Hcg1 & Hrel1 & Hdirs); [| done | done |].
    { apply map_get_delete_eq. }
    exists st1. split_and!.
    + intros f. by rewrite Hunfold, Hrun.
    + by eapply astar_inv_close.
    + destruct (ar_progress _ _ _ Hrel1) as [->|Hlt]; [right | by left].
      split; [done|]. cbn. by eapply map_delete_length_lt.
Qed.

Lemma astar_loop_ends st :
  astar_inv grid start goal None st ->
  exists f0 r st',
    (forall f, (f0 <= f)%nat -> astar_loop f goal R C st = Some (Ret (r, st'))) /\
    as_grid st' = grid /\ astar_result_ok grid start goal r.
Proof.
  remember (missing cells (as_gScore st)) as a eqn:Ha.
  remember (Z.to_nat (sum_g (as_gScore st))) as b eqn:Hb.
  remember (length (as_open st)) as c eqn:Hc.
  revert b c st Ha Hb Hc.
  induction (lt_wf a) as [a _ IHa]. intros b.
  induction (lt_wf b) as [b _ IHb]. intros c.
  induction (lt_wf c) as [c _ IHc]. intros st Ha Hb Hc Hinv.
  destruct (decide (as_open st = [])) as [Hnil|Hne].
  - exists 1%nat, None, st. split_and!.
    + intros [|f] ?; [lia|]. cbn. by rewrite Hnil.
    + apply (ai_grid _ _ _ _ _ Hinv).
    + intros q' Hsteps' Hlast'.
      pose proof (proj1 (ai_start _ _ _ _ _ Hinv)) as Hgs.
      destruct (astar_frontier st q' start 0 0 Hinv Hsteps' Hlast' Hgs)
        as [(k' & zf & Hin' & _)|(zt & Hgt & _ & Hot)]; [lia | |].
      * rewrite Hnil in Hin'. by apply elem_of_nil in Hin'.
      * destruct (ai_goal _ _ _ _ _ Hinv _ Hgt) as [? ?]. congruence.
  - destruct (astar_step st Hinv Hne)
      as [(f0 & p & st' & Hrun & Hgrid & Hok)|(st1 & Hstep & Hinv1 & Hdec)].
    { by exists f0, (Some p), st'. }
    assert (exists f0 r st', (forall f, (f0 <= f)%nat ->
              astar_loop f goal R C st1 = Some (Ret (r, st'))) /\
              as_grid st' = grid /\ astar_result_ok grid start goal r)
      as (f0 & r & st' & Hrun & Hgrid & Hok).
    { destruct Hdec as [[Hlt|[Heq Hlt]]|[Heq Hlt]].
      - eapply (IHa (missing cells (as_gScore st1))); [lia | done..].
      - assert (0 <= sum_g (as_gScore st1)).
        { apply sum_g_nonneg, (ai_gnonneg _ _ _ _ _ Hinv1). }
        eapply (IHb (Z.to_nat (sum_g (as_gScore st1)))); [lia | | done..].
        congruence.
      - eapply (IHc (length (as_open st1))); [lia | | | done..]; congruence. }
    exists (S f0), r, st'. split_and!; [|done..].
    intros [|f] ?; [lia|]. rewrite Hstep. apply Hrun. lia.
Qed.

Lemma astar_init_inv : astar_inv grid start goal None (astar_init start goal grid).
Proof.
  unfold astar_init. change (node_key start.1 start.2) with (ckey start).
  split; cbn [as_grid as_open as_gScore as_parent map_set].
  - done.
  - cbn. apply NoDup_singleton.
  - intros k f [= -> ->]%list_elem_of_singleton. exists start, 0.
    cbn. rewrite String.eqb_refl. done.
  - cbn. by rewrite String.eqb_refl.
  - intros k gv. cbn. destruct (String.eqb (ckey start) k) eqn:E; [|done].
    apply String.eqb_eq in E. intros [= <-]. exists start, 0.
    split_and!; [done | done | lia | by left].
  - constructor; [|constructor]. exists 0. cbn. split; [done | lia].
  - intros c z _ Hgc Hoc. cbn in *.
    destruct (String.eqb (ckey start) (ckey c)); done.
  - intros gv. cbn. destruct (String.eqb (ckey start) (ckey goal)); [by eexists | done].
Qed.
End astar_facts.

(** More fuel does not change the outcome of a run that ended. *)
Lemma reconstruct_mono f f' parent p acc r :
  reconstruct f parent p acc = Some r -> (f <= f')%nat ->
  reconstruct f' parent p acc = Some r.
Proof.
  revert f' p acc. induction f as [|f IH]; intros f' p acc Hrun Hle; [done|].
  destruct f' as [|f']; [lia|]. cbn [reconstruct] in *.
  destruct p as [k|]; [|done]. destruct (decide (k = ""%string)); [done|].
  destruct (parse_key k); [|done]. apply IH; [done | lia].
Qed.

Lemma astar_loop_mono f f' goal R C st r :
  astar_loop f goal R C st = Some r -> (f <= f')%nat ->
  astar_loop f' goal R C st = Some r.
Proof.
  revert f' st. induction f as [|f IH]; intros f' st Hrun Hle; [done|].
  destruct f' as [|f']; [lia|]. cbn [astar_loop] in *.
  destruct (length (as_open st) =? 0)%nat; [done|].
  destruct (scan_min (as_open st) None Inf) as [[k|] fmin]; [|done].
  destruct (decide (k = ""%string)); [done|].
  destruct (parse_key k) as [[cx cy]|]; [|done].
  destruct ((cx =? goal.1) && (cy =? goal.2)).
  - destruct (reconstruct f _ _ _) as [path|] eqn:Hrec; [|done].
    by rewrite (reconstruct_mono _ f' _ _ _ _ Hrec) by lia.
  - destruct (astar_neighbors _ _ _ _ _ _ _ _ _); [|done]. apply IH; [done | lia].
Qed.

(** No step of [astarGrid] stores into [grid]. *)
Lemma astar_neighbor_grid goal R C cx cy ck gCur st d st' :
  astar_neighbor goal R C cx cy ck gCur st d = Ret st' -> as_grid st' = as_grid st.
Proof.
  unfold astar_neighbor. destruct (negb _); [by intros [= <-]|].
  destruct (aget (as_grid st) (cx + d.1)) as [row|]; [|done].
  destruct (is_blocked _); [by intros [= <-]|].
  destruct (js_gt _ _); [|by intros [= <-]].
  destruct (js_add gCur (Fin 1)); by intros [= <-].
Qed.

Lemma astar_neighbors_grid goal R C cx cy ck gCur st ds st' :
  astar_neighbors goal R C cx cy ck gCur st ds = Ret st' -> as_grid st' = as_grid st.
Proof.
  revert st. induction ds as [|d ds IH]; intros st; cbn; [by intros [= <-]|].
  destruct (astar_neighbor _ _ _ _ _ _ _ st d) as [st1|] eqn:E; [|done].
  intros Hrun. rewrite (IH _ Hrun). by eapply astar_neighbor_grid.
Qed.

Lemma astar_loop_grid f goal R C st r st' :
  astar_loop f goal R C st = Some (Ret (r, st')) -> as_grid st' = as_grid st.
Proof.
  revert st. induction f as [|f IH]; intros st; [done|]. cbn [astar_loop].
  destruct (length (as_open st) =? 0)%nat; [by intros [= _ <-]|].
  destruct (scan_min (as_open st) None Inf) as [[k|] fmin]; [|by intros [= _ <-]].
  destruct (decide (k = ""%string)); [by intros [= _ <-]|].
  destruct (parse_key k) as [[cx cy]|]; [|done].
  destruct ((cx =? goal.1) && (cy =? goal.2)).
  - destruct (reconstruct _ _ _ _); [|done]. by intros [= _ <-].
  - destruct (astar_neighbors _ _ _ _ _ _ _ _ _) as [st1|] eqn:E; [|done].
    intros Hrun. rewrite (IH _ Hrun). by apply astar_neighbors_grid in E.
Qed.

(** ** The bit test of [LCA.query] *)

Lemma int32_small z : - 2 ^ 31 <= z < 2 ^ 31 -> int32 z = z.
Proof. intros ?. unfold int32. rewrite Z.mod_small; lia. Qed.

Lemma int32_testbit z k : 0 <= k < 32 -> Z.testbit (int32 z) k = Z.testbit z k.
Proof.
  intros Hk. unfold int32.
  rewrite <- (Z.mod_pow2_bits_low (_ - _) 32 k) by lia.
  rewrite <- (Z.mod_pow2_bits_low z 32 k) by lia. f_equal.
  rewrite Zminus_mod, Zmod_mod, <- Zminus_mod. f_equal. lia.
Qed.

Lemma int32_range z : - 2 ^ 31 <= int32 z < 2 ^ 31.
Proof. unfold int32. pose proof (Z.mod_pos_bound (z + 2 ^ 31) (2 ^ 32)). lia. Qed.

Lemma land_pow2 a k :
  0 <= k -> Z.land a (2 ^ k) = if Z.testbit a k then 2 ^ k else 0.
Proof.
  intros Hk. apply Z.bits_inj'. intros j Hj. rewrite Z.land_spec.
  destruct (Z.testbit a k) eqn:Ha.
  - rewrite Z.pow2_bits_eqb by done. destruct (Z.eqb_spec k j) as [->|Hne].
    + by rewrite Ha.
    + by rewrite andb_false_r.
  - rewrite Z.pow2_bits_eqb by done. destruct (Z.eqb_spec k j) as [->|Hne].
    + by rewrite Ha, Z.bits_0.
    + by rewrite andb_false_r, Z.bits_0.
Qed.

Lemma bit_set_testbit d k :
  0 <= d < 2 ^ 32 -> 0 <= k < 32 -> bit_set (Some d) k = Z.testbit d k.
Proof.
  intros Hd Hk. unfold bit_set, js_and, js_shl.
  rewrite (int32_small 1) by lia. rewrite Z.mod_small by lia.
  rewrite Z.shiftl_1_l. rewrite <- (int32_testbit d k) by lia.
  pose proof (int32_range d) as Hr. set (a := int32 d) in *.
  destruct (decide (k = 31)) as [->|Hk31].
  - assert (int32 (int32 (2 ^ 31)) = - 2 ^ 31) as -> by reflexivity.
    destruct (decide (a < 0)) as [Hneg|Hpos].
    + assert (Z.land a (- 2 ^ 31) < 0) by (apply Z.land_neg; lia).
      rewrite (proj2 (Z.eqb_neq _ 0)) by lia. cbn [negb]. symmetry.
      apply Z.testbit_true; [lia|].
      replace a with (-1 * 2 ^ 31 + (a + 2 ^ 31)) by lia.
      rewrite Z.div_add_l by lia. rewrite (Z.div_small (a + 2 ^ 31)) by lia. done.
    + assert (Z.land a (- 2 ^ 31) = 0) as ->.
      { apply Z.bits_inj'. intros j Hj. rewrite Z.land_spec, Z.bits_0.
        destruct (decide (j < 31)).
        - replace (- 2 ^ 31) with (Z.shiftl (-1) 31) by done.
          rewrite (Z.shiftl_spec_low (-1)) by lia. apply andb_false_r.
        - rewrite (Z.bits_above_log2 a j); [done | lia |].
          destruct (decide (a = 0)) as [->|?]; [cbn; lia|].
          apply Z.log2_lt_pow2; [lia|].
          apply Z.lt_le_trans with (2 ^ 31); [lia|].
          apply Z.pow_le_mono_r; lia. }
      rewrite Z.eqb_refl. cbn [negb]. symmetry. apply Z.bits_above_log2; [lia|].
      destruct (decide (a = 0)) as [->|?]; [cbn; lia|].
      apply Z.log2_lt_pow2; lia.
  - assert (0 < 2 ^ k < 2 ^ 31).
    { split; [apply Z.pow_pos_nonneg; lia | apply Z.pow_lt_mono_r; lia]. }
    rewrite !(int32_small (2 ^ k)) by lia.
    rewrite land_pow2 by lia. destruct (Z.testbit a k).
    + rewrite (proj2 (Z.eqb_neq _ 0)) by lia. done.
    + done.
Qed.

(** ** Rooted trees *)

Lemma for_each_inv {St : Type} (I : Z -> St -> Prop) (a : Z) (m : nat)
    (body : Z -> St -> option (outcome St)) (s : St) :
  I a s ->
  (forall i s0, a <= i < a + Z.of_nat m -> I i s0 ->
     exists s', body i s0 = Some (Ret s') /\ I (i + 1) s') ->
  exists s', for_each (seqZ a (Z.of_nat m)) body s = Some (Ret s') /\
    I (a + Z.of_nat m) s'.
Proof.
  revert a s. induction m as [|m IH]; intros a s Ha Hbody.
  - exists s. cbn. split; [done|]. by rewrite Z.add_0_r.
  - rewrite Nat2Z.inj_succ, seqZ_cons by lia. cbn [for_each].
    destruct (Hbody a s) as (s1 & -> & Hs1); [lia | done |].
    replace (Z.pred (Z.succ (Z.of_nat m))) with (Z.of_nat m) by lia.
    destruct (IH (Z.succ a) s1) as (s' & Hrun & Hs').
    { by replace (Z.succ a) with (a + 1) by lia. }
    { intros i s0 Hi. apply Hbody. lia. }
    exists s'. split; [done|].
    by replace (a + Z.succ (Z.of_nat m)) with (Z.succ a + Z.of_nat m) by lia.
Qed.

Section tree_facts.
Variables (adj : list (list Z)) (root : Z) (S : Z -> bool)
  (par : Z -> Z) (dep : Z -> nat).
Hypothesis Htree : rooted_tree_on adj root S par dep.

Local Abbreviation dsc := (desc S par dep).

Lemma S_par v : S v = true -> S (par v) = true.
Proof.
  intros Hv. destruct (decide (v = root)) as [->|Hne].
  - by rewrite (rt_par_root _ _ _ _ _ Htree).
  - by apply (rt_par _ _ _ _ _ Htree).
Qed.

Lemma dep_par v : S v = true -> dep (par v) = (dep v - 1)%nat.
Proof.
  intros Hv. destruct (decide (v = root)) as [->|Hne].
  - by rewrite (rt_par_root _ _ _ _ _ Htree), (rt_dep_root _ _ _ _ _ Htree).
  - destruct (rt_par _ _ _ _ _ Htree v Hv Hne) as [_ ->]. lia.
Qed.

Lemma S_iter j v : S v = true -> S (Nat.iter j par v) = true.
Proof. intros Hv. induction j as [|j IH]; [done|]. cbn. by apply S_par. Qed.

Lemma dep_iter j v : S v = true -> dep (Nat.iter j par v) = (dep v - j)%nat.
Proof.
  intros Hv. induction j as [|j IH]; [cbn; lia|]. rewrite Nat.iter_succ.
  rewrite dep_par by (by apply S_iter). rewrite IH. lia.
Qed.

Lemma dep_zero v : S v = true -> dep v = O -> v = root.
Proof.
  intros Hv Hd. destruct (decide (v = root)) as [|Hne]; [done|].
  destruct (rt_par _ _ _ _ _ Htree v Hv Hne) as [_ Heq]. lia.
Qed.

Lemma iter_root j : Nat.iter j par root = root.
Proof.
  induction j as [|j IH]; [done|]. rewrite Nat.iter_succ, IH.
  apply (rt_par_root _ _ _ _ _ Htree).
Qed.

Lemma iter_above j v : S v = true -> (dep v <= j)%nat -> Nat.iter j par v = root.
Proof.
  intros Hv Hj. apply dep_zero; [by apply S_iter|]. rewrite dep_iter by done. lia.
Qed.

Lemma iter_par j v : Nat.iter j par (par v) = par (Nat.iter j par v).
Proof. by rewrite <- Nat.iter_succ_r. Qed.

(** The chain from a node up to the root has distinct nodes, so depths are
    below the number of nodes. *)
Lemma dep_lt_length v : S v = true -> (dep v < length adj)%nat.
Proof.
  intros Hv.
  set (l := (fun j => Nat.iter j par v) <$> seq 0 (Datatypes.S (dep v))).
  assert (Hnd : NoDup l).
  { apply NoDup_fmap_2_strong; [|apply NoDup_seq].
    intros i j Hi Hj Heq. apply elem_of_seq in Hi, Hj.
    assert (dep (Nat.iter i par v) = dep (Nat.iter j par v)) as Hd by congruence.
    rewrite !dep_iter in Hd by done. lia. }
  assert (Hsub : l ⊆+ seqZ 0 (Z.of_nat (length adj))).
  { apply NoDup_submseteq; [done|]. intros x [j [-> _]]%list_elem_of_fmap.
    apply elem_of_seqZ. pose proof (rt_range _ _ _ _ _ Htree _ (S_iter j v Hv)). lia. }
  apply submseteq_length in Hsub. subst l.
  rewrite length_fmap, length_seq, length_seqZ in Hsub. lia.
Qed.

Lemma desc_refl u : S u = true -> dsc u u.
Proof. intros Hu. split_and!; [done | lia |]. by rewrite Nat.sub_diag. Qed.

Lemma desc_S u w : dsc u w -> S w = true.
Proof. by intros (? & _). Qed.

Lemma desc_root w : S w = true -> dsc root w.
Proof.
  intros Hw. pose proof (rt_dep_root _ _ _ _ _ Htree) as Hr.
  split_and!; [done | lia |]. apply iter_above; [done | lia].
Qed.

(** The subtree of [u] is [u] and the subtrees of its children. *)
Lemma desc_child u c w :
  S c = true -> c <> root -> par c = u -> dsc c w -> dsc u w.
Proof.
  intros Hc Hne Hpar (Hw & Hle & Hiter).
  destruct (rt_par _ _ _ _ _ Htree c Hc Hne) as [_ Hd]. rewrite Hpar in Hd.
  split_and!; [done | lia |].
  replace (dep w - dep u)%nat with (Datatypes.S (dep w - dep c)) by lia.
  by rewrite Nat.iter_succ, Hiter.
Qed.

Lemma desc_inv u w :
  dsc u w -> w = u \/
  exists c, S c = true /\ c <> root /\ par c = u /\ dsc c w.
Proof.
  intros (Hw & Hle & Hiter).
  destruct (decide (dep w = dep u)) as [Heq|Hne].
  - left. rewrite Heq, Nat.sub_diag in Hiter. done.
  - right. set (c := Nat.iter (dep w - dep u - 1) par w).
    assert (Hc : S c = true) by (by apply S_iter).
    assert (Hdc : dep c = Datatypes.S (dep u)).
    { unfold c. rewrite dep_iter by done. lia. }
    exists c. split_and!.
    + done.
    + intros ->. rewrite (rt_dep_root _ _ _ _ _ Htree) in Hdc. lia.
    + rewrite <- Hiter. replace (dep w - dep u)%nat
        with (Datatypes.S (dep w - dep u - 1)) by lia. done.
    + split_and!; [done | rewrite Hdc; lia |]. rewrite Hdc. unfold c. f_equal. lia.
Qed.

Lemma desc_dep u w : dsc u w -> (dep u <= dep w)%nat.
Proof. by intros (_ & ? & _). Qed.
End tree_facts.

(** ** The construction of the tables *)

Lemma aget_aset {A} (a : list A) i j x :
  aget (aset a i x) j =
    if decide (i = j /\ 0 <= i < Z.of_nat (length a)) then Some x else aget a j.
Proof.
  case_decide as H.
  - destruct H as [<- ?]. by apply aget_aset_eq.
  - destruct (decide (i = j)) as [<-|Hne]; [|by apply aget_aset_ne].
    unfold aset, aget. case_decide; [|done].
    rewrite list_insert_ge; [done|]. lia.
Qed.

Section lca_shape_facts.
Variable adj : list (list Z).

Lemma shape_LOG o : lca_shape adj o -> 1 <= LCA.LOG o.
Proof.
  intros Hs. rewrite (ls_LOG _ _ Hs).
  change 1 with (Z.log2_up 2). apply Z.log2_up_le_mono. lia.
Qed.

Lemma shape_row o k :
  lca_shape adj o -> 0 <= k < LCA.LOG o ->
  exists row, aget (LCA.up o) k = Some row /\ length row = length adj.
Proof.
  intros Hs Hk. destruct (aget_is_Some (LCA.up o) k) as [row Hrow].
  { rewrite (ls_up _ _ Hs). lia. }
  exists row. split; [done|]. apply aget_Some in Hrow as [_ Hrow].
  pose proof (ls_rows _ _ Hs) as Hrows. rewrite Forall_lookup in Hrows.
  by apply (Hrows _ _ Hrow).
Qed.

Lemma up_get_shape o k i :
  lca_shape adj o -> 0 <= k < LCA.LOG o ->
  exists row, aget (LCA.up o) k = Some row /\ length row = length adj /\
    LCA.up_get o k (Some i) = Ret (aget row i).
Proof.
  intros Hs Hk. destruct (shape_row o k Hs Hk) as (row & Hrow & Hlen).
  exists row. split_and!; [done..|]. unfold LCA.up_get. by rewrite Hrow.
Qed.

Lemma up_set_spec o k i x :
  lca_shape adj o -> 0 <= k < LCA.LOG o ->
  exists o1, LCA.up_set o k i x = Ret o1 /\ lca_shape adj o1 /\
    LCA.depth o1 = LCA.depth o /\ LCA.LOG o1 = LCA.LOG o /\ LCA.n o1 = LCA.n o /\
    forall k' j, LCA.up_get o1 k' j =
      if decide (k' = k /\ j = Some i /\ 0 <= i < Z.of_nat (length adj))
      then Ret (Some x) else LCA.up_get o k' j.
Proof.
  intros Hs Hk. destruct (shape_row o k Hs Hk) as (row & Hrow & Hlen).
  unfold LCA.up_set. rewrite Hrow. eexists. split; [done|].
  destruct Hs as [Hn HLOG Hadj Hdepth Hup Hrows]. split_and!; try done.
  - split; cbn; try done.
    + by rewrite length_aset.
    + pose proof (length_aset row i x) as Hl. rewrite Hlen in Hl.
      unfold aset at 1. case_decide; [|done]. by apply Forall_insert.
  - intros k' j. unfold LCA.up_get. cbn [LCA.up]. rewrite aget_aset.
    case_decide as H1.
    + destruct H1 as [<- _]. destruct j as [j|].
      * rewrite aget_aset, Hlen. case_decide as H2.
        -- destruct H2 as [<- ?]. by rewrite decide_True.
        -- rewrite decide_False; [by rewrite Hrow|].
           intros (_ & [= <-] & ?). by apply H2.
      * rewrite decide_False by (by intros (_ & ? & _)). by rewrite Hrow.
    + rewrite decide_False; [done|]. intros [-> _]. apply H1. split; [done|].
      rewrite Hup. lia.
Qed.

Lemma depth_set_shape o i x : lca_shape adj o -> lca_shape adj (LCA.depth_set o i x).
Proof.
  intros [Hn HLOG Hadj Hdepth Hup Hrows]. split; cbn; try done.
  by rewrite length_aset.
Qed.
End lca_shape_facts.

(** More fuel does not change the outcome of a traversal that ended. *)
Lemma dfs_children_mono rec rec' u p vs o r :
  (forall o0 v r0, rec o0 v = Some r0 -> rec' o0 v = Some r0) ->
  LCA.dfs_children rec u p vs o = Some r -> LCA.dfs_children rec' u p vs o = Some r.
Proof.
  intros Hrec. revert o. induction vs as [|v vs IH]; intros o; cbn; [done|].
  case_decide; [|apply IH]. destruct (aget (LCA.depth o) u) as [du|]; [|done].
  destruct (rec _ v) as [[o'|]|] eqn:E; [| |done].
  - rewrite (Hrec _ _ _ E). apply IH.
  - by rewrite (Hrec _ _ _ E).
Qed.

Lemma dfs_mono f f' o u p r :
  LCA.dfs f o u p = Some r -> (f <= f')%nat -> LCA.dfs f' o u p = Some r.
Proof.
  revert f' o u p r. induction f as [|f IH]; intros f' o u p r Hrun Hle; [done|].
  destruct f' as [|f']; [lia|]. cbn [LCA.dfs] in *.
  destruct (LCA.up_set o 0 u p) as [o1|]; [|done].
  destruct (aget (LCA.adj o1) u) as [vs|]; [|done].
  eapply dfs_children_mono; [|done]. intros o0 v r0 H0. apply IH; [done | lia].
Qed.

Section lca_facts.
Variables (adj : list (list Z)) (root : Z) (S : Z -> bool)
  (par : Z -> Z) (dep : Z -> nat).
Hypothesis Htree : rooted_tree_on adj root S par dep.

Local Abbreviation dsc := (desc S par dep).
Local Abbreviation post := (dfs_post adj par dep).

Local Abbreviation covered := (covered S par dep).

Lemma covered_iff u vs w :
  covered u vs w <-> exists c, c ∈ vs /\ c <> par u /\ dsc c w.
Proof. apply Exists_exists. Qed.

Lemma child_not_parent u c : S c = true -> c <> root -> par c = u -> c <> par u.
Proof.
  intros Hc Hne Hpar ->.
  destruct (rt_par _ _ _ _ _ Htree _ Hc Hne) as [Hu Hd].
  rewrite Hpar in Hd. rewrite (dep_par adj root S par dep Htree u) in Hd; [lia|].
  by rewrite <- Hpar.
Qed.

Lemma dfs_children_spec rec u vs0 vs o :
  S u = true -> aget adj u = Some vs0 -> vs ⊆ vs0 ->
  (forall c o0, S c = true -> c <> root -> par c = u ->
     lca_shape adj o0 -> aget (LCA.depth o0) c = Some (Z.of_nat (dep c)) ->
     exists o', rec o0 c = Some (Ret o') /\ post (dsc c) o0 o') ->
  lca_shape adj o -> aget (LCA.depth o) u = Some (Z.of_nat (dep u)) ->
  exists o', LCA.dfs_children rec u (par u) vs o = Some (Ret o') /\
    post (covered u vs) o o' /\
    aget (LCA.depth o') u = Some (Z.of_nat (dep u)).
Proof.
  intros Hu Hvs0 Hsub Hrec. revert o Hsub.
  induction vs as [|v vs IH]; intros o Hsub Hshape Hdu.
  - exists o. split_and!; [done | | done]. split; try done.
    intros w (c & Hc & _)%covered_iff. by apply elem_of_nil in Hc.
  - assert (Hsub' : vs ⊆ vs0) by (intros x Hx; apply Hsub; by right).
    cbn [LCA.dfs_children]. destruct (decide (v <> par u)) as [Hvp|Hvp].
    + rewrite Hdu.
      destruct (rt_adj _ _ _ _ _ Htree u vs0 v Hu Hvs0) as [[_ ?]|(Hv & Hvr & Hpv)];
        [apply Hsub; by left | done |].
      pose proof (rt_range _ _ _ _ _ Htree v Hv) as Hvrange.
      destruct (rt_par _ _ _ _ _ Htree v Hv Hvr) as [_ Hdv]. rewrite Hpv in Hdv.
      set (o2 := LCA.depth_set o v (Z.of_nat (dep u) + 1)).
      assert (Hshape2 : lca_shape adj o2) by (by apply depth_set_shape).
      assert (Hd2 : aget (LCA.depth o2) v = Some (Z.of_nat (dep v))).
      { cbn. rewrite aget_aset_eq by (rewrite (ls_depth _ _ Hshape); lia).
        f_equal. lia. }
      destruct (Hrec v o2 Hv Hvr Hpv Hshape2 Hd2) as (o3 & Hrun & Hpost3).
      rewrite Hrun.
      assert (Hnd : ~ dsc v u) by (intros Hd%desc_dep; lia).
      assert (Hvu : v <> u) by (intros ->; lia).
      destruct (IH o3 Hsub' (dp_shape _ _ _ _ _ _ Hpost3)) as (o' & Hrun' & Hpost' & Hdu').
      { rewrite (proj2 (dp_out _ _ _ _ _ _ Hpost3 u Hnd)). cbn.
        by rewrite aget_aset_ne. }
      exists o'. split_and!; [done | | done]. split.
      * apply (dp_shape _ _ _ _ _ _ Hpost').
      * intros k i Hk. rewrite (dp_levels _ _ _ _ _ _ Hpost' k i Hk).
        by rewrite (dp_levels _ _ _ _ _ _ Hpost3 k i Hk).
      * intros w Hcov. destruct (decide (covered u vs w)) as [Hc|Hnc].
        { by apply (dp_in _ _ _ _ _ _ Hpost'). }
        destruct (dp_out _ _ _ _ _ _ Hpost' w Hnc) as [-> ->].
        apply (dp_in _ _ _ _ _ _ Hpost3).
        apply covered_iff in Hcov as (c & [->|Hc]%elem_of_cons & Hcp & Hcw); [done|].
        exfalso. apply Hnc. apply covered_iff. by exists c.
      * intros w Hncov.
        assert (Hnc : ~ covered u vs w).
        { intros (c & Hc & Hcp & Hcw)%covered_iff. apply Hncov, covered_iff.
          exists c. split; [by right | done]. }
        assert (Hnv : ~ dsc v w).
        { intros Hd. apply Hncov, covered_iff. exists v. split; [by left | done]. }
        destruct (dp_out _ _ _ _ _ _ Hpost' w Hnc) as [-> ->].
        destruct (dp_out _ _ _ _ _ _ Hpost3 w Hnv) as [-> ->].
        split; [done|]. cbn. apply aget_aset_ne. intros <-. apply Hnv.
        by apply desc_refl.
    + destruct (IH o Hsub' Hshape Hdu) as (o' & Hrun' & Hpost' & Hdu').
      exists o'. split_and!; [done | | done].
      assert (Hiff : forall w, covered u (v :: vs) w <-> covered u vs w).
      { intros w. rewrite !covered_iff. split.
        - intros (c & [->|Hc]%elem_of_cons & Hcp & Hcw); [|by exists c].
          exfalso. apply Hvp. done.
        - intros (c & Hc & Hcp & Hcw). exists c. split; [by right | done]. }
      destruct Hpost' as [H1 H2 H3 H4]. split; [done | done | |].
      * intros w Hw%Hiff. by apply H3.
      * intros w Hw. apply H4. by rewrite <- Hiff.
Qed.

Lemma covered_desc u vs0 w :
  S u = true -> aget adj u = Some vs0 ->
  covered u vs0 w <-> (dsc u w /\ w <> u).
Proof.
  intros Hu Hvs0. rewrite covered_iff. split.
  - intros (c & Hc & Hcp & Hcw).
    destruct (rt_adj _ _ _ _ _ Htree u vs0 c Hu Hvs0 Hc) as [[_ ?]|(Hcs & Hcr & Hpc)];
      [done|].
    split; [by eapply (desc_child adj root S par dep Htree)|].
    intros ->. apply desc_dep in Hcw.
    destruct (rt_par _ _ _ _ _ Htree c Hcs Hcr) as [_ Hd]. rewrite Hpc in Hd. lia.
  - intros [Hd Hne].
    destruct (desc_inv adj root S par dep Htree u w Hd) as [?|(c & Hc & Hcr & Hpc & Hcw)];
      [done|].
    exists c. split_and!; [| by apply child_not_parent | done].
    destruct (rt_child _ _ _ _ _ Htree c Hc Hcr) as (vs & Hvs & Hin).
    rewrite Hpc, Hvs0 in Hvs. by simplify_eq.
Qed.

Lemma dfs_step f u o :
  S u = true -> lca_shape adj o ->
  aget (LCA.depth o) u = Some (Z.of_nat (dep u)) ->
  (forall c o0, S c = true -> c <> root -> par c = u ->
     lca_shape adj o0 -> aget (LCA.depth o0) c = Some (Z.of_nat (dep c)) ->
     exists o', LCA.dfs f o0 c u = Some (Ret o') /\ post (dsc c) o0 o') ->
  exists o', LCA.dfs (Datatypes.S f) o u (par u) = Some (Ret o') /\ post (dsc u) o o'.
Proof.
  intros Hu Hshape Hdu Hrec. cbn [LCA.dfs].
  pose proof (shape_LOG adj o Hshape) as HLOG.
  destruct (up_set_spec adj o 0 u (par u) Hshape) as
    (o1 & -> & Hshape1 & Hdepth1 & _ & _ & Hget1); [lia|].
  pose proof (rt_range _ _ _ _ _ Htree u Hu) as Hur.
  rewrite (ls_adj _ _ Hshape1).
  destruct (aget_is_Some adj u Hur) as [vs0 Hvs0]. rewrite Hvs0.
  destruct (dfs_children_spec (fun o' v => LCA.dfs f o' v u) u vs0 vs0 o1)
    as (o' & Hrun & Hpost & _); [done | done | done | done | done | congruence |].
  exists o'. split; [done|].
  destruct Hpost as [Hs Hlev Hin Hout]. split.
  - done.
  - intros k i Hk. rewrite Hlev, Hget1 by done. rewrite decide_False; [done|]. lia.
  - intros w Hw. destruct (decide (covered u vs0 w)) as [Hc|Hnc]; [by apply Hin|].
    assert (w = u) as ->.
    { destruct (decide (w = u)); [done|]. exfalso. apply Hnc.
      by apply covered_desc. }
    destruct (Hout u Hnc) as [-> ->]. rewrite Hget1, Hdepth1.
    split; [|done]. by rewrite decide_True.
  - intros w Hw.
    assert (Hnc : ~ covered u vs0 w).
    { intros [? _]%covered_desc; done. }
    destruct (Hout w Hnc) as [-> ->]. rewrite Hget1, Hdepth1.
    split; [|done]. rewrite decide_False; [done|].
    intros (_ & [= ->] & _). apply Hw. by apply desc_refl.
Qed.

Lemma dfs_spec h u o :
  S u = true -> (forall w, dsc u w -> (dep w <= dep u + h)%nat) ->
  lca_shape adj o -> aget (LCA.depth o) u = Some (Z.of_nat (dep u)) ->
  exists o', LCA.dfs (Datatypes.S h) o u (par u) = Some (Ret o') /\ post (dsc u) o o'.
Proof.
  revert u o. induction h as [|h IH]; intros u o Hu Hh Hshape Hdu.
  - apply dfs_step; try done. intros c o0 Hc Hcr Hpc _ _. exfalso.
    assert (dsc u c) as Hd%Hh.
    { eapply (desc_child adj root S par dep Htree); [done..|]. by apply desc_refl. }
    destruct (rt_par _ _ _ _ _ Htree c Hc Hcr) as [_ Hdc]. rewrite Hpc in Hdc. lia.
  - apply dfs_step; try done. intros c o0 Hc Hcr Hpc Hs0 Hd0.
    rewrite <- Hpc. apply IH; try done.
    intros w Hw. destruct (rt_par _ _ _ _ _ Htree c Hc Hcr) as [_ Hdc].
    rewrite Hpc in Hdc.
    assert (dsc u w) as Hd%Hh; [|lia].
    by eapply (desc_child adj root S par dep Htree).
Qed.

Lemma fill_entry_spec k v o :
  1 <= k < LCA.LOG o -> 0 <= v < Z.of_nat (length adj) ->
  lca_shape adj o -> rows_ok adj S par o k ->
  exists o', LCA.fill_entry k v o = Some (Ret o') /\ lca_shape adj o' /\
    LCA.depth o' = LCA.depth o /\ LCA.LOG o' = LCA.LOG o /\ LCA.n o' = LCA.n o /\
    forall k' j, LCA.up_get o' k' j =
      if decide (k' = k /\ j = Some v)
      then Ret (Some (up_spec S par (Z.to_nat k) v)) else LCA.up_get o k' j.
Proof.
  intros Hk Hv Hshape Hrows. unfold LCA.fill_entry.
  rewrite (Hrows (k - 1) v) by lia.
  assert (Hpow : (2 ^ Z.to_nat k = 2 ^ Z.to_nat (k - 1) + 2 ^ Z.to_nat (k - 1))%nat).
  { replace (Z.to_nat k) with (Datatypes.S (Z.to_nat (k - 1))) by lia.
    rewrite Nat.pow_succ_r'. lia. }
  assert (Hset : forall x, x = up_spec S par (Z.to_nat k) v ->
    exists o', LCA.up_set o k v x = Ret o' /\ lca_shape adj o' /\
      LCA.depth o' = LCA.depth o /\ LCA.LOG o' = LCA.LOG o /\ LCA.n o' = LCA.n o /\
      forall k' j, LCA.up_get o' k' j =
        if decide (k' = k /\ j = Some v)
        then Ret (Some (up_spec S par (Z.to_nat k) v)) else LCA.up_get o k' j).
  { intros x ->. destruct (up_set_spec adj o k v (up_spec S par (Z.to_nat k) v) Hshape)
      as (o' & Hrun & Hs' & Hd' & HL' & Hn' & Hget'); [lia|].
    exists o'. split_and!; [done..|]. intros k' j. rewrite Hget'.
    destruct (decide (k' = k /\ j = Some v)) as [[-> ->]|Hne].
    - by rewrite decide_True.
    - rewrite decide_False; [done|]. intros (? & ? & _). by apply Hne. }
  destruct (S v) eqn:HSv.
  - set (mid := Nat.iter (2 ^ Z.to_nat (k - 1)) par v).
    assert (Hm : up_spec S par (Z.to_nat (k - 1)) v = mid)
      by (unfold up_spec; by rewrite HSv).
    rewrite !Hm.
    assert (HSmid : S mid = true) by (by apply (S_iter adj root S par dep Htree)).
    pose proof (rt_range _ _ _ _ _ Htree mid HSmid) as Hmid.
    rewrite (proj2 (Z.eqb_neq mid (-1))) by lia.
    rewrite (Hrows (k - 1) mid) by lia.
    destruct (Hset (up_spec S par (Z.to_nat (k - 1)) mid)) as (o' & -> & Hrest).
    { unfold up_spec. rewrite HSmid, HSv, Hpow. unfold mid.
      by rewrite Nat.iter_add. }
    by exists o'.
  - assert (Hm : up_spec S par (Z.to_nat (k - 1)) v = -1)
      by (unfold up_spec; by rewrite HSv).
    rewrite !Hm. rewrite Z.eqb_refl. destruct (Hset (-1)) as (o' & -> & Hrest).
    { unfold up_spec. by rewrite HSv. }
    by exists o'.
Qed.

Lemma fill_level_spec k o :
  1 <= k < LCA.LOG o -> lca_shape adj o -> rows_ok adj S par o k ->
  exists o', LCA.fill_level k o = Some (Ret o') /\ lca_shape adj o' /\
    LCA.depth o' = LCA.depth o /\ LCA.LOG o' = LCA.LOG o /\
    rows_ok adj S par o' (k + 1).
Proof.
  intros Hk Hshape Hrows. unfold LCA.fill_level. rewrite (ls_n _ _ Hshape).
  destruct (for_each_inv
    (fun i o' => lca_shape adj o' /\ LCA.depth o' = LCA.depth o /\
       LCA.LOG o' = LCA.LOG o /\ rows_ok adj S par o' k /\
       forall v, 0 <= v < i -> v < Z.of_nat (length adj) ->
         LCA.up_get o' k (Some v) = Ret (Some (up_spec S par (Z.to_nat k) v)))
    0 (length adj) (LCA.fill_entry k) o) as (o' & Hrun & Hs' & Hd' & HL' & Hrows' & Hk').
  { split_and!; [done..|]. intros v ?. lia. }
  { intros i o0 Hi (Hs0 & Hd0 & HL0 & Hrows0 & Hk0).
    destruct (fill_entry_spec k i o0) as (o1 & Hrun1 & Hs1 & Hd1 & HL1 & _ & Hget1);
      [lia | lia | done | done |].
    exists o1. split; [done|]. split_and!; [done | congruence | congruence | |].
    - intros k' v Hk' Hv. rewrite Hget1. rewrite decide_False by (intros [-> _]; lia).
      by apply Hrows0.
    - intros v Hv1 Hv2. rewrite Hget1. destruct (decide (v = i)) as [->|Hne].
      + by rewrite decide_True.
      + rewrite decide_False by (intros [_ [= ?]]; done). apply Hk0; lia. }
  exists o'. split_and!; [done..|].
  intros k' v Hk1 Hv. destruct (decide (k' = k)) as [->|Hne].
  - apply Hk'; lia.
  - apply Hrows'; lia.
Qed.

(** The object that [new LCA(adj, root)] returns. *)
Lemma new_spec :
  exists o,
    LCA.new (Datatypes.S (length adj)) adj root = Some (Ret o) /\
    lca_shape adj o /\ rows_ok adj S par o (LCA.LOG o) /\ depth_ok adj S dep o.
Proof.
  unfold LCA.new.
  set (n0 := Z.of_nat (length adj)). set (LOG0 := Z.log2_up (Z.max 2 n0)).
  set (o0 := LCA.mk n0 LOG0 _ _ adj).
  assert (Hshape0 : lca_shape adj o0).
  { split; cbn; try done.
    - rewrite length_replicate. lia.
    - by rewrite length_replicate.
    - apply Forall_replicate. rewrite length_replicate. lia. }
  pose proof (rt_root _ _ _ _ _ Htree) as HSroot.
  pose proof (rt_range _ _ _ _ _ Htree root HSroot) as Hroot.
  assert (Hinit : forall v, 0 <= v < n0 ->
    LCA.up_get o0 0 (Some v) = Ret (Some (-1)) /\ aget (LCA.depth o0) v = Some 0).
  { intros v Hv. pose proof (shape_LOG adj o0 Hshape0) as HL. cbn in HL.
    unfold LCA.up_get, aget. cbn. rewrite !decide_True by lia.
    rewrite !lookup_replicate_2 by lia. rewrite ?decide_True by lia.
    by rewrite ?lookup_replicate_2 by lia. }
  destruct (dfs_spec (length adj) root o0) as (o1 & Hrun1 & Hpost1); [done | | done | |].
  { intros w Hw. pose proof (dep_lt_length adj root S par dep Htree w (desc_S _ _ _ _ _ Hw)). lia. }
  { rewrite (rt_dep_root _ _ _ _ _ Htree). by apply Hinit. }
  rewrite (rt_par_root _ _ _ _ _ Htree) in Hrun1. rewrite Hrun1.
  destruct Hpost1 as [Hshape1 Hlev1 Hin1 Hout1].
  assert (HL1 : LCA.LOG o1 = LOG0).
  { rewrite (ls_LOG _ _ Hshape1), (ls_n _ _ Hshape1). done. }
  assert (Hdepth1 : depth_ok adj S dep o1).
  { intros v Hv. destruct (S v) eqn:HSv.
    - apply Hin1. by apply (desc_root adj root S par dep Htree).
    - rewrite (proj2 (Hout1 v (fun Hd => eq_true_false_abs _ (desc_S _ _ _ _ _ Hd) HSv))).
      by apply Hinit. }
  assert (Hrows1 : rows_ok adj S par o1 1).
  { intros k v Hk Hv. assert (k = 0) as -> by lia. unfold up_spec.
    destruct (S v) eqn:HSv.
    - apply Hin1. by apply (desc_root adj root S par dep Htree).
    - rewrite (proj1 (Hout1 v (fun Hd => eq_true_false_abs _ (desc_S _ _ _ _ _ Hd) HSv))).
      by apply Hinit. }
  pose proof (shape_LOG adj o1 Hshape1) as HLpos.
  replace (LCA.LOG o1 - 1) with (Z.of_nat (Z.to_nat (LCA.LOG o1 - 1))) by lia.
  destruct (for_each_inv
    (fun k o' => lca_shape adj o' /\ LCA.depth o' = LCA.depth o1 /\
       LCA.LOG o' = LCA.LOG o1 /\ rows_ok adj S par o' k)
    1 (Z.to_nat (LCA.LOG o1 - 1)) LCA.fill_level o1) as (o' & Hrun & Hs' & Hd' & HL' & Hrows').
  { done. }
  { intros k o2 Hk (Hs2 & Hd2 & HL2 & Hrows2).
    destruct (fill_level_spec k o2) as (o3 & Hrun3 & Hs3 & Hd3 & HL3 & Hrows3);
      [lia | done | done |].
    exists o3. split; [done|]. split_and!; [done | congruence | congruence | done]. }
  exists o'. split_and!; [done | done | |].
  - rewrite HL'. by replace (1 + Z.of_nat (Z.to_nat (LCA.LOG o1 - 1)))
      with (LCA.LOG o1) in Hrows' by lia.
  - intros v Hv. rewrite Hd'. by apply Hdepth1.
Qed.

(** ** Queries *)

Lemma anc_depth w b :
  S w = true -> ancestor par b w ->
  S b = true /\ (dep b <= dep w)%nat /\ b = Nat.iter (dep w - dep b) par w.
Proof.
  intros Hw [j <-].
  pose proof (S_iter adj root S par dep Htree j w Hw) as HSb.
  pose proof (dep_iter adj root S par dep Htree j w Hw) as Hdb.
  split_and!; [done | lia |]. rewrite Hdb.
  destruct (decide (j <= dep w)%nat) as [Hle|Hgt].
  - f_equal. lia.
  - rewrite !(iter_above adj root S par dep Htree) by (done || lia). done.
Qed.

Lemma anc_chain w b c :
  S w = true -> ancestor par b w -> ancestor par c w -> (dep c <= dep b)%nat ->
  c = Nat.iter (dep b - dep c) par b.
Proof.
  intros Hw (HSb & Hdb & Hb)%anc_depth (HSc & Hdc & Hc)%anc_depth Hle; try done.
  transitivity (Nat.iter (dep b - dep c) par (Nat.iter (dep w - dep b) par w));
    [|by rewrite <- Hb].
  etrans; [exact Hc|]. rewrite <- Nat.iter_add. f_equal. lia.
Qed.

Lemma anc_same_depth b c :
  S b = true -> ancestor par c b -> (dep b <= dep c)%nat -> c = b.
Proof.
  intros Hb (HSc & Hdc & Hc)%anc_depth Hle; [|done].
  rewrite Hc. by replace (dep b - dep c)%nat with O by lia.
Qed.

Section query_facts.
Variable o : LCA.t.
Hypothesis Hshape : lca_shape adj o.
Hypothesis Hrows : rows_ok adj S par o (LCA.LOG o).
Hypothesis Hdepth : depth_ok adj S dep o.
Hypothesis Hsmall : Z.of_nat (length adj) < 2 ^ 32.

Lemma LOG_bounds : 1 <= LCA.LOG o <= 32 /\ Z.of_nat (length adj) <= 2 ^ LCA.LOG o.
Proof.
  pose proof (shape_LOG adj o Hshape) as H1.
  rewrite (ls_LOG _ _ Hshape), (ls_n _ _ Hshape) in *.
  split_and!; [done | |].
  - apply Z.log2_up_le_pow2; lia.
  - pose proof (Z.log2_up_spec (Z.max 2 (Z.of_nat (length adj)))). lia.
Qed.

Lemma up_get_S k w :
  S w = true -> (Z.of_nat k < LCA.LOG o) ->
  LCA.up_get o (Z.of_nat k) (Some w) = Ret (Some (Nat.iter (2 ^ k) par w)).
Proof.
  intros Hw Hk. pose proof (rt_range _ _ _ _ _ Htree w Hw).
  rewrite Hrows by lia. unfold up_spec. by rewrite Hw, Nat2Z.id.
Qed.

Lemma lift_app d ks1 ks2 u :
  LCA.lift o d (ks1 ++ ks2) u =
    match LCA.lift o d ks1 u with
    | Ret u' => LCA.lift o d ks2 u'
    | Throw => Throw
    end.
Proof.
  revert u. induction ks1 as [|k ks1 IH]; intros u; cbn; [done|].
  destruct (bit_set d k); [|apply IH].
  destruct (LCA.up_get o k u); [apply IH | done].
Qed.

Lemma lift_prefix diff (k : nat) w :
  S w = true -> 0 <= diff < 2 ^ 32 -> Z.of_nat k <= LCA.LOG o ->
  LCA.lift o (Some diff) (seqZ 0 (Z.of_nat k)) (Some w) =
    Ret (Some (Nat.iter (Z.to_nat (diff mod 2 ^ Z.of_nat k)) par w)).
Proof.
  intros Hw Hdiff. induction k as [|k IH]; intros Hk.
  - cbn. by rewrite Z.mod_1_r.
  - rewrite seqZ_S, Nat2Z.inj_succ. rewrite lift_app, IH by lia.
    cbn [LCA.lift]. pose proof LOG_bounds as [HL _].
    rewrite Z.add_0_l. rewrite bit_set_testbit by lia.
    assert (Hmod : diff mod 2 ^ Z.succ (Z.of_nat k) =
              diff mod 2 ^ Z.of_nat k + 2 ^ Z.of_nat k * Z.b2z (Z.testbit diff (Z.of_nat k))).
    { rewrite Z.pow_succ_r, (Z.mul_comm 2) by lia.
      rewrite Z.rem_mul_r by lia. rewrite Z.testbit_spec' by lia. done. }
    rewrite Hmod. pose proof (Z.mod_pos_bound diff (2 ^ Z.of_nat k)) as Hb.
    assert (0 < 2 ^ Z.of_nat k) by (apply Z.pow_pos_nonneg; lia).
    destruct (Z.testbit diff (Z.of_nat k)); cbn [Z.b2z].
    + rewrite up_get_S; [|by apply (S_iter adj root S par dep Htree)|lia].
      rewrite <- Nat.iter_add. do 3 f_equal.
      rewrite Z.mul_1_r, Z2Nat.inj_add by lia.
      rewrite Z2Nat.inj_pow, Nat2Z.id by lia. change (Z.to_nat 2) with 2%nat. lia.
    + do 3 f_equal. lia.
Qed.

Lemma descend_spec (k : nat) a b :
  S a = true -> S b = true -> a <> b -> Z.of_nat k <= LCA.LOG o ->
  Nat.iter (2 ^ k) par a = Nat.iter (2 ^ k) par b ->
  exists J a' b',
    LCA.descend o (reverse (seqZ 0 (Z.of_nat k))) (Some a) (Some b)
      = Ret (Some a', Some b') /\
    a' = Nat.iter J par a /\ b' = Nat.iter J par b /\
    a' <> b' /\ par a' = par b'.
Proof.
  revert a b. induction k as [|k IH]; intros a b Ha Hb Hne Hk Heq.
  - exists O, a, b. by split_and!.
  - rewrite seqZ_S. rewrite reverse_snoc, Z.add_0_l.
    cbn [LCA.descend]. rewrite !up_get_S by (done || lia).
    assert (Hpow : (2 ^ Datatypes.S k = 2 ^ k + 2 ^ k)%nat) by (rewrite Nat.pow_succ_r'; lia).
    destruct (decide (Some (Nat.iter (2 ^ k) par a) <> Some (Nat.iter (2 ^ k) par b)))
      as [Hd|Hd].
    + destruct (IH (Nat.iter (2 ^ k) par a) (Nat.iter (2 ^ k) par b))
        as (J & a' & b' & Hrun & Ha' & Hb' & Hne' & Hpar).
      { by apply (S_iter adj root S par dep Htree). }
      { by apply (S_iter adj root S par dep Htree). }
      { congruence. } { lia. }
      { rewrite <- !Nat.iter_add, <- Hpow. done. }
      exists (J + 2 ^ k)%nat, a', b'. rewrite !Nat.iter_add. by split_and!.
    + apply dec_stable in Hd. apply IH; try done; [lia | congruence].
Qed.

(** The query on two nodes of the tree, the first at least as deep as the
    second. *)
Lemma query_ordered u v :
  S u = true -> S v = true -> (dep v <= dep u)%nat ->
  exists a,
    match LCA.lift o (Some (Z.of_nat (dep u) - Z.of_nat (dep v)))
            (seqZ 0 (LCA.LOG o)) (Some u) with
    | Throw => Throw
    | Ret u1 =>
        if decide (u1 = Some v) then Ret u1
        else
          match LCA.descend o (reverse (seqZ 0 (LCA.LOG o))) u1 (Some v) with
          | Throw => Throw
          | Ret (u2, _) => LCA.up_get o 0 u2
          end
    end = Ret (Some a) /\
    lowest_common_ancestor par u v a /\ (u = v -> a = u).
Proof.
  intros Hu Hv Hle. pose proof LOG_bounds as [HL Hn].
  pose proof (dep_lt_length adj root S par dep Htree u Hu) as Hdu.
  set (diff := (dep u - dep v)%nat).
  assert (Hdiff : Z.of_nat (dep u) - Z.of_nat (dep v) = Z.of_nat diff)
    by (unfold diff; lia).
  assert (Hdl : (diff <= dep u)%nat /\ (dep u - diff = dep v)%nat)
    by (unfold diff; lia).
  clearbody diff. rewrite Hdiff.
  pose proof (lift_prefix (Z.of_nat diff) (Z.to_nat (LCA.LOG o)) u Hu) as Hlift.
  rewrite Z2Nat.id, Z.mod_small, Nat2Z.id in Hlift by lia.
  rewrite Hlift by lia.
  set (u1 := Nat.iter diff par u).
  assert (Hu1 : S u1 = true) by (by apply (S_iter adj root S par dep Htree)).
  assert (Hdu1 : dep u1 = dep v).
  { unfold u1. rewrite (dep_iter adj root S par dep Htree) by done. lia. }
  destruct (decide (Some u1 = Some v)) as [[= Heq]|Hne].
  - exists v. split; [by rewrite Heq|]. split.
    + split_and!; [by exists diff | by exists O |].
      intros b Hvb Hbv [_ Hb]. apply Hbv.
      destruct (anc_depth v b Hv Hb) as (HSb & Hdb & _).
      symmetry. apply anc_same_depth; [done | done |].
      destruct (anc_depth b v HSb Hvb) as (_ & ? & _). lia.
    + done.
  - assert (Hne' : u1 <> v) by congruence.
    pose proof (dep_lt_length adj root S par dep Htree v Hv) as Hdv.
    assert (Hpow : (length adj <= 2 ^ Z.to_nat (LCA.LOG o))%nat).
    { apply Nat2Z.inj_le. rewrite Nat2Z.inj_pow, Z2Nat.id by lia. done. }
    destruct (descend_spec (Z.to_nat (LCA.LOG o)) u1 v Hu1 Hv Hne')
      as (J & a' & b' & Hrun & Ha' & Hb' & Hab & Hpar); [lia | |].
    { rewrite !(iter_above adj root S par dep Htree) by (done || lia). done. }
    rewrite Z2Nat.id in Hrun by lia. rewrite Hrun.
    assert (HSa : S a' = true) by (subst a'; by apply (S_iter adj root S par dep Htree)).
    assert (HSb : S b' = true) by (subst b'; by apply (S_iter adj root S par dep Htree)).
    change 0 with (Z.of_nat 0). rewrite up_get_S by (done || lia).
    change (Nat.iter (2 ^ 0) par a') with (par a').
    assert (Hdab : dep a' = dep b').
    { subst a' b'. rewrite !(dep_iter adj root S par dep Htree) by done. lia. }
    assert (Hda : (0 < dep a')%nat).
    { destruct (dep a') eqn:E; [|lia]. exfalso. apply Hab.
      rewrite (dep_zero adj root S par dep Htree a') by done.
      symmetry. apply (dep_zero adj root S par dep Htree); [done | lia]. }
    assert (Hau : ancestor par a' u).
    { exists (J + diff)%nat. rewrite Nat.iter_add. by subst a' u1. }
    assert (Hbv : ancestor par b' v) by (by exists J).
    exists (par a'). split; [done|]. split.
    2:{ intros ->. exfalso. apply Hne'. unfold u1. by replace diff with O by lia. }
    split_and!.
    + destruct Hau as [j <-]. by exists (Datatypes.S j).
    + rewrite Hpar. destruct Hbv as [j <-]. by exists (Datatypes.S j).
    + intros b Hrb Hbr [Hbu Hbv'].
      destruct (anc_depth u b Hu Hbu) as (HSb0 & _ & _).
      assert (Hdr : dep (par a') = (dep a' - 1)%nat)
        by (by apply (dep_par adj root S par dep Htree)).
      assert (Hdb : (dep a' <= dep b)%nat).
      { destruct (decide (dep a' <= dep b)%nat); [done|]. exfalso. apply Hbr.
        symmetry. apply anc_same_depth; [done | done | lia]. }
      apply Hab.
      rewrite (anc_chain u b a' Hu Hbu Hau Hdb).
      rewrite (anc_chain v b b' Hv Hbv' Hbv) by lia. by rewrite Hdab.
Qed.
End query_facts.
End lca_facts.

Lemma new_mono f f' adj root r :
  LCA.new f adj root = Some r -> (f <= f')%nat -> LCA.new f' adj root = Some r.
Proof.
  unfold LCA.new. intros Hrun Hle.
  destruct (LCA.dfs f _ root root) as [o1|] eqn:Hdfs; [|done].
  by rewrite (dfs_mono _ f' _ _ _ _ Hdfs Hle).
Qed.

Lemma lowest_common_ancestor_sym par u v a :
  lowest_common_ancestor par u v a -> lowest_common_ancestor par v u a.
Proof.
  intros (Hu & Hv & Hlow). split_and!; [done..|].
  intros b Hab Hne [Hbv Hbu]. by apply (Hlow b Hab Hne).
Qed.

Lemma tree_reachable adj root S par dep v :
  rooted_tree_on adj root S par dep -> S v = true <-> reachable adj root v.
Proof.
  intros Htree. split.
  - intros Hv. remember (dep v) as d eqn:Hd. revert v Hv Hd.
    induction d as [|d IH]; intros v Hv Hd.
    + rewrite (dep_zero adj root S par dep Htree v) by done. constructor.
    + assert (v <> root) as Hne.
      { intros ->. rewrite (rt_dep_root _ _ _ _ _ Htree) in Hd. lia. }
      destruct (rt_par _ _ _ _ _ Htree v Hv Hne) as [Hp Hdp].
      destruct (rt_child _ _ _ _ _ Htree v Hv Hne) as (vs & Hvs & Hin).
      apply (reach_step adj root (par v) v vs); [|done..].
      apply IH; [done | lia].
  - induction 1 as [|u v vs _ IH Hvs Hin].
    + apply (rt_root _ _ _ _ _ Htree).
    + destruct (rt_adj _ _ _ _ _ Htree u vs v IH Hvs Hin) as [[_ ->]|[? _]]; [|done].
      by apply (S_par adj root S par dep Htree).
Qed.

(** [query] reads rows [0 .. LOG-1] of [up] only, which the constructor has
    made: it does not throw. *)
Lemma up_get_Ret adj o k i :
  lca_shape adj o -> 0 <= k < LCA.LOG o -> exists r, LCA.up_get o k i = Ret r.
Proof.
  intros Hs Hk. destruct (shape_row adj o k Hs Hk) as (row & Hrow & _).
  unfold LCA.up_get. rewrite Hrow. by eexists.
Qed.

Lemma lift_Ret adj o d ks u :
  lca_shape adj o -> Forall (fun k => 0 <= k < LCA.LOG o) ks ->
  exists r, LCA.lift o d ks u = Ret r.
Proof.
  intros Hs Hks. revert u. induction Hks as [|k ks Hk _ IH]; intros u; cbn.
  - by eexists.
  - destruct (bit_set d k); [|apply IH].
    destruct (up_get_Ret adj o k u Hs Hk) as [r ->]. apply IH.
Qed.

Lemma descend_Ret adj o ks u v :
  lca_shape adj o -> Forall (fun k => 0 <= k < LCA.LOG o) ks ->
  exists r, LCA.descend o ks u v = Ret r.
Proof.
  intros Hs Hks. revert u v. induction Hks as [|k ks Hk _ IH]; intros u v; cbn.
  - by eexists.
  - destruct (up_get_Ret adj o k u Hs Hk) as [a ->].
    destruct (up_get_Ret adj o k v Hs Hk) as [b ->].
    case_decide; apply IH.
Qed.

Lemma query_Ret adj o u v : lca_shape adj o -> exists r, LCA.query o u v = Ret r.
Proof.
  intros Hs. unfold LCA.query.
  assert (Hks : Forall (fun k => 0 <= k < LCA.LOG o) (seqZ 0 (LCA.LOG o))).
  { apply Forall_forall. intros k Hk%elem_of_seqZ. lia. }
  assert (Hks' : Forall (fun k => 0 <= k < LCA.LOG o) (reverse (seqZ 0 (LCA.LOG o)))).
  { apply Forall_forall. intros k Hk%elem_of_reverse%elem_of_seqZ. lia. }
  pose proof (shape_LOG adj o Hs) as HL.
  destruct (js_lt _ _).
  - destruct (lift_Ret adj o (js_sub (aget (LCA.depth o) v) (aget (LCA.depth o) u))
                (seqZ 0 (LCA.LOG o)) (Some v) Hs Hks) as [u1 ->].
    case_decide; [by eexists|].
    destruct (descend_Ret adj o _ u1 (Some u) Hs Hks') as [[u2 v2] ->].
    apply (up_get_Ret adj); [done | lia].
  - destruct (lift_Ret adj o (js_sub (aget (LCA.depth o) u) (aget (LCA.depth o) v))
                (seqZ 0 (LCA.LOG o)) (Some u) Hs Hks) as [u1 ->].
    case_decide; [by eexists|].
    destruct (descend_Ret adj o _ u1 (Some v) Hs Hks') as [[u2 v2] ->].
    apply (up_get_Ret adj); [done | lia].
Qed.

Lemma lift_zero o d ks u :
  (d = None \/ d = Some 0) -> LCA.lift o d ks u = Ret u.
Proof.
  intros Hd. induction ks as [|k ks IH]; cbn; [done|].
  assert (bit_set d k = false) as ->; [|done].
  destruct Hd as [->| ->]; [done|]. unfold bit_set, js_and.
  by rewrite (int32_small 0), Z.land_0_l by lia.
Qed.

Lemma query_same o u : LCA.query o u u = Ret (Some u).
Proof.
  unfold LCA.query.
  assert (js_lt (aget (LCA.depth o) u) (aget (LCA.depth o) u) = false) as ->.
  { destruct (aget (LCA.depth o) u); cbn; [apply Z.ltb_irrefl | done]. }
  rewrite lift_zero.
  - by rewrite decide_True.
  - destruct (aget (LCA.depth o) u); cbn; [right; f_equal; lia | by left].
Qed.

(** A run of [new] that returns has built an object of the right shape. *)
Lemma dfs_children_shape adj rec u p vs o o' :
  (forall o0 v o1, lca_shape adj o0 -> rec o0 v = Some (Ret o1) -> lca_shape adj o1) ->
  lca_shape adj o -> LCA.dfs_children rec u p vs o = Some (Ret o') -> lca_shape adj o'.
Proof.
  intros Hrec. revert o. induction vs as [|v vs IH]; intros o Hs; cbn.
  - by intros [= <-].
  - case_decide; [|by apply IH]. destruct (aget (LCA.depth o) u) as [du|]; [|done].
    destruct (rec _ v) as [[o1|]|] eqn:E; [|done..].
    apply IH. eapply Hrec; [|done]. by apply depth_set_shape.
Qed.

Lemma dfs_shape adj f o u p o' :
  lca_shape adj o -> LCA.dfs f o u p = Some (Ret o') -> lca_shape adj o'.
Proof.
  revert o u p o'. induction f as [|f IH]; intros o u p o' Hs; [done|].
  cbn [LCA.dfs]. pose proof (shape_LOG adj o Hs).
  destruct (up_set_spec adj o 0 u p Hs) as (o1 & -> & Hs1 & _); [lia|].
  destruct (aget (LCA.adj o1) u) as [vs|]; [|done].
  apply dfs_children_shape; [|done]. intros o0 v o2 Hs0. by apply IH.
Qed.

Lemma for_each_shape adj xs body o o' :
  (forall x o0 o1, lca_shape adj o0 -> body x o0 = Some (Ret o1) -> lca_shape adj o1) ->
  lca_shape adj o -> for_each xs body o = Some (Ret o') -> lca_shape adj o'.
Proof.
  intros Hbody. revert o. induction xs as [|x xs IH]; intros o Hs; cbn.
  - by intros [= <-].
  - destruct (body x o) as [[o1|]|] eqn:E; [|done..]. apply IH. by eapply Hbody.
Qed.

Lemma up_set_shape adj o k i x o' :
  lca_shape adj o -> LCA.up_set o k i x = Ret o' -> lca_shape adj o'.
Proof.
  intros Hs Hset. destruct (decide (0 <= k < LCA.LOG o)) as [Hk|Hk].
  - destruct (up_set_spec adj o k i x Hs Hk) as (o1 & Heq & Hs1 & _). congruence.
  - unfold LCA.up_set in Hset. destruct (aget (LCA.up o) k) eqn:E; [|done].
    apply aget_lt in E. rewrite (ls_up _ _ Hs) in E. lia.
Qed.

Lemma fill_entry_shape adj k v o o' :
  lca_shape adj o -> LCA.fill_entry k v o = Some (Ret o') -> lca_shape adj o'.
Proof.
  intros Hs. unfold LCA.fill_entry.
  destruct (LCA.up_get o (k - 1) (Some v)) as [[mid|]|]; [|done..].
  destruct (mid =? -1).
  - intros [= H]. by eapply up_set_shape.
  - destruct (LCA.up_get o (k - 1) (Some mid)) as [[x|]|]; [|done..].
    intros [= H]. by eapply up_set_shape.
Qed.

Lemma new_shape f adj root o :
  LCA.new f adj root = Some (Ret o) -> lca_shape adj o.
Proof.
  unfold LCA.new. set (o0 := LCA.mk _ _ _ _ adj).
  assert (Hshape0 : lca_shape adj o0).
  { split; cbn; try done.
    - rewrite length_replicate. lia.
    - by rewrite length_replicate.
    - apply Forall_replicate. rewrite length_replicate. lia. }
  destruct (LCA.dfs f o0 root root) as [[o1|]|] eqn:Hdfs; [|done..].
  apply for_each_shape; [|by eapply dfs_shape].
  intros k o2 o3 Hs2. apply for_each_shape; [|done].
  intros v o4 o5. apply fill_entry_shape.
Qed.
(** ** The loops of [bfs] *)

Lemma mark_length m v : length (in_array (mark m v)) = length (in_array m).
Proof.
  unfold mark. destruct (aget _ _); cbn; [apply length_aset|done].
Qed.

Lemma marked_mark m v w :
  marked (mark m v) w = true <-> w = v \/ marked m w = true.
Proof.
  unfold mark, marked. destruct (aget (in_array m) v) as [b|] eqn:Hv; cbn.
  - pose proof (aget_lt _ _ _ Hv) as Hr.
    destruct (decide (w = v)) as [->|Hne].
    + rewrite aget_aset_eq by done. by split; [left|].
    + rewrite aget_aset_ne by done. split; [by right|]. by intros [?|?].
  - destruct (aget (in_array m) w) as [b|] eqn:Hw.
    + split; [by right|]. intros [->|?]; [congruence|done].
    + rewrite !bool_decide_eq_true, elem_of_cons. done.
Qed.

Lemma nodup_range_length (l : list Z) (n : nat) :
  NoDup l -> (forall v, v ∈ l -> 0 <= v < Z.of_nat n) -> (length l <= n)%nat.
Proof.
  intros Hnd Hr.
  assert (Hsub : l ⊆+ seqZ 0 (Z.of_nat n)).
  { apply NoDup_submseteq; [done|]. intros x Hx. apply elem_of_seqZ.
    specialize (Hr x Hx). lia. }
  apply submseteq_length in Hsub. rewrite length_seqZ in Hsub. lia.
Qed.

Lemma hops_reachable adj s v :
  reachable adj s v <-> exists k, hops adj s v k.
Proof.
  split.
  - induction 1 as [|u v vs _ [k IH] Hvs Hin]; [exists O; constructor|].
    exists (S k). by econstructor.
  - intros [k Hk]. induction Hk; [constructor|by econstructor].
Qed.

Lemma level_unique adj s v d1 d2 :
  level adj s v d1 -> level adj s v d2 -> d1 = d2.
Proof.
  intros [H1 L1] [H2 L2]. apply L1 in H2. apply L2 in H1. lia.
Qed.

Lemma level_start adj s : level adj s s O.
Proof. split; [constructor|]. intros k _. lia. Qed.

Section bfs_facts.
Variables (adj : list (list Z)) (start : Z).

Local Abbreviation inv := (bfs_inv adj start).
Local Abbreviation lev := (level adj start).

(** Inside the [for] loop over the list of [u]: the nodes nearer than [u]
    are in [out], before [u]. *)
Lemma bfs_nearer u rest st du :
  inv (Some (u, rest)) st -> lev u du ->
  forall k w, hops adj start w k -> (k < du)%nat -> w ∈ bs_out st /\ w <> u.
Proof.
  intros Hinv Hu k w Hw. induction Hw as [|x w vs k Hx IH Hvs Hin]; intros Hk.
  - destruct (bi_front _ _ _ _ Hinv) as [[out0 Hout] _].
    assert (start <> u) as Hne.
    { intros ->. pose proof (level_unique _ _ _ _ _ Hu (level_start adj u)). lia. }
    split; [|done]. destruct (bi_start _ _ _ _ Hinv) as [s' Hs'].
    rewrite Hout in *. destruct out0 as [|y out0]; cbn in Hs'; simplify_eq.
    by left.
  - destruct IH as [Hxo Hxu]; [lia|].
    assert (Hws : w ∈ bs_out st ++ bs_q st).
    { destruct (bi_closed _ _ _ _ Hinv x vs w Hxo Hvs Hin) as [?|(r & [= ? ?] & _)];
        [done|by subst]. }
    destruct (bi_level _ _ _ _ Hinv w Hws) as [dw Hdw].
    assert (dw <= S k)%nat as Hle by (apply Hdw; by econstructor).
    destruct (bi_front _ _ _ _ Hinv) as [[out0 Hout] _].
    assert (Huo : u ∈ bs_out st) by (rewrite Hout; apply elem_of_app; right; by left).
    assert (w <> u) as Hne.
    { intros ->. pose proof (level_unique _ _ _ _ _ Hu Hdw). lia. }
    split; [|done]. apply elem_of_app in Hws as [?|Hwq]; [done|].
    pose proof (StronglySorted_app_1_elem_of _ _ _ u w
                  (bi_sorted _ _ _ _ Hinv) Huo Hwq du dw Hu Hdw). lia.
Qed.

(** One round of the [for] loop. *)
Lemma bfs_visit_step u v rest vis q out :
  inv (Some (u, v :: rest)) (BfsState vis q out) ->
  inv (Some (u, rest))
    (if marked vis v then BfsState vis q out
     else BfsState (mark vis v) (q ++ [v]) out).
Proof.
  intros Hinv. destruct (marked vis v) eqn:Hm.
  - destruct Hinv as [Hlen Hnd Hmk Hst Hrg Hcl Hlv Hso Hfr]. cbn in *.
    split; cbn; try done.
    + intros x vs w Hx Hvs Hw.
      destruct (Hcl x vs w Hx Hvs Hw) as [?|(r & [= -> <-] & Hr)]; [by left|].
      apply elem_of_cons in Hr as [->|Hr]; [left; by apply Hmk|].
      right. by exists rest.
    + destruct Hfr as (Ho & (vs & Hvs & Hsub) & Hq). split; [done|].
      split; [|done]. exists vs. split; [done|]. intros x Hx. apply Hsub. by right.
  - pose proof Hinv as [Hlen Hnd Hmk Hst Hrg Hcl Hlv Hso Hfr]. cbn in *.
    destruct Hfr as ([out0 Ho] & (vs & Hvs & Hsub) & Hq).
    assert (Huo : u ∈ out) by (rewrite Ho; apply elem_of_app; right; by left).
    destruct (Hlv u) as [du Hdu]; [apply elem_of_app; by left|].
    assert (Hnew : v ∉ out ++ q).
    { intros Hin%Hmk. congruence. }
    assert (Hedge : v ∈ vs) by (apply Hsub; by left).
    assert (Hlevel : lev v (S du)).
    { split; [destruct Hdu; by econstructor|].
      intros k Hk. destruct (decide (du < k)%nat) as [|Hge]; [lia|]. exfalso.
      inversion Hk as [|x v' vs' k' Hx Hvs' Hin']; subst.
      - destruct Hst as [s' Hs']. apply Hnew. rewrite Hs'. by left.
      - destruct (bfs_nearer u (v :: rest) _ du Hinv Hdu k' x Hx) as [Hxo Hxu];
          [lia|]. cbn in Hxo.
        destruct (Hcl x vs' v Hxo Hvs' Hin') as [?|(r & [= ? ?] & _)]; [done|].
        by subst. }
    split; cbn; rewrite ?app_assoc.
    + by rewrite mark_length.
    + apply NoDup_app. split; [done|]. split; [|by apply NoDup_singleton].
      intros x Hx [->|[]%elem_of_nil]%elem_of_cons. done.
    + intros w. rewrite marked_mark, Hmk, !elem_of_app, list_elem_of_singleton.
      tauto.
    + destruct Hst as [s' Hs']. exists (s' ++ [v]). by rewrite Hs'.
    + done.
    + intros x vs0 w Hx Hvs0 Hw. rewrite elem_of_app, list_elem_of_singleton.
      destruct (Hcl x vs0 w Hx Hvs0 Hw) as [?|(r & [= -> <-] & Hr)];
        [by left; left|].
      apply elem_of_cons in Hr as [->|Hr]; [left; by right|].
      right. by exists rest.
    + intros w [Hw| ->%list_elem_of_singleton]%elem_of_app; [by apply Hlv|].
      by exists (S du).
    + apply StronglySorted_app_2; [|done|repeat constructor].
      intros x w Hx ->%list_elem_of_singleton dx dw Hdx Hdw.
      rewrite (level_unique _ _ _ _ _ Hdw Hlevel).
      apply elem_of_app in Hx as [Hx|Hx].
      * rewrite Ho in Hx, Hso.
        apply elem_of_app in Hx as [Hx| ->%list_elem_of_singleton].
        -- rewrite <- app_assoc in Hso.
           pose proof (StronglySorted_app_1_elem_of _ _ _ x u Hso Hx
                         ltac:(by left) dx du Hdx Hdu). lia.
        -- rewrite (level_unique _ _ _ _ _ Hdx Hdu). lia.
      * by apply (Hq x du dx).
    + split; [by exists out0|]. split.
      * exists vs. split; [done|]. intros x Hx. apply Hsub. by right.
      * intros w du' dw [Hw| ->%list_elem_of_singleton]%elem_of_app Hdu' Hdw.
        -- by apply (Hq w).
        -- rewrite (level_unique _ _ _ _ _ Hdw Hlevel),
             (level_unique _ _ _ _ _ Hdu' Hdu). lia.
Qed.

Lemma bfs_visit_inv u vs vis q out :
  inv (Some (u, vs)) (BfsState vis q out) ->
  inv (Some (u, []))
    (BfsState (bfs_visit vs vis q).1 (bfs_visit vs vis q).2 out).
Proof.
  revert vis q. induction vs as [|v vs IH]; intros vis q Hinv; [done|].
  apply bfs_visit_step in Hinv. cbn [bfs_visit].
  destruct (marked vis v); by apply IH.
Qed.

(** Taking [u] off the queue. *)
Lemma bfs_shift vis u q out vs :
  inv None (BfsState vis (u :: q) out) -> aget adj u = Some vs ->
  inv (Some (u, vs)) (BfsState vis q (out ++ [u])).
Proof.
  intros [Hlen Hnd Hmk Hst Hrg Hcl Hlv Hso Hfr] Hvs. cbn in *.
  split; cbn; rewrite <- ?app_assoc; cbn; try done.
  - intros x [Hx| ->%list_elem_of_singleton]%elem_of_app; [by apply Hrg|].
    by apply aget_lt in Hvs.
  - intros x vs0 w [Hx| ->%list_elem_of_singleton]%elem_of_app Hvs0 Hw.
    + destruct (Hcl x vs0 w Hx Hvs0 Hw) as [?|(r & [=] & _)]. by left.
    + right. exists vs. split; [done|]. congruence.
  - split; [by exists out|]. split; [by exists vs|].
    intros w du dw Hw Hdu Hdw. by apply (Hfr u q w).
Qed.

(** Back at the test of the [while] loop. *)
Lemma bfs_next u vis q out :
  inv (Some (u, [])) (BfsState vis q out) -> inv None (BfsState vis q out).
Proof.
  intros [Hlen Hnd Hmk Hst Hrg Hcl Hlv Hso Hfr]. cbn in *.
  destruct Hfr as ([out0 Ho] & _ & Hq).
  split; cbn; try done.
  - intros x vs w Hx Hvs Hw.
    destruct (Hcl x vs w Hx Hvs Hw) as [?|(r & [= -> <-] & Hr)]; [by left|].
    by apply elem_of_nil in Hr.
  - intros u2 q' w du2 dw -> Hw Hdu2 Hdw.
    destruct (Hlv u) as [du Hdu]; [rewrite Ho; apply elem_of_app; left; apply elem_of_app; right; by left|].
    assert (du <= du2)%nat.
    { apply (StronglySorted_app_1_elem_of _ _ _ u u2 Hso); [|by left|done|done].
      rewrite Ho. apply elem_of_app. right. by left. }
    pose proof (Hq w du dw ltac:(by right) Hdu Hdw). lia.
Qed.

Lemma bfs_init_inv : inv None (bfs_init adj start).
Proof.
  unfold bfs_init. split; cbn [bs_visited bs_q bs_out app].
  - by rewrite mark_length; cbn; rewrite length_replicate.
  - apply NoDup_singleton.
  - intros v. rewrite marked_mark, list_elem_of_singleton.
    split; [intros [?|Hm]; [done|]|by left].
    unfold marked in Hm. cbn in Hm.
    destruct (aget (replicate (length adj) false) v) as [b|] eqn:Hv.
    + apply aget_Some in Hv as [_ Hv]. apply lookup_replicate in Hv as [-> _].
      done.
    + rewrite bool_decide_eq_true in Hm. by apply elem_of_nil in Hm.
  - by exists [].
  - intros u Hu. by apply elem_of_nil in Hu.
  - intros u vs v Hu. by apply elem_of_nil in Hu.
  - intros v ->%list_elem_of_singleton. exists O. apply level_start.
  - repeat constructor.
  - intros u q' v du dv [= <- <-] Hv. by apply elem_of_nil in Hv.
Qed.

(** When the queue is empty. *)
Lemma bfs_final vis out :
  inv None (BfsState vis [] out) -> bfs_result_ok adj start out.
Proof.
  intros [Hlen Hnd Hmk Hst Hrg Hcl Hlv Hso Hfr]. cbn in *.
  rewrite app_nil_r in *. split_and!; try done.
  - intros v. split.
    + intros [d [Hd _]]%Hlv. apply hops_reachable. by exists d.
    + induction 1 as [|u v vs _ IH Hvs Hin].
      * destruct Hst as [s' ->]. by left.
      * destruct (Hcl u vs v IH Hvs Hin) as [?|(r & [=] & _)]. done.
  - by destruct Hst as [s' ->].
Qed.

(** The loop ends: with the list [out], or with an exception when a node
    outside the graph has been reached. *)
Lemma bfs_loop_ends (m : nat) st fuel :
  inv None st -> (length adj - length (bs_out st) <= m)%nat -> (m < fuel)%nat ->
  (exists out, bfs_loop fuel adj st = Some (Ret out) /\
     bfs_result_ok adj start out) \/
  (bfs_loop fuel adj st = Some Throw /\
   exists v, reachable adj start v /\ ~ (0 <= v < Z.of_nat (length adj))).
Proof.
  revert st fuel. induction m as [|m IH]; intros [vis q out] fuel Hinv Hm Hfuel;
    (destruct fuel as [|fuel]; [lia|]); cbn [bfs_loop bs_q bs_out bs_visited] in *.
  all: destruct q as [|u q]; [left; exists out; split; [done|by eapply bfs_final]|].
  all: destruct (aget adj u) as [vs|] eqn:Hvs;
    [|right; split; [done|]; exists u; split;
      [destruct (bi_level _ _ _ _ Hinv u) as [d [Hd _]]; [apply elem_of_app; right; by left|];
       apply hops_reachable; by exists d
      |apply aget_None in Hvs; lia]].
  all: pose proof (bfs_next _ _ _ _ (bfs_visit_inv _ _ _ _ _
                     (bfs_shift _ _ _ _ _ Hinv Hvs))) as Hinv'.
  all: assert (length (out ++ [u]) <= length adj)%nat as Hlen
    by (apply nodup_range_length;
        [exact (proj1 (proj1 (NoDup_app _ _) (bi_nodup _ _ _ _ Hinv')))
        |exact (bi_range _ _ _ _ Hinv')]).
  all: rewrite length_app in Hlen; cbn in Hlen.
  - lia.
  - destruct (bfs_visit vs vis q) as [vis' q']. cbn [fst snd] in Hinv'.
    apply (IH _ fuel Hinv'); cbn; [rewrite length_app; cbn; lia|lia].
Qed.
End bfs_facts.
(** ** The union-find structure of [kruskal] *)

Lemma root_of_fun parent x r1 r2 :
  root_of parent x r1 -> root_of parent x r2 -> r1 = r2.
Proof.
  intros H1. revert r2. induction H1 as [x Hx|x p r Hx Hp _ IH]; intros r2 H2.
  - inversion H2; simplify_eq; done.
  - inversion H2; simplify_eq. by apply IH.
Qed.

Lemma root_of_root parent x r : root_of parent x r -> aget parent r = Some r.
Proof. induction 1; done. Qed.

Lemma root_of_range parent x r :
  root_of parent x r ->
  0 <= x < Z.of_nat (length parent) /\ 0 <= r < Z.of_nat (length parent).
Proof.
  intros H. split.
  - destruct H as [x Hx|x p r Hx _ _]; by apply aget_lt in Hx.
  - apply root_of_root in H. by apply aget_lt in H.
Qed.

Lemma root_rank_le B parent rank x r rx rr :
  uf_inv B parent rank -> root_of parent x r ->
  aget rank x = Some rx -> aget rank r = Some rr -> rx <= rr.
Proof.
  intros Hinv H. revert rx. induction H as [x Hx|x p r Hx Hp Hr IH]; intros rx Hrx Hrr.
  - simplify_eq. lia.
  - destruct (aget_is_Some rank p) as [rp Hrp].
    { rewrite (ui_len _ _ _ Hinv). by apply (ui_parent _ _ _ Hinv x). }
    pose proof (ui_up _ _ _ Hinv x p rx rp Hx Hp Hrx Hrp).
    specialize (IH rp Hrp Hrr). lia.
Qed.

(** Pointing [x] at its representative changes no representative. *)
Lemma root_of_compress parent x r y ry :
  root_of parent x r ->
  root_of (aset parent x r) y ry <-> root_of parent y ry.
Proof.
  intros Hx. pose proof (root_of_range _ _ _ Hx) as [Hxr Hrr].
  pose proof (root_of_root _ _ _ Hx) as Hroot.
  split.
  - induction 1 as [y Hy|y p ry Hy Hp _ IH].
    + destruct (decide (y = x)) as [->|Hne].
      * rewrite aget_aset_eq in Hy by done. simplify_eq. done.
      * rewrite aget_aset_ne in Hy by done. by constructor.
    + destruct (decide (y = x)) as [->|Hne].
      * rewrite aget_aset_eq in Hy by done. simplify_eq.
        assert (ry = p) as ->; [|done].
        apply (root_of_fun parent p); [done|by constructor].
      * rewrite aget_aset_ne in Hy by done. by econstructor.
  - induction 1 as [y Hy|y p ry Hy Hp Hpr IH].
    + destruct (decide (y = x)) as [->|Hne].
      * assert (r = x) as -> by (apply (root_of_fun parent x); [done|by constructor]).
        constructor. by rewrite aget_aset_eq.
      * constructor. by rewrite aget_aset_ne.
    + destruct (decide (y = x)) as [->|Hne].
      * assert (ry = r) as ->
          by (apply (root_of_fun parent x); [by econstructor|done]).
        assert (r <> x) as Hrx by (intros ->; congruence).
        apply root_up with r; [by rewrite aget_aset_eq|done|].
        constructor. by rewrite aget_aset_ne.
      * apply root_up with p; [by rewrite aget_aset_ne|done|done].
Qed.

Lemma find_spec B parent rank fuel x rx :
  uf_inv B parent rank -> aget rank x = Some rx ->
  B - rx < Z.of_nat fuel ->
  exists parent' r,
    find fuel parent x = Some (parent', r) /\
    root_of parent x r /\ uf_inv B parent' rank /\
    length parent' = length parent /\
    forall y ry, root_of parent' y ry <-> root_of parent y ry.
Proof.
  intros Hinv. revert x rx. induction fuel as [|fuel IH]; intros x rx Hrx Hfuel.
  { pose proof (ui_rank _ _ _ Hinv x rx Hrx). lia. }
  cbn [find]. pose proof (aget_lt _ _ _ Hrx) as Hxr.
  rewrite (ui_len _ _ _ Hinv) in Hxr.
  destruct (aget_is_Some parent x Hxr) as [p Hp]. rewrite Hp.
  destruct (decide (p <> x)) as [Hne|Heq].
  - pose proof (ui_parent _ _ _ Hinv x p Hp) as Hpr.
    destruct (aget_is_Some rank p) as [rp Hrp]; [by rewrite (ui_len _ _ _ Hinv)|].
    pose proof (ui_up _ _ _ Hinv x p rx rp Hp Hne Hrx Hrp) as Hlt.
    destruct (IH p rp Hrp) as (parent1 & r & Hfind & Hroot & Hinv1 & Hlen1 & Hsame1);
      [lia|].
    rewrite Hfind.
    assert (Hroot1 : root_of parent1 p r) by (by apply Hsame1).
    assert (Hx1 : root_of parent1 x r).
    { apply Hsame1. by econstructor. }
    rewrite aget_aset_eq by (by rewrite Hlen1).
    exists (aset parent1 x r), r. split_and!; try done.
    + by econstructor.
    + destruct Hinv1 as [Hl1 Hp1 Hr1 Hu1]. split.
      * by rewrite length_aset.
      * intros y q. rewrite length_aset. destruct (decide (y = x)) as [->|Hy].
        -- rewrite aget_aset_eq by (by rewrite Hlen1). intros [= <-].
           by apply (root_of_range _ _ _ Hroot1).
        -- rewrite aget_aset_ne by done. apply Hp1.
      * done.
      * intros y q ry rq. destruct (decide (y = x)) as [->|Hy].
        -- rewrite aget_aset_eq by (by rewrite Hlen1). intros [= <-] Hrx' Hry Hrq.
           simplify_eq.
           pose proof (root_rank_le _ _ _ _ _ _ _ Hinv Hroot Hrp Hrq). lia.
        -- rewrite aget_aset_ne by done. apply Hu1.
    + by rewrite length_aset.
    + intros y ry. rewrite root_of_compress by done. apply Hsame1.
  - assert (p = x) as -> by (destruct (decide (p = x)); [done|by destruct Heq]).
    exists parent, x. split_and!; try done. by constructor.
Qed.

(** Every node of the array has a representative. *)
Lemma root_exists B parent rank x :
  uf_inv B parent rank -> 0 <= x < Z.of_nat (length parent) ->
  exists r, root_of parent x r.
Proof.
  intros Hinv Hx.
  destruct (aget_is_Some rank x) as [rx Hrx]; [by rewrite (ui_len _ _ _ Hinv)|].
  pose proof (ui_rank _ _ _ Hinv x rx Hrx).
  destruct (find_spec B parent rank (S (Z.to_nat B)) x rx Hinv Hrx)
    as (_ & r & _ & Hr & _); [lia|]. by exists r.
Qed.

Lemma uf_inv_mono B B' parent rank :
  B <= B' -> uf_inv B parent rank -> uf_inv B' parent rank.
Proof.
  intros Hle [H1 H2 H3 H4]. split; try done.
  intros x r Hr. specialize (H3 x r Hr). lia.
Qed.

(** Hanging the root [drop] under the root [keep], as [unite] does. *)
Lemma link_spec B parent rank keep drop rk rd :
  uf_inv B parent rank ->
  aget parent keep = Some keep -> aget parent drop = Some drop ->
  keep <> drop ->
  aget rank keep = Some rk -> aget rank drop = Some rd -> rd <= rk ->
  let parent' := aset parent drop keep in
  let rank' := if rk =? rd then aset rank keep (rk + 1) else rank in
  uf_inv (B + 1) parent' rank' /\
  forall y ry, root_of parent y ry ->
    root_of parent' y (if decide (ry = drop) then keep else ry).
Proof.
  intros Hinv Hk Hd Hne Hrk Hrd Hle parent' rank'.
  pose proof (aget_lt _ _ _ Hk) as Hkr. pose proof (aget_lt _ _ _ Hd) as Hdr.
  assert (Hrank' : forall y, aget rank' y
            = if decide (y = keep) then Some (if rk =? rd then rk + 1 else rk)
              else aget rank y).
  { intros y. unfold rank'. destruct (rk =? rd) eqn:E.
    - destruct (decide (y = keep)) as [->|Hy].
      + apply aget_aset_eq. by rewrite (ui_len _ _ _ Hinv).
      + by apply aget_aset_ne.
    - destruct (decide (y = keep)) as [->|Hy]; done. }
  destruct Hinv as [Hl Hp Hr Hu]. split.
  - split.
    + unfold parent', rank'. destruct (rk =? rd); by rewrite ?length_aset.
    + intros y q. unfold parent'. rewrite length_aset.
      destruct (decide (y = drop)) as [->|Hy].
      * rewrite aget_aset_eq by done. by intros [= <-].
      * rewrite aget_aset_ne by done. apply Hp.
    + intros y r. rewrite Hrank'. destruct (decide (y = keep)) as [->|Hy].
      * intros [= <-]. specialize (Hr keep rk Hrk). destruct (rk =? rd); lia.
      * intros Hy'. specialize (Hr y r Hy'). lia.
    + intros y q ry rq. unfold parent'. rewrite !Hrank'.
      destruct (decide (y = drop)) as [->|Hy].
      * rewrite aget_aset_eq by done. intros [= <-] _.
        rewrite decide_False by done. rewrite decide_True by done.
        intros Hry [= <-]. simplify_eq.
        destruct (rk =? rd) eqn:E; [lia|]. apply Z.eqb_neq in E. lia.
      * rewrite aget_aset_ne by done. intros Hq Hqy.
        destruct (decide (y = keep)) as [->|Hyk]; [congruence|].
        destruct (decide (q = keep)) as [->|Hqk].
        -- intros Hry [= <-]. pose proof (Hu y keep ry rk Hq Hqy Hry Hrk).
           destruct (rk =? rd); lia.
        -- by apply Hu.
  - induction 1 as [y Hy|y p ry Hy Hp' _ IH].
    + destruct (decide (y = drop)) as [->|Hyd].
      * apply root_up with keep; [by apply aget_aset_eq|done|].
        constructor. unfold parent'. by rewrite aget_aset_ne.
      * constructor. unfold parent'. by rewrite aget_aset_ne.
    + assert (y <> drop) as Hyd by (intros ->; congruence).
      apply root_up with p; [|done|done]. unfold parent'. by rewrite aget_aset_ne.
Qed.

Lemma unite_spec B parent rank fuel a b :
  uf_inv B parent rank ->
  0 <= a < Z.of_nat (length parent) -> 0 <= b < Z.of_nat (length parent) ->
  B < Z.of_nat fuel ->
  exists parent' rank' res ra rb,
    unite fuel parent rank a b = Some (parent', rank', res) /\
    root_of parent a ra /\ root_of parent b rb /\
    uf_inv (B + 1) parent' rank' /\ length parent' = length parent /\
    if res then
      ra <> rb /\
      exists keep drop,
        ((keep = ra /\ drop = rb) \/ (keep = rb /\ drop = ra)) /\
        forall y ry, root_of parent y ry ->
          root_of parent' y (if decide (ry = drop) then keep else ry)
    else ra = rb /\ forall y ry, root_of parent' y ry <-> root_of parent y ry.
Proof.
  intros Hinv Ha Hb Hfuel. unfold unite.
  destruct (aget_is_Some rank a) as [xa Hxa]; [by rewrite (ui_len _ _ _ Hinv)|].
  pose proof (ui_rank _ _ _ Hinv a xa Hxa) as Hxa0.
  destruct (find_spec B parent rank fuel a xa Hinv Hxa)
    as (parent1 & ra & -> & Hra & Hinv1 & Hlen1 & Hsame1); [lia|].
  destruct (aget_is_Some rank b) as [xb Hxb]; [by rewrite (ui_len _ _ _ Hinv)|].
  pose proof (ui_rank _ _ _ Hinv b xb Hxb) as Hxb0.
  destruct (find_spec B parent1 rank fuel b xb Hinv1 Hxb)
    as (parent2 & rb & -> & Hrb1 & Hinv2 & Hlen2 & Hsame2); [lia|].
  assert (Hrb : root_of parent b rb) by (by apply Hsame1).
  assert (Hsame : forall y ry, root_of parent2 y ry <-> root_of parent y ry).
  { intros y ry. by rewrite Hsame2, Hsame1. }
  destruct (decide (ra = rb)) as [->|Hne].
  - exists parent2, rank, false, rb, rb. split_and!; try done.
    + apply uf_inv_mono with B; [lia|done].
    + congruence.
  - pose proof (proj2 (root_of_range _ _ _ Hra)) as Hrar.
    pose proof (proj2 (root_of_range _ _ _ Hrb)) as Hrbr.
    destruct (aget_is_Some rank ra) as [ka Hka]; [by rewrite (ui_len _ _ _ Hinv)|].
    destruct (aget_is_Some rank rb) as [kb Hkb]; [by rewrite (ui_len _ _ _ Hinv)|].
    rewrite Hka, Hkb.
    assert (Hroot2 : forall y ry, root_of parent y ry -> aget parent2 ry = Some ry).
    { intros y ry Hy. apply (root_of_root parent2 y), Hsame, Hy. }
    destruct (ka <? kb) eqn:Hlt.
    + apply Z.ltb_lt in Hlt. rewrite Hkb, Hka.
      destruct (link_spec B parent2 rank rb ra kb ka Hinv2) as [Hinv' Hmap];
        [by apply (Hroot2 b) | by apply (Hroot2 a) | done | done | done | lia |].
      eexists _, _, true, ra, rb. split_and!; try done.
      * by rewrite length_aset, Hlen2.
      * exists rb, ra. split; [by right|]. intros y ry Hy. by apply Hmap, Hsame.
    + apply Z.ltb_ge in Hlt. rewrite Hka, Hkb.
      destruct (link_spec B parent2 rank ra rb ka kb Hinv2) as [Hinv' Hmap];
        [by apply (Hroot2 a) | by apply (Hroot2 b) | done | done | done | lia |].
      eexists _, _, true, ra, rb. split_and!; try done.
      * by rewrite length_aset, Hlen2.
      * exists ra, rb. split; [by left|]. intros y ry Hy. by apply Hmap, Hsame.
Qed.

(** ** Connected nodes *)

Lemma joins_sym es u v : joins es u v -> joins es v u.
Proof. intros [w [H|H]]; exists w; [by right|by left]. Qed.

Lemma connected_trans es x y z :
  connected es x y -> connected es y z -> connected es x z.
Proof. intros Hxy. induction 1; [done|by econstructor]. Qed.

Lemma connected_sym es x y : connected es x y -> connected es y x.
Proof.
  induction 1 as [|v y _ IH Hj]; [constructor|].
  apply connected_trans with v; [|done].
  apply conn_step with y; [constructor|by apply joins_sym].
Qed.

Lemma connected_mono es es' x y :
  (forall e, e ∈ es -> e ∈ es') -> connected es x y -> connected es' x y.
Proof.
  intros Hsub. induction 1 as [|v y _ IH [w Hj]]; [constructor|].
  apply conn_step with v; [done|]. exists w. destruct Hj; [left|right]; by apply Hsub.
Qed.

Lemma connected_edge es (e : wedge) : e ∈ es -> connected es e.1.1 e.1.2.
Proof.
  intros He. apply conn_step with e.1.1; [constructor|].
  exists e.2. left. by destruct e as [[u v] w].
Qed.

Lemma connected_within F T x y :
  (forall e, e ∈ F -> connected T e.1.1 e.1.2) ->
  connected F x y -> connected T x y.
Proof.
  intros Hin. induction 1 as [|v y _ IH [w Hj]]; [constructor|].
  apply connected_trans with v; [done|]. destruct Hj as [Hj|Hj].
  - apply (Hin _ Hj).
  - apply connected_sym, (Hin _ Hj).
Qed.

Lemma connected_nil x y : connected [] x y -> x = y.
Proof.
  induction 1 as [|v y _ IH [w [Hj|Hj]]]; [done| |]; by apply elem_of_nil in Hj.
Qed.

Lemma connected_range n es x y :
  ends_in_range n es -> connected es x y -> x = y \/ (0 <= x < n /\ 0 <= y < n).
Proof.
  intros Hr. unfold ends_in_range in Hr. rewrite Forall_forall in Hr.
  induction 1 as [|v y _ IH [w Hj]]; [by left|]. right.
  assert (0 <= v < n /\ 0 <= y < n) as [Hv Hy].
  { destruct Hj as [Hj|Hj]; apply Hr in Hj; cbn in Hj; lia. }
  destruct IH as [->|[? _]]; done.
Qed.

(** What one more edge connects. *)
Lemma connected_snoc es (e : wedge) x y :
  connected (es ++ [e]) x y <->
  connected es x y \/
  (connected es x e.1.1 /\ connected es e.1.2 y) \/
  (connected es x e.1.2 /\ connected es e.1.1 y).
Proof.
  split.
  - induction 1 as [|v y _ IH [w Hj]]; [left; constructor|].
    assert (joins es v y \/ (v = e.1.1 /\ y = e.1.2) \/ (v = e.1.2 /\ y = e.1.1))
      as Hcase.
    { destruct Hj as [Hj|Hj]; apply elem_of_app in Hj as [Hj|Hj%list_elem_of_singleton].
      - left. exists w. by left.
      - right. left. by subst.
      - left. exists w. by right.
      - right. right. by subst. }
    destruct Hcase as [Hes|[[-> ->]|[-> ->]]].
    + destruct IH as [IH|[[IH1 IH2]|[IH1 IH2]]].
      * left. by econstructor.
      * right. left. split; [done|by econstructor].
      * right. right. split; [done|by econstructor].
    + destruct IH as [IH|[[IH1 IH2]|[IH1 IH2]]].
      * right. left. split; [done|constructor].
      * right. left. split; [done|constructor].
      * left. done.
    + destruct IH as [IH|[[IH1 IH2]|[IH1 IH2]]].
      * right. right. split; [done|constructor].
      * left. done.
      * right. right. split; [done|constructor].
  - assert (Hm : forall a b, connected es a b -> connected (es ++ [e]) a b).
    { intros a b. apply connected_mono. intros e' He'. apply elem_of_app. by left. }
    assert (He : connected (es ++ [e]) e.1.1 e.1.2).
    { apply connected_edge, elem_of_app. right. by left. }
    intros [H|[[H1 H2]|[H1 H2]]].
    + by apply Hm.
    + apply connected_trans with e.1.1; [by apply Hm|].
      apply connected_trans with e.1.2; [done|by apply Hm].
    + apply connected_trans with e.1.2; [by apply Hm|].
      apply connected_trans with e.1.1; [by apply connected_sym|by apply Hm].
Qed.

(** ** Sorting the edges *)

Lemma insert_edge_perm e l : insert_edge e l ≡ₚ e :: l.
Proof.
  induction l as [|y l IH]; cbn; [done|].
  destruct (weight e <=? weight y); [done|]. rewrite IH. apply perm_swap.
Qed.

Lemma sort_edges_perm l : sort_edges l ≡ₚ l.
Proof.
  induction l as [|e l IH]; cbn; [done|]. by rewrite insert_edge_perm, IH.
Qed.

Lemma insert_edge_sorted e l :
  StronglySorted (fun a b => weight a <= weight b) l ->
  StronglySorted (fun a b => weight a <= weight b) (insert_edge e l).
Proof.
  induction 1 as [|y l Hl IH Hy]; cbn; [repeat constructor|].
  destruct (weight e <=? weight y) eqn:E.
  - apply Z.leb_le in E. constructor; [by constructor|].
    constructor; [done|]. eapply Forall_impl; [exact Hy|]. cbn. lia.
  - apply Z.leb_gt in E. constructor; [done|].
    rewrite insert_edge_perm. constructor; [lia|done].
Qed.

Lemma sort_edges_sorted l :
  StronglySorted (fun a b => weight a <= weight b) (sort_edges l).
Proof.
  induction l as [|e l IH]; cbn; [constructor|]. by apply insert_edge_sorted.
Qed.

(** ** The loop of [kruskal] *)

Lemma aget_seqZ n x p : aget (seqZ 0 n) x = Some p <-> p = x /\ 0 <= x < n.
Proof.
  rewrite aget_Some, lookup_seqZ. split.
  - intros (? & -> & ?). lia.
  - intros (-> & ?). lia.
Qed.

Lemma kruskal_init_inv n :
  0 <= n -> kruskal_inv n [] [] (seqZ 0 n) (replicate (Z.to_nat n) 0).
Proof.
  intros Hn.
  assert (Hroot : forall x r, root_of (seqZ 0 n) x r -> r = x).
  { intros x r. induction 1 as [|x p r Hp Hne _ _]; [done|].
    apply aget_seqZ in Hp as [-> _]. done. }
  split.
  - split.
    + rewrite length_replicate, length_seqZ. done.
    + intros x p [-> ?]%aget_seqZ. rewrite length_seqZ. lia.
    + intros x r [_ Hr]%aget_Some. apply lookup_replicate in Hr as [-> _]. done.
    + intros x p rx rp [-> ?]%aget_seqZ. done.
  - rewrite length_seqZ. lia.
  - done.
  - intros x y Hx Hy. split.
    + intros (r & H1%Hroot & H2%Hroot). subst. constructor.
    + intros ->%connected_nil. exists y. split; constructor; by apply aget_seqZ.
  - constructor.
  - intros e He. by apply elem_of_nil in He.
Qed.

Lemma upto_sub w es e : e ∈ upto w es -> e ∈ es.
Proof. unfold upto. rewrite list_elem_of_filter. tauto. Qed.

Lemma upto_all w es :
  (forall e, e ∈ es -> weight e <= w) -> upto w es = es.
Proof.
  intros H. unfold upto. induction es as [|e es IH]; [done|].
  rewrite filter_cons_True by (apply H; by left).
  f_equal. apply IH. intros e' He'. apply H. by right.
Qed.

Section kruskal_step.
Variables (n : Z) (done mst : list wedge) (parent rank : list Z).
Hypothesis Hinv : kruskal_inv n done mst parent rank.

Lemma ki_roots p q rp rq :
  root_of parent p rp -> root_of parent q rq ->
  connected mst p q <-> rp = rq.
Proof.
  intros Hp Hq.
  pose proof (proj1 (root_of_range _ _ _ Hp)) as Hpr.
  pose proof (proj1 (root_of_range _ _ _ Hq)) as Hqr.
  rewrite (ki_len _ _ _ _ _ Hinv) in Hpr, Hqr.
  rewrite <- (ki_same _ _ _ _ _ Hinv p q Hpr Hqr). split.
  - intros (r & H1 & H2).
    by rewrite (root_of_fun _ _ _ _ Hp H1), (root_of_fun _ _ _ _ Hq H2).
  - intros ->. by exists rq.
Qed.

Lemma kruskal_step (e : wedge) fuel :
  0 <= e.1.1 < n -> 0 <= e.1.2 < n ->
  (forall d, d ∈ done -> weight d <= weight e) ->
  Z.of_nat (length done) < Z.of_nat fuel ->
  exists parent' rank' res,
    unite fuel parent rank e.1.1 e.1.2 = Some (parent', rank', res) /\
    kruskal_inv n (done ++ [e]) (if res then mst ++ [e] else mst) parent' rank'.
Proof.
  intros Hu Hv Hw Hfuel.
  pose proof Hinv as [Huf Hlen Hsub Hsame Hforest Hdone].
  destruct (unite_spec _ parent rank fuel e.1.1 e.1.2 Huf)
    as (parent' & rank' & res & ra & rb & Hrun & Hra & Hrb & Huf' & Hlen' & Hres);
    [lia | lia | done |].
  exists parent', rank', res. split; [done|].
  assert (Hold : forall e', e' ∈ done ->
            connected (upto (weight e') (if res then mst ++ [e] else mst))
              e'.1.1 e'.1.2).
  { intros e' He'. eapply connected_mono; [|by apply Hdone].
    intros d Hd. destruct res; [|done]. unfold upto in *.
    rewrite filter_app, elem_of_app. by left. }
  assert (Hmst : forall d, d ∈ mst -> weight d <= weight e).
  { intros d Hd. apply Hw. by apply (sublist_subseteq _ _ Hsub). }
  destruct res.
  - destruct Hres as (Hne & keep & drop & Hkd & Hmap). split.
    + rewrite length_app, Nat2Z.inj_add. exact Huf'.
    + by rewrite Hlen'.
    + by apply sublist_app.
    + intros x y Hx Hy.
      destruct (root_exists _ _ _ x Huf) as [rx Hrx]; [lia|].
      destruct (root_exists _ _ _ y Huf) as [ry Hry]; [lia|].
      rewrite connected_snoc.
      rewrite (ki_roots x y rx ry Hrx Hry), (ki_roots x e.1.1 rx ra Hrx Hra),
        (ki_roots e.1.2 y rb ry Hrb Hry), (ki_roots x e.1.2 rx rb Hrx Hrb),
        (ki_roots e.1.1 y ra ry Hra Hry).
      pose proof (Hmap x rx Hrx) as Hx'. pose proof (Hmap y ry Hry) as Hy'.
      split.
      * intros (r & H1 & H2).
        pose proof (root_of_fun _ _ _ _ H1 Hx') as E1.
        pose proof (root_of_fun _ _ _ _ H2 Hy') as E2.
        destruct Hkd as [[-> ->]|[-> ->]]; repeat case_decide; subst; tauto.
      * intros Hcase.
        assert ((if decide (rx = drop) then keep else rx)
                = (if decide (ry = drop) then keep else ry)) as Heq.
        { destruct Hkd as [[-> ->]|[-> ->]]; repeat case_decide; subst;
            intuition congruence. }
        eexists. split; [exact Hx'|]. by rewrite Heq.
    + apply fs_snoc; [done|]. intros Hc.
      apply (ki_roots e.1.1 e.1.2 ra rb Hra Hrb) in Hc. done.
    + intros e' [He'| ->%list_elem_of_singleton]%elem_of_app; [by apply Hold|].
      apply connected_edge. unfold upto.
      rewrite list_elem_of_filter, elem_of_app. split; [lia|]. right. by left.
  - destruct Hres as (Heq & Hroots). subst rb. split.
    + rewrite length_app, Nat2Z.inj_add. exact Huf'.
    + by rewrite Hlen'.
    + by apply sublist_inserts_r.
    + intros x y Hx Hy. rewrite <- (Hsame x y Hx Hy). unfold same_set.
      split; intros (r & H1 & H2); exists r; split; by apply Hroots.
    + done.
    + intros e' [He'| ->%list_elem_of_singleton]%elem_of_app; [by apply Hold|].
      rewrite upto_all by done.
      by apply (ki_roots e.1.1 e.1.2 ra ra Hra Hrb).
Qed.
End kruskal_step.

Lemma kruskal_loop_spec n fuel es :
  forall done mst parent rank,
    kruskal_inv n done mst parent rank ->
    StronglySorted (fun a b => weight a <= weight b) (done ++ es) ->
    ends_in_range n es ->
    Z.of_nat (length (done ++ es)) < Z.of_nat fuel ->
    exists mst' parent' rank',
      kruskal_loop fuel es parent rank mst = Some mst' /\
      kruskal_inv n (done ++ es) mst' parent' rank'.
Proof.
  induction es as [|e es IH]; intros done mst parent rank Hinv Hsort Hr Hfuel.
  - rewrite app_nil_r. by exists mst, parent, rank.
  - cbn [kruskal_loop]. apply Forall_cons in Hr as [[Hu Hv] Hr].
    destruct (kruskal_step n done mst parent rank Hinv e fuel Hu Hv)
      as (parent' & rank' & res & -> & Hinv').
    { intros d Hd. apply (StronglySorted_app_1_elem_of _ _ _ d e Hsort Hd).
      by left. }
    { rewrite length_app in Hfuel. lia. }
    replace (done ++ e :: es) with ((done ++ [e]) ++ es) in *
      by (by rewrite <- app_assoc).
    destruct res; by apply (IH _ _ _ _ Hinv').
Qed.
(** ** Forests: counting the sets of connected nodes *)

Lemma elem_of_picked n r x : x ∈ picked n r <-> 0 <= x < n /\ r x = x.
Proof.
  unfold picked. rewrite list_elem_of_filter, elem_of_seqZ. intuition lia.
Qed.

Lemma NoDup_picked n r : NoDup (picked n r).
Proof. apply NoDup_filter, NoDup_seqZ. Qed.

Lemma rep_ok_idem n es r x : rep_ok n es r -> 0 <= x < n -> r (r x) = r x.
Proof.
  intros [H1 H2] Hx. destruct (H1 x Hx) as [_ Hc]. symmetry. by apply H2.
Qed.

Lemma rep_ok_connected n es r x y :
  rep_ok n es r -> 0 <= x < n -> 0 <= y < n -> r x = r y -> connected es x y.
Proof.
  intros [H1 H2] Hx Hy Heq. apply connected_trans with (r x); [by apply H1|].
  rewrite Heq. by apply connected_sym, H1.
Qed.

Lemma ends_in_range_app n l k :
  ends_in_range n (l ++ k) <-> ends_in_range n l /\ ends_in_range n k.
Proof. apply Forall_app. Qed.

(** A forest of [k] edges on [n] nodes has [n - k] sets of connected
    nodes. *)
Lemma forest_rep n F :
  0 <= n -> forest_seq F -> ends_in_range n F ->
  exists r, rep_ok n F r /\
    Z.of_nat (length (picked n r)) + Z.of_nat (length F) = n.
Proof.
  intros Hn. induction 1 as [|F e _ IH Hnc]; intros Hr.
  - exists (fun x => x). split.
    + split; [intros x Hx; split; [done|constructor]|].
      by intros x y _ ->%connected_nil.
    + unfold picked. rewrite (list_filter_iff _ (fun _ => True)) by done.
      assert (forall l : list Z, filter (fun _ => True) l = l) as ->.
      { induction l as [|a l IHl]; [done|]. by rewrite filter_cons_True, IHl. }
      rewrite length_seqZ. cbn. lia.
  - apply ends_in_range_app in Hr as [HrF He].
    apply Forall_singleton in He as [Hu Hv].
    destruct (IH HrF) as (r & Hrep & Hcount). pose proof Hrep as [H1 H2].
    set (u := e.1.1) in *. set (v := e.1.2) in *.
    assert (Hne : r u <> r v).
    { intros Heq. apply Hnc. by apply (rep_ok_connected n F r). }
    set (r' := fun x => if decide (r x = r v) then r u else r x).
    assert (Hm : forall a b, connected F a b -> connected (F ++ [e]) a b).
    { intros a b. apply connected_mono. intros d Hd. apply elem_of_app. by left. }
    assert (Hvu : connected (F ++ [e]) v u).
    { apply connected_sym, connected_edge, elem_of_app. right. by left. }
    exists r'. split; [split|].
    + intros x Hx. unfold r'. destruct (decide (r x = r v)) as [Heq|Heq].
      * split; [by apply H1|].
        apply connected_trans with v.
        { apply Hm. by apply (rep_ok_connected n F r). }
        apply connected_trans with u; [done|]. by apply Hm, H1.
      * split; [by apply H1|]. by apply Hm, H1.
    + intros x y Hx [Hc|[[Hc1 Hc2]|[Hc1 Hc2]]]%connected_snoc; unfold r'.
      * by rewrite (H2 x y Hx Hc).
      * fold u in Hc1. fold v in Hc2.
        rewrite (H2 x u Hx Hc1), <- (H2 v y Hv Hc2).
        rewrite decide_False by done. by rewrite decide_True.
      * fold v in Hc1. fold u in Hc2.
        rewrite (H2 x v Hx Hc1), <- (H2 u y Hu Hc2).
        rewrite decide_True by done. by rewrite decide_False.
    + assert (Hperm : picked n r ≡ₚ r v :: picked n r').
      { apply NoDup_Permutation.
        - apply NoDup_picked.
        - constructor; [|apply NoDup_picked].
          rewrite elem_of_picked. unfold r'. intros [_ Hfix].
          rewrite (rep_ok_idem n F r v Hrep Hv) in Hfix.
          rewrite decide_True in Hfix by done. done.
        - intros x. rewrite elem_of_cons, !elem_of_picked. unfold r'. split.
          + intros [Hx Hfix]. destruct (decide (x = r v)) as [|Hxv]; [by left|].
            right. split; [done|]. rewrite decide_False; [done|]. congruence.
          + intros [->|[Hx Hfix]].
            * split; [by apply H1|]. by apply (rep_ok_idem n F r).
            * split; [done|]. destruct (decide (r x = r v)) as [Heq|]; [|done].
              exfalso. apply Hne. rewrite <- Heq, <- Hfix. symmetry.
              by apply (rep_ok_idem n F r). }
      apply Permutation_length in Hperm. rewrite length_app. cbn in *. lia.
Qed.

(** A forest whose edges join nodes that [T] connects has at most as many
    edges as the forest [T]. *)
Lemma forest_le n F T :
  0 <= n -> forest_seq F -> forest_seq T ->
  ends_in_range n F -> ends_in_range n T ->
  (forall e, e ∈ F -> connected T e.1.1 e.1.2) ->
  (length F <= length T)%nat.
Proof.
  intros Hn HF HT HrF HrT Hin.
  destruct (forest_rep n F Hn HF HrF) as (rF & HrepF & HcF).
  destruct (forest_rep n T Hn HT HrT) as (rT & HrepT & HcT).
  assert (Hnd : NoDup (rF <$> picked n rT)).
  { apply NoDup_fmap_2_strong; [|apply NoDup_picked].
    intros x y [Hx Hfx]%elem_of_picked [Hy Hfy]%elem_of_picked Heq.
    rewrite <- Hfx, <- Hfy. apply (proj2 HrepT x y Hx).
    apply (connected_within F T); [done|].
    by apply (rep_ok_connected n F rF). }
  assert (Hsub : rF <$> picked n rT ⊆+ picked n rF).
  { apply NoDup_submseteq; [done|].
    intros y (x & -> & [Hx _]%elem_of_picked)%list_elem_of_fmap.
    apply elem_of_picked. split; [by apply (proj1 HrepF)|].
    by apply (rep_ok_idem n F rF). }
  apply submseteq_length in Hsub. rewrite length_fmap in Hsub. lia.
Qed.

Lemma forest_seq_sublist l l' : forest_seq l -> sublist l' l -> forest_seq l'.
Proof.
  intros Hl. revert l'. induction Hl as [|l e _ IH Hnc]; intros l' Hsub.
  - apply sublist_nil_r in Hsub as ->. constructor.
  - apply sublist_app_r in Hsub as (k1 & k2 & -> & Hk1 & Hk2).
    apply sublist_cons_r in Hk2 as [->%sublist_nil_r|(k & -> & ->%sublist_nil_r)].
    + rewrite app_nil_r. by apply IH.
    + apply fs_snoc; [by apply IH|]. intros Hc. apply Hnc.
      eapply connected_mono; [|exact Hc]. by apply sublist_subseteq.
Qed.

Lemma ends_in_range_sublist n l l' :
  ends_in_range n l -> sublist l' l -> ends_in_range n l'.
Proof.
  unfold ends_in_range. rewrite !Forall_forall. intros H Hsub e He.
  apply H. by apply (sublist_subseteq _ _ Hsub).
Qed.

(** The two readings of "no cycle" agree. *)
Lemma acyclic_forest_seq F : acyclic F -> forest_seq F.
Proof.
  induction F as [|e F IH] using rev_ind; intros Hac; [constructor|].
  apply fs_snoc.
  - apply IH. intros i d Hd Hc.
    pose proof (lookup_lt_Some _ _ _ Hd) as Hi.
    apply (Hac i d); [by rewrite lookup_app_l|].
    eapply connected_mono; [|exact Hc]. intros x Hx.
    rewrite delete_take_drop in *. rewrite take_app_le, drop_app_le by lia.
    rewrite app_assoc, elem_of_app. by left.
  - intros Hc. apply (Hac (length F) e).
    + by rewrite list_lookup_middle.
    + by rewrite delete_middle, app_nil_r.
Qed.


(** ** Comparing total weights *)

Lemma total_weight_perm l l' : l ≡ₚ l' -> total_weight l = total_weight l'.
Proof. unfold total_weight. induction 1; cbn in *; lia. Qed.

Lemma total_weight_app l k : total_weight (l ++ k) = total_weight l + total_weight k.
Proof. unfold total_weight. induction l as [|e l IH]; cbn in *; lia. Qed.

Lemma sorted_sublist (l l' : list wedge) :
  StronglySorted (fun a b => weight a <= weight b) l -> sublist l' l ->
  StronglySorted (fun a b => weight a <= weight b) l'.
Proof.
  intros Hl Hsub. induction Hsub as [|x l1 l2 Hsub IH|x l1 l2 Hsub IH].
  - constructor.
  - apply StronglySorted_inv in Hl as [Hl Hx]. constructor; [by apply IH|].
    rewrite Forall_forall in *. intros y Hy. apply Hx.
    by apply (sublist_subseteq _ _ Hsub).
  - apply StronglySorted_inv in Hl as [Hl _]. by apply IH.
Qed.

(** Two lists of equal length, sorted by weight: if, up to any weight, the
    first has at least as many edges as the second, its total weight is at
    most that of the second. *)
Lemma total_weight_major (T F : list wedge) :
  StronglySorted (fun a b => weight a <= weight b) T ->
  StronglySorted (fun a b => weight a <= weight b) F ->
  length T = length F ->
  (forall w, (length (upto w F) <= length (upto w T))%nat) ->
  total_weight T <= total_weight F.
Proof.
  revert F. induction T as [|t T IH]; intros [|f F] HT HF Hlen Hcount;
    try done.
  apply StronglySorted_inv in HT as [HT Ht].
  apply StronglySorted_inv in HF as [HF Hf].
  rewrite Forall_forall in Ht, Hf.
  assert (weight t <= weight f) as Htf.
  { specialize (Hcount (weight f)). unfold upto in Hcount.
    rewrite (filter_cons_True _ f) in Hcount by lia.
    destruct (decide (weight t <= weight f)) as [|Hgt]; [done|].
    rewrite filter_cons_False in Hcount by done.
    destruct (filter _ T) as [|x T'] eqn:E; [cbn in Hcount; lia|].
    assert (x ∈ filter (fun e => weight e <= weight f) T) as Hx
      by (rewrite E; by left).
    apply list_elem_of_filter in Hx as [Hx1 Hx2]. specialize (Ht x Hx2). lia. }
  cbn [total_weight foldr]. fold (total_weight T). fold (total_weight F).
  assert (total_weight T <= total_weight F); [|lia].
  apply IH; [done|done|by simplify_eq/=|].
  intros w. specialize (Hcount w). unfold upto in *.
  destruct (decide (weight f <= w)) as [Hfw|Hfw].
  - rewrite !filter_cons_True in Hcount by lia. cbn in Hcount. lia.
  - assert (filter (fun e => weight e <= w) F = []) as ->; [|cbn; lia].
    clear -Hf Hfw. induction F as [|x F IHF]; [done|].
    rewrite filter_cons_False by (specialize (Hf x ltac:(by left)); lia).
    apply IHF. intros y Hy. apply Hf. by right.
Qed.
(** ** The loops of [quickSort] *)

Lemma scan_up_spec a pivot k xk :
  aget a k = Some xk -> pivot <= xk ->
  forall (n : nat) i, 0 <= i <= k -> Z.to_nat (k - i) = n ->
  exists i',
    i <= i' <= k /\
    (forall fuel, (n < fuel)%nat -> scan_up fuel a pivot i = Some i') /\
    (exists x, aget a i' = Some x /\ pivot <= x) /\
    forall m x, i <= m < i' -> aget a m = Some x -> x < pivot.
Proof.
  intros Hk Hxk. pose proof (aget_lt _ _ _ Hk) as Hkr.
  induction n as [|n IH]; intros i Hi Hn.
  - assert (i = k) as -> by lia. exists k. split; [lia|]. split.
    + intros [|fuel] Hf; [lia|]. cbn. rewrite Hk.
      destruct (xk <? pivot) eqn:E; [apply Z.ltb_lt in E; lia|done].
    + split; [by exists xk|]. intros; lia.
  - destruct (aget_is_Some a i) as [x Hx]; [lia|].
    destruct (x <? pivot) eqn:E.
    + apply Z.ltb_lt in E.
      destruct (IH (i + 1)) as (i' & Hi' & Hrun & Hstop & Hbelow); [lia|lia|].
      exists i'. split; [lia|]. split.
      * intros [|fuel] Hf; [lia|]. cbn. rewrite Hx.
        rewrite (proj2 (Z.ltb_lt _ _) E). apply Hrun. lia.
      * split; [done|]. intros m y Hm Hy.
        destruct (decide (m = i)) as [->|]; [by simplify_eq|].
        apply (Hbelow m); [lia|done].
    + exists i. split; [lia|]. split.
      * intros [|fuel] Hf; [lia|]. cbn. by rewrite Hx, E.
      * apply Z.ltb_ge in E. split; [by exists x|]. intros; lia.
Qed.

Lemma scan_down_spec a pivot k xk :
  aget a k = Some xk -> xk <= pivot ->
  forall (n : nat) j, k <= j < Z.of_nat (length a) -> Z.to_nat (j - k) = n ->
  exists j',
    k <= j' <= j /\
    (forall fuel, (n < fuel)%nat -> scan_down fuel a pivot j = Some j') /\
    (exists x, aget a j' = Some x /\ x <= pivot) /\
    forall m x, j' < m <= j -> aget a m = Some x -> pivot < x.
Proof.
  intros Hk Hxk. pose proof (aget_lt _ _ _ Hk) as Hkr.
  induction n as [|n IH]; intros j Hj Hn.
  - assert (j = k) as -> by lia. exists k. split; [lia|]. split.
    + intros [|fuel] Hf; [lia|]. cbn. rewrite Hk.
      destruct (xk >? pivot) eqn:E; [apply Z.gtb_lt in E; lia|done].
    + split; [by exists xk|]. intros; lia.
  - destruct (aget_is_Some a j) as [x Hx]; [lia|].
    destruct (x >? pivot) eqn:E.
    + pose proof (proj1 (Z.gtb_lt _ _) E) as E'.
      destruct (IH (j - 1)) as (j' & Hj' & Hrun & Hstop & Habove); [lia|lia|].
      exists j'. split; [lia|]. split.
      * intros [|fuel] Hf; [lia|]. cbn. rewrite Hx, E. apply Hrun. lia.
      * split; [done|]. intros m y Hm Hy.
        destruct (decide (m = j)) as [->|]; [by simplify_eq|].
        apply (Habove m); [lia|done].
    + exists j. split; [lia|]. split.
      * intros [|fuel] Hf; [lia|]. cbn. by rewrite Hx, E.
      * split; [exists x; split; [done|]|intros; lia].
        destruct (Z.gtb_spec x pivot); [done|lia].
Qed.

(** The exchange of two entries. *)
Lemma exchange_spec (a : list Z) i j x y :
  aget a i = Some x -> aget a j = Some y ->
  let a' := aset (aset a i y) j x in
  length a' = length a /\ a' ≡ₚ a /\
  forall m, aget a' m
    = if decide (m = j) then Some x else if decide (m = i) then Some y
      else aget a m.
Proof.
  intros Hi Hj a'. pose proof (aget_lt _ _ _ Hi). pose proof (aget_lt _ _ _ Hj).
  split_and!.
  - unfold a'. by rewrite !length_aset.
  - apply aget_Some in Hi as [? Hi']. apply aget_Some in Hj as [? Hj'].
    unfold a', aset. rewrite !decide_True by done.
    rewrite <- (swap_perm a (Z.to_nat i) (Z.to_nat j)) at 2.
    unfold swap. by rewrite Hi', Hj'.
  - intros m. unfold a'. destruct (decide (m = j)) as [->|Hmj].
    + apply aget_aset_eq. by rewrite length_aset.
    + rewrite aget_aset_ne by done. destruct (decide (m = i)) as [->|Hmi].
      * by apply aget_aset_eq.
      * by rewrite aget_aset_ne.
Qed.

Lemma rearranged_refl a l r : rearranged a a l r.
Proof. split; [done|done|done|]. intros m x Hm Hx. by exists m. Qed.

Lemma rearranged_within a0 a1 a2 l r l' r' :
  rearranged a0 a1 l r -> rearranged a1 a2 l' r' -> l <= l' -> r' <= r ->
  rearranged a0 a2 l r.
Proof.
  intros [L1 P1 O1 F1] [L2 P2 O2 F2] Hl Hr. split.
  - congruence.
  - by rewrite P2.
  - intros m Hm. rewrite O2 by lia. by apply O1.
  - intros m x Hm Hx. destruct (decide (l' <= m <= r')) as [Hin|Hout].
    + destruct (F2 m x Hin Hx) as (m' & Hm' & Hx'). apply (F1 m'); [lia|done].
    + rewrite O2 in Hx by lia. by apply (F1 m).
Qed.

Section partition_facts.
Variables (a0 : list Z) (l r pivot : Z).

Lemma partition_exchange a i j i1 j1 x y :
  partition_inv a0 l r pivot a i j ->
  i <= i1 -> i1 <= j1 -> j1 <= j ->
  aget a i1 = Some x -> aget a j1 = Some y -> pivot <= x -> y <= pivot ->
  (forall m z, i <= m < i1 -> aget a m = Some z -> z < pivot) ->
  (forall m z, j1 < m <= j -> aget a m = Some z -> pivot < z) ->
  partition_inv a0 l r pivot (aset (aset a i1 y) j1 x) (i1 + 1) (j1 - 1).
Proof.
  intros [Hre Hrange Hi Hj Hlow Hhigh Hstop Hmoved] Hii Hij Hjj Hx Hy Hpx Hyp
    Hbelow Habove.
  destruct (exchange_spec a i1 j1 x y Hx Hy) as (Hlen & Hperm & Hget).
  set (a' := aset (aset a i1 y) j1 x) in *.
  assert (Hre' : rearranged a a' l r).
  { split; [done|done| |].
    - intros m Hm. rewrite Hget. rewrite !decide_False by lia. done.
    - intros m z Hm. rewrite Hget.
      destruct (decide (m = j1)) as [->|]; [intros [= <-]; exists i1; split; [lia|done]|].
      destruct (decide (m = i1)) as [->|]; [intros [= <-]; exists j1; split; [lia|done]|].
      intros Hz. by exists m. }
  split.
  - by apply (rearranged_within a0 a a' l r l r).
  - done.
  - lia.
  - lia.
  - intros m z Hm. rewrite Hget.
    destruct (decide (m = j1)) as [->|]; [intros [= <-]; assert (i1 = j1) by lia;
      subst; simplify_eq; lia|].
    destruct (decide (m = i1)) as [->|]; [intros [= <-]; lia|].
    intros Hz. destruct (decide (m < i)).
    + apply (Hlow m); [lia|done].
    + pose proof (Hbelow m z ltac:(lia) Hz). lia.
  - intros m z Hm. rewrite Hget.
    destruct (decide (m = j1)) as [->|]; [intros [= <-]; lia|].
    destruct (decide (m = i1)) as [->|]; [lia|].
    intros Hz. destruct (decide (j < m)).
    + apply (Hhigh m); [lia|done].
    + pose proof (Habove m z ltac:(lia) Hz). lia.
  - intros Hle. split.
    + exists j1, x. split; [lia|]. split; [|done].
      rewrite Hget. by rewrite decide_True.
    + exists i1, y. split; [lia|]. split; [|done].
      rewrite Hget. rewrite decide_False by lia. by rewrite decide_True.
  - right. lia.
Qed.

Lemma partition_spec :
  forall (n : nat) a i j,
    partition_inv a0 l r pivot a i j ->
    (i = l /\ j = r -> exists k, l <= k <= r /\ aget a k = Some pivot) ->
    (Z.to_nat (j - i + 1) <= n)%nat ->
    exists a' i' j',
      (forall fuel, (n + Z.to_nat (r - l) + 3 <= fuel)%nat ->
         partition fuel a pivot i j = Some (a', i', j')) /\
      partition_inv a0 l r pivot a' i' j' /\ j' < i' /\ l < i' /\ j' < r.
Proof.
  induction n as [|n IH]; intros a i j Hinv Hfirst Hn.
  - assert (j < i) as Hji by lia. exists a, i, j. split; [|split; [done|]].
    + intros [|fuel] Hf; [lia|]. cbn. by rewrite (proj2 (Z.leb_gt _ _) Hji).
    + destruct (pi_moved _ _ _ _ _ _ _ Hinv) as [[-> ->]|?];
        [pose proof (pi_range _ _ _ _ _ _ _ Hinv); lia|lia].
  - destruct (decide (i <= j)) as [Hij|Hji].
    2:{ assert (j < i) as Hji' by lia. exists a, i, j. split; [|split; [done|]].
        - intros [|fuel] Hf; [lia|]. cbn. by rewrite (proj2 (Z.leb_gt _ _) Hji').
        - destruct (pi_moved _ _ _ _ _ _ _ Hinv) as [[-> ->]|?];
            [pose proof (pi_range _ _ _ _ _ _ _ Hinv); lia|lia]. }
    pose proof Hinv as [Hre Hrange Hi Hj Hlow Hhigh Hstop Hmoved].
    pose proof (re_len _ _ _ _ Hre) as Hlen.
    assert (exists k1 x1 k2 x2,
              i <= k1 <= r /\ aget a k1 = Some x1 /\ pivot <= x1 /\
              l <= k2 <= j /\ aget a k2 = Some x2 /\ x2 <= pivot /\
              ((i = l /\ j = r) -> k1 = k2))
      as (k1 & x1 & k2 & x2 & Hk1 & Hx1 & Hp1 & Hk2 & Hx2 & Hp2 & Hsame).
    { destruct Hmoved as [[-> ->]|Hm].
      - destruct Hfirst as (k & Hk & Hpk); [done|].
        exists k, pivot, k, pivot. split_and!; try done; lia.
      - destruct (Hstop Hij) as [(k1 & x1 & ? & ? & ?) (k2 & x2 & ? & ? & ?)].
        exists k1, x1, k2, x2. split_and!; try done; lia. }
    destruct (scan_up_spec a pivot k1 x1 Hx1 Hp1 _ i ltac:(lia) eq_refl)
      as (i1 & Hi1 & Hrun1 & (y1 & Hy1 & Hpy1) & Hbelow).
    destruct (scan_down_spec a pivot k2 x2 Hx2 Hp2 _ j ltac:(lia) eq_refl)
      as (j1 & Hj1 & Hrun2 & (y2 & Hy2 & Hpy2) & Habove).
    destruct (decide (i1 <= j1)) as [Hle|Hgt].
    + pose proof (partition_exchange a i j i1 j1 y1 y2 Hinv ltac:(lia) Hle
                    ltac:(lia) Hy1 Hy2 Hpy1 Hpy2 Hbelow Habove) as Hinv'.
      destruct (IH _ (i1 + 1) (j1 - 1) Hinv') as (a' & i' & j' & Hrun & Hfin);
        [lia|lia|].
      exists a', i', j'. split; [|done].
      intros [|fuel] Hf; [lia|]. cbn [partition].
      rewrite (proj2 (Z.leb_le _ _) Hij).
      rewrite Hrun1, Hrun2 by lia. rewrite (proj2 (Z.leb_le _ _) Hle).
      rewrite Hy1, Hy2. apply Hrun. lia.
    + assert (Hm : l < i /\ j < r).
      { destruct Hmoved as [Hm|Hm]; [|done]. specialize (Hsame Hm). lia. }
      assert (Hinv' : partition_inv a0 l r pivot a i1 j1).
      { split; try done; try lia.
        - intros m z Hmz Hz. destruct (decide (m < i)).
          + apply (Hlow m); [lia|done].
          + pose proof (Hbelow m z ltac:(lia) Hz). lia.
        - intros m z Hmz Hz. destruct (decide (j < m)).
          + apply (Hhigh m); [lia|done].
          + pose proof (Habove m z ltac:(lia) Hz). lia. }
      destruct (IH _ i1 j1 Hinv') as (a' & i' & j' & Hrun & Hfin); [lia|lia|].
      exists a', i', j'. split; [|done].
      intros [|fuel] Hf; [lia|]. cbn [partition].
      rewrite (proj2 (Z.leb_le _ _) Hij).
      rewrite Hrun1, Hrun2 by lia. rewrite (proj2 (Z.leb_gt i1 j1) ltac:(lia)).
      apply Hrun. lia.
Qed.
End partition_facts.

Lemma sorted_between_short a l r : r <= l -> sorted_between a l r.
Proof.
  intros H p q x y Hp Hpq Hq Hx Hy. assert (p = q) as -> by lia.
  simplify_eq. lia.
Qed.

Lemma qs_short rnd a k l r fuel :
  r <= l -> (1 <= fuel)%nat -> qs fuel rnd a k l r = Some (a, k).
Proof.
  intros Hle Hf. destruct fuel as [|fuel]; [lia|]. cbn.
  rewrite Z.geb_leb. by rewrite (proj2 (Z.leb_le r l) Hle).
Qed.

(** The random index lies between [l] and [r]. *)
Lemma pivot_index_range p q l r :
  0 <= p < q -> l < r -> l <= l + (p * (r - l + 1)) / q <= r.
Proof.
  intros Hp Hlr.
  assert (0 <= p * (r - l + 1) / q) by (apply Z.div_pos; nia).
  assert (p * (r - l + 1) / q < r - l + 1)
    by (apply Z.div_lt_upper_bound; nia).
  lia.
Qed.

Lemma qs_spec rnd :
  unit_interval rnd ->
  forall (n : nat) a k l r,
    0 <= l -> r < Z.of_nat (length a) -> (Z.to_nat (r - l) <= n)%nat ->
    exists a' k',
      (forall fuel, (2 * n + 6 <= fuel)%nat ->
         qs fuel rnd a k l r = Some (a', k')) /\
      rearranged a a' l r /\ sorted_between a' l r.
Proof.
  intros Hrnd. induction n as [|n IH]; intros a k l r Hl Hr Hn.
  { exists a, k. split_and!.
    - intros fuel Hf. apply qs_short; lia.
    - apply rearranged_refl.
    - apply sorted_between_short. lia. }
  destruct (decide (r <= l)) as [Hle|Hlt].
  { exists a, k. split_and!.
    - intros fuel Hf. apply qs_short; lia.
    - apply rearranged_refl.
    - by apply sorted_between_short. }
  pose proof (pivot_index_range _ _ l r (Hrnd k) ltac:(lia)) as Hidx.
  set (pivotIdx := l + (rnd k).1 * (r - l + 1) / (rnd k).2) in *.
  destruct (aget_is_Some a pivotIdx) as [pivot Hpivot]; [lia|].
  assert (Hinv : partition_inv a l r pivot a l r).
  { split; try lia.
    - apply rearranged_refl.
    - intros _. split; exists pivotIdx, pivot; (split; [lia|split; [done|lia]]). }
  destruct (partition_spec a l r pivot (Z.to_nat (r - l + 1)) a l r Hinv)
    as (a1 & i & j & Hrun1 & Hinv1 & Hji & Hli & Hjr); [|lia|].
  { intros _. by exists pivotIdx. }
  pose proof Hinv1 as [Hre1 _ Hi1 Hj1 Hlow Hhigh _ _].
  pose proof (re_len _ _ _ _ Hre1) as Hlen1.
  assert (exists a2 k2,
            (forall fuel, (2 * n + 6 <= fuel)%nat ->
               (if l <? j then qs fuel rnd a1 (S k) l j else Some (a1, S k))
               = Some (a2, k2)) /\
            rearranged a1 a2 l j /\ sorted_between a2 l j)
    as (a2 & k2 & Hrun2 & Hre2 & Hs2).
  { destruct (l <? j) eqn:E.
    - apply Z.ltb_lt in E. apply IH; lia.
    - apply Z.ltb_ge in E. exists a1, (S k). split_and!; [done| |].
      + apply rearranged_refl.
      + by apply sorted_between_short. }
  pose proof (re_len _ _ _ _ Hre2) as Hlen2.
  assert (exists a3 k3,
            (forall fuel, (2 * n + 6 <= fuel)%nat ->
               (if i <? r then qs fuel rnd a2 k2 i r else Some (a2, k2))
               = Some (a3, k3)) /\
            rearranged a2 a3 i r /\ sorted_between a3 i r)
    as (a3 & k3 & Hrun3 & Hre3 & Hs3).
  { destruct (i <? r) eqn:E.
    - apply Z.ltb_lt in E. apply IH; lia.
    - apply Z.ltb_ge in E. exists a2, k2. split_and!; [done| |].
      + apply rearranged_refl.
      + by apply sorted_between_short. }
  exists a3, k3. split_and!.
  - intros [|fuel] Hf; [lia|]. cbn [qs].
    rewrite Z.geb_leb. rewrite (proj2 (Z.leb_gt r l)) by lia.
    fold pivotIdx. rewrite Hpivot. rewrite Hrun1 by lia.
    rewrite Hrun2 by lia. apply Hrun3. lia.
  - apply (rearranged_within a a2 a3 l r i r); [|done|lia|lia].
    apply (rearranged_within a a1 a2 l r l j); [done|done|lia|lia].
  - assert (VA : forall m x, l <= m <= j -> aget a3 m = Some x -> x <= pivot).
    { intros m x Hm Hx. rewrite (re_out _ _ _ _ Hre3) in Hx by lia.
      destruct (re_from _ _ _ _ Hre2 m x Hm Hx) as (m' & Hm' & Hx').
      apply (Hlow m'); [lia|done]. }
    assert (VM : forall m x, j < m < i -> aget a3 m = Some x -> x = pivot).
    { intros m x Hm Hx. rewrite (re_out _ _ _ _ Hre3) in Hx by lia.
      rewrite (re_out _ _ _ _ Hre2) in Hx by lia.
      pose proof (Hlow m x ltac:(lia) Hx). pose proof (Hhigh m x ltac:(lia) Hx).
      lia. }
    assert (VB : forall m x, i <= m <= r -> aget a3 m = Some x -> pivot <= x).
    { intros m x Hm Hx.
      destruct (re_from _ _ _ _ Hre3 m x Hm Hx) as (m' & Hm' & Hx').
      rewrite (re_out _ _ _ _ Hre2) in Hx' by lia.
      apply (Hhigh m'); [lia|done]. }
    intros p q x y Hp Hpq Hq Hx Hy.
    assert (Hqhigh : j < q -> pivot <= y).
    { intros Hjq. destruct (decide (q < i)).
      - rewrite (VM q y) by (done || lia). lia.
      - apply (VB q); [lia|done]. }
    destruct (decide (p <= j)) as [Hpj|Hpj].
    + pose proof (VA p x ltac:(lia) Hx). destruct (decide (q <= j)) as [Hqj|Hqj].
      * apply (Hs2 p q); [lia|lia|lia| |].
        -- by rewrite <- (re_out _ _ _ _ Hre3) by lia.
        -- by rewrite <- (re_out _ _ _ _ Hre3) by lia.
      * specialize (Hqhigh ltac:(lia)). lia.
    + destruct (decide (p < i)) as [Hpi|Hpi].
      * rewrite (VM p x) by (done || lia). apply Hqhigh. lia.
      * apply (Hs3 p q); [lia|lia|lia|done|done].
Qed.

Lemma sorted_lookup (a : list Z) :
  (forall (i j : nat) x y, (i <= j)%nat -> a !! i = Some x -> a !! j = Some y ->
     x <= y) ->
  StronglySorted Z.le a.
Proof.
  induction a as [|z a IH]; intros H; [constructor|]. constructor.
  - apply IH. intros i j x y Hij Hx Hy. apply (H (S i) (S j)); [lia|done|done].
  - apply Forall_lookup. intros j y Hy. apply (H 0%nat (S j)); [lia|done|done].
Qed.

Lemma quickSort_spec rnd arr :
  unit_interval rnd ->
  exists out,
    (forall fuel, (2 * length arr + 6 <= fuel)%nat ->
       quickSort fuel rnd arr = Some out) /\
    out ≡ₚ arr /\ StronglySorted Z.le out.
Proof.
  intros Hrnd.
  destruct (qs_spec rnd Hrnd (length arr) arr O 0 (Z.of_nat (length arr) - 1))
    as (out & k & Hrun & Hre & Hsorted); [lia|lia|lia|].
  exists out. split_and!.
  - intros fuel Hf. unfold quickSort. by rewrite Hrun.
  - apply (re_perm _ _ _ _ Hre).
  - apply sorted_lookup. intros i j x y Hij Hx Hy.
    pose proof (lookup_lt_Some _ _ _ Hy) as Hj.
    rewrite (re_len _ _ _ _ Hre) in Hj.
    apply (Hsorted (Z.of_nat i) (Z.of_nat j)); [lia|lia|lia| |];
      apply aget_Some; (split; [lia|by rewrite Nat2Z.id]).
Qed.
(** ** The recursion of [dfs] *)

Section dfs_facts.
Variables (adj : list (list Z)) (start : Z).

Lemma go_closed_mono out out' w :
  go_closed adj out w -> (forall v, v ∈ out -> v ∈ out') -> go_closed adj out' w.
Proof. intros Hc Hsub vs v Hvs Hv. apply Hsub. by apply (Hc vs). Qed.

Lemma dfs_for_spec (f : nat) :
  (forall st u,
     go_inv adj st -> marked st.1 u = false -> reachable adj start u ->
     (length adj - length st.2 < f)%nat ->
     go_post adj start st [u] (fun _ => True) (dfs_go f adj st u)) ->
  forall vs st,
    go_inv adj st -> (forall v, v ∈ vs -> reachable adj start v) ->
    (length adj - length st.2 < f)%nat ->
    go_post adj start st [] (fun out' => forall v, v ∈ vs -> v ∈ out')
      (dfs_for (dfs_go f adj) vs st).
Proof.
  intros IHf. induction vs as [|v vs IH]; intros st Hinv Hreach Hfuel.
  - cbn. split; [done|]. split; [by intros v ?%elem_of_nil|].
    exists []. split; [by rewrite app_nil_r|]. by intros w ?%elem_of_nil.
  - cbn [dfs_for]. destruct (marked st.1 v) eqn:Hm.
    + specialize (IH st Hinv ltac:(intros; apply Hreach; by right) Hfuel).
      destruct (dfs_for _ vs st) as [[st'|]|]; [|done|done].
      destruct IH as (Hinv' & HQ & new & Hout & Hnew).
      split; [done|]. split; [|by exists new].
      intros v' [->|Hv']%elem_of_cons; [|by apply HQ].
      rewrite Hout. apply elem_of_app. left. by apply (gi_marked _ _ Hinv).
    + specialize (IHf st v Hinv Hm ltac:(apply Hreach; by left) Hfuel).
      destruct (dfs_go f adj st v) as [[st1|]|]; [|done|done].
      destruct IHf as (Hinv1 & _ & new1 & Hout1 & Hnew1).
      specialize (IH st1 Hinv1 ltac:(intros; apply Hreach; by right)).
      destruct (dfs_for _ vs st1) as [[st2|]|].
      * destruct IH as (Hinv2 & HQ & new2 & Hout2 & Hnew2).
        { rewrite Hout1, !length_app. lia. }
        split; [done|]. split.
        -- intros v' [->|Hv']%elem_of_cons; [|by apply HQ].
           rewrite Hout2, Hout1. rewrite !elem_of_app, list_elem_of_singleton.
           tauto.
        -- exists ([v] ++ new1 ++ new2). split.
           { rewrite Hout2, Hout1. cbn. by rewrite <- !app_assoc. }
           intros w Hw. cbn [app] in Hw.
           change (v :: new1 ++ new2) with ([v] ++ new1 ++ new2) in Hw.
           rewrite app_assoc in Hw. apply elem_of_app in Hw as [Hw|Hw].
           ++ destruct (Hnew1 w Hw) as [Hr Hc]. split; [done|].
              apply (go_closed_mono st1.2); [done|].
              intros x Hx. rewrite Hout2. apply elem_of_app. by left.
           ++ by apply Hnew2.
      * apply IH. rewrite Hout1, !length_app. lia.
      * apply IH. rewrite Hout1, !length_app. lia.
Qed.

Lemma dfs_go_spec (fuel : nat) :
  forall st u,
    go_inv adj st -> marked st.1 u = false -> reachable adj start u ->
    (length adj - length st.2 < fuel)%nat ->
    go_post adj start st [u] (fun _ => True) (dfs_go fuel adj st u).
Proof.
  induction fuel as [|f IHf]; intros st u Hinv Hm Hreach Hfuel; [lia|].
  cbn [dfs_go]. destruct (aget adj u) as [vs|] eqn:Hvs.
  2:{ exists u. split; [done|]. apply aget_None in Hvs. lia. }
  assert (Hnew : u ∉ st.2).
  { intros Hin. apply (gi_marked _ _ Hinv) in Hin. congruence. }
  assert (Hinv1 : go_inv adj (mark st.1 u, st.2 ++ [u])).
  { destruct Hinv as [Hlen Hnd Hmk Hrg]. split; cbn.
    - by rewrite mark_length.
    - apply NoDup_app. split; [done|]. split; [|apply NoDup_singleton].
      by intros x Hx ->%list_elem_of_singleton.
    - intros v. rewrite marked_mark, Hmk, elem_of_app, list_elem_of_singleton.
      tauto.
    - intros v [Hv| ->%list_elem_of_singleton]%elem_of_app; [by apply Hrg|].
      by apply aget_lt in Hvs. }
  assert (Hlen : (length (st.2 ++ [u]) <= length adj)%nat).
  { apply nodup_range_length; [apply (gi_nodup _ _ Hinv1)|apply (gi_range _ _ Hinv1)]. }
  rewrite length_app in Hlen. cbn in Hlen.
  pose proof (dfs_for_spec f IHf vs (mark st.1 u, st.2 ++ [u]) Hinv1) as Hfor.
  destruct (dfs_for (dfs_go f adj) vs (mark st.1 u, st.2 ++ [u])) as [[st'|]|].
  - destruct Hfor as (Hinv' & HQ & new & Hout & Hnew').
    { intros v Hv. by apply (reach_step _ _ u v vs). }
    { cbn. rewrite length_app. cbn. lia. }
    split; [done|]. split; [done|]. exists new. cbn in Hout. split.
    + by rewrite Hout, <- app_assoc.
    + intros w [->%list_elem_of_singleton|Hw]%elem_of_app.
      * split; [done|]. intros vs' v Hvs' Hv. simplify_eq. by apply HQ.
      * by apply Hnew'.
  - apply Hfor.
    + intros v Hv. by apply (reach_step _ _ u v vs).
    + cbn. rewrite length_app. cbn. lia.
  - apply Hfor.
    + intros v Hv. by apply (reach_step _ _ u v vs).
    + cbn. rewrite length_app. cbn. lia.
Qed.

Lemma dfs_for_mono (rec rec' : marks * list Z -> Z -> option (outcome (marks * list Z)))
    vs st r :
  (forall st v r, rec st v = Some r -> rec' st v = Some r) ->
  dfs_for rec vs st = Some r -> dfs_for rec' vs st = Some r.
Proof.
  intros Hrec. revert st. induction vs as [|v vs IH]; intros st Hrun; [done|].
  cbn [dfs_for] in *. destruct (marked st.1 v); [by apply IH|].
  destruct (rec st v) as [o|] eqn:Hv; [|done].
  rewrite (Hrec _ _ _ Hv). destruct o; [by apply IH|done].
Qed.

Lemma dfs_go_mono f f' st u r :
  dfs_go f adj st u = Some r -> (f <= f')%nat -> dfs_go f' adj st u = Some r.
Proof.
  revert f' st u r. induction f as [|f IH]; intros f' st u r Hrun Hle; [done|].
  destruct f' as [|f']; [lia|]. cbn [dfs_go] in *.
  destruct (aget adj u) as [vs|]; [|done].
  eapply dfs_for_mono; [|exact Hrun]. intros st' v r' Hr'. apply (IH f'); [done|lia].
Qed.
End dfs_facts.
(** ** The loops of [gcd], [binPow] and [binarySearch] *)

Lemma gcd_loop_spec fuel a b :
  0 <= a -> 0 <= b -> (Z.to_nat b < fuel)%nat ->
  gcd_loop fuel a b = Some (Z.gcd a b).
Proof.
  revert a b. induction fuel as [|fuel IH]; intros a b Ha Hb Hf; [lia|].
  cbn [gcd_loop]. destruct (b =? 0) eqn:E; cbn [negb].
  - apply Z.eqb_eq in E. subst. rewrite Z.gcd_0_r. f_equal. lia.
  - apply Z.eqb_neq in E. rewrite Z.rem_mod_nonneg by lia.
    pose proof (Z.mod_pos_bound a b ltac:(lia)) as Hm.
    rewrite IH by lia. f_equal.
    rewrite (Z.gcd_comm b (a mod b)), Z.gcd_mod by done. apply Z.gcd_comm.
Qed.

Lemma land_one e : Z.land e 1 = e mod 2.
Proof. change 1 with (Z.ones 1). by rewrite Z.land_ones. Qed.

Lemma binPow_loop_spec fuel b e res :
  (Z.to_nat e < fuel)%nat ->
  binPow_loop fuel b e res = Some (res * b ^ Z.max 0 e).
Proof.
  revert b e res. induction fuel as [|fuel IH]; intros b e res Hf; [lia|].
  cbn [binPow_loop]. destruct (e >? 0) eqn:E.
  - apply Z.gtb_lt in E. rewrite Z.shiftr_div_pow2 by lia. change (2 ^ 1) with 2.
    pose proof (Z.div_mod e 2 ltac:(lia)) as Hdm.
    pose proof (Z.mod_pos_bound e 2 ltac:(lia)) as Hm.
    rewrite IH by lia. f_equal. rewrite land_one.
    rewrite !Z.max_r by lia.
    replace (b * b) with (b ^ 2) by lia.
    rewrite <- Z.pow_mul_r by lia.
    rewrite Hdm at 3. rewrite Z.pow_add_r by lia.
    assert (e mod 2 = 0 \/ e mod 2 = 1) as [Hb|Hb] by lia; rewrite Hb; cbn [Z.eqb negb].
    + rewrite Z.pow_0_r. lia.
    + rewrite Z.pow_1_r. lia.
  - assert (e <= 0) as He by (destruct (Z.gtb_spec e 0); [done|lia]).
    rewrite Z.max_l by lia. f_equal. rewrite Z.pow_0_r. lia.
Qed.

Lemma binarySearch_loop_sound fuel arr target lo hi r :
  binarySearch_loop fuel arr target lo hi = Some r ->
  r = -1 \/ aget arr r = Some target.
Proof.
  revert lo hi. induction fuel as [|fuel IH]; intros lo hi Hrun; [done|].
  cbn [binarySearch_loop] in Hrun. destruct (lo <=? hi); [|left; by simplify_eq].
  destruct (aget arr (js_shr (lo + hi) 1)) as [v|] eqn:Hv; [|by eapply IH].
  destruct (v =? target) eqn:E.
  - apply Z.eqb_eq in E. simplify_eq. by right.
  - destruct (v <? target); by eapply IH.
Qed.

Lemma js_shr_half z : 0 <= z < 2 ^ 31 -> js_shr z 1 = z / 2.
Proof.
  intros Hz. unfold js_shr. rewrite int32_small by lia.
  change (1 mod 32) with 1. by rewrite Z.shiftr_div_pow2.
Qed.

Lemma sorted_aget (arr : list Z) i j x y :
  StronglySorted Z.le arr -> i <= j ->
  aget arr i = Some x -> aget arr j = Some y -> x <= y.
Proof.
  intros Hs Hij [Hi Hx]%aget_Some [Hj Hy]%aget_Some.
  destruct (decide (i = j)) as [->|Hne]; [simplify_eq; lia|].
  rewrite <- (take_drop (Z.to_nat j) arr) in Hs.
  apply (StronglySorted_app_1_elem_of _ _ _ x y Hs).
  - apply list_elem_of_lookup. exists (Z.to_nat i). rewrite lookup_take_lt; [done|lia].
  - apply list_elem_of_lookup. exists 0%nat. by rewrite lookup_drop, Nat.add_0_r.
Qed.

Lemma binarySearch_loop_sorted (arr : list Z) target :
  StronglySorted Z.le arr -> Z.of_nat (length arr) <= 2 ^ 30 ->
  forall fuel lo hi,
    0 <= lo -> hi < Z.of_nat (length arr) ->
    (forall k, aget arr k = Some target -> lo <= k <= hi) ->
    (Z.to_nat (hi - lo + 1) < fuel)%nat ->
    exists r, binarySearch_loop fuel arr target lo hi = Some r /\
      ((r = -1 /\ target ∉ arr) \/ aget arr r = Some target).
Proof.
  intros Hs Hlen. induction fuel as [|fuel IH]; intros lo hi Hlo Hhi Hin Hf; [lia|].
  cbn [binarySearch_loop]. destruct (lo <=? hi) eqn:E.
  - apply Z.leb_le in E. rewrite js_shr_half by lia.
    pose proof (Z.div_mod (lo + hi) 2 ltac:(lia)) as Hdm.
    pose proof (Z.mod_pos_bound (lo + hi) 2 ltac:(lia)) as Hm.
    set (mid := (lo + hi) / 2) in *.
    destruct (aget_is_Some arr mid) as [v Hv]; [lia|]. rewrite Hv.
    destruct (v =? target) eqn:Ev.
    + apply Z.eqb_eq in Ev. subst. exists mid. split; [done|by right].
    + apply Z.eqb_neq in Ev. destruct (v <? target) eqn:El.
      * apply Z.ltb_lt in El. apply IH; [lia|lia| |lia].
        intros k Hk. specialize (Hin k Hk). split; [|lia].
        destruct (decide (mid + 1 <= k)); [done|].
        pose proof (sorted_aget arr k mid target v Hs ltac:(lia) Hk Hv). lia.
      * apply Z.ltb_ge in El. apply IH; [lia|lia| |lia].
        intros k Hk. specialize (Hin k Hk). split; [lia|].
        destruct (decide (k <= mid - 1)); [done|].
        pose proof (sorted_aget arr mid k v target Hs ltac:(lia) Hv Hk). lia.
  - apply Z.leb_gt in E. exists (-1). split; [done|]. left. split; [done|].
    intros [i Hi]%list_elem_of_lookup.
    assert (aget arr (Z.of_nat i) = Some target) as Hk.
    { apply aget_Some. split; [lia|]. by rewrite Nat2Z.id. }
    specialize (Hin _ Hk). lia.
Qed.

Lemma binarySearch_loop_total (arr : list Z) target :
  Z.of_nat (length arr) <= 2 ^ 30 ->
  forall fuel lo hi,
    0 <= lo -> hi < Z.of_nat (length arr) ->
    (Z.to_nat (hi - lo + 1) < fuel)%nat ->
    exists r, binarySearch_loop fuel arr target lo hi = Some r.
Proof.
  intros Hlen. induction fuel as [|fuel IH]; intros lo hi Hlo Hhi Hf; [lia|].
  cbn [binarySearch_loop]. destruct (lo <=? hi) eqn:E; [|by exists (-1)].
  apply Z.leb_le in E. rewrite js_shr_half by lia.
  pose proof (Z.div_mod (lo + hi) 2 ltac:(lia)) as Hdm.
  pose proof (Z.mod_pos_bound (lo + hi) 2 ltac:(lia)) as Hm.
  set (mid := (lo + hi) / 2) in *.
  destruct (aget_is_Some arr mid) as [v Hv]; [lia|]. rewrite Hv.
  destruct (v =? target); [by exists mid|].
  destruct (v <? target); apply IH; lia.
Qed.

Lemma binarySearch_loop_agree f1 f2 arr target lo hi r1 r2 :
  binarySearch_loop f1 arr target lo hi = Some r1 ->
  binarySearch_loop f2 arr target lo hi = Some r2 -> r1 = r2.
Proof.
  revert lo hi f2. induction f1 as [|f1 IH]; intros lo hi f2 H1 H2; [done|].
  destruct f2 as [|f2]; [done|]. cbn [binarySearch_loop] in *.
  destruct (lo <=? hi); [|congruence].
  destruct (aget arr (js_shr (lo + hi) 1)) as [v|]; [|by eapply IH].
  destruct (v =? target); [congruence|]. destruct (v <? target); by eapply IH.
Qed.
(** ** The loops of [mergeSort] *)

Lemma copy_loop_spec fuel (l : list Z) i out :
  (length l - i < fuel)%nat ->
  exists i', copy_loop fuel l i out = Some (i', out ++ drop i l).
Proof.
  revert i out. induction fuel as [|fuel IH]; intros i out Hf; [lia|].
  cbn [copy_loop]. destruct (i <? length l)%nat eqn:E.
  - apply Nat.ltb_lt in E. destruct (lookup_lt_is_Some_2 l i E) as [x Hx].
    rewrite Hx. destruct (IH (S i) (out ++ [x])) as [i' ->]; [lia|].
    exists i'. by rewrite (drop_S _ _ _ Hx), <- app_assoc.
  - apply Nat.ltb_ge in E. exists i. by rewrite drop_ge, app_nil_r.
Qed.

Lemma sorted_drop (l : list Z) i :
  StronglySorted Z.le l -> StronglySorted Z.le (drop i l).
Proof.
  intros Hs. rewrite <- (take_drop i l) in Hs.
  by apply StronglySorted_app_1_r in Hs.
Qed.

(** The three loops together append a sorted arrangement of the entries
    that are left. *)
Lemma merge_loops_spec (lft rgt : list Z) :
  StronglySorted Z.le lft -> StronglySorted Z.le rgt ->
  forall fuel i j out,
    (length lft - i + (length rgt - j) < fuel)%nat ->
    exists i' j' out' M,
      merge_loop fuel lft rgt i j out = Some (i', j', out') /\
      (i <= i')%nat /\ (j <= j')%nat /\
      out' ++ drop i' lft ++ drop j' rgt = out ++ M /\
      (length lft <= i' \/ length rgt <= j')%nat /\
      M ≡ₚ drop i lft ++ drop j rgt /\ StronglySorted Z.le M.
Proof.
  intros Hl Hr. induction fuel as [|fuel IH]; intros i j out Hf; [lia|].
  cbn [merge_loop].
  destruct ((i <? length lft)%nat && (j <? length rgt)%nat) eqn:E.
  - apply andb_true_iff in E as [Ei%Nat.ltb_lt Ej%Nat.ltb_lt].
    destruct (lookup_lt_is_Some_2 lft i Ei) as [x Hx].
    destruct (lookup_lt_is_Some_2 rgt j Ej) as [y Hy].
    rewrite Hx, Hy.
    pose proof (sorted_drop lft i Hl) as Hdl.
    pose proof (sorted_drop rgt j Hr) as Hdr.
    rewrite (drop_S _ _ _ Hx) in Hdl. rewrite (drop_S _ _ _ Hy) in Hdr.
    apply StronglySorted_inv in Hdl as [_ Hxs].
    apply StronglySorted_inv in Hdr as [_ Hys].
    destruct (x <=? y) eqn:Exy.
    + apply Z.leb_le in Exy.
      destruct (IH (S i) j (out ++ [x])) as (i' & j' & out' & M & -> & ? & ? & Ho & Hend & HM & HsM);
        [lia|].
      exists i', j', out', (x :: M). split_and!; try done; try lia.
      * by rewrite Ho, <- app_assoc.
      * by rewrite (drop_S _ _ _ Hx), HM.
      * constructor; [done|]. rewrite HM, (drop_S _ _ _ Hy).
        apply Forall_app. split; [done|]. constructor; [done|].
        eapply Forall_impl; [exact Hys|]. cbn. lia.
    + apply Z.leb_gt in Exy.
      destruct (IH i (S j) (out ++ [y])) as (i' & j' & out' & M & -> & ? & ? & Ho & Hend & HM & HsM);
        [lia|].
      exists i', j', out', (y :: M). split_and!; try done; try lia.
      * by rewrite Ho, <- app_assoc.
      * rewrite (drop_S _ _ _ Hy), HM. by rewrite Permutation_middle.
      * constructor; [done|]. rewrite HM, (drop_S _ _ _ Hx).
        apply Forall_app. split; [|done]. constructor; [lia|].
        eapply Forall_impl; [exact Hxs|]. cbn. lia.
  - exists i, j, out, (drop i lft ++ drop j rgt). split_and!; try done.
    + apply andb_false_iff in E as [E%Nat.ltb_ge|E%Nat.ltb_ge]; lia.
    + apply andb_false_iff in E as [E%Nat.ltb_ge|E%Nat.ltb_ge].
      * rewrite (drop_ge lft) by done. by apply sorted_drop.
      * rewrite (drop_ge rgt) by done. rewrite app_nil_r. by apply sorted_drop.
Qed.

Lemma mergeSort_spec fuel :
  forall arr : list Z,
    (length arr + 2 <= fuel)%nat ->
    exists out, mergeSort fuel arr = Some out /\ out ≡ₚ arr /\
      StronglySorted Z.le out.
Proof.
  induction fuel as [|fuel IH]; intros arr Hf; [lia|]. cbn [mergeSort].
  destruct (length arr <=? 1)%nat eqn:E.
  - apply Nat.leb_le in E. exists arr. split; [done|]. split; [done|].
    destruct arr as [|x [|y arr]]; [constructor|repeat constructor|cbn in E; lia].
  - apply Nat.leb_gt in E.
    pose proof (Nat.div_mod_eq (length arr) 2) as Hdm.
    pose proof (Nat.mod_upper_bound (length arr) 2 ltac:(lia)) as Hm.
    assert (length arr / 2 < length arr)%nat as Hmid by lia.
    assert (1 <= length arr / 2)%nat as Hmid1 by lia.
    set (mid := (length arr / 2)%nat) in *.
    destruct (IH (take mid arr)) as (lft & -> & Hpl & Hsl).
    { rewrite length_take. lia. }
    destruct (IH (drop mid arr)) as (rgt & -> & Hpr & Hsr).
    { rewrite length_drop. lia. }
    assert (length lft + length rgt = length arr)%nat as Hlen.
    { rewrite (Permutation_length Hpl), (Permutation_length Hpr).
      rewrite length_take, length_drop. lia. }
    destruct (merge_loops_spec lft rgt Hsl Hsr fuel 0 0 [])
      as (i & j & out & M & -> & _ & _ & Ho & Hend & HM & HsM); [lia|].
    destruct (copy_loop_spec fuel lft i out) as [i1 ->]; [lia|].
    destruct (copy_loop_spec fuel rgt j (out ++ drop i lft)) as [j1 ->]; [lia|].
    exists ((out ++ drop i lft) ++ drop j rgt). split; [done|].
    rewrite <- app_assoc, Ho. cbn [app]. split; [|done].
    rewrite HM, !drop_0, Hpl, Hpr. by rewrite take_drop.
Qed.
(** ** The loops of [knapsack] *)

Lemma knapsack_row_spec (wt v : Z) (B : Z -> Z) :
  0 <= wt ->
  (forall c, Z.abs (B c + v) <= 2 ^ 53) ->
  forall (k : nat) dp w,
    w = wt + Z.of_nat k - 1 -> w < Z.of_nat (length dp) ->
    (forall c, 0 <= c <= w -> aget dp c = Some (B c)) ->
    exists dp',
      knapsack_row k dp wt v w = Some dp' /\ length dp' = length dp /\
      (forall c, w < c -> aget dp' c = aget dp c) /\
      forall c, 0 <= c <= w ->
        aget dp' c
        = Some (if wt <=? c then Z.max (B c) (B (c - wt) + v) else B c).
Proof.
  intros Hwt Hexact. induction k as [|k IH]; intros dp w Hw Hlen Hdp.
  - exists dp. split_and!; try done. intros c Hc.
    rewrite (proj2 (Z.leb_gt wt c)) by lia. by apply Hdp.
  - cbn [knapsack_row]. rewrite (Hdp w), (Hdp (w - wt)) by lia.
    rewrite (double_add_exact _ _ (Hexact (w - wt))).
    destruct (IH (aset dp w (Z.max (B w) (B (w - wt) + v))) (w - 1))
      as (dp' & -> & Hlen' & Hhigh & Hlow).
    { lia. }
    { rewrite length_aset. lia. }
    { intros c Hc. rewrite aget_aset_ne by lia. apply Hdp. lia. }
    exists dp'. split; [done|]. rewrite length_aset in Hlen'. split; [done|].
    split.
    + intros c Hc. rewrite Hhigh by lia. apply aget_aset_ne. lia.
    + intros c Hc. destruct (decide (c = w)) as [->|Hne].
      * rewrite Hhigh by lia. rewrite aget_aset_eq by lia.
        by rewrite (proj2 (Z.leb_le wt w)) by lia.
      * apply Hlow. lia.
Qed.

Lemma total_abs_nonneg xs : 0 <= total_abs xs.
Proof. induction xs; cbn; lia. Qed.

Lemma total_abs_app xs ys : total_abs (xs ++ ys) = total_abs xs + total_abs ys.
Proof. induction xs; cbn; lia. Qed.

Lemma total_abs_take i xs : total_abs (take i xs) <= total_abs xs.
Proof.
  rewrite <- (take_drop i xs) at 2. rewrite total_abs_app.
  pose proof (total_abs_nonneg (drop i xs)). lia.
Qed.

Section knapsack_facts.
Variables (values weights : list Z) (W : Z).
Hypothesis Hweights : Forall (fun wt => 0 <= wt) weights.
Hypothesis Hvalues : total_abs values <= 2 ^ 53.

Local Abbreviation best := (best_value values weights).

(** A best value is a sum of values of the first [i] items. *)
Lemma best_value_abs i : forall c,
  Z.abs (best i c) <= total_abs (take i values).
Proof.
  induction i as [|i IH]; intros c; cbn [best_value].
  - cbn. pose proof (total_abs_nonneg (take 0 values)). lia.
  - destruct (values !! i) as [v|] eqn:Hv.
    + rewrite (take_S_r _ _ _ Hv), total_abs_app. cbn.
      pose proof (IH c). pose proof (IH (c - v)).
      destruct (weights !! i) as [wt|]; [|lia].
      pose proof (IH (c - wt)). destruct (wt <=? c); lia.
    + apply lookup_ge_None in Hv. rewrite take_ge by lia.
      specialize (IH c). rewrite take_ge in IH by lia. done.
Qed.

Lemma knapsack_item_spec dp i :
  Z.of_nat (length dp) = W + 1 ->
  (forall c, 0 <= c <= W -> aget dp c = Some (best i c)) ->
  exists dp',
    knapsack_item values weights W dp i = Some dp' /\
    Z.of_nat (length dp') = W + 1 /\
    forall c, 0 <= c <= W -> aget dp' c = Some (best (S i) c).
Proof.
  intros Hlen Hdp. unfold knapsack_item. cbn [best_value].
  destruct (values !! i) as [v|] eqn:Hv; [|by exists dp].
  destruct (weights !! i) as [wt|] eqn:Hwt; [|by exists dp].
  assert (0 <= wt) as Hwt0.
  { rewrite Forall_lookup in Hweights. by apply (Hweights i). }
  assert (Hexact : forall c, Z.abs (best i c + v) <= 2 ^ 53).
  { intros c. pose proof (best_value_abs i c).
    pose proof (total_abs_take (S i) values) as Ht.
    rewrite (take_S_r _ _ _ Hv), total_abs_app in Ht. cbn in Ht. lia. }
  destruct (decide (wt <= W)) as [Hle|Hgt].
  - destruct (knapsack_row_spec wt v (best i) Hwt0 Hexact
                (Z.to_nat (W - wt + 1)) dp W)
      as (dp' & -> & Hlen' & _ & Hlow); [lia|lia|done|].
    exists dp'. split; [done|]. split; [lia|]. done.
  - replace (Z.to_nat (W - wt + 1)) with O by lia. exists dp.
    split; [done|]. split; [done|]. intros c Hc.
    rewrite (proj2 (Z.leb_gt wt c)) by lia. by apply Hdp.
Qed.

Lemma knapsack_items_spec k :
  forall dp i,
    Z.of_nat (length dp) = W + 1 ->
    (forall c, 0 <= c <= W -> aget dp c = Some (best i c)) ->
    exists dp',
      knapsack_items k values weights W dp i = Some dp' /\
      forall c, 0 <= c <= W -> aget dp' c = Some (best (i + k) c).
Proof.
  induction k as [|k IH]; intros dp i Hlen Hdp.
  - exists dp. split; [done|]. by rewrite Nat.add_0_r.
  - cbn [knapsack_items].
    destruct (knapsack_item_spec dp i Hlen Hdp) as (dp1 & -> & Hlen1 & Hdp1).
    destruct (IH dp1 (S i) Hlen1 Hdp1) as (dp' & -> & Hdp').
    exists dp'. split; [done|]. by replace (i + S k)%nat with (S i + k)%nat by lia.
Qed.

Lemma selected_sum_ext xs sel sel' i :
  (forall k, (k < i)%nat -> sel k = sel' k) ->
  selected_sum xs sel i = selected_sum xs sel' i.
Proof.
  induction i as [|i IH]; intros H; [done|]. cbn.
  rewrite IH by (intros; apply H; lia). by rewrite (H i) by lia.
Qed.

Lemma selected_weight_nonneg sel i : 0 <= selected_sum weights sel i.
Proof.
  induction i as [|i IH]; cbn; [lia|]. destruct (sel i); [|lia].
  destruct (weights !! i) as [wt|] eqn:Hwt; cbn; [|lia].
  rewrite Forall_lookup in Hweights. specialize (Hweights i wt Hwt). lia.
Qed.

(** [best_value] is the greatest value of a selection that fits. *)
Lemma best_value_optimal i :
  (i <= length weights)%nat -> (i <= length values)%nat ->
  forall c, 0 <= c ->
    (exists sel, selected_sum weights sel i <= c /\
       selected_sum values sel i = best i c) /\
    (forall sel, selected_sum weights sel i <= c ->
       selected_sum values sel i <= best i c).
Proof.
  induction i as [|i IH]; intros Hw Hv c Hc.
  - split; [by exists (fun _ => false)|]. intros sel _. cbn. lia.
  - destruct (lookup_lt_is_Some_2 values i ltac:(lia)) as [v Hvi].
    destruct (lookup_lt_is_Some_2 weights i ltac:(lia)) as [wt Hwi].
    assert (0 <= wt) as Hwt0.
    { rewrite Forall_lookup in Hweights. by apply (Hweights i). }
    cbn [best_value selected_sum]. rewrite Hvi, Hwi. cbn [default from_option id].
    destruct (IH ltac:(lia) ltac:(lia) c Hc) as [(s1 & Hs1w & Hs1v) Hub1].
    assert (Hskip : exists sel,
              selected_sum weights sel i + (if sel i then wt else 0) <= c /\
              selected_sum values sel i + (if sel i then v else 0) = best i c).
    { exists (fun k => if decide (k = i) then false else s1 k).
      rewrite decide_True by done.
      rewrite (selected_sum_ext weights _ s1 i), (selected_sum_ext values _ s1 i)
        by (intros; rewrite decide_False by lia; done).
      cbn. lia. }
    destruct (wt <=? c) eqn:E.
    + apply Z.leb_le in E.
      destruct (IH ltac:(lia) ltac:(lia) (c - wt) ltac:(lia))
        as [(s2 & Hs2w & Hs2v) Hub2].
      split.
      * destruct (Z.max_spec (best i c) (best i (c - wt) + v)) as [[_ ->]|[_ ->]].
        -- exists (fun k => if decide (k = i) then true else s2 k).
           rewrite decide_True by done.
           rewrite (selected_sum_ext weights _ s2 i), (selected_sum_ext values _ s2 i)
             by (intros; rewrite decide_False by lia; done).
           cbn. lia.
        -- done.
      * intros sel Hsel. destruct (sel i).
        -- specialize (Hub2 sel ltac:(lia)). lia.
        -- specialize (Hub1 sel ltac:(lia)). lia.
    + apply Z.leb_gt in E. split; [done|].
      intros sel Hsel. pose proof (selected_weight_nonneg sel i).
      destruct (sel i); [lia|]. specialize (Hub1 sel ltac:(lia)). lia.
Qed.
End knapsack_facts.
(** ** [topologicalSort] *)

Lemma aget_cons {A} (x : A) (l : list A) k :
  aget (x :: l) k = if decide (k = 0) then Some x else aget l (k - 1).
Proof.
  unfold aget. destruct (decide (k = 0)) as [->|Hk]; [done|].
  destruct (decide (0 <= k)).
  - rewrite decide_True by lia.
    replace (Z.to_nat k) with (S (Z.to_nat (k - 1))) by lia. done.
  - by rewrite decide_False by lia.
Qed.

Lemma add_at_length a v d : length (add_at a v d) = length a.
Proof. unfold add_at. destruct (aget a v); [apply length_aset|done]. Qed.

Lemma add_at_get a v d w :
  aget (add_at a v d) w
  = (fun x => if decide (v = w) then x + d else x) <$> aget a w.
Proof.
  unfold add_at. destruct (aget a v) as [x|] eqn:Hv.
  - destruct (decide (v = w)) as [<-|Hne].
    + rewrite aget_aset_eq by (by eapply aget_lt). by rewrite Hv.
    + rewrite aget_aset_ne by done. by destruct (aget a w).
  - destruct (decide (v = w)) as [<-|Hne].
    + by rewrite Hv.
    + by destruct (aget a w).
Qed.

Lemma count_in_nonneg vs v : 0 <= count_in vs v.
Proof. induction vs as [|x vs IH]; cbn; [lia|]. case_decide; lia. Qed.

Lemma count_in_pos vs v : 0 < count_in vs v <-> v ∈ vs.
Proof.
  induction vs as [|x vs IH]; cbn.
  - split; [lia|]. by intros ?%elem_of_nil.
  - rewrite elem_of_cons. pose proof (count_in_nonneg vs v).
    case_decide; subst.
    + split; [by left|lia].
    + rewrite <- IH. split; [intros; right; lia|]. intros [->|?]; [done|lia].
Qed.

Lemma waiting_from_nonneg rows i done v : 0 <= waiting_from rows i done v.
Proof.
  revert i. induction rows as [|vs rows IH]; intros i; cbn; [lia|].
  specialize (IH (i + 1)). pose proof (count_in_nonneg vs v).
  case_bool_decide; lia.
Qed.

(** Moving a node to [done] takes the edges of its list off the count. *)
Lemma waiting_from_pop rows i done u v :
  u ∉ done ->
  waiting_from rows i done v
  = waiting_from rows i (done ++ [u]) v
    + count_in (default [] (aget rows (u - i))) v.
Proof.
  intros Hu. revert i. induction rows as [|vs rows IH]; intros i.
  - cbn. unfold aget. case_decide; by rewrite ?lookup_nil.
  - cbn [waiting_from]. rewrite (IH (i + 1)), aget_cons.
    replace (u - (i + 1)) with (u - i - 1) by lia.
    destruct (decide (u - i = 0)) as [Hui|Hui].
    + assert (u = i) as -> by lia.
      rewrite (bool_decide_eq_false_2 (i ∈ done)) by done.
      rewrite (bool_decide_eq_true_2 (i ∈ done ++ [i]))
        by (apply elem_of_app; right; by apply list_elem_of_singleton).
      replace (aget rows (i - i - 1)) with (@None (list Z)); [cbn; lia|].
      symmetry. apply aget_None. lia.
    + assert (i ∈ done ++ [u] <-> i ∈ done) as Hiff.
      { rewrite elem_of_app, list_elem_of_singleton. split; [|by left].
        intros [?| ->]; [done|lia]. }
      rewrite (bool_decide_ext _ _ Hiff). lia.
Qed.

Lemma waiting_from_edge rows i done u v vs :
  aget rows (u - i) = Some vs -> v ∈ vs -> u ∉ done ->
  0 < waiting_from rows i done v.
Proof.
  revert i. induction rows as [|ws rows IH]; intros i Hu Hv Hd.
  - apply aget_lt in Hu. cbn in Hu. lia.
  - cbn [waiting_from]. rewrite aget_cons in Hu.
    pose proof (waiting_from_nonneg rows (i + 1) done v).
    pose proof (count_in_nonneg ws v).
    destruct (decide (u - i = 0)) as [Hui|Hui].
    + assert (u = i) as -> by lia. simplify_eq.
      rewrite bool_decide_eq_false_2 by done.
      apply count_in_pos in Hv. lia.
    + replace (u - i - 1) with (u - (i + 1)) in Hu by lia.
      specialize (IH _ Hu Hv Hd). case_bool_decide; lia.
Qed.

Lemma waiting_from_pos rows i done v :
  0 < waiting_from rows i done v ->
  exists u vs, (u ∉ done) /\ aget rows (u - i) = Some vs /\ v ∈ vs.
Proof.
  revert i. induction rows as [|ws rows IH]; intros i; cbn [waiting_from];
    [lia|].
  intros Hpos.
  destruct (decide (0 < waiting_from rows (i + 1) done v)) as [Hrest|Hrest].
  - destruct (IH _ Hrest) as (u & vs & Hu & Hget & Hv).
    exists u, vs. split; [done|]. split; [|done].
    rewrite aget_cons. apply aget_lt in Hget as Hlt.
    rewrite decide_False by lia.
    by replace (u - i - 1) with (u - (i + 1)) by lia.
  - case_bool_decide as Hi; [lia|].
    exists i, ws. split; [done|]. split.
    + rewrite aget_cons. by rewrite decide_True by lia.
    + apply count_in_pos. lia.
Qed.

Lemma count_targets_spec vs : forall a,
  length (count_targets vs a) = length a /\
  forall w, aget (count_targets vs a) w
            = (fun x => x + count_in vs w) <$> aget a w.
Proof.
  induction vs as [|v vs IH]; intros a; cbn.
  - split; [done|]. intros w. destruct (aget a w); cbn; [f_equal; lia|done].
  - destruct (IH (add_at a v 1)) as [Hlen Hget]. split.
    + by rewrite Hlen, add_at_length.
    + intros w. rewrite Hget, add_at_get.
      destruct (aget a w); cbn; [|done]. f_equal. case_decide; lia.
Qed.

Lemma in_degrees_spec rows : forall i a,
  length (in_degrees rows a) = length a /\
  forall w, aget (in_degrees rows a) w
            = (fun x => x + waiting_from rows i [] w) <$> aget a w.
Proof.
  induction rows as [|vs rows IH]; intros i a; cbn.
  - split; [done|]. intros w. destruct (aget a w); cbn; [f_equal; lia|done].
  - destruct (IH (i + 1) (count_targets vs a)) as [Hlen Hget].
    destruct (count_targets_spec vs a) as [Hlen1 Hget1]. split.
    + by rewrite Hlen.
    + intros w. rewrite Hget, Hget1.
      rewrite bool_decide_eq_false_2 by (by intros ?%elem_of_nil).
      destruct (aget a w); cbn; [|done]. f_equal. lia.
Qed.

Section release_facts.
Variables (n : nat) (o : list Z) (c : Z -> Z).
Hypothesis Hc : forall v, 0 <= v < Z.of_nat n -> 0 <= c v.

Lemma release_spec vs : forall indeg q,
  length indeg = n ->
  NoDup (o ++ q) ->
  (forall x, x ∈ o ++ q -> 0 <= x < Z.of_nat n) ->
  (forall v, 0 <= v < Z.of_nat n ->
     aget indeg v = Some (c v + count_in vs v)) ->
  (forall v, 0 <= v < Z.of_nat n ->
     (v ∈ o ++ q <-> c v + count_in vs v = 0)) ->
  exists indeg' q',
    release vs indeg q = (indeg', q') /\
    length indeg' = n /\
    NoDup (o ++ q') /\
    (forall x, x ∈ o ++ q' -> 0 <= x < Z.of_nat n) /\
    (forall v, 0 <= v < Z.of_nat n -> aget indeg' v = Some (c v)) /\
    (forall v, 0 <= v < Z.of_nat n -> (v ∈ o ++ q' <-> c v = 0)).
Proof.
  induction vs as [|v vs IH]; intros indeg q Hlen Hnd Hr Hget Hzero.
  - exists indeg, q. split; [done|]. split_and!; try done.
    + intros v Hv. rewrite (Hget v Hv). cbn. f_equal. lia.
    + intros v Hv. rewrite (Hzero v Hv). cbn. lia.
  - cbn [release].
    assert (Hget1 : forall w, 0 <= w < Z.of_nat n ->
              aget (add_at indeg v (-1)) w = Some (c w + count_in vs w)).
    { intros w Hw. rewrite add_at_get, (Hget w Hw). cbn. f_equal.
      case_decide; lia. }
    destruct (decide (0 <= v < Z.of_nat n)) as [Hv|Hv].
    + assert (v ∉ o ++ q) as Hnew.
      { rewrite (Hzero v Hv). cbn. rewrite decide_True by done.
        pose proof (count_in_nonneg vs v). specialize (Hc v Hv). lia. }
      rewrite (Hget1 v Hv).
      case_bool_decide as Htest.
      * apply IH.
        -- by rewrite add_at_length.
        -- rewrite app_assoc. apply NoDup_app. split; [done|].
           split; [|apply NoDup_singleton].
           intros x Hx ->%list_elem_of_singleton. done.
        -- intros x. rewrite app_assoc, elem_of_app, list_elem_of_singleton.
           intros [?| ->]; [by apply Hr|done].
        -- done.
        -- intros w Hw.
           rewrite app_assoc, elem_of_app, list_elem_of_singleton.
           destruct (decide (w = v)) as [->|Hne].
           ++ split; [intros _; congruence|by right].
           ++ rewrite (Hzero w Hw). cbn. rewrite decide_False by done.
              split; [intros [?|?]; [lia|done]|intros; left; lia].
      * apply IH; try done.
        -- by rewrite add_at_length.
        -- intros w Hw. destruct (decide (w = v)) as [->|Hne].
           ++ split; [done|]. intros H0. destruct Htest. by rewrite H0.
           ++ rewrite (Hzero w Hw). cbn. rewrite decide_False by done. lia.
    + assert (aget (add_at indeg v (-1)) v = None) as ->.
      { rewrite add_at_get.
        replace (aget indeg v) with (@None Z); [done|].
        symmetry. apply aget_None. lia. }
      rewrite bool_decide_eq_false_2 by done.
      apply IH; try done.
      * by rewrite add_at_length.
      * intros w Hw. rewrite (Hzero w Hw). cbn.
        rewrite decide_False by (intros ->; done). lia.
Qed.
End release_facts.

Section topo_facts.
Variable adj : list (list Z).
Local Abbreviation n := (length adj).

Lemma topo_init_inv :
  topo_inv adj (in_degrees adj (replicate n 0))
    (sources n (in_degrees adj (replicate n 0))) [].
Proof.
  destruct (in_degrees_spec adj 0 (replicate n 0)) as [Hlen Hget].
  rewrite length_replicate in Hlen.
  assert (Hin : forall v, 0 <= v < Z.of_nat n ->
            aget (in_degrees adj (replicate n 0)) v = Some (waiting adj [] v)).
  { intros v Hv. rewrite Hget.
    replace (aget (replicate n 0) v) with (Some 0); [done|].
    symmetry. apply aget_Some. split; [lia|].
    apply lookup_replicate. split; [done|lia]. }
  split; cbn [app].
  - done.
  - apply NoDup_filter, NoDup_seqZ.
  - intros x [_ Hx%elem_of_seqZ]%list_elem_of_filter. lia.
  - done.
  - intros v Hv. unfold sources. rewrite list_elem_of_filter, elem_of_seqZ.
    rewrite (Hin v Hv). split.
    + intros [? _]. congruence.
    + intros ->. split; [done|lia].
  - intros i u w vs Hi. by rewrite lookup_nil in Hi.
Qed.

Lemma topo_step indeg u q order :
  topo_inv adj indeg (u :: q) order ->
  exists vs indeg' q',
    aget adj u = Some vs /\ release vs indeg q = (indeg', q') /\
    topo_inv adj indeg' q' (order ++ [u]).
Proof.
  intros [Hlen Hnd Hr Hin Hzero Hbefore].
  assert (0 <= u < Z.of_nat n) as Hu.
  { apply Hr, elem_of_app. right. apply elem_of_cons. by left. }
  assert (u ∉ order) as Hnew.
  { apply NoDup_app in Hnd as (_ & Hdis & _). intros Hx.
    apply (Hdis u Hx), elem_of_cons. by left. }
  destruct (aget_is_Some adj u Hu) as [vs Hvs]. exists vs.
  assert (Hpop : forall v, waiting adj order v
                           = waiting adj (order ++ [u]) v + count_in vs v).
  { intros v. unfold waiting. rewrite (waiting_from_pop adj 0 order u v Hnew).
    by rewrite Z.sub_0_r, Hvs. }
  destruct (release_spec n (order ++ [u]) (waiting adj (order ++ [u]))
              (fun v _ => waiting_from_nonneg adj 0 (order ++ [u]) v)
              vs indeg q)
    as (indeg' & q' & Hrun & Hlen' & Hnd' & Hr' & Hin' & Hzero').
  - done.
  - by rewrite <- app_assoc.
  - intros x. rewrite <- app_assoc. apply Hr.
  - intros v Hv. by rewrite (Hin v Hv), Hpop.
  - intros v Hv. rewrite <- app_assoc, <- Hpop. by apply Hzero.
  - exists indeg', q'. split; [done|]. split; [done|].
    split; try done.
    intros i x w ws Hi Hw Hx.
    destruct (decide (i < length order)%nat) as [Hlt|Hge].
    + rewrite lookup_app_l in Hi by done.
      rewrite take_app_le by lia. by apply (Hbefore i x w ws).
    + apply lookup_lt_Some in Hi as Hi'. rewrite length_app in Hi'. cbn in Hi'.
      assert (i = length order) as -> by lia.
      rewrite list_lookup_middle in Hi by done. simplify_eq.
      rewrite take_app_length.
      destruct (decide (w ∈ order)) as [|Hout]; [done|].
      pose proof (waiting_from_edge adj 0 order w x ws) as Hpos.
      rewrite Z.sub_0_r in Hpos. specialize (Hpos Hw Hx Hout).
      assert (waiting adj order x = 0); [|unfold waiting in *; lia].
      apply Hzero; [done|]. apply elem_of_app. right. apply elem_of_cons.
      by left.
Qed.

Lemma topo_loop_ends f : forall indeg q order,
  topo_inv adj indeg q order ->
  (n - length order < f)%nat ->
  exists indeg' order',
    topo_loop f adj indeg q order = Some (Ret order') /\
    topo_inv adj indeg' [] order'.
Proof.
  induction f as [|f IH]; intros indeg q order Hinv Hf; [lia|].
  cbn [topo_loop]. destruct q as [|u q].
  - by exists indeg, order.
  - destruct (topo_step indeg u q order Hinv)
      as (vs & indeg' & q' & -> & -> & Hinv').
    apply (IH _ _ _ Hinv'). rewrite length_app. cbn.
    pose proof (nodup_range_length _ n (ti_nodup _ _ _ _ Hinv)
                  (ti_range _ _ _ _ Hinv)) as Hle.
    rewrite length_app in Hle. cbn in Hle. lia.
Qed.

(** At the end of the loop, a full [order] is topological. *)
Lemma topo_final_full indeg order :
  topo_inv adj indeg [] order -> length order = n -> topological adj order.
Proof.
  intros [Hlen Hnd Hr Hin Hzero Hbefore] Hfull.
  rewrite app_nil_r in *. split.
  - symmetry. apply submseteq_length_Permutation.
    + apply NoDup_submseteq; [apply NoDup_seqZ|].
      (* every node is listed: else [order] would be too short *)
      intros x Hx%elem_of_seqZ.
      destruct (decide (x ∈ order)) as [|Hout]; [done|exfalso].
      pose proof (nodup_range_length (x :: order) n) as Hle.
      cbn in Hle. assert (S (length order) <= n)%nat; [|lia].
      apply Hle.
      * by constructor.
      * intros y [->|Hy]%elem_of_cons; [lia|by apply Hr].
    + rewrite length_seqZ. lia.
  - intros i j u v vs Hi Hj Hu Hv.
    pose proof (Hbefore j v u vs Hj Hu Hv) as Hin'.
    apply list_elem_of_lookup in Hin' as [i' Hi'].
    apply lookup_take_Some in Hi' as [Hi' Hlt].
    by rewrite (NoDup_lookup _ _ _ _ Hnd Hi Hi').
Qed.

(** At the end of the loop, a short [order] shows that no list is
    topological: each node that is left has an edge from a node that is
    left. *)
Lemma topo_final_short indeg order o :
  topo_inv adj indeg [] order -> length order <> n -> ~ topological adj o.
Proof.
  intros [Hlen Hnd Hr Hin Hzero Hbefore] Hshort [Hperm Hfwd].
  rewrite app_nil_r in *.
  assert (Hleft : forall k v, o !! k = Some v -> v ∈ order).
  { induction k as [k IHk] using lt_wf_ind. intros v Hk.
    destruct (decide (v ∈ order)) as [|Hout]; [done|exfalso].
    assert (0 <= v < Z.of_nat n) as Hv.
    { apply list_elem_of_lookup_2 in Hk. rewrite Hperm in Hk.
      apply elem_of_seqZ in Hk. lia. }
    pose proof (waiting_from_nonneg adj 0 order v).
    destruct (waiting_from_pos adj 0 order v) as (u & vs & Hu & Hget & Hin').
    { assert (waiting adj order v <> 0) by (by rewrite <- Hzero).
      unfold waiting in *. lia. }
    rewrite Z.sub_0_r in Hget.
    assert (u ∈ o) as [i Hi]%list_elem_of_lookup.
    { rewrite Hperm. apply elem_of_seqZ. apply aget_lt in Hget. lia. }
    apply Hu, (IHk i); [|done]. by apply (Hfwd i k u v vs). }
  assert (length order = n); [|done].
  apply Nat.le_antisymm; [by apply nodup_range_length|].
  assert (seqZ 0 (Z.of_nat n) ⊆+ order) as Hsub.
  { apply NoDup_submseteq; [apply NoDup_seqZ|].
    intros x Hx. rewrite <- Hperm in Hx.
    apply list_elem_of_lookup in Hx as [k Hk]. by apply (Hleft k). }
  apply submseteq_length in Hsub. rewrite length_seqZ in Hsub. lia.
Qed.

Lemma topologicalSort_spec f :
  (n < f)%nat ->
  (exists order,
     topologicalSort f adj = Some (Ret (Some order)) /\ topological adj order) \/
  (topologicalSort f adj = Some (Ret None) /\
   forall order, ~ topological adj order).
Proof.
  intros Hf. unfold topologicalSort.
  destruct (topo_loop_ends f _ _ _ topo_init_inv) as (indeg & order & -> & Hinv).
  { cbn. lia. }
  case_bool_decide as Hfull.
  - left. exists order. split; [done|]. by apply (topo_final_full indeg).
  - right. split; [done|]. intros o. by apply (topo_final_short indeg order).
Qed.
End topo_facts.
(** ** [kmpSearch] *)

Section kmp_facts.
Context {A : Type} `{EqDecision A}.
Implicit Types (p s text : list A) (pi : list nat).

Lemma fits_0 p s : fits p s 0.
Proof. unfold fits. split_and!; [lia|lia|]. intros x Hx. lia. Qed.

Lemma fits_snoc p s c k :
  fits p (s ++ [c]) (S k) <-> fits p s k /\ p !! k = Some c.
Proof.
  unfold fits. rewrite length_app. cbn [length]. split.
  - intros (Hp & Hs & Hx). split; [split_and!; try lia|].
    + intros x Hxk. rewrite (Hx x) by lia.
      replace (length s + 1 - S k + x)%nat with (length s - k + x)%nat by lia.
      apply lookup_app_l. lia.
    + rewrite (Hx k) by lia.
      replace (length s + 1 - S k + k)%nat with (length s) by lia.
      by apply list_lookup_middle.
  - intros [(Hp & Hs & Hx) Hk]. split_and!.
    + apply lookup_lt_Some in Hk. lia.
    + lia.
    + intros x Hxk. destruct (decide (x = k)) as [->|Hne].
      * rewrite Hk. symmetry.
        replace (length s + 1 - S k + k)%nat with (length s) by lia.
        by apply list_lookup_middle.
      * rewrite Hx by lia. symmetry.
        replace (length s + 1 - S k + x)%nat with (length s - k + x)%nat by lia.
        apply lookup_app_l. lia.
Qed.

(** Below a length that fits, what fits [s] is what fits the prefix. *)
Lemma fits_within p s j k :
  fits p s j -> (k <= j)%nat -> fits p s k <-> fits p (take j p) k.
Proof.
  unfold fits. rewrite length_take. intros (Hjp & Hjs & Hj) Hk.
  rewrite Nat.min_l by lia.
  split; intros (H1 & H2 & H3); (split_and!; [lia|lia|]); intros x Hx.
  - rewrite lookup_take_lt by lia. rewrite H3 by lia.
    rewrite (Hj (j - k + x)%nat) by lia. f_equal. lia.
  - rewrite (H3 x Hx). rewrite lookup_take_lt by lia.
    rewrite (Hj (j - k + x)%nat) by lia. f_equal. lia.
Qed.

Lemma best_within p s j B k :
  fits p s j -> (B <= j)%nat -> best p (take j p) B k -> best p s B k.
Proof.
  intros Hj HB (Hk & HkB & Hmax). split_and!; [|done|].
  - apply (fits_within p s j k Hj); [lia|done].
  - intros k' Hk' Hfit. apply Hmax; [done|].
    apply (fits_within p s j k' Hj); [lia|done].
Qed.

Lemma fall_back_spec p s pi i B c fuel : forall j,
  pi_ok p pi i -> (j <= i)%nat -> (j <= fuel)%nat ->
  fits p s j ->
  (forall k, (k < B)%nat -> fits p s k -> (j < k)%nat -> p !! k <> c) ->
  exists j1,
    fall_back fuel pi p c j = Some j1 /\ (j1 <= j)%nat /\ fits p s j1 /\
    (forall k, (k < B)%nat -> fits p s k -> (j1 < k)%nat -> p !! k <> c) /\
    (j1 = 0%nat \/ c = p !! j1).
Proof.
  induction fuel as [|fuel IH]; intros j Hpi Hji Hfuel Hfit Hskip.
  - assert (j = 0%nat) as -> by lia. exists 0%nat. cbn. split_and!; try done.
    by left.
  - destruct j as [|j'].
    + exists 0%nat. cbn. split_and!; try done. by left.
    + cbn [fall_back]. case_decide as Hc.
      * exists (S j'). split_and!; try done. by right.
      * destruct Hpi as [Hlen Hpi'].
        destruct (Hpi' j' ltac:(lia)) as (k & -> & Hk & Hkj & Hmax).
        destruct (IH k) as (j1 & Hrun & Hle & Hfit1 & Hskip1 & Hend).
        -- by split.
        -- lia.
        -- lia.
        -- apply (fits_within p s (S j') k Hfit); [lia|done].
        -- intros k2 Hk2 Hfit2 Hlt.
           destruct (decide (S j' < k2)%nat); [by apply Hskip|].
           destruct (decide (k2 = S j')) as [->|]; [congruence|].
           assert (k2 <= k)%nat; [|lia]. apply Hmax; [lia|].
           apply (fits_within p s (S j') k2 Hfit); [lia|done].
        -- exists j1. split_and!; try done. lia.
Qed.

Lemma advance_spec p s pi i B ch j :
  pi_ok p pi i -> (j <= i)%nat -> best p s B j ->
  exists j', advance pi p (Some ch) j = Some j' /\ best p (s ++ [ch]) (S B) j'.
Proof.
  intros Hpi Hji (Hfit & HjB & Hmax). unfold advance.
  destruct (fall_back_spec p s pi i B (Some ch) j j Hpi Hji ltac:(lia) Hfit)
    as (j1 & -> & Hle & Hfit1 & Hskip & Hend).
  { intros k Hk Hfk Hlt. specialize (Hmax k Hk Hfk). lia. }
  case_decide as Hc.
  - exists (S j1). split; [done|]. split_and!.
    + by apply fits_snoc.
    + lia.
    + intros [|k] Hk; [lia|]. intros [Hfk Hpk]%fits_snoc.
      destruct (decide (j1 < k)%nat) as [Hlt|]; [|lia].
      by destruct (Hskip k ltac:(lia) Hfk Hlt).
  - destruct Hend as [->|]; [|done]. exists 0%nat. split; [done|]. split_and!.
    + apply fits_0.
    + lia.
    + intros [|k] Hk; [lia|]. intros [Hfk Hpk]%fits_snoc.
      destruct k as [|k]; [congruence|].
      by destruct (Hskip (S k) ltac:(lia) Hfk ltac:(lia)).
Qed.

Lemma pi_ok_init p : (0 < length p)%nat -> pi_ok p (replicate (length p) 0%nat) 1.
Proof.
  intros Hm. split; [apply length_replicate|]. intros x Hx.
  assert (x = 0%nat) as -> by lia. exists 0%nat. split.
  - apply lookup_replicate. split; [done|lia].
  - split_and!; [apply fits_0|lia|lia].
Qed.

Lemma prefix_loop_spec p k : forall pi i,
  (1 <= i)%nat -> (i + k = length p)%nat -> pi_ok p pi i ->
  exists pi', prefix_loop k p pi i = Some pi' /\ pi_ok p pi' (length p).
Proof.
  induction k as [|k IH]; intros pi i Hi Hik Hpi.
  - exists pi. split; [done|]. by replace (length p) with i by lia.
  - cbn [prefix_loop]. destruct Hpi as [Hlen Hpi'].
    destruct (Hpi' (i - 1)%nat ltac:(lia)) as (j & -> & Hbest).
    replace (S (i - 1)) with i in Hbest by lia.
    destruct (lookup_lt_is_Some_2 p i ltac:(lia)) as [ch Hch]. rewrite Hch.
    destruct (advance_spec p (take i p) pi i i ch j) as (j' & -> & Hbest').
    { by split. }
    { destruct Hbest as (_ & ? & _). lia. }
    { done. }
    rewrite <- (take_S_r _ _ _ Hch) in Hbest'.
    apply IH; [lia|lia|]. split; [by rewrite length_insert|].
    intros x Hx. destruct (decide (x = i)) as [->|Hne].
    + exists j'. split; [|done]. apply list_lookup_insert_eq. lia.
    + rewrite list_lookup_insert_ne by done. apply Hpi'. lia.
Qed.

Lemma prefix_function_spec p :
  (0 < length p)%nat ->
  exists pi, prefix_function p = Some pi /\ pi_ok p pi (length p).
Proof.
  intros Hm. apply prefix_loop_spec; [lia|lia|by apply pi_ok_init].
Qed.

(** A pattern that fits whole is an occurrence. *)
Lemma fits_occurrence p text a :
  (a + length p <= length text)%nat ->
  fits p (take (a + length p) text) (length p)
  <-> take (length p) (drop a text) = p.
Proof.
  intros Hlen. unfold fits. rewrite length_take, Nat.min_l by done. split.
  - intros (_ & _ & Hx). apply list_eq. intros x.
    destruct (decide (x < length p)%nat) as [Hlt|Hge].
    + rewrite lookup_take_lt, lookup_drop, (Hx x Hlt) by done.
      rewrite lookup_take_lt by lia. f_equal. lia.
    + rewrite lookup_take_ge by lia. symmetry. apply lookup_ge_None. lia.
  - intros Heq. split_and!; [lia|lia|]. intros x Hx.
    pose proof (f_equal (fun l => l !! x) Heq) as Hl. cbn in Hl.
    rewrite <- Hl, lookup_take_lt, lookup_drop by done.
    rewrite lookup_take_lt by lia. f_equal. lia.
Qed.

Lemma search_loop_spec p text pi k : forall i j results,
  (0 < length p)%nat ->
  (i + k = length text)%nat -> pi_ok p pi (length p) ->
  best p (take i text) (length p) j ->
  results
  = Z.of_nat <$> filter (fun a => take (length p) (drop a text) = p)
                   (seq 0 (i + 1 - length p)) ->
  search_loop k text p pi i j results
  = Some (Z.of_nat <$> filter (fun a => take (length p) (drop a text) = p)
                         (seq 0 (length text + 1 - length p))).
Proof.
  induction k as [|k IH]; intros i j results Hm Hik Hpi Hbest Hres.
  - cbn. rewrite Hres. by replace (length text) with i by lia.
  - cbn [search_loop].
    destruct (lookup_lt_is_Some_2 text i ltac:(lia)) as [ch Hch]. rewrite Hch.
    destruct (advance_spec p (take i text) pi (length p) (length p) ch j)
      as (j' & -> & Hbest'); [done| |done|].
    { destruct Hbest as (_ & ? & _). lia. }
    rewrite <- (take_S_r _ _ _ Hch) in Hbest'.
    destruct Hbest' as (Hfit' & Hlt' & Hmax').
    assert (Hnew : (length p <= S i)%nat ->
              take (length p) (drop (i + 1 - length p) text) = p
              <-> j' = length p).
    { intros Hle. rewrite <- fits_occurrence by lia.
      replace (i + 1 - length p + length p)%nat with (S i) by lia. split.
      - intros Hfull. specialize (Hmax' (length p) ltac:(lia) Hfull). lia.
      - by intros <-. }
    case_decide as Hj'.
    + subst j'. destruct Hpi as [Hlen Hpi'].
      destruct (Hpi' (length p - 1)%nat ltac:(lia)) as (j2 & -> & Hbest2).
      replace (S (length p - 1)) with (length p) in Hbest2 by lia.
      rewrite firstn_all in Hbest2.
      assert (length p <= S i)%nat as Hle.
      { destruct Hfit' as (_ & Hl & _). rewrite length_take in Hl. lia. }
      apply IH; [done|lia|by split| |].
      * apply (best_within p _ (length p)); [done|lia|].
        by rewrite firstn_all.
      * replace (S i + 1 - length p)%nat with (S (i + 1 - length p)) by lia.
        rewrite seq_S, filter_app, fmap_app, <- Hres. cbn [Nat.add].
        rewrite filter_cons_True by (by apply Hnew). cbn.
        do 2 f_equal. lia.
    + apply IH; [done|lia|done| |].
      * split_and!; [done|lia|]. intros k' Hk'. apply Hmax'. lia.
      * destruct (decide (length p <= S i)%nat) as [Hle|Hgt].
        -- replace (S i + 1 - length p)%nat with (S (i + 1 - length p)) by lia.
           rewrite seq_S, filter_app, fmap_app, <- Hres. cbn [Nat.add].
           rewrite filter_cons_False by (by rewrite Hnew).
           by rewrite filter_nil, app_nil_r.
        -- rewrite Hres. by replace (S i + 1 - length p)%nat
             with (i + 1 - length p)%nat by lia.
Qed.

Lemma kmpSearch_spec text p :
  kmpSearch text p
  = Some (if decide (length p = 0%nat) then []
          else Z.of_nat <$> filter (fun a => take (length p) (drop a text) = p)
                              (seq 0 (length text + 1 - length p))).
Proof.
  unfold kmpSearch. case_decide as Hm; [done|].
  destruct (prefix_function_spec p ltac:(lia)) as (pi & -> & Hpi).
  apply search_loop_spec; [lia|done|done| |].
  - split_and!; [apply fits_0|lia|]. intros k _ (_ & Hk & _).
    by rewrite length_take in Hk; lia.
  - by replace (0 + 1 - length p)%nat with 0%nat by lia.
Qed.

Lemma filter_seq_sorted (P : nat -> Prop) `{!forall a, Decision (P a)} k :
  forall a, StronglySorted Z.lt (Z.of_nat <$> filter P (seq a k)).
Proof.
  induction k as [|k IH]; intros a; [cbn; constructor|]. cbn [seq].
  assert (Hgt : Forall (Z.lt (Z.of_nat a)) (Z.of_nat <$> filter P (seq (S a) k))).
  { apply Forall_forall. intros x (y & -> & Hy)%list_elem_of_fmap.
    apply list_elem_of_filter in Hy as [_ Hy]. apply elem_of_seq in Hy. lia. }
  destruct (decide (P a)).
  - rewrite filter_cons_True by done. cbn. by constructor.
  - rewrite filter_cons_False by done. apply IH.
Qed.
End kmp_facts.
(** ** [isPowerOfTwo] *)

Lemma land_pred_pow2 k : 0 <= k -> Z.land (2 ^ k) (2 ^ k - 1) = 0.
Proof.
  intros Hk. replace (2 ^ k - 1) with (Z.ones k)
    by (rewrite Z.ones_equiv; lia).
  rewrite Z.land_ones by done. apply Z_mod_same_full.
Qed.

(** A positive number that is not a power of two shares its top bit with
    its predecessor. *)
Lemma land_pred_top n :
  0 < n -> n <> 2 ^ Z.log2 n -> Z.land n (n - 1) <> 0.
Proof.
  intros Hn Hne Hland.
  pose proof (Z.log2_spec n Hn) as [Hlo Hhi].
  pose proof (Z.log2_nonneg n) as Hk.
  assert (Z.log2 (n - 1) = Z.log2 n) as Hlog.
  { apply Z.log2_unique; [done|lia]. }
  assert (Z.testbit (Z.land n (n - 1)) (Z.log2 n) = true) as Hbit.
  { rewrite Z.land_spec, (Z.bit_log2 n Hn). rewrite <- Hlog.
    rewrite Z.bit_log2; [done|]. lia. }
  by rewrite Hland, Z.bits_0 in Hbit.
Qed.
(** ** Frames of the runs on the store *)

Lemma frame_refl n s : frame n s s.
Proof. by split. Qed.

Lemma frame_trans n s1 s2 s3 : frame n s1 s2 -> frame n s2 s3 -> frame n s1 s3.
Proof.
  intros [L1 H1] [L2 H2]. split; [lia|]. intros r Hr.
  by rewrite H2, H1.
Qed.

Lemma frame_alloc n s o : (n <= length s)%nat -> frame n s (s ++ [o]).
Proof.
  intros Hn. split; [rewrite length_app; lia|]. intros r Hr.
  apply lookup_app_l. lia.
Qed.

Lemma frame_put n s r o : (n <= r)%nat -> frame n s (<[r := o]> s).
Proof.
  intros Hn. split; [by rewrite length_insert|]. intros r' Hr.
  apply list_lookup_insert_ne. lia.
Qed.

Lemma frame_unchanged s s' : frame (length s) s s' -> Mem.unchanged s s'.
Proof.
  intros [_ H] r o Hr. rewrite H; [done|]. by apply lookup_lt_Some in Hr.
Qed.

Section frame_logic.
Variables (n : nat) (W : Mem.ref -> Prop) (P : Mem.store -> Prop).
Hypothesis W_fresh : forall r, W r -> (n <= r)%nat.
Hypothesis W_alloc : forall s, (n <= length s)%nat -> P s -> W (length s).
Hypothesis P_alloc : forall s o, P s -> P (s ++ [o]).
Hypothesis P_put : forall s r o, W r -> P s -> P (<[r := o]> s).

Local Abbreviation keeps := (keeps n P).

Lemma keeps_ret {A} (a : A) (Q : A -> Prop) : Q a -> keeps (Mem.ret a) Q.
Proof.
  intros Ha s Hn HP. cbn. split; [apply frame_refl|]. split; [done|].
  by intros ? [= <-].
Qed.

Lemma keeps_throw {A} (Q : A -> Prop) : keeps Mem.throw Q.
Proof. intros s Hn HP. cbn. split; [apply frame_refl|]. by split. Qed.

Lemma keeps_stuck {A} (Q : A -> Prop) : keeps Mem.stuck Q.
Proof. intros s Hn HP. cbn. split; [apply frame_refl|]. by split. Qed.

Lemma keeps_bind {A B} (m : Mem.M A) (f : A -> Mem.M B) Q Q' :
  keeps m Q -> (forall a, Q a -> keeps (f a) Q') -> keeps (Mem.bind m f) Q'.
Proof.
  intros Hm Hf s Hn HP. destruct (Hm s Hn HP) as (Hfr & HP' & HQ).
  unfold Mem.bind. destruct (m s) as [[[a|]|] s1]; cbn in *; [|done..].
  destruct (Hf a (HQ a eq_refl) s1) as (Hfr2 & HP2 & HQ2); [|done|].
  { destruct Hfr. lia. }
  split; [by eapply frame_trans|]. by split.
Qed.

Lemma keeps_weaken {A} (m : Mem.M A) (Q Q' : A -> Prop) :
  keeps m Q -> (forall a, Q a -> Q' a) -> keeps m Q'.
Proof.
  intros Hm HQ s Hn HP. destruct (Hm s Hn HP) as (Hfr & HP' & Ha).
  split; [done|]. split; [done|]. intros a Hr. by apply HQ, Ha.
Qed.

Lemma keeps_alloc o : keeps (Mem.alloc o) (writable W).
Proof.
  intros s Hn HP. cbn. split; [by apply frame_alloc|]. split; [by apply P_alloc|].
  intros a [= <-] r [= <-]. by apply W_alloc.
Qed.

Lemma keeps_deref v :
  keeps (Mem.deref v) (fun p => v = Mem.VRef p.1).
Proof.
  intros s Hn HP. unfold Mem.deref.
  destruct v as [| | | | |r]; cbn; try (split; [apply frame_refl|]; by split).
  destruct (s !! r) as [o|]; cbn; (split; [apply frame_refl|]; split; [done|]).
  - by intros ? [= <-].
  - done.
Qed.

Lemma keeps_put r o : W r -> keeps (Mem.put r o) (fun _ => True).
Proof.
  intros Hw s Hn HP. cbn. split; [apply frame_put; by apply W_fresh|].
  split; [by apply P_put|done].
Qed.

(** Reading *)

Lemma keeps_get a i : keeps (Mem.get a i) (fun _ => True).
Proof.
  unfold Mem.get. eapply keeps_bind; [apply keeps_deref|].
  intros [r o] _. destruct i as [[z|]| | | | |]; try apply keeps_stuck;
    [|by apply keeps_ret].
  destruct (_ <=? _); by (apply keeps_ret || apply keeps_stuck).
Qed.

Lemma keeps_prop a k : keeps (Mem.prop a k) (fun _ => True).
Proof.
  unfold Mem.prop. eapply keeps_bind; [apply keeps_deref|].
  intros [r o] _. by apply keeps_ret.
Qed.

Lemma keeps_length_of a : keeps (Mem.length_of a) (fun _ => True).
Proof.
  unfold Mem.length_of. eapply keeps_bind; [apply keeps_deref|].
  intros [r [es ps|ps|m]] _; by (apply keeps_ret || apply keeps_stuck).
Qed.

Lemma keeps_pair_of e : keeps (Mem.pair_of e) (fun _ => True).
Proof.
  unfold Mem.pair_of. eapply keeps_bind; [apply keeps_deref|].
  intros [r [es ps|ps|m]] _; by (apply keeps_ret || apply keeps_stuck).
Qed.

(** A loop over an array keeps what its body keeps. *)
Lemma keeps_for_of fuel a body :
  (forall e, keeps (body e) (fun _ => True)) ->
  forall i, keeps (Mem.for_of fuel a i body) (fun _ => True).
Proof.
  intros Hbody. induction fuel as [|fuel IH]; intros i; cbn [Mem.for_of];
    [apply keeps_stuck|].
  eapply keeps_bind; [apply keeps_length_of|]. intros len _.
  destruct (i <? len); [|by apply keeps_ret].
  eapply keeps_bind; [apply keeps_get|]. intros e _.
  eapply keeps_bind; [apply Hbody|]. intros _ _.
  apply IH.
Qed.

Lemma keeps_map_size a : keeps (Mem.map_size a) (fun _ => True).
Proof.
  unfold Mem.map_size. eapply keeps_bind; [apply keeps_deref|].
  intros [r [es ps|ps|m]] _; by (apply keeps_ret || apply keeps_stuck).
Qed.

Lemma keeps_map_lookup a k : keeps (Mem.map_lookup a k) (fun _ => True).
Proof.
  unfold Mem.map_lookup. eapply keeps_bind; [apply keeps_deref|].
  intros [r [es ps|ps|m]] _; by (apply keeps_ret || apply keeps_stuck).
Qed.

Lemma keeps_v_add a b : keeps (Mem.v_add a b) plain.
Proof.
  unfold Mem.v_add.
  destruct a as [[x|]| | | | |], b as [[y|]| | | | |];
    try by (apply keeps_ret || apply keeps_stuck).
  destruct (double_add x y); by (apply keeps_ret || apply keeps_stuck).
Qed.

Lemma keeps_v_sub a b : keeps (Mem.v_sub a b) (fun _ => True).
Proof.
  unfold Mem.v_sub.
  destruct a as [[x|]| | | | |], b as [[y|]| | | | |];
    try by (apply keeps_ret || apply keeps_stuck).
  destruct (double_add x (- y)); by (apply keeps_ret || apply keeps_stuck).
Qed.

Lemma keeps_v_bit a k : keeps (Mem.v_bit a k) (fun _ => True).
Proof.
  unfold Mem.v_bit.
  destruct a as [[x|]| | | | |]; by (apply keeps_ret || apply keeps_stuck).
Qed.

Lemma keeps_as_int v : keeps (Mem.as_int v) (fun _ => True).
Proof.
  unfold Mem.as_int.
  destruct v as [[x|]| | | | |]; by (apply keeps_ret || apply keeps_stuck).
Qed.

Lemma keeps_int_add x y : keeps (Mem.int_add x y) (fun _ => True).
Proof.
  unfold Mem.int_add.
  destruct (double_add x y) as [[z|]|]; by (apply keeps_ret || apply keeps_stuck).
Qed.

(** Storing *)

Lemma keeps_set a i x : writable W a -> keeps (Mem.set a i x) (fun _ => True).
Proof.
  intros Hw. unfold Mem.set. eapply keeps_bind; [apply keeps_deref|].
  intros [r o] Hr. cbn in Hr.
  destruct i as [[z|]| | | | |], o as [es ps|ps|m]; try apply keeps_stuck.
  - destruct (_ <=? _); [|apply keeps_stuck]. apply keeps_put. by apply Hw.
  - destruct (_ <=? _); [|apply keeps_stuck]. apply keeps_put. by apply Hw.
Qed.

Lemma keeps_array_push a x :
  writable W a -> keeps (Mem.array_push a x) (fun _ => True).
Proof.
  intros Hw. unfold Mem.array_push. eapply keeps_bind; [apply keeps_deref|].
  intros [r [es ps|ps|m]] Hr; [|apply keeps_stuck..].
  apply keeps_put. by apply Hw.
Qed.

Lemma keeps_array_pop a :
  writable W a -> keeps (Mem.array_pop a) (fun _ => True).
Proof.
  intros Hw. unfold Mem.array_pop. eapply keeps_bind; [apply keeps_deref|].
  intros [r [es ps|ps|m]] Hr; [|apply keeps_stuck..].
  destruct (list.last es); [|by apply keeps_ret].
  eapply keeps_bind; [apply keeps_put; by apply Hw|].
  intros _ _. by apply keeps_ret.
Qed.

Lemma keeps_array_reverse a :
  writable W a -> keeps (Mem.array_reverse a) (fun _ => True).
Proof.
  intros Hw. unfold Mem.array_reverse. eapply keeps_bind; [apply keeps_deref|].
  intros [r [es ps|ps|m]] Hr; [|apply keeps_stuck..].
  apply keeps_put. by apply Hw.
Qed.

Lemma keeps_map_store a k x :
  writable W a -> keeps (Mem.map_store a k x) (fun _ => True).
Proof.
  intros Hw. unfold Mem.map_store. eapply keeps_bind; [apply keeps_deref|].
  intros [r [es ps|ps|m]] Hr; [apply keeps_stuck..|].
  apply keeps_put. by apply Hw.
Qed.

Lemma keeps_map_remove a k :
  writable W a -> keeps (Mem.map_remove a k) (fun _ => True).
Proof.
  intros Hw. unfold Mem.map_remove. eapply keeps_bind; [apply keeps_deref|].
  intros [r [es ps|ps|m]] Hr; [apply keeps_stuck..|].
  apply keeps_put. by apply Hw.
Qed.

(** The queue *)

Lemma keeps_key_at a i : keeps (Mem.key_at a i) (fun _ => True).
Proof.
  unfold Mem.key_at. eapply keeps_bind; [apply keeps_get|].
  intros e _. apply keeps_prop.
Qed.

Lemma keeps_swap a i j :
  writable W a -> keeps (Mem.swap a i j) (fun _ => True).
Proof.
  intros Hw. unfold Mem.swap.
  eapply keeps_bind; [apply keeps_get|]. intros x _.
  eapply keeps_bind; [apply keeps_get|]. intros y _.
  eapply keeps_bind; [apply keeps_alloc|]. intros t _.
  eapply keeps_bind; [by apply keeps_set|]. intros _ _.
  by apply keeps_set.
Qed.

Lemma keeps_pick d len c smallest :
  keeps (Mem.pick d len c smallest) (fun _ => True).
Proof.
  unfold Mem.pick. destruct (c <? len); [|by apply keeps_ret].
  eapply keeps_bind; [apply keeps_key_at|]. intros kc _.
  eapply keeps_bind; [apply keeps_key_at|]. intros ks _.
  destruct (Mem.v_lt kc ks) as [[|]|]; by (apply keeps_ret || apply keeps_stuck).
Qed.
End frame_logic.

(** *** [MinHeap] and [dijkstra] *)

Lemma write_index_plain es ps z x :
  Forall plain es -> Forall (fun kv => plain kv.2) ps -> plain x ->
  exists es' ps',
    Mem.write_index (Mem.Arr es ps) z x = Mem.Arr es' ps' /\
    Forall plain es' /\ Forall (fun kv => plain kv.2) ps'.
Proof.
  intros Hes Hps Hx. unfold Mem.write_index.
  destruct (_ && _); [|destruct (_ && _)].
  - eexists _, _. split; [done|]. split; [|done].
    unfold aset. case_decide; [|done]. by apply Forall_insert.
  - eexists _, _. split; [done|]. split; [|done].
    rewrite !Forall_app. split; [done|]. split; [|by constructor].
    by apply Forall_replicate.
  - eexists _, _. split; [done|]. split; [done|].
    generalize (number_to_string z). intros k. clear -Hps Hx.
    induction Hps as [|[k' v] ps Hv Hps IH]; cbn.
    + by constructor.
    + destruct (String.eqb k' k); constructor; done.
Qed.

Section dijkstra_frame.
Variables (n p d t : nat).
Hypothesis Hp : (n <= p)%nat.
Hypothesis Hd : (n <= d)%nat /\ d <> p /\ d <> t.
Hypothesis Ht : (n <= t)%nat /\ t <> p.

(** A run may store into every new object but the queue object and the
    table; into the table it stores numbers. *)
Let W (r : Mem.ref) : Prop := (n <= r)%nat /\ r <> p /\ r <> t.
Let P (s : Mem.store) : Prop := queue_at p d s /\ table_at t s.

Local Lemma HWf r : W r -> (n <= r)%nat.
Proof. by intros [? _]. Qed.

Local Lemma HWa s : (n <= length s)%nat -> P s -> W (length s).
Proof.
  intros Hn [HP (es & ps & HT & _)].
  apply lookup_lt_Some in HP. apply lookup_lt_Some in HT.
  split; [done|]. lia.
Qed.

Local Lemma HPa s o : P s -> P (s ++ [o]).
Proof.
  intros [HP (es & ps & HT & Hes)]. split.
  - unfold queue_at. rewrite lookup_app_l; [done|].
    by apply lookup_lt_Some in HP.
  - exists es, ps. split; [|done]. rewrite lookup_app_l; [done|].
    by apply lookup_lt_Some in HT.
Qed.

Local Lemma HPp s r o : W r -> P s -> P (<[r := o]> s).
Proof.
  intros (_ & Hr & Hr') [HP (es & ps & HT & Hes)]. split.
  - unfold queue_at. by rewrite list_lookup_insert_ne.
  - exists es, ps. by rewrite list_lookup_insert_ne.
Qed.

Local Hint Resolve HWf HWa HPa HPp : core.

Local Ltac step lem :=
  eapply keeps_bind;
  [first [eapply (lem n W P) | eapply lem]; solve [eauto]|].

Lemma writable_data : writable W (Mem.VRef d).
Proof. intros r [= <-]. unfold W. tauto. Qed.

Local Hint Resolve writable_data : core.

(** [this.data] is the array at [d]. *)
Lemma keeps_data :
  keeps n P (Mem.prop (Mem.VRef p) "data") (fun v => v = Mem.VRef d).
Proof.
  intros s Hn HP. unfold Mem.prop, Mem.bind, Mem.deref.
  pose proof (proj1 HP) as HQ. unfold queue_at in HQ. rewrite HQ. cbn.
  split; [apply frame_refl|]. split; [done|]. by intros a [= <-].
Qed.

Lemma keeps_size : keeps n P (Mem.size (Mem.VRef p)) (fun _ => True).
Proof.
  unfold Mem.size. step keeps_data. intros v Hv; cbn beta in Hv; subst v. apply keeps_length_of.
Qed.

Lemma keeps_sift_up fuel : forall i,
  keeps n P (Mem.sift_up fuel (Mem.VRef p) i) (fun _ => True).
Proof.
  induction fuel as [|fuel IH]; intros i; cbn [Mem.sift_up];
    [apply keeps_stuck|].
  destruct (0 <? i); [|by apply keeps_ret].
  step keeps_data. intros v Hv; cbn beta in Hv; subst v.
  step keeps_key_at. intros kp _.
  step keeps_key_at. intros ki _.
  destruct (Mem.v_le kp ki) as [[|]|]; [by apply keeps_ret| |apply keeps_stuck].
  step keeps_swap. intros _ _. apply IH.
Qed.

Lemma keeps_push fuel key val :
  keeps n P (Mem.push fuel (Mem.VRef p) key val) (fun _ => True).
Proof.
  unfold Mem.push.
  step keeps_data. intros v Hv; cbn beta in Hv; subst v.
  step keeps_alloc. intros e _.
  step keeps_array_push. intros _ _.
  step keeps_length_of. intros len _.
  apply keeps_sift_up.
Qed.

Lemma keeps_sift_down fuel : forall i,
  keeps n P (Mem.sift_down fuel (Mem.VRef p) i) (fun _ => True).
Proof.
  induction fuel as [|fuel IH]; intros i; cbn [Mem.sift_down];
    [apply keeps_stuck|].
  step keeps_data. intros v Hv; cbn beta in Hv; subst v.
  step keeps_length_of. intros len _.
  step keeps_pick. intros s1 _.
  step keeps_pick. intros s2 _.
  destruct (s2 =? i); [by apply keeps_ret|].
  step keeps_swap. intros _ _. apply IH.
Qed.

Lemma keeps_pop fuel :
  keeps n P (Mem.pop fuel (Mem.VRef p)) (fun _ => True).
Proof.
  unfold Mem.pop.
  step keeps_data. intros v Hv; cbn beta in Hv; subst v.
  step keeps_length_of. intros len _.
  destruct (len =? 0); [by apply keeps_ret|].
  step keeps_get. intros res _.
  step keeps_array_pop. intros last _.
  step keeps_length_of. intros len' _.
  destruct (0 <? len'); [|by apply keeps_ret].
  step keeps_set. intros _ _.
  step keeps_sift_down. intros _ _.
  by apply keeps_ret.
Qed.

(** A number stored into the table. *)
Lemma keeps_set_table i x :
  plain x -> keeps n P (Mem.set (Mem.VRef t) i x) (fun _ => True).
Proof.
  intros Hx s Hn [HP (es & ps & HT & Hes & Hps)].
  unfold Mem.set, Mem.bind, Mem.deref. rewrite HT.
  destruct i as [[z|]| | | | |]; cbn -[Mem.write_index];
    try (split; [apply frame_refl|]; split; [|done]; split; [done|];
         by exists es, ps).
  destruct (_ <=? _); cbn -[Mem.write_index];
    [|split; [apply frame_refl|]; split; [|done]; split; [done|];
      by exists es, ps].
  split; [apply frame_put; tauto|]. split; [|done]. split.
  { unfold queue_at. rewrite list_lookup_insert_ne; [done|]. exact (proj2 Ht). }
  apply lookup_lt_Some in HT as Hlt.
  destruct (write_index_plain es ps z x Hes Hps Hx) as (es' & ps' & -> & ?).
  exists es', ps'. by rewrite list_lookup_insert_eq.
Qed.

Lemma keeps_relax fuel u e :
  keeps n P (Mem.relax fuel (Mem.VRef t) (Mem.VRef p) u e) (fun _ => True).
Proof.
  unfold Mem.relax.
  step keeps_pair_of. intros [v w] _.
  step keeps_get. intros dv _.
  step keeps_get. intros du _.
  step keeps_v_add. intros s _.
  destruct (Mem.v_lt s dv) as [[|]|];
    [|by apply keeps_ret|apply keeps_stuck].
  step keeps_get. intros du' _.
  step keeps_v_add. intros s' Hs; cbn beta in Hs.
  eapply keeps_bind; [by apply keeps_set_table|]. intros _ _.
  step keeps_get. intros dv' _.
  apply keeps_push.
Qed.

Lemma keeps_loop fuel adj :
  keeps n P (Mem.loop fuel adj (Mem.VRef t) (Mem.VRef p)) (fun _ => True).
Proof.
  induction fuel as [|fuel IH]; cbn [Mem.loop]; [apply keeps_stuck|].
  step keeps_size. intros len _.
  destruct (len =? 0); [by apply keeps_ret|].
  step keeps_pop. intros cur _.
  step keeps_prop. intros u _.
  step keeps_prop. intros k _.
  step keeps_get. intros du _.
  destruct (Mem.v_lt du k) as [[|]|]; [done| |apply keeps_stuck].
  step keeps_get. intros row _.
  eapply keeps_bind.
  { apply keeps_for_of. intros e. apply keeps_relax. }
  intros _ _.
  apply IH.
Qed.
End dijkstra_frame.

Lemma length_of_store a s : (Mem.length_of a s).2 = s.
Proof.
  unfold Mem.length_of, Mem.bind, Mem.deref.
  destruct a as [| | | | |r]; try done. by destruct (s !! r) as [[| |]|].
Qed.

(** A store through a reference that was just added. *)
Lemma set_new s es ps z x :
  Z.abs z <= 2 ^ 53 ->
  Mem.set (Mem.VRef (length s)) (Mem.VNum (Fin z)) x (s ++ [Mem.Arr es ps])
  = (Some (Ret tt),
     <[length s := Mem.write_index (Mem.Arr es ps) z x]> (s ++ [Mem.Arr es ps])).
Proof.
  intros Hz. unfold Mem.set, Mem.bind, Mem.deref.
  rewrite lookup_app_r, Nat.sub_diag by done. cbn [lookup list_lookup].
  by rewrite (proj2 (Z.leb_le _ _) Hz).
Qed.

Lemma set_new_large s es ps z x :
  ~ Z.abs z <= 2 ^ 53 ->
  Mem.set (Mem.VRef (length s)) (Mem.VNum (Fin z)) x (s ++ [Mem.Arr es ps])
  = (None, s ++ [Mem.Arr es ps]).
Proof.
  intros Hz. unfold Mem.set, Mem.bind, Mem.deref.
  rewrite lookup_app_r, Nat.sub_diag by done. cbn [lookup list_lookup].
  by rewrite (proj2 (Z.leb_nle _ _) Hz).
Qed.

(** [dijkstra] stores into the arrays and objects it has made only; the
    table it returns is the first of them, and holds no reference. *)
Lemma dijkstra_table fuel adj src s o s' :
  Mem.dijkstra fuel adj src s = (o, s') ->
  frame (length s) s s' /\
  forall v, o = Some (Ret v) ->
    v = Mem.VRef (length s) /\ table_at (length s) s'.
Proof.
  unfold Mem.dijkstra. unfold Mem.bind at 1.
  pose proof (length_of_store adj s) as Hs.
  destruct (Mem.length_of adj s) as [[[len|]|] s1]; cbn in Hs; subst s1;
    [|intros [= <- <-]; by split; [apply frame_refl|]..].
  unfold Mem.bind at 1. cbn [Mem.alloc].
  unfold Mem.bind at 1.
  destruct (decide (Z.abs src <= 2 ^ 53)) as [Hsrc|Hsrc];
    [|rewrite set_new_large by done; intros [= <- <-];
      split; [by apply frame_alloc|done]].
  rewrite set_new by done.
  destruct (write_index_plain (replicate (Z.to_nat len) (Mem.VNum Inf)) []
              src (Mem.VNum (Fin 0))) as (es & ps & -> & Hes & Hps);
    [by apply Forall_replicate|done|done|].
  set (s1 := <[length s := _]> (s ++ [_])).
  assert (Hlen1 : length s1 = S (length s)).
  { unfold s1. rewrite length_insert, length_app. cbn. lia. }
  assert (Hfr1 : frame (length s) s s1).
  { eapply frame_trans; [by apply frame_alloc|]. by apply frame_put. }
  assert (HT1 : s1 !! length s = Some (Mem.Arr es ps)).
  { unfold s1. apply list_lookup_insert_eq. rewrite length_app. cbn. lia. }
  unfold Mem.bind at 1. cbn [Mem.alloc].
  unfold Mem.bind at 1. cbn [Mem.alloc].
  rewrite length_app, Hlen1. cbn [length].
  replace (S (length s) + 1)%nat with (S (S (length s))) by lia.
  set (s2 := (s1 ++ [_]) ++ [_]).
  assert (Hlen2 : length s2 = S (S (S (length s)))).
  { unfold s2. rewrite !length_app, Hlen1. cbn. lia. }
  assert (Hfr2 : frame (length s) s s2).
  { eapply frame_trans; [done|]. unfold s2.
    eapply frame_trans; apply frame_alloc; rewrite ?length_app; lia. }
  assert (HQ : queue_at (S (S (length s))) (S (length s)) s2).
  { unfold queue_at, s2.
    rewrite lookup_app_r by (rewrite length_app, Hlen1; cbn; lia).
    rewrite length_app, Hlen1. cbn [length].
    by replace (S (S (length s)) - (S (length s) + 1))%nat with 0%nat by lia. }
  assert (HT : table_at (length s) s2).
  { exists es, ps. split; [|done]. unfold s2.
    rewrite <- app_assoc. rewrite lookup_app_l by lia. done. }
  match goal with
  | |- ?m s2 = _ -> _ =>
      assert (Hk : keeps (length s)
                     (fun s' => queue_at (S (S (length s))) (S (length s)) s' /\
                                table_at (length s) s')
                     m (fun v => v = Mem.VRef (length s)))
  end.
  { eapply keeps_bind; [apply keeps_push; lia|]. intros _ _.
    eapply keeps_bind; [apply keeps_loop; lia|]. intros _ _.
    by apply keeps_ret. }
  intros Hrun.
  destruct (Hk s2 ltac:(lia) (conj HQ HT)) as (Hfr & [_ HT'] & Hv).
  rewrite Hrun in Hfr, HT', Hv. cbn in Hfr, HT', Hv.
  split; [by eapply frame_trans|]. intros v ->. by split; [apply Hv|].
Qed.

Lemma dijkstra_frame fuel adj src s :
  frame (length s) s (Mem.dijkstra fuel adj src s).2.
Proof.
  destruct (Mem.dijkstra fuel adj src s) as [o s'] eqn:Hrun.
  by apply dijkstra_table in Hrun as [? _].
Qed.

(** *** [astarGrid] and [LCA.query] *)

Section new_objects.
Variable n : nat.

(** A run may store into every new object. *)
Let W (r : Mem.ref) : Prop := (n <= r)%nat.
Let P (s : Mem.store) : Prop := True.

Local Lemma NWf r : W r -> (n <= r)%nat.
Proof. done. Qed.

Local Lemma NWa s : (n <= length s)%nat -> P s -> W (length s).
Proof. done. Qed.

Local Lemma NPa s o : P s -> P (s ++ [o]).
Proof. done. Qed.

Local Lemma NPp s r o : W r -> P s -> P (<[r := o]> s).
Proof. done. Qed.

Local Hint Resolve NWf NWa NPa NPp : core.

Local Ltac step lem :=
  eapply keeps_bind;
  [first [eapply (lem n W P) | eapply lem]; solve [eauto]|].

Lemma keeps_key x y : keeps n P (Mem.key x y) (fun _ => True).
Proof.
  unfold Mem.key. destruct (_ && _); by (apply keeps_ret || apply keeps_stuck).
Qed.

Lemma keeps_h goal x y : keeps n P (Mem.h goal x y) (fun _ => True).
Proof.
  unfold Mem.h.
  step keeps_get. intros g0 _. step keeps_as_int. intros z0 _.
  step keeps_int_add. intros a _.
  step keeps_get. intros g1 _. step keeps_as_int. intros z1 _.
  step keeps_int_add. intros b _.
  apply keeps_int_add.
Qed.

Lemma keeps_split_key k : keeps n P (Mem.split_key k) (fun _ => True).
Proof.
  unfold Mem.split_key. step keeps_alloc. intros t _.
  destruct (parse_key k) as [[x y]|]; [|apply keeps_stuck].
  step keeps_alloc. intros t' _. by apply keeps_ret.
Qed.

Lemma keeps_scan_min open : forall curKey curF,
  keeps n P (Mem.scan_min open curKey curF) (fun _ => True).
Proof.
  induction open as [|[k f] open IH]; intros curKey curF; cbn [Mem.scan_min];
    [by apply keeps_ret|].
  step keeps_alloc. intros t _.
  destruct (Mem.v_lt f curF) as [[|]|]; [apply IH..|apply keeps_stuck].
Qed.

Lemma keeps_is_goal goal cx cy :
  keeps n P (Mem.is_goal goal cx cy) (fun _ => True).
Proof.
  unfold Mem.is_goal. step keeps_get. intros g0 _.
  destruct (Mem.v_eq _ _); [|by apply keeps_ret].
  step keeps_get. intros g1 _. by apply keeps_ret.
Qed.

Lemma keeps_reconstruct fuel parent path :
  writable W path ->
  forall p, keeps n P (Mem.reconstruct fuel parent path p) (fun _ => True).
Proof.
  intros Hpath. induction fuel as [|fuel IH]; intros p; cbn [Mem.reconstruct];
    [apply keeps_stuck|].
  destruct p as [| |k| | |]; try by (apply keeps_ret || apply keeps_stuck).
  destruct (decide _); [by apply keeps_ret|].
  step keeps_split_key. intros [px py] _.
  step keeps_alloc. intros c _.
  step keeps_array_push. intros _ _.
  step keeps_map_lookup. intros q _.
  apply IH.
Qed.

Section with_maps.
Variables goal grid open gScore parent : Mem.value.
Hypothesis Hopen : writable W open.
Hypothesis HgScore : writable W gScore.
Hypothesis Hparent : writable W parent.

Lemma keeps_neighbor R C cx cy curKey gCur d :
  keeps n P
    (Mem.neighbor goal grid open gScore parent R C cx cy curKey gCur d)
    (fun _ => True).
Proof.
  unfold Mem.neighbor.
  step keeps_pair_of. intros [dx dy] _.
  step keeps_as_int. intros zx _.
  step keeps_as_int. intros zy _.
  step keeps_int_add. intros nx _.
  step keeps_int_add. intros ny _.
  destruct (negb _); [by apply keeps_ret|].
  step keeps_get. intros row _.
  step keeps_get. intros cell _.
  destruct (Mem.v_eq _ _); [by apply keeps_ret|].
  step keeps_key. intros nk _.
  step keeps_v_add. intros tg _.
  step keeps_map_lookup. intros g _.
  destruct (Mem.v_lt tg _) as [[|]|]; [|by apply keeps_ret|apply keeps_stuck].
  step keeps_map_store. intros _ _.
  step keeps_map_store. intros _ _.
  step keeps_h. intros hn _.
  step keeps_v_add. intros f _.
  eapply (keeps_map_store n W P); eauto.
Qed.

Lemma keeps_search fuel dirs R C :
  keeps n P (Mem.search fuel goal grid open gScore parent dirs R C)
    (fun _ => True).
Proof.
  induction fuel as [|fuel IH]; cbn [Mem.search]; [apply keeps_stuck|].
  step keeps_map_size. intros len _.
  destruct (len =? 0); [by apply keeps_ret|].
  step keeps_deref. intros [r o] _.
  step keeps_scan_min. intros curKey _.
  destruct curKey as [| |k| | |]; try by apply keeps_ret.
  destruct (decide _); [by apply keeps_ret|].
  step keeps_map_remove. intros _ _.
  step keeps_split_key. intros [cx cy] _.
  step keeps_is_goal. intros [|] _.
  - eapply keeps_bind; [eapply (keeps_alloc n W P); eauto|]. intros path Hpath.
    step keeps_reconstruct. intros _ _.
    step keeps_array_reverse. intros _ _.
    by apply keeps_ret.
  - step keeps_map_lookup. intros gCur _.
    eapply keeps_bind.
    { apply keeps_for_of. intros d. apply keeps_neighbor. }
    intros _ _.
    apply IH.
Qed.
End with_maps.

Lemma keeps_astarGrid fuel start goal grid :
  keeps n P (Mem.astarGrid fuel start goal grid) (fun _ => True).
Proof.
  unfold Mem.astarGrid.
  step keeps_length_of. intros R _.
  step keeps_get. intros row0 _.
  step keeps_length_of. intros C _.
  eapply keeps_bind; [eapply (keeps_alloc n W P); eauto|]. intros open Hopen.
  eapply keeps_bind; [eapply (keeps_alloc n W P); eauto|]. intros gScore Hg.
  eapply keeps_bind; [eapply (keeps_alloc n W P); eauto|]. intros parent Hpar.
  step keeps_get. intros s0 _. step keeps_as_int. intros z0 _.
  step keeps_get. intros s1 _. step keeps_as_int. intros z1 _.
  step keeps_key. intros startKey _.
  step keeps_h. intros h0 _.
  step keeps_map_store. intros _ _.
  step keeps_map_store. intros _ _.
  step keeps_map_store. intros _ _.
  step keeps_alloc. intros d1 _.
  step keeps_alloc. intros d2 _.
  step keeps_alloc. intros d3 _.
  step keeps_alloc. intros d4 _.
  step keeps_alloc. intros dirs _.
  by apply keeps_search.
Qed.

Lemma keeps_depth_at this u : keeps n P (Mem.depth_at this u) (fun _ => True).
Proof.
  unfold Mem.depth_at. step keeps_prop. intros depth _. apply keeps_get.
Qed.

Lemma keeps_up_at this k u : keeps n P (Mem.up_at this k u) (fun _ => True).
Proof.
  unfold Mem.up_at. step keeps_prop. intros up _.
  step keeps_get. intros row _. apply keeps_get.
Qed.

Lemma keeps_lift this diff ks : forall u,
  keeps n P (Mem.lift this diff ks u) (fun _ => True).
Proof.
  induction ks as [|k ks IH]; intros u; cbn [Mem.lift]; [by apply keeps_ret|].
  step keeps_v_bit. intros [|] _; [|apply IH].
  step keeps_up_at. intros u' _. apply IH.
Qed.

Lemma keeps_descend this ks : forall u v,
  keeps n P (Mem.descend this ks u v) (fun _ => True).
Proof.
  induction ks as [|k ks IH]; intros u v; cbn [Mem.descend];
    [by apply keeps_ret|].
  step keeps_up_at. intros a _.
  step keeps_up_at. intros b _.
  destruct (negb _); [|apply IH].
  step keeps_up_at. intros a' _.
  step keeps_up_at. intros b' _.
  apply IH.
Qed.

Lemma keeps_query this u v : keeps n P (Mem.query this u v) (fun _ => True).
Proof.
  unfold Mem.query.
  step keeps_depth_at. intros du _.
  step keeps_depth_at. intros dv _.
  destruct (Mem.v_lt du dv) as [swapped|]; [|apply keeps_stuck].
  eapply keeps_bind with (Q := fun _ => True).
  { destruct swapped; [|by apply keeps_ret].
    eapply keeps_weaken; [eapply (keeps_alloc n W P); eauto|done]. }
  intros _ _. destruct swapped.
  - step keeps_depth_at. intros du' _.
    step keeps_depth_at. intros dv' _.
    step keeps_v_sub. intros diff _.
    step keeps_prop. intros LOG _.
    step keeps_as_int. intros L _.
    step keeps_lift. intros u' _.
    destruct (Mem.v_eq _ _); [by apply keeps_ret|].
    step keeps_descend. intros [u2 v2] _.
    apply keeps_up_at.
  - step keeps_depth_at. intros du' _.
    step keeps_depth_at. intros dv' _.
    step keeps_v_sub. intros diff _.
    step keeps_prop. intros LOG _.
    step keeps_as_int. intros L _.
    step keeps_lift. intros u' _.
    destruct (Mem.v_eq _ _); [by apply keeps_ret|].
    step keeps_descend. intros [u2 v2] _.
    apply keeps_up_at.
Qed.
End new_objects.

(** [astarGrid] stores into the maps and arrays it has made only. *)
Lemma astarGrid_frame fuel start goal grid s :
  frame (length s) s (Mem.astarGrid fuel start goal grid s).2.
Proof.
  by destruct (keeps_astarGrid (length s) fuel start goal grid s) as [H _].
Qed.

(** [query] does not store. *)
Lemma query_frame this u v s :
  frame (length s) s (Mem.query this u v s).2.
Proof.
  by destruct (keeps_query (length s) this u v s) as [H _].
Qed.

(** *** Runs on the three stores

    The runs on the store give what the programs on lists give. *)

Example dijkstra_on_graph_store :
  let run := Mem.dijkstra 10 (Mem.VRef 6) 0 graph_store in
  run.1 = Some (Ret (Mem.VRef 7)) /\
  run.2 !! 7%nat =
    Some (Mem.Arr [Mem.VNum (Fin 0); Mem.VNum (Fin 3); Mem.VNum (Fin 1)] []) /\
  dijkstra 10 [[(1, 4); (2, 1)]; []; [(1, 2)]] 0 =
    Some (Ret [Fin 0; Fin 3; Fin 1]).
Proof. by vm_compute. Qed.

Example dijkstra_on_graph_store_throws :
  (Mem.dijkstra 10 (Mem.VRef 6) 3 graph_store).1 = Some Throw /\
  (Mem.dijkstra 10 (Mem.VRef 6) (-1) graph_store).1 = Some Throw /\
  dijkstra 10 [[(1, 4); (2, 1)]; []; [(1, 2)]] 3 = Some Throw.
Proof. by vm_compute. Qed.

Example astarGrid_on_grid_store :
  let run :=
    Mem.astarGrid 10 (Mem.VRef 3) (Mem.VRef 4) (Mem.VRef 2) grid_store in
  exists a b c,
    run.1 = Some (Ret (Mem.VRef 22)) /\
    run.2 !! 22%nat = Some (Mem.Arr [Mem.VRef a; Mem.VRef b; Mem.VRef c] []) /\
    run.2 !! a = Some (Mem.Arr [Mem.VNum (Fin 0); Mem.VNum (Fin 0)] []) /\
    run.2 !! b = Some (Mem.Arr [Mem.VNum (Fin 1); Mem.VNum (Fin 0)] []) /\
    run.2 !! c = Some (Mem.Arr [Mem.VNum (Fin 1); Mem.VNum (Fin 1)] []) /\
    astarGrid 10 (0, 0) (1, 1) [[0; 1]; [0; 0]] =
      Some (Ret (Some [(0, 0); (1, 0); (1, 1)])).
Proof. exists 31%nat, 28%nat, 25%nat. by vm_compute. Qed.

Example query_on_tree_store :
  LCA.new 10 [[1; 2]; [0; 3]; [0]; [1]] 0 =
    Some (Ret (LCA.mk 4 2 [[0; 0; 0; 1]; [0; 0; 0; 0]] [0; 1; 1; 2]
                 [[1; 2]; [0; 3]; [0]; [1]])) /\
  (Mem.query (Mem.VRef 8) 3 2 tree_store).1 = Some (Ret (Mem.VNum (Fin 0))) /\
  (Mem.query (Mem.VRef 8) 2 3 tree_store).1 = Some (Ret (Mem.VNum (Fin 0))) /\
  (Mem.query (Mem.VRef 8) 1 3 tree_store).1 = Some (Ret (Mem.VNum (Fin 1))) /\
  (Mem.query (Mem.VRef 8) 7 7 tree_store).1 = Some (Ret (Mem.VNum (Fin 7))).
Proof. by vm_compute. Qed.
(** ** One run after another *)

(** *** Lists under a map *)

Lemma aget_fmap {A B} (f : A -> B) (l : list A) (i : Z) :
  aget (f <$> l) i = f <$> aget l i.
Proof. unfold aget. case_decide; [apply list_lookup_fmap|done]. Qed.

Lemma aset_fmap {A B} (f : A -> B) (l : list A) (i : Z) (x : A) :
  aset (f <$> l) i (f x) = f <$> aset l i x.
Proof. unfold aset. case_decide; [by rewrite list_fmap_insert|done]. Qed.

Lemma removelast_fmap {A B} (f : A -> B) (l : list A) :
  removelast (f <$> l) = f <$> removelast l.
Proof.
  induction l as [|x [|y l] IH]; [done..|].
  change (f x :: removelast (f <$> y :: l) = f x :: (f <$> removelast (y :: l))).
  by rewrite IH.
Qed.

(** *** Shifted values *)

Section shift.
Variables n k : nat.

Local Abbreviation ρ := (ren_value n k).

Lemma ren_ref_inj r1 r2 : ren_ref n k r1 = ren_ref n k r2 -> r1 = r2.
Proof. unfold ren_ref. intros H. repeat case_decide; lia. Qed.

Lemma ren_value_inj v1 v2 : ρ v1 = ρ v2 -> v1 = v2.
Proof.
  destruct v1, v2; cbn; intros H; try done.
  f_equal. apply ren_ref_inj. by injection H.
Qed.

Lemma ren_ref_new r : (n <= r)%nat -> ren_ref n k r = (r + k)%nat.
Proof. intros Hr. unfold ren_ref. case_decide; lia. Qed.

Lemma ren_ref_old r : (r < n)%nat -> ren_ref n k r = r.
Proof. intros Hr. unfold ren_ref. case_decide; lia. Qed.

Lemma map_get_ren (m : jsmap Mem.value) (key : string) :
  map_get (ren_props n k m) key = ρ <$> map_get m key.
Proof.
  induction m as [|[k' v] m IH]; cbn; [done|].
  by destruct (String.eqb k' key).
Qed.

Lemma map_set_ren (m : jsmap Mem.value) (key : string) (x : Mem.value) :
  map_set (ren_props n k m) key (ρ x) = ren_props n k (map_set m key x).
Proof.
  induction m as [|[k' v] m IH]; cbn; [done|].
  destruct (String.eqb k' key); cbn; [done|]. f_equal. exact IH.
Qed.

Lemma map_delete_ren (m : jsmap Mem.value) (key : string) :
  map_delete (ren_props n k m) key = ren_props n k (map_delete m key).
Proof.
  induction m as [|[k' v] m IH]; cbn; [done|].
  destruct (String.eqb k' key); cbn; [done|]. f_equal. exact IH.
Qed.

Lemma elems_ren o : Mem.elems (ren_object n k o) = ρ <$> Mem.elems o.
Proof. by destruct o. Qed.

Lemma props_ren o : Mem.props (ren_object n k o) = ren_props n k (Mem.props o).
Proof. by destruct o. Qed.

Lemma entries_ren o :
  Mem.entries (ren_object n k o) = ren_props n k (Mem.entries o).
Proof. by destruct o. Qed.

Lemma read_index_ren o z :
  Mem.read_index (ren_object n k o) z = ρ (Mem.read_index o z).
Proof.
  unfold Mem.read_index. rewrite elems_ren, props_ren, aget_fmap, map_get_ren.
  destruct (aget (Mem.elems o) z); [done|]. by destruct (map_get _ _).
Qed.

Lemma read_prop_ren o key :
  Mem.read_prop (ren_object n k o) key = ρ (Mem.read_prop o key).
Proof.
  unfold Mem.read_prop. rewrite props_ren, map_get_ren.
  by destruct (map_get _ _).
Qed.

Lemma write_index_ren o z x :
  Mem.write_index (ren_object n k o) z (ρ x)
  = ren_object n k (Mem.write_index o z x).
Proof.
  destruct o as [es ps|ps|m]; [| |done]; cbn [ren_object Mem.write_index].
  - rewrite length_fmap. destruct (_ && _).
    + cbn. by rewrite aset_fmap.
    + destruct (_ && _); cbn.
      * by rewrite !fmap_app, fmap_replicate.
      * by rewrite map_set_ren.
  - by rewrite map_set_ren.
Qed.

Lemma v_lt_ren a b : Mem.v_lt (ρ a) (ρ b) = Mem.v_lt a b.
Proof. by destruct a, b. Qed.

Lemma v_le_ren a b : Mem.v_le (ρ a) (ρ b) = Mem.v_le a b.
Proof. by destruct a, b. Qed.

Lemma v_eq_ren a b : Mem.v_eq (ρ a) (ρ b) = Mem.v_eq a b.
Proof.
  destruct a, b; try done. cbn. apply bool_decide_ext. split.
  - intros [= H]. by apply ren_ref_inj in H as ->.
  - by intros [= ->].
Qed.

Lemma ren_plain v : plain v -> ρ v = v.
Proof. by destruct v. Qed.

Lemma ren_props_plain (m : jsmap Mem.value) :
  Forall (fun kv => plain kv.2) m -> ren_props n k m = m.
Proof.
  induction 1 as [|[k' v] m Hv _ IH]; cbn; [done|].
  unfold ren_props in IH. rewrite IH. by rewrite (ren_plain v).
Qed.

Lemma ren_elems_plain (es : list Mem.value) :
  Forall plain es -> ρ <$> es = es.
Proof.
  induction 1 as [|v es Hv _ IH]; cbn; [done|].
  by rewrite IH, (ren_plain v).
Qed.

(** *** Shifted stores *)

Local Abbreviation alike := (alike n k).
Local Abbreviation shifted := (shifted n k).

Lemma shifted_alloc s s' o :
  shifted s s' -> shifted (s ++ [o]) (s' ++ [ren_object n k o]).
Proof.
  intros (Hlen & Hn & Hs). split; [rewrite !length_app; cbn; lia|].
  split; [rewrite length_app; lia|]. intros r.
  destruct (decide (r < length s)%nat) as [Hr|Hr].
  - rewrite (lookup_app_l s) by done. rewrite lookup_app_l; [apply Hs|].
    rewrite Hlen. unfold ren_ref. case_decide; lia.
  - rewrite ren_ref_new by lia.
    rewrite (lookup_app_r s), lookup_app_r by lia.
    replace (r + k - length s')%nat with (r - length s)%nat by lia.
    by destruct (r - length s)%nat.
Qed.

Lemma shifted_put s s' r o :
  shifted s s' ->
  shifted (<[r := o]> s) (<[ren_ref n k r := ren_object n k o]> s').
Proof.
  intros (Hlen & Hn & Hs). split; [by rewrite !length_insert|].
  split; [by rewrite length_insert|]. intros r0.
  destruct (decide (r0 = r)) as [->|Hne].
  - destruct (decide (r < length s)%nat) as [Hr|Hr].
    + rewrite !list_lookup_insert_eq; [done|done|].
      rewrite Hlen. unfold ren_ref. case_decide; lia.
    + rewrite !list_insert_ge; [apply Hs|lia|].
      rewrite ren_ref_new by lia. lia.
  - rewrite !list_lookup_insert_ne; [apply Hs|done|].
    intros H. by apply ren_ref_inj in H.
Qed.

(** *** The steps of a run *)

Lemma alike_ret {A} (f : A -> A) (a a' : A) :
  a' = f a -> alike f (Mem.ret a) (Mem.ret a').
Proof. by intros -> s s' Hs. Qed.

Lemma alike_throw {A} (f : A -> A) : alike f Mem.throw Mem.throw.
Proof. by intros s s' Hs. Qed.

Lemma alike_stuck {A} (f : A -> A) : alike f Mem.stuck Mem.stuck.
Proof. by intros s s' Hs. Qed.

Lemma alike_bind {A B} (fA : A -> A) (fB : B -> B)
    (m m' : Mem.M A) (g g' : A -> Mem.M B) :
  alike fA m m' -> (forall a, alike fB (g a) (g' (fA a))) ->
  alike fB (Mem.bind m g) (Mem.bind m' g').
Proof.
  intros Hm Hg s s' Hs. destruct (Hm s s' Hs) as [Hs1 Ho].
  unfold Mem.bind.
  destruct (m s) as [[[a|]|] s1], (m' s') as [o' s1']; cbn in *; subst o';
    cbn; [|done..].
  by apply Hg.
Qed.

Lemma alike_alloc o o' :
  o' = ren_object n k o -> alike ρ (Mem.alloc o) (Mem.alloc o').
Proof.
  intros -> s s' Hs. cbn. split; [by apply shifted_alloc|].
  destruct Hs as (Hlen & Hn & _). rewrite ren_ref_new by done.
  by rewrite Hlen.
Qed.

Lemma alike_deref v :
  alike (ren_found n k) (Mem.deref v) (Mem.deref (ρ v)).
Proof.
  intros s s' Hs. destruct v as [| | | | |r]; cbn; try done.
  destruct Hs as (Hlen & Hn & Hr). rewrite Hr.
  by destruct (s !! r).
Qed.

Lemma alike_put r o r' o' :
  r' = ren_ref n k r -> o' = ren_object n k o ->
  alike id (Mem.put r o) (Mem.put r' o').
Proof. intros -> -> s s' Hs. cbn. split; [by apply shifted_put|done]. Qed.
End shift.

(** *** The operations and the programs *)

Section shifted_runs.
Variables n k : nat.

Local Abbreviation ρ := (ren_value n k).
Local Abbreviation alike := (alike n k).

Local Ltac step lem := eapply alike_bind; [eapply lem|]; intros ?.
Local Ltac open_object :=
  eapply alike_bind; [apply alike_deref|]; intros [? ?];
  cbn [ren_found fst snd].
Local Ltac finish :=
  first [ apply alike_stuck | apply alike_throw
        | apply alike_ret; solve [done | auto] ].

Lemma alike_get a i : alike ρ (Mem.get a i) (Mem.get (ρ a) (ρ i)).
Proof.
  unfold Mem.get. open_object.
  destruct i as [[z|]| | | | |]; cbn [ren_value]; try finish.
  - destruct (_ <=? _); [|finish]. apply alike_ret. apply read_index_ren.
  - apply alike_ret. apply read_prop_ren.
Qed.

Lemma alike_prop a key : alike ρ (Mem.prop a key) (Mem.prop (ρ a) key).
Proof.
  unfold Mem.prop. open_object. apply alike_ret. apply read_prop_ren.
Qed.

Lemma alike_set a i x :
  alike id (Mem.set a i x) (Mem.set (ρ a) (ρ i) (ρ x)).
Proof.
  unfold Mem.set. open_object.
  destruct i as [[z|]| | | | |], o as [es ps|ps|m];
    cbn [ren_value ren_object]; try finish.
  - destruct (_ <=? _); [|finish].
    apply alike_put; [done|]. apply (write_index_ren n k (Mem.Arr es ps)).
  - destruct (_ <=? _); [|finish].
    apply alike_put; [done|]. apply (write_index_ren n k (Mem.Obj ps)).
Qed.

Lemma alike_length_of a : alike id (Mem.length_of a) (Mem.length_of (ρ a)).
Proof.
  unfold Mem.length_of. open_object.
  destruct o as [es ps|ps|m]; cbn [ren_object]; try finish.
  apply alike_ret. by rewrite length_fmap.
Qed.

Lemma alike_pair_of e :
  alike (prod_map ρ ρ) (Mem.pair_of e) (Mem.pair_of (ρ e)).
Proof.
  unfold Mem.pair_of. open_object.
  destruct o as [es ps|ps|m]; cbn [ren_object]; try finish.
  apply alike_ret. unfold prod_map. cbn [fst snd]. f_equal.
  - rewrite <- (map_nth ρ). done.
  - rewrite <- (map_nth ρ). done.
Qed.

(** A loop over an array, with bodies that are alike. *)
Lemma alike_for_of fuel a body body' :
  (forall e, alike id (body e) (body' (ρ e))) ->
  forall i, alike id (Mem.for_of fuel a i body) (Mem.for_of fuel (ρ a) i body').
Proof.
  intros Hbody. induction fuel as [|fuel IH]; intros i; cbn [Mem.for_of];
    [finish|].
  step alike_length_of. cbn [id]. destruct (i <? _); [|finish].
  step alike_get. eapply alike_bind; [apply Hbody|]. intros _. apply IH.
Qed.

Lemma alike_array_push a x :
  alike id (Mem.array_push a x) (Mem.array_push (ρ a) (ρ x)).
Proof.
  unfold Mem.array_push. open_object.
  destruct o as [es ps|ps|m]; cbn [ren_object]; [|finish..].
  apply alike_put; [done|]. cbn. by rewrite fmap_app.
Qed.

Lemma alike_array_pop a : alike ρ (Mem.array_pop a) (Mem.array_pop (ρ a)).
Proof.
  unfold Mem.array_pop. open_object.
  destruct o as [es ps|ps|m]; cbn [ren_object]; [|finish..].
  rewrite fmap_last. destruct (list.last es) as [x|]; cbn [fmap option_fmap option_map]; [|finish].
  eapply alike_bind; [apply alike_put; [done|]|intros ?; finish].
  cbn. by rewrite removelast_fmap.
Qed.

Lemma alike_v_add a b : alike ρ (Mem.v_add a b) (Mem.v_add (ρ a) (ρ b)).
Proof.
  unfold Mem.v_add.
  destruct a as [[x|]| | | | |], b as [[y|]| | | | |]; cbn [ren_value];
    try finish.
  destruct (double_add x y); finish.
Qed.

(** The queue *)

Lemma alike_key_at a i : alike ρ (Mem.key_at a i) (Mem.key_at (ρ a) i).
Proof.
  unfold Mem.key_at. step alike_get. apply alike_prop.
Qed.

Lemma alike_swap a i j : alike id (Mem.swap a i j) (Mem.swap (ρ a) i j).
Proof.
  unfold Mem.swap.
  step alike_get. step alike_get.
  eapply alike_bind; [by apply alike_alloc|]. intros _.
  eapply alike_bind; [apply alike_set|]. intros _.
  apply alike_set.
Qed.

Lemma alike_size this : alike id (Mem.size this) (Mem.size (ρ this)).
Proof. unfold Mem.size. step alike_prop. apply alike_length_of. Qed.

Lemma alike_sift_up fuel this : forall i,
  alike id (Mem.sift_up fuel this i) (Mem.sift_up fuel (ρ this) i).
Proof.
  induction fuel as [|fuel IH]; intros i; cbn [Mem.sift_up]; [finish|].
  destruct (0 <? i); [|finish].
  step alike_prop. step alike_key_at. step alike_key_at.
  rewrite v_le_ren. destruct (Mem.v_le _ _) as [[|]|]; try finish.
  step alike_swap. apply IH.
Qed.

Lemma alike_push fuel this key val :
  alike id (Mem.push fuel this key val)
    (Mem.push fuel (ρ this) (ρ key) (ρ val)).
Proof.
  unfold Mem.push. step alike_prop.
  eapply alike_bind; [by apply alike_alloc|]. intros e.
  step alike_array_push. step alike_length_of. apply alike_sift_up.
Qed.

Lemma alike_pick d len c smallest :
  alike id (Mem.pick d len c smallest) (Mem.pick (ρ d) len c smallest).
Proof.
  unfold Mem.pick. destruct (c <? len); [|finish].
  step alike_key_at. step alike_key_at.
  rewrite v_lt_ren. destruct (Mem.v_lt _ _) as [[|]|]; finish.
Qed.

Lemma alike_sift_down fuel this : forall i,
  alike id (Mem.sift_down fuel this i) (Mem.sift_down fuel (ρ this) i).
Proof.
  induction fuel as [|fuel IH]; intros i; cbn [Mem.sift_down]; [finish|].
  step alike_prop. step alike_length_of. step alike_pick. step alike_pick.
  cbn [id]. destruct (_ =? _); [finish|].
  step alike_swap. apply IH.
Qed.

Lemma alike_pop fuel this :
  alike ρ (Mem.pop fuel this) (Mem.pop fuel (ρ this)).
Proof.
  unfold Mem.pop. step alike_prop. step alike_length_of.
  cbn [id]. destruct (_ =? _); [finish|].
  step alike_get. step alike_array_pop. step alike_length_of.
  cbn [id]. destruct (0 <? _); [|finish].
  step alike_set. step alike_sift_down. finish.
Qed.

(** [dijkstra] *)

Lemma alike_relax fuel dist pq u e :
  alike id (Mem.relax fuel dist pq u e)
    (Mem.relax fuel (ρ dist) (ρ pq) (ρ u) (ρ e)).
Proof.
  unfold Mem.relax.
  eapply alike_bind; [apply alike_pair_of|]. intros [v w].
  cbn [prod_map fst snd].
  step alike_get. step alike_get.
  step alike_v_add.
  rewrite v_lt_ren. destruct (Mem.v_lt _ _) as [[|]|]; try finish.
  step alike_get. step alike_v_add.
  step alike_set. step alike_get. apply alike_push.
Qed.

Lemma alike_loop fuel adj dist pq :
  alike id (Mem.loop fuel adj dist pq)
    (Mem.loop fuel (ρ adj) (ρ dist) (ρ pq)).
Proof.
  induction fuel as [|fuel IH]; cbn [Mem.loop]; [finish|].
  step alike_size. cbn [id]. destruct (_ =? _); [finish|].
  step alike_pop. step alike_prop. step alike_prop. step alike_get.
  rewrite v_lt_ren. destruct (Mem.v_lt _ _) as [[|]|]; [apply IH| |finish].
  step alike_get.
  eapply alike_bind; [apply alike_for_of; intros e; apply alike_relax|].
  intros _. apply IH.
Qed.

(** [dijkstra] in a shifted store does what it does in the store, shifted. *)
Lemma alike_dijkstra fuel adj src :
  alike ρ (Mem.dijkstra fuel adj src) (Mem.dijkstra fuel (ρ adj) src).
Proof.
  unfold Mem.dijkstra. step alike_length_of. cbn [id].
  eapply alike_bind.
  { apply alike_alloc. cbn. by rewrite fmap_replicate. }
  intros dist. step alike_set.
  eapply alike_bind; [by apply alike_alloc|]. intros data.
  eapply alike_bind; [by apply alike_alloc|]. intros pq.
  step alike_push. step alike_loop. finish.
Qed.
End shifted_runs.

(** *** The store after a run, as a shifted store *)

Lemma closed_value_ren n k v : closed_value n v = true -> ren_value n k v = v.
Proof.
  destruct v as [| | | | |r]; try done. cbn. intros Hr%bool_decide_eq_true.
  by rewrite ren_ref_old.
Qed.

Lemma closed_elems_ren n k (es : list Mem.value) :
  forallb (closed_value n) es = true -> ren_value n k <$> es = es.
Proof.
  induction es as [|v es IH]; cbn; [done|].
  intros [Hv Hes]%andb_true_iff. by rewrite closed_value_ren, IH.
Qed.

Lemma closed_props_ren n k (m : jsmap Mem.value) :
  forallb (fun kv => closed_value n kv.2) m = true -> ren_props n k m = m.
Proof.
  induction m as [|[key v] m IH]; cbn; [done|].
  intros [Hv Hm]%andb_true_iff. unfold ren_props in IH.
  by rewrite closed_value_ren, IH.
Qed.

Lemma closed_object_ren n k o :
  closed_object n o = true -> ren_object n k o = o.
Proof.
  destruct o as [es ps|ps|m]; cbn.
  - intros [Hes Hps]%andb_true_iff.
    by rewrite closed_elems_ren, closed_props_ren.
  - intros Hm. by rewrite closed_props_ren.
  - intros Hm. by rewrite closed_props_ren.
Qed.

(** A store without dangling references, and the same store after a run
    that has kept its objects. *)
Lemma frame_shifted s s1 :
  closed_store s = true -> frame (length s) s s1 ->
  shifted (length s) (length s1 - length s) s s1.
Proof.
  intros Hcl [Hlen Hfr]. split; [lia|]. split; [done|]. intros r.
  destruct (decide (r < length s)%nat) as [Hr|Hr].
  - rewrite ren_ref_old, Hfr by done.
    destruct (s !! r) as [o|] eqn:Ho; [|done]. cbn.
    rewrite closed_object_ren; [done|].
    unfold closed_store in Hcl. rewrite forallb_forall in Hcl.
    apply Hcl. apply list_elem_of_In. by eapply list_elem_of_lookup_2.
  - rewrite ren_ref_new by lia.
    rewrite (lookup_ge_None_2 s) by lia. apply lookup_ge_None_2. lia.
Qed.

Example dijkstra_twice_on_graph_store :
  let first := Mem.dijkstra 10 (Mem.VRef 6) 0 graph_store in
  let second := Mem.dijkstra 10 (Mem.VRef 6) 0 first.2 in
  first.1 = Some (Ret (Mem.VRef 7)) /\
  second.1 = Some (Ret (Mem.VRef 16)) /\
  second.2 !! 7%nat =
    Some (Mem.Arr [Mem.VNum (Fin 0); Mem.VNum (Fin 3); Mem.VNum (Fin 1)] []) /\
  second.2 !! 16%nat =
    Some (Mem.Arr [Mem.VNum (Fin 0); Mem.VNum (Fin 3); Mem.VNum (Fin 1)] []).
Proof. by vm_compute. Qed.

(** ** The priority queue and the distances of [dijkstra] *)

Example heap_scenario :
  (run_ops [OpPush (Fin 5) "a"%string; OpPush (Fin 1) "b"%string;
            OpPush (Fin 3) "c"%string; OpPop; OpPop; OpPop; OpPop] []).1
  = [Some (Entry (Fin 1) "b"%string); Some (Entry (Fin 3) "c"%string);
     Some (Entry (Fin 5) "a"%string); None].
Proof. reflexivity. Qed.

(** C4.  After any sequence of pushes and pops on an empty [MinHeap], a
    [push] adds exactly the pushed entry, and a [pop] either returns [null]
    and the queue holds no entry, or returns an entry of the queue, removes
    exactly that entry, and the key of the returned entry is less than or
    equal to the key of every entry that remains. *)
Theorem minheap_pop_minimum {T : Type} (ops : list (heap_op T)) :
  let h := (run_ops ops []).2 in
  (forall k v, push h k v ≡ₚ Entry k v :: h) /\
  ((pop h).1 = None <-> h = []) /\
  match pop h with
  | (None, h') => h = [] /\ h' = []
  | (Some e, h') =>
      h ≡ₚ e :: h' /\ Forall (fun e' => num_leb (key e) (key e') = true) h'
  end.
Proof.
  intros h.
  assert (Hord : heap_ordered h) by (apply run_ops_ordered; by intros [|?] ? ? ?).
  split_and!.
  - intros k v. apply push_perm.
  - apply pop_nil.
  - destruct (pop h) as [[e|] h'] eqn:Hpop.
    + split; [by apply pop_perm | by apply (pop_min h)].
    + assert (h = []) as Hnil by (apply pop_nil; by rewrite Hpop).
      split; [done|]. rewrite Hnil in Hpop. by injection Hpop as <-.
Qed.

Example dijkstra_scenario :
  dijkstra 10 [[(1,4);(2,1)]; [(2,2);(3,5)]; [(3,1)]; []] 0
  = Some (Ret [Fin 0; Fin 4; Fin 1; Fin 2]).
Proof. reflexivity. Qed.

Example dijkstra_unreachable :
  dijkstra 10 [[(1,4);(2,1)]; [(2,2);(3,5)]; [(3,1)]; []; [(0,1)]] 0
  = Some (Ret [Fin 0; Fin 4; Fin 1; Fin 2; Inf]).
Proof. reflexivity. Qed.

(** The path [0 -> 1 -> 2] with the weights [2 ^ 53] and 1. *)
Lemma long_path_walks v z :
  walk [[(1, 2 ^ 53)]; [(2, 1)]; []] 0 v z ->
  (v = 0 /\ z = 0) \/ (v = 1 /\ z = 2 ^ 53) \/ (v = 2 /\ z = 2 ^ 53 + 1).
Proof.
  induction 1 as [|v t w len _ IH (es & Hes & Hin)]; [by left|].
  apply aget_Some in Hes as [Hv Hes].
  destruct IH as [[-> ->]|[[-> ->]|[-> ->]]]; vm_compute in Hes; simplify_eq.
  - apply list_elem_of_singleton in Hin. simplify_eq. right. by left.
  - apply list_elem_of_singleton in Hin. simplify_eq. right. by right.
  - by apply elem_of_nil in Hin.
Qed.

(** C1 as stated fails: the code adds the distances as doubles, and a sum
    above [2 ^ 53] is rounded.  On the path [0 -> 1 -> 2] with the weights
    [2 ^ 53] and 1 the distance of node 2 is [2 ^ 53 + 1], and [dijkstra]
    returns [2 ^ 53] for it. *)
Lemma dijkstra_rounds_distance :
  nonneg_weights [[(1, 2 ^ 53)]; [(2, 1)]; []] /\
  0 <= 0 < Z.of_nat (length [[(1, 2 ^ 53)]; [(2, 1)]; []]) /\
  dijkstra 4 [[(1, 2 ^ 53)]; [(2, 1)]; []] 0
  = Some (Ret [Fin 0; Fin (2 ^ 53); Fin (2 ^ 53)]) /\
  shortest_dist [[(1, 2 ^ 53)]; [(2, 1)]; []] 0 2 (Fin (2 ^ 53 + 1)) /\
  ~ shortest_dist [[(1, 2 ^ 53)]; [(2, 1)]; []] 0 2 (Fin (2 ^ 53)).
Proof.
  split; [|split; [|split; [|split]]].
  - repeat constructor; simpl; lia.
  - simpl; lia.
  - by vm_compute.
  - split.
    + change (2 ^ 53 + 1) with (0 + 2 ^ 53 + 1).
      apply walk_step with (v := 1); [apply walk_step with (v := 0)|].
      * constructor.
      * exists [(1, 2 ^ 53)]. split; [done|]. by left.
      * exists [(2, 1)]. split; [done|]. by left.
    + intros z' Hw. apply long_path_walks in Hw. lia.
  - intros [Hw _]. apply long_path_walks in Hw. lia.
Qed.

(** In the graph with the edges [0 -> 1] (4), [0 -> 2] (1) and [2 -> 1]
    (2), every walk from node 0 is short. *)
Lemma small_graph_walks v z :
  walk [[(1, 4); (2, 1)]; []; [(1, 2)]] 0 v z ->
  (v = 0 /\ z = 0) \/ (v = 1 /\ (z = 4 \/ z = 3)) \/ (v = 2 /\ z = 1).
Proof.
  induction 1 as [|v t w len _ IH (es & Hes & Hin)]; [by left|].
  apply aget_Some in Hes as [Hv Hes].
  destruct IH as [[-> ->]|[[-> _]|[-> ->]]]; vm_compute in Hes; simplify_eq.
  - apply elem_of_cons in Hin as [Hin|Hin%list_elem_of_singleton]; simplify_eq.
    + right. left. split; [done|]. by left.
    + right. by right.
  - by apply elem_of_nil in Hin.
  - apply list_elem_of_singleton in Hin. simplify_eq.
    right. left. split; [done|]. by right.
Qed.

(** C1, amended.  For a graph with non-negative integer weights whose
    shortest-path distances from [src] are at most [2 ^ 53], and a source in
    range, [dijkstra(adj, src)] returns (with any sufficient fuel) a table
    [dist] with one entry per node in which [dist[src]] is 0 and the entry
    of each node [v] is the shortest-path distance from [src] to [v]: the
    length of a shortest walk, and [Infinity] exactly when no walk reaches
    [v]. *)
Theorem dijkstra_shortest_paths (adj : graph) (src : Z) :
  nonneg_weights adj ->
  0 <= src < Z.of_nat (length adj) ->
  short_distances adj src ->
  exists dist,
    (exists f0, forall f, (f0 <= f)%nat -> dijkstra f adj src = Some (Ret dist)) /\
    length dist = length adj /\
    aget dist src = Some (Fin 0) /\
    (forall v, 0 <= v < Z.of_nat (length adj) ->
       exists d, aget dist v = Some d /\ shortest_dist adj src v d) /\
    (forall v, 0 <= v < Z.of_nat (length adj) ->
       (forall z, ~ walk adj src v z) -> aget dist v = Some Inf).
Proof.
  intros Hnonneg Hsrc Hshort.
  destruct (dijkstra_loop_ends adj src Hnonneg (dijkstra_init adj src))
    as (f0 & st & Hrun & Hinv & Hnil).
  { by apply dijkstra_init_inv. }
  exists (ds_dist st). split_and!.
  - exists f0. intros f Hf. unfold dijkstra, dijkstra_run. by rewrite Hrun.
  - apply (di_len _ _ _ Hinv).
  - apply (di_src _ _ _ Hinv).
  - intros v Hv. by apply dijkstra_final_shortest.
  - intros v Hv Hno.
    destruct (dijkstra_final_shortest adj src Hnonneg st v Hshort Hinv Hnil Hv)
      as (d & Hd & Hsh).
    destruct d as [z|]; [|done]. destruct Hsh as [Hw _]. by apply Hno in Hw.
Qed.

Lemma dijkstra_shortest_paths_witness :
  exists dist,
    (exists f0, forall f, (f0 <= f)%nat ->
       dijkstra f [[(1, 4); (2, 1)]; []; [(1, 2)]] 0 = Some (Ret dist)) /\
    length dist = 3%nat /\
    aget dist 0 = Some (Fin 0) /\
    (forall v, 0 <= v < 3 ->
       exists d, aget dist v = Some d /\
         shortest_dist [[(1, 4); (2, 1)]; []; [(1, 2)]] 0 v d) /\
    (forall v, 0 <= v < 3 ->
       (forall z, ~ walk [[(1, 4); (2, 1)]; []; [(1, 2)]] 0 v z) ->
       aget dist v = Some Inf).
Proof.
  apply (dijkstra_shortest_paths [[(1, 4); (2, 1)]; []; [(1, 2)]] 0).
  - repeat constructor; simpl; lia.
  - simpl; lia.
  - intros v z Hw. exists z. split; [done|].
    apply small_graph_walks in Hw. lia.
Defined.

(** ** The paths of [astarGrid] *)

Example astar_scenario :
  astarGrid 30 (0, 0) (3, 3) [[0;0;0;0]; [0;1;1;0]; [0;1;1;0]; [0;0;0;0]]
  = Some (Ret (Some [(0,0); (1,0); (2,0); (3,0); (3,1); (3,2); (3,3)])).
Proof. vm_compute. reflexivity. Qed.

Example astar_no_path :
  astarGrid 30 (0, 0) (1, 1) [[0;1]; [1;0]] = Some (Ret None).
Proof. vm_compute. reflexivity. Qed.

(** C2.  On a rectangular grid with a free start cell (and any goal),
    [astarGrid(start, goal, grid)] returns with any sufficient fuel.  If a
    path of cardinal unit steps through free cells leads from [start] to
    [goal], the result is such a path, listed from [start] to [goal], and no
    path from [start] to [goal] has fewer cells; if there is no path, the
    result is [null]. *)
Theorem astar_shortest_path (grid : list (list Z)) (start goal : Z * Z) :
  rectangular grid ->
  free_cell grid start ->
  exists r,
    (exists f0, forall f, (f0 <= f)%nat ->
       astarGrid f start goal grid = Some (Ret r)) /\
    ((exists p', grid_path grid start goal p') ->
     exists p, r = Some p /\ grid_path grid start goal p /\
       forall p', grid_path grid start goal p' -> (length p <= length p')%nat) /\
    ((forall p', ~ grid_path grid start goal p') -> r = None).
Proof.
  intros Hrect Hfree.
  assert (exists row0, grid !! 0%nat = Some row0) as [row0 Hrow0].
  { destruct Hfree as (row & _ & Hrow & _). apply aget_lt in Hrow.
    apply lookup_lt_is_Some. lia. }
  destruct (astar_loop_ends grid start goal row0 Hrow0 Hrect
              (astar_init start goal grid)) as (f0 & r & st' & Hrun & _ & Hok).
  { apply astar_init_inv. }
  assert (Hpath : forall p', grid_path grid start goal p' <->
            exists q', p' = start :: q' /\ steps grid start q' /\
              list.last (start :: q') = Some goal).
  { intros p'. unfold grid_path. split.
    - intros (q' & -> & _ & ? & ?). by exists q'.
    - intros (q' & -> & ? & ?). by exists q'. }
  exists r. split_and!.
  - exists f0. intros f Hf. unfold astarGrid, astar_run.
    unfold aget. rewrite decide_True by lia. change (Z.to_nat 0) with 0%nat.
    rewrite Hrow0. by rewrite Hrun.
  - intros [p' (q' & -> & Hs' & Hl')%Hpath]. destruct r as [p|].
    + exists p. destruct Hok as [(q & -> & Hs & Hl) Hmin]. split_and!; [done | |].
      * apply Hpath. by exists q.
      * intros p2 (q2 & -> & Hs2 & Hl2)%Hpath. by apply Hmin.
    + exfalso. by apply (Hok q').
  - intros Hno. destruct r as [p|]; [|done]. exfalso.
    destruct Hok as [(q & -> & Hs & Hl) _]. apply (Hno (start :: q)).
    apply Hpath. by exists q.
Qed.

Lemma astar_shortest_path_witness :
  exists r,
    (exists f0, forall f, (f0 <= f)%nat ->
       astarGrid f (0, 0) (1, 1) [[0; 0]; [1; 0]] = Some (Ret r)) /\
    ((exists p', grid_path [[0; 0]; [1; 0]] (0, 0) (1, 1) p') ->
     exists p, r = Some p /\ grid_path [[0; 0]; [1; 0]] (0, 0) (1, 1) p /\
       forall p', grid_path [[0; 0]; [1; 0]] (0, 0) (1, 1) p' ->
         (length p <= length p')%nat) /\
    ((forall p', ~ grid_path [[0; 0]; [1; 0]] (0, 0) (1, 1) p') -> r = None).
Proof.
  apply (astar_shortest_path [[0; 0]; [1; 0]] (0, 0) (1, 1)).
  - intros row0 [= <-]. repeat constructor.
  - exists [0; 0], 0. split; [reflexivity|]. split; [reflexivity | lia].
Defined.

(** C10.  For a grid and a coordinate [s] inside it, [astarGrid(s, s, grid)]
    returns the single-cell path [[s]], whatever the value of the cell [s]
    (blocked or not): the goal test comes before any expansion, and the
    value of the start cell is never read. *)
Theorem astar_start_is_goal (grid : list (list Z)) (s : Z * Z) (f : nat) :
  0 <= s.1 < Z.of_nat (length grid) ->
  0 <= s.2 < Z.of_nat (length (default [] (grid !! 0%nat))) ->
  (3 <= f)%nat ->
  astarGrid f s s grid = Some (Ret (Some [s])).
Proof.
  intros Hx Hy Hf.
  destruct (lookup_lt_is_Some_2 grid 0%nat) as [row0 Hrow0]; [lia|].
  destruct f as [|[|[|f]]]; try lia.
  unfold astarGrid, astar_run, aget. rewrite decide_True by lia.
  change (Z.to_nat 0) with 0%nat. rewrite Hrow0.
  unfold astar_init. change (node_key s.1 s.2) with (ckey s).
  cbn [astar_loop as_open as_grid as_gScore as_parent map_set length Nat.eqb
       scan_min num_ltb map_delete].
  rewrite decide_False by apply node_key_nonempty.
  rewrite parse_ckey. destruct s as [x y]. cbn [fst snd].
  rewrite !Z.eqb_refl. cbn [andb reconstruct].
  rewrite decide_False by apply node_key_nonempty.
  rewrite (parse_ckey (x, y)). cbn [map_get]. rewrite String.eqb_refl.
  reflexivity.
Qed.

Lemma astar_start_is_goal_witness :
  astarGrid 3 (0, 0) (0, 0) [[1]] = Some (Ret (Some [(0, 0)])).
Proof.
  apply (astar_start_is_goal [[1]] (0, 0) 3); simpl; lia.
Defined.

(** ** The [LCA] tables and queries *)

(** The complete binary tree on 7 nodes rooted at 0. *)
Example lca_scenario :
  exists o,
    LCA.new 8 [[1;2]; [0;3;4]; [0;5;6]; [1]; [1]; [2]; [2]] 0 = Some (Ret o) /\
    LCA.query o 3 4 = Ret (Some 1) /\ LCA.query o 3 6 = Ret (Some 0) /\
    LCA.query o 5 2 = Ret (Some 2).
Proof. eexists. split; [vm_compute; reflexivity|]. by vm_compute. Qed.

(** A tree of three nodes: 0 is the root, 1 and 2 are its children. *)
Lemma small_tree_valid :
  rooted_tree small_tree 0 small_par small_dep.
Proof.
  assert (Hr : forall v, in_range small_tree v = true ->
            v = 0 \/ v = 1 \/ v = 2).
  { intros v. unfold in_range. cbn. rewrite andb_true_iff, Z.leb_le, Z.ltb_lt. lia. }
  split.
  - intros v Hv%Hr. cbn. lia.
  - done.
  - done.
  - done.
  - intros v Hv%Hr Hne. split; [done|]. unfold small_dep, small_par.
    rewrite decide_False by done. done.
  - intros u vs v Hu%Hr Hvs Hin.
    destruct Hu as [->|[->| ->]]; vm_compute in Hvs; simplify_eq.
    + right. repeat (apply elem_of_cons in Hin as [->|Hin]); try done.
      by apply elem_of_nil in Hin.
    + left. apply list_elem_of_singleton in Hin. done.
    + left. apply list_elem_of_singleton in Hin. done.
  - intros v Hv%Hr Hne. exists [1; 2]. split; [done|].
    destruct Hv as [->|[->| ->]]; [done | by left | by right; left].
Qed.

(** C3.  On a valid rooted tree (of fewer than 2^32 nodes, as every
    JavaScript array), for node ids [u], [v] in range, [query(u, v)]
    returns a lowest common ancestor: an ancestor of [u] and of [v] of
    which no proper descendant is an ancestor of both; and [query(u, u)]
    returns [u]. *)
Theorem lca_query_correct (adj : list (list Z)) (root : Z)
    (par : Z -> Z) (dep : Z -> nat) (u v : Z) :
  rooted_tree adj root par dep ->
  Z.of_nat (length adj) < 2 ^ 32 ->
  0 <= u < Z.of_nat (length adj) ->
  0 <= v < Z.of_nat (length adj) ->
  exists o,
    (forall f, (S (length adj) <= f)%nat -> LCA.new f adj root = Some (Ret o)) /\
    (exists a, LCA.query o u v = Ret (Some a) /\
       lowest_common_ancestor par u v a) /\
    LCA.query o u u = Ret (Some u).
Proof.
  intros Htree Hsmall Hu Hv.
  destruct (new_spec adj root _ par dep Htree) as (o & Hnew & Hshape & Hrows & Hdepth).
  exists o. split_and!.
  - intros f Hf. by apply (new_mono _ _ _ _ _ Hnew).
  - assert (HSu : in_range adj u = true).
    { unfold in_range. rewrite andb_true_iff, Z.leb_le, Z.ltb_lt. lia. }
    assert (HSv : in_range adj v = true).
    { unfold in_range. rewrite andb_true_iff, Z.leb_le, Z.ltb_lt. lia. }
    unfold LCA.query. rewrite (Hdepth u Hu), (Hdepth v Hv), HSu, HSv. cbn [js_lt js_sub].
    destruct (Z.of_nat (dep u) <? Z.of_nat (dep v)) eqn:Hlt.
    + apply Z.ltb_lt in Hlt.
      rewrite (Hdepth u Hu), (Hdepth v Hv), HSu, HSv. cbn [js_sub].
      destruct (query_ordered adj root _ par dep Htree o Hshape Hrows Hsmall v u)
        as (a & Hq & Hlca & _); [done | done | lia |].
      exists a. split; [done|]. by apply lowest_common_ancestor_sym.
    + apply Z.ltb_ge in Hlt.
      rewrite (Hdepth u Hu), (Hdepth v Hv), HSu, HSv. cbn [js_sub].
      destruct (query_ordered adj root _ par dep Htree o Hshape Hrows Hsmall u v)
        as (a & Hq & Hlca & _); [done | done | lia |].
      by exists a.
  - apply query_same.
Qed.

Lemma lca_query_correct_witness :
  exists o,
    (forall f, (4 <= f)%nat -> LCA.new f small_tree 0 = Some (Ret o)) /\
    (exists a, LCA.query o 1 2 = Ret (Some a) /\
       lowest_common_ancestor small_par 1 2 a) /\
    LCA.query o 1 1 = Ret (Some 1).
Proof.
  apply (lca_query_correct small_tree 0 small_par
           small_dep 1 2).
  - apply small_tree_valid.
  - simpl. lia.
  - simpl. lia.
  - simpl. lia.
Defined.

(** C7 as stated fails at the root: the root has no ancestor, yet its entry
    at level 0 is the root itself, not the sentinel -1. *)
Lemma lca_up_root_not_sentinel :
  rooted_tree small_tree 0 small_par small_dep /\
  (small_dep 0 < 2 ^ 0)%nat /\
  exists o, LCA.new 4 small_tree 0 = Some (Ret o) /\
    LCA.up_get o 0 (Some 0) = Ret (Some 0) /\
    LCA.up_get o 0 (Some 0) <> Ret (Some (-1)).
Proof.
  split; [apply small_tree_valid|]. split; [vm_compute; lia|].
  eexists. split; [vm_compute; reflexivity|]. by vm_compute.
Qed.

(** C7, amended.  After construction on a valid rooted tree, for every
    level [k < LOG] and node [v], [up[k][v]] is the node reached from [v] by
    [2^k] parent steps, the root being its own parent: the ancestor exactly
    [2^k] steps above [v] when [v] is at depth [2^k] or more, and the root
    (never the sentinel -1) when [v] has fewer than [2^k] ancestors; and
    [depth[v]] is the depth of [v]. *)
Theorem lca_up_table (adj : list (list Z)) (root : Z)
    (par : Z -> Z) (dep : Z -> nat) :
  rooted_tree adj root par dep ->
  exists o,
    (forall f, (S (length adj) <= f)%nat -> LCA.new f adj root = Some (Ret o)) /\
    forall v, 0 <= v < Z.of_nat (length adj) ->
      aget (LCA.depth o) v = Some (Z.of_nat (dep v)) /\
      forall k, 0 <= k < LCA.LOG o ->
        let a := Nat.iter (2 ^ Z.to_nat k) par v in
        LCA.up_get o k (Some v) = Ret (Some a) /\
        a <> -1 /\
        ((2 ^ Z.to_nat k <= dep v)%nat ->
           ancestor par a v /\ dep a = (dep v - 2 ^ Z.to_nat k)%nat) /\
        ((dep v < 2 ^ Z.to_nat k)%nat -> a = root).
Proof.
  intros Htree.
  destruct (new_spec adj root _ par dep Htree) as (o & Hnew & Hshape & Hrows & Hdepth).
  exists o. split.
  { intros f Hf. by apply (new_mono _ _ _ _ _ Hnew). }
  intros v Hv.
  assert (HSv : in_range adj v = true).
  { unfold in_range. rewrite andb_true_iff, Z.leb_le, Z.ltb_lt. lia. }
  split.
  { rewrite (Hdepth v Hv). by rewrite HSv. }
  intros k Hk a.
  assert (HSa : in_range adj a = true) by (by apply (S_iter adj root _ par dep Htree)).
  split_and!.
  - rewrite (Hrows k v Hk Hv). unfold up_spec. by rewrite HSv.
  - pose proof (rt_range _ _ _ _ _ Htree a HSa). lia.
  - intros Hle. split; [by eexists|].
    unfold a. by rewrite (dep_iter adj root _ par dep Htree).
  - intros Hlt. apply (iter_above adj root _ par dep Htree); [done | lia].
Qed.

Lemma lca_up_table_witness :
  exists o,
    (forall f, (4 <= f)%nat -> LCA.new f small_tree 0 = Some (Ret o)) /\
    forall v, 0 <= v < 3 ->
      aget (LCA.depth o) v = Some (Z.of_nat (small_dep v)) /\
      forall k, 0 <= k < LCA.LOG o ->
        let a := Nat.iter (2 ^ Z.to_nat k) small_par v in
        LCA.up_get o k (Some v) = Ret (Some a) /\
        a <> -1 /\
        ((2 ^ Z.to_nat k <= small_dep v)%nat ->
           ancestor small_par a v /\ small_dep a = (small_dep v - 2 ^ Z.to_nat k)%nat) /\
        ((small_dep v < 2 ^ Z.to_nat k)%nat -> a = 0).
Proof.
  apply (lca_up_table small_tree 0 small_par small_dep).
  apply small_tree_valid.
Defined.

(** Two nodes and no edge: node 0 alone is a tree, node 1 is outside it. *)
Lemma forest_tree_on :
  rooted_tree_on two_isolated 0 (fun v => v =? 0) (fun _ => 0) (fun _ => O).
Proof.
  split.
  - intros v Hv%Z.eqb_eq. subst. cbn. lia.
  - done.
  - done.
  - done.
  - intros v Hv%Z.eqb_eq Hne. done.
  - intros u vs v Hu%Z.eqb_eq Hvs Hin. subst. vm_compute in Hvs. simplify_eq.
    by apply elem_of_nil in Hin.
  - intros v Hv%Z.eqb_eq Hne. done.
Qed.

(** C5 as stated fails: on an input that is not a rooted tree (node 1
    cannot be reached from the root), construction completes. *)
Lemma lca_new_accepts_forest :
  LCA.new 2 two_isolated 0
    = Some (Ret (LCA.mk 2 1 [[0; -1]] [0; 0] two_isolated)) /\
  ~ exists par dep, rooted_tree two_isolated 0 par dep.
Proof.
  split; [vm_compute; reflexivity|]. intros (par & dep & Htree).
  assert (H1 : in_range two_isolated 1 = true) by done.
  destruct (rt_child _ _ _ _ _ Htree 1 H1) as (vs & Hvs & Hin); [done|].
  destruct (decide (1 = 0)) as [|Hne]; [done|].
  destruct (rt_par _ _ _ _ _ Htree 1 H1 Hne) as [Hp _].
  unfold in_range in Hp. cbn in Hp. rewrite andb_true_iff, Z.leb_le, Z.ltb_lt in Hp.
  assert (par 1 = 0 \/ par 1 = 1) as [Heq|Heq] by lia;
    rewrite Heq in Hvs; vm_compute in Hvs; simplify_eq; by apply elem_of_nil in Hin.
Qed.

(** C5, amended.  The construction does not validate its input.  When the
    nodes that can be reached from the root form a tree (the list of each
    holds only its children and possibly its parent), construction
    completes without an error, whether or not [adj] has other nodes; a node
    that cannot be reached from the root is left with [depth[v] = 0] and
    [up[k][v] = -1] at every level. *)
Theorem lca_new_no_validation (adj : list (list Z)) (root : Z) (S : Z -> bool)
    (par : Z -> Z) (dep : Z -> nat) :
  rooted_tree_on adj root S par dep ->
  exists o,
    (forall f, (Datatypes.S (length adj) <= f)%nat ->
       LCA.new f adj root = Some (Ret o)) /\
    (forall v, S v = true <-> reachable adj root v) /\
    forall v, 0 <= v < Z.of_nat (length adj) -> ~ reachable adj root v ->
      aget (LCA.depth o) v = Some 0 /\
      forall k, 0 <= k < LCA.LOG o -> LCA.up_get o k (Some v) = Ret (Some (-1)).
Proof.
  intros Htree.
  destruct (new_spec adj root S par dep Htree) as (o & Hnew & Hshape & Hrows & Hdepth).
  exists o. split_and!.
  - intros f Hf. by apply (new_mono _ _ _ _ _ Hnew).
  - intros v. by apply tree_reachable with par dep.
  - intros v Hv Hnr.
    assert (HSv : S v = false).
    { destruct (S v) eqn:E; [|done]. exfalso. apply Hnr.
      by apply (tree_reachable adj root S par dep v Htree). }
    split.
    + rewrite (Hdepth v Hv). by rewrite HSv.
    + intros k Hk. rewrite (Hrows k v Hk Hv). unfold up_spec. by rewrite HSv.
Qed.

Lemma lca_new_no_validation_witness :
  exists o,
    (forall f, (3 <= f)%nat -> LCA.new f two_isolated 0 = Some (Ret o)) /\
    (forall v, (v =? 0) = true <-> reachable two_isolated 0 v) /\
    forall v, 0 <= v < 2 -> ~ reachable two_isolated 0 v ->
      aget (LCA.depth o) v = Some 0 /\
      forall k, 0 <= k < LCA.LOG o -> LCA.up_get o k (Some v) = Ret (Some (-1)).
Proof.
  apply (lca_new_no_validation two_isolated 0 (fun v => v =? 0) (fun _ => 0) (fun _ => O)).
  apply forest_tree_on.
Defined.

(** ** Ids out of range, the caller's objects, and a second run *)

(** C6 as stated fails: a query with an id out of range returns normally,
    and [astarGrid] with coordinates outside the grid returns a path. *)
Lemma query_out_of_range_returns :
  exists o,
    LCA.new 8 [[1;2]; [0;3;4]; [0;5;6]; [1]; [1]; [2]; [2]] 0 = Some (Ret o) /\
    ~ (0 <= 7 < LCA.n o) /\ ~ (0 <= 9 < LCA.n o) /\
    LCA.query o 7 7 = Ret (Some 7) /\
    LCA.query o 3 9 = Ret (Some 0) /\
    astarGrid 10 (-1, 0) (0, 0) [[0]] = Some (Ret (Some [(-1, 0); (0, 0)])).
Proof.
  eexists. split; [vm_compute; reflexivity|].
  split; [cbn; lia|]. split; [cbn; lia|]. by vm_compute.
Qed.

(** C6, amended.  No operation checks the range of a node id or of a
    coordinate.  [dijkstra] with a source outside [0 .. n-1] does end with
    an error (the [TypeError] of iterating [adj[src]]).  [LCA.query] and
    [astarGrid] signal no error: on an object built by the constructor,
    [query(u, v)] returns normally for all integers [u] and [v], and returns
    [u] when [u = v], in range or not; on a rectangular grid with at least
    one row, [astarGrid] returns a path or [null] for every start and goal,
    inside the grid or not. *)
Theorem out_of_range_behaviour :
  (forall (adj : graph) (src : Z) (f : nat),
     ~ (0 <= src < Z.of_nat (length adj)) -> (1 <= f)%nat ->
     dijkstra f adj src = Some Throw) /\
  (forall (f : nat) (adj : list (list Z)) (root : Z) (o : LCA.t) (u v : Z),
     LCA.new f adj root = Some (Ret o) ->
     (exists r, LCA.query o u v = Ret r) /\ LCA.query o u u = Ret (Some u)) /\
  (forall (grid : list (list Z)) (row0 : list Z) (start goal : Z * Z),
     rectangular grid -> grid !! 0%nat = Some row0 ->
     exists r f0, forall f, (f0 <= f)%nat ->
       astarGrid f start goal grid = Some (Ret r)).
Proof.
  split_and!.
  - intros adj src [|f] Hsrc Hf; [lia|].
    unfold dijkstra, dijkstra_run, dijkstra_init.
    change (push [] (Fin 0) src) with [Entry (Fin 0) src].
    cbn [dijkstra_loop ds_pq ds_dist ds_adj size length Nat.eqb pop list.last
         removelast Nat.ltb Nat.leb val key].
    assert (aget (aset (replicate (length adj) Inf) src (Fin 0)) src = None) as ->.
    { apply aget_None. rewrite length_aset, length_replicate. lia. }
    cbn [js_gt]. assert (aget adj src = None) as -> by (apply aget_None; lia).
    done.
  - intros f adj root o u v Hnew. split; [|apply query_same].
    apply (query_Ret adj). by eapply new_shape.
  - intros grid row0 start goal Hrect Hrow0.
    destruct (astar_loop_ends grid start goal row0 Hrow0 Hrect
                (astar_init start goal grid)) as (f0 & r & st' & Hrun & _ & _).
    { apply astar_init_inv. }
    exists r, f0. intros f Hf. unfold astarGrid, astar_run, aget.
    rewrite decide_True by lia. change (Z.to_nat 0) with 0%nat.
    rewrite Hrow0. by rewrite Hrun.
Qed.

(** C8.  [dijkstra], [astarGrid] and [LCA.query] leave every object that
    exists on entry as it was: whatever the arguments and the store are,
    and however the run ends (with a value, with an exception, or cut off),
    each object of the store on entry is in the store afterwards under the
    same reference with the same elements and properties.  The caller's
    graph with its adjacency lists and edges, the grid with its rows, and
    the [LCA] object with its [up], [depth] and [adj] tables are such
    objects: no element of them is added, removed or overwritten. *)
Theorem inputs_unchanged :
  (forall (fuel : nat) (adj : Mem.value) (src : Z) (s : Mem.store),
     Mem.unchanged s (Mem.dijkstra fuel adj src s).2) /\
  (forall (fuel : nat) (start goal grid : Mem.value) (s : Mem.store),
     Mem.unchanged s (Mem.astarGrid fuel start goal grid s).2) /\
  (forall (this : Mem.value) (u v : Z) (s : Mem.store),
     Mem.unchanged s (Mem.query this u v s).2).
Proof.
  split_and!.
  - intros fuel adj src s. apply frame_unchanged, dijkstra_frame.
  - intros fuel start goal grid s. apply frame_unchanged, astarGrid_frame.
  - intros this u v s. apply frame_unchanged, query_frame.
Qed.

(** C9.  [dijkstra] is deterministic: a second run on the same graph and
    source, started in the store that the first run has left, ends as the
    first run has ended; when the first run returns a table, the second
    returns another array, and after the two runs both arrays hold the
    same entries (and the same properties).  The store on entry is any
    store in which every reference is the reference of an object, as in
    every JavaScript heap; [adj] is any value in it. *)
Theorem dijkstra_deterministic (fuel : nat) (adj : Mem.value) (src : Z)
    (s : Mem.store) :
  closed_store s = true -> closed_value (length s) adj = true ->
  let first := Mem.dijkstra fuel adj src s in
  let second := Mem.dijkstra fuel adj src first.2 in
  match first.1 with
  | Some (Ret t1) =>
      exists (r1 r2 : Mem.ref) (es : list Mem.value) (ps : jsmap Mem.value),
        t1 = Mem.VRef r1 /\ second.1 = Some (Ret (Mem.VRef r2)) /\
        r1 <> r2 /\
        first.2 !! r1 = Some (Mem.Arr es ps) /\
        second.2 !! r1 = Some (Mem.Arr es ps) /\
        second.2 !! r2 = Some (Mem.Arr es ps)
  | Some Throw => second.1 = Some Throw
  | None => second.1 = None
  end.
Proof.
  intros Hs Hadj. cbn zeta.
  destruct (Mem.dijkstra fuel adj src s) as [o1 s1] eqn:Hrun1.
  destruct (dijkstra_table _ _ _ _ _ _ Hrun1) as [Hfr1 Htab]. cbn [fst snd].
  pose proof (frame_shifted s s1 Hs Hfr1) as Hsh.
  set (k := (length s1 - length s)%nat) in Hsh.
  destruct (alike_dijkstra (length s) k fuel adj src s s1 Hsh) as [Hsh2 Hend].
  rewrite (closed_value_ren _ _ adj Hadj), Hrun1 in Hsh2, Hend.
  cbn [fst snd] in Hsh2, Hend.
  pose proof (dijkstra_frame fuel adj src s1) as Hfr2.
  destruct (Mem.dijkstra fuel adj src s1) as [o2 s2]. cbn [fst snd] in *.
  subst o2. destruct o1 as [[t1|]|]; [|done..]. cbn [ren_end].
  destruct (Htab t1 eq_refl) as [-> (es & ps & Ht & Hes & Hps)].
  destruct Hfr1 as [Hlen1 _].
  apply lookup_lt_Some in Ht as Hlt.
  exists (length s), (length s + k)%nat, es, ps.
  cbn [ren_value]. rewrite ren_ref_new by done.
  split; [done|]. split; [done|]. split; [lia|]. split; [done|]. split.
  - destruct Hfr2 as [_ Hfr2]. by rewrite Hfr2.
  - destruct Hsh2 as (_ & _ & Hsh2). specialize (Hsh2 (length s)).
    rewrite ren_ref_new, Ht in Hsh2 by done. rewrite Hsh2. cbn.
    by rewrite ren_elems_plain, ren_props_plain.
Qed.

Lemma dijkstra_deterministic_witness :
  closed_store graph_store = true /\
  closed_value (length graph_store) (Mem.VRef 6) = true /\
  let first := Mem.dijkstra 10 (Mem.VRef 6) 0 graph_store in
  let second := Mem.dijkstra 10 (Mem.VRef 6) 0 first.2 in
  match first.1 with
  | Some (Ret t1) =>
      exists (r1 r2 : Mem.ref) (es : list Mem.value) (ps : jsmap Mem.value),
        t1 = Mem.VRef r1 /\ second.1 = Some (Ret (Mem.VRef r2)) /\
        r1 <> r2 /\
        first.2 !! r1 = Some (Mem.Arr es ps) /\
        second.2 !! r1 = Some (Mem.Arr es ps) /\
        second.2 !! r2 = Some (Mem.Arr es ps)
  | Some Throw => second.1 = Some Throw
  | None => second.1 = None
  end.
Proof.
  split; [reflexivity|]. split; [reflexivity|].
  apply (dijkstra_deterministic 10 (Mem.VRef 6) 0 graph_store); reflexivity.
Defined.
(** ** More on the priority queue *)

Section heap_clients.
Context {T : Type}.
Implicit Types (h : heap T) (e : entry T).

Lemma run_ops_app (ops1 ops2 : list (heap_op T)) h :
  run_ops (ops1 ++ ops2) h
  = ((run_ops ops1 h).1 ++ (run_ops ops2 (run_ops ops1 h).2).1,
     (run_ops ops2 (run_ops ops1 h).2).2).
Proof.
  revert h. induction ops1 as [|[k v|] ops1 IH]; intros h; cbn.
  - by destruct (run_ops ops2 h).
  - apply IH.
  - destruct (pop h) as [r h1]. rewrite (IH h1).
    destruct (run_ops ops1 h1) as [rs1 h2]. cbn.
    by destruct (run_ops ops2 h2).
Qed.

Lemma run_pushes_perm (l : list (num * T)) h :
  (run_ops ((fun p => OpPush p.1 p.2) <$> l) h).1 = [] /\
  (run_ops ((fun p => OpPush p.1 p.2) <$> l) h).2
    ≡ₚ ((fun p => Entry p.1 p.2) <$> l) ++ h.
Proof.
  revert h. induction l as [|[k v] l IH]; intros h; cbn; [done|].
  destruct (IH (push h k v)) as [H1 H2]. split; [done|].
  rewrite H2, push_perm. by rewrite Permutation_middle.
Qed.

(** Popping as many times as there are entries empties an ordered queue and
    returns the entries by non-decreasing key. *)
Lemma drain_sorted h :
  heap_ordered h ->
  exists es,
    run_ops (replicate (length h) OpPop) h = (Some <$> es, []) /\
    es ≡ₚ h /\ StronglySorted kle es.
Proof.
  remember (length h) as n eqn:Hn. revert h Hn.
  induction n as [|n IH]; intros h Hn Hord.
  - destruct h; [|done]. exists []. split; [done|]. split; [done|constructor].
  - cbn. destruct (pop h) as [[e|] h1] eqn:Hpop.
    + pose proof (pop_perm _ _ _ Hpop) as Hperm.
      pose proof (pop_min _ _ _ Hord Hpop) as Hmin.
      pose proof (pop_ordered _ Hord) as Hord1. rewrite Hpop in Hord1. cbn in Hord1.
      assert (n = length h1) as Hn1.
      { apply Permutation_length in Hperm. cbn in Hperm. lia. }
      destruct (IH h1 Hn1 Hord1) as (es & Hrun & Hes & Hsort).
      rewrite Hn1 in *. rewrite Hrun. exists (e :: es). split; [done|].
      split; [by rewrite Hes, Hperm|].
      constructor; [done|]. by rewrite Hes.
    + assert (h = []) as -> by (apply pop_nil; by rewrite Hpop). done.
Qed.
End heap_clients.

(** X1.  The array of a [MinHeap] is in heap order after any sequence of
    pushes and pops: no entry has a key smaller than the key of the entry
    at its parent index [(i - 1) >> 1]. *)
Theorem minheap_array_order {T : Type} (ops : list (heap_op T)) (i : nat)
    (ei : entry T) :
  (0 < i)%nat ->
  (run_ops ops []).2 !! i = Some ei ->
  exists ep, (run_ops ops []).2 !! ((i - 1) / 2)%nat = Some ep /\
    num_leb (key ep) (key ei) = true.
Proof.
  intros Hi Hei.
  assert (Hord : heap_ordered (run_ops ops []).2)
    by (apply run_ops_ordered; by intros [|?] ? ? ?).
  rewrite <- heap_parent_div.
  destruct (lookup_lt_is_Some_2 (run_ops ops []).2 (heap_parent i)) as [ep Hep].
  { apply lookup_lt_Some in Hei. pose proof (parent_lt i Hi). lia. }
  exists ep. split; [done|]. by apply (Hord i).
Qed.

Lemma minheap_array_order_witness :
  exists ep,
    (run_ops [OpPush (Fin 5) 0; OpPush (Fin 1) 1; OpPush (Fin 3) 2] []).2
      !! ((2 - 1) / 2)%nat = Some ep /\
    num_leb (key ep) (Fin 3) = true.
Proof.
  apply (minheap_array_order
           [OpPush (Fin 5) 0; OpPush (Fin 1) 1; OpPush (Fin 3) 2] 2
           (Entry (Fin 3) 2)).
  - lia.
  - reflexivity.
Defined.

(** X2.  Heap sort: pushing the entries of a list into an empty [MinHeap]
    and then popping once per entry returns all the entries, each exactly
    once, by non-decreasing key, and leaves the queue empty. *)
Theorem minheap_sorts {T : Type} (l : list (num * T)) :
  exists es : list (entry T),
    run_ops (((fun p => OpPush p.1 p.2) <$> l) ++ replicate (length l) OpPop) []
      = (Some <$> es, []) /\
    es ≡ₚ (fun p => Entry p.1 p.2) <$> l /\
    StronglySorted (fun e1 e2 => num_leb (key e1) (key e2) = true) es.
Proof.
  rewrite run_ops_app.
  destruct (run_pushes_perm l []) as [Hout Hperm]. rewrite app_nil_r in Hperm.
  set (h := (run_ops ((fun p => OpPush p.1 p.2) <$> l) []).2) in *.
  assert (Hord : heap_ordered h)
    by (apply run_ops_ordered; by intros [|?] ? ? ?).
  destruct (drain_sorted h Hord) as (es & Hrun & Hes & Hsort).
  assert (length l = length h) as Hlen.
  { apply Permutation_length in Hperm. by rewrite length_fmap in Hperm. }
  rewrite Hout, Hlen, Hrun. exists es. split; [done|].
  split; [by rewrite Hes|done].
Qed.
(** ** More on [dijkstra] *)

Lemma relax_length u es : forall dist pq dist' pq',
  relax u es dist pq = Some (dist', pq') -> length dist' = length dist.
Proof.
  induction es as [|[v w] es IH]; intros dist pq dist' pq' Hrun; cbn in Hrun.
  - by simplify_eq.
  - destruct (add_weight _ _) as [nd| |].
    + destruct (js_gt _ _); [|by eapply IH].
      apply IH in Hrun. by rewrite length_aset in Hrun.
    + by eapply IH.
    + destruct (aget dist v); [done|by eapply IH].
Qed.



Lemma relax_drop n u es : forall dist pq,
  length dist = n ->
  relax u (filter (fun e => known_target n e) es) dist pq = relax u es dist pq.
Proof.
  induction es as [|[v w] es IH]; intros dist pq Hlen; [done|].
  rewrite filter_cons. destruct (decide _) as [Hk|Hk].
  - cbn. destruct (add_weight _ _) as [nd| |].
    + destruct (js_gt _ _); [|by apply IH]. apply IH. by rewrite length_aset.
    + by apply IH.
    + destruct (aget dist v); [done|by apply IH].
  - rewrite IH by done. cbn.
    assert (aget dist v = None) as ->.
    { apply aget_None. rewrite Hlen.
      unfold known_target in Hk. cbn in Hk.
      apply Is_true_false in Hk. apply andb_false_iff in Hk as [Hk|Hk].
      + apply Z.leb_gt in Hk. lia.
      + apply Z.ltb_ge in Hk. lia. }
    by destruct (add_weight _ _).
Qed.

Lemma dijkstra_loop_drop f adj dist pq :
  length dist = length adj ->
  match dijkstra_loop f (DijkstraState (drop_unknown_targets adj) dist pq) with
  | Some (Ret st) => Some (Ret (ds_dist st))
  | Some Throw => Some Throw
  | None => None
  end
  = match dijkstra_loop f (DijkstraState adj dist pq) with
    | Some (Ret st) => Some (Ret (ds_dist st))
    | Some Throw => Some Throw
    | None => None
    end.
Proof.
  revert dist pq. induction f as [|f IH]; intros dist pq Hlen; [done|].
  cbn [dijkstra_loop ds_adj ds_dist ds_pq].
  destruct (size pq =? 0)%nat; [done|].
  destruct (pop pq) as [[cur|] pq1]; [|done].
  destruct (js_gt (Some (key cur)) _); [by apply IH|].
  unfold drop_unknown_targets at 1. rewrite aget_fmap.
  destruct (aget adj (val cur)) as [es|]; [|done]. cbn [fmap option_fmap option_map].
  rewrite relax_drop by done.
  destruct (relax (val cur) es dist pq1) as [[dist' pq']|] eqn:Hrel; [|done].
  apply IH. by rewrite (relax_length _ _ _ _ _ _ Hrel).
Qed.



(** X4.  An edge whose target is not a node of the graph (negative, or
    [adj.length] or more) is ignored: [dijkstra] behaves on [adj] as on
    [adj] without these edges, for every source and at every fuel. *)
Theorem dijkstra_ignores_unknown_targets (adj : graph) (src : Z) (f : nat) :
  dijkstra f adj src = dijkstra f (drop_unknown_targets adj) src.
Proof.
  unfold dijkstra, dijkstra_run, dijkstra_init.
  assert (length (drop_unknown_targets adj) = length adj) as Hl
    by apply length_fmap.
  rewrite Hl. symmetry. apply dijkstra_loop_drop.
  by rewrite length_aset, length_replicate.
Qed.
(** ** More on [astarGrid] *)

(** What the loop computes for any start cell, free or not. *)
Lemma astar_from_any_start (grid : list (list Z)) (row0 : list Z)
    (start goal : Z * Z) :
  rectangular grid -> grid !! 0%nat = Some row0 ->
  exists r,
    (exists f0, forall f, (f0 <= f)%nat ->
       astarGrid f start goal grid = Some (Ret r)) /\
    astar_result_ok grid start goal r.
Proof.
  intros Hrect Hrow0.
  destruct (astar_loop_ends grid start goal row0 Hrow0 Hrect
              (astar_init start goal grid)) as (f0 & r & st' & Hrun & _ & Hok).
  { apply astar_init_inv. }
  exists r. split; [|done]. exists f0. intros f Hf.
  unfold astarGrid, astar_run, aget. rewrite decide_True by lia.
  change (Z.to_nat 0) with 0%nat. rewrite Hrow0. by rewrite Hrun.
Qed.

Lemma in_grid_free (grid : list (list Z)) (row0 : list Z) (c : Z * Z) :
  rectangular grid -> grid !! 0%nat = Some row0 -> obstacle_free grid ->
  0 <= c.1 < Z.of_nat (length grid) -> 0 <= c.2 < Z.of_nat (length row0) ->
  free_cell grid c.
Proof.
  intros Hrect Hrow0 Hfree Hx Hy.
  destruct (aget_is_Some grid c.1 Hx) as [row Hrow].
  assert (length row = length row0) as Hlen by (by eapply row_length).
  destruct (aget_is_Some row c.2) as [v Hv]; [lia|].
  exists row, v. split; [done|]. split; [done|].
  apply aget_Some in Hrow as [_ Hrow]. apply aget_Some in Hv as [_ Hv].
  unfold obstacle_free in Hfree. rewrite Forall_lookup in Hfree.
  specialize (Hfree _ _ Hrow). rewrite Forall_lookup in Hfree.
  by apply (Hfree _ _ Hv).
Qed.

(** On a grid without walls a path of [h] steps leads to the goal. *)
Lemma manhattan_steps (grid : list (list Z)) (row0 : list Z) (goal : Z * Z) :
  rectangular grid -> grid !! 0%nat = Some row0 -> obstacle_free grid ->
  0 <= goal.1 < Z.of_nat (length grid) -> 0 <= goal.2 < Z.of_nat (length row0) ->
  forall (n : nat) (c : Z * Z),
    0 <= c.1 < Z.of_nat (length grid) -> 0 <= c.2 < Z.of_nat (length row0) ->
    h goal c.1 c.2 = Z.of_nat n ->
    exists q, steps grid c q /\ list.last (c :: q) = Some goal /\ length q = n.
Proof.
  intros Hrect Hrow0 Hfree Hgx Hgy. induction n as [|n IH]; intros [x y] Hx Hy Hh;
    unfold h in Hh; cbn [fst snd] in *.
  - exists []. split; [done|]. split; [|done]. cbn. f_equal.
    destruct goal as [gx gy]. cbn [fst snd] in *. f_equal; lia.
  - assert (exists c', adjacent (x, y) c' /\
              0 <= c'.1 < Z.of_nat (length grid) /\
              0 <= c'.2 < Z.of_nat (length row0) /\
              h goal c'.1 c'.2 = Z.of_nat n) as (c' & Hadj & Hx' & Hy' & Hh').
    { unfold adjacent, h. cbn [fst snd].
      destruct (decide (x < goal.1)); [exists (x + 1, y); cbn [fst snd]; lia|].
      destruct (decide (goal.1 < x)); [exists (x - 1, y); cbn [fst snd]; lia|].
      destruct (decide (y < goal.2)); [exists (x, y + 1); cbn [fst snd]; lia|].
      exists (x, y - 1); cbn [fst snd]; lia. }
    destruct (IH c' Hx' Hy' Hh') as (q & Hq & Hlast & Hlen).
    exists (c' :: q). split_and!.
    + cbn [steps]. split; [done|]. split; [|done]. by eapply in_grid_free.
    + by rewrite last_cons_cons.
    + cbn. by rewrite Hlen.
Qed.

(** X5.  The value of the start cell is never examined.  On a rectangular
    grid with at least one row, for any start (free, blocked, or outside the
    grid) and any goal, [astarGrid] returns with any sufficient fuel; a
    returned path begins with [start], proceeds by cardinal unit steps
    through free cells to [goal], and no such sequence of steps is shorter;
    [null] is returned exactly when no such sequence exists. *)
Theorem astar_start_cell_unchecked (grid : list (list Z)) (row0 : list Z)
    (start goal : Z * Z) :
  rectangular grid -> grid !! 0%nat = Some row0 ->
  exists r,
    (exists f0, forall f, (f0 <= f)%nat ->
       astarGrid f start goal grid = Some (Ret r)) /\
    match r with
    | Some p =>
        (exists q, p = start :: q /\ steps grid start q /\
           list.last p = Some goal) /\
        (forall q', steps grid start q' -> list.last (start :: q') = Some goal ->
           (length p <= S (length q'))%nat)
    | None =>
        forall q', steps grid start q' -> list.last (start :: q') <> Some goal
    end.
Proof.
  intros Hrect Hrow0.
  destruct (astar_from_any_start grid row0 start goal Hrect Hrow0)
    as (r & Hrun & Hok).
  exists r. split; [done|]. destruct r as [p|]; [done|].
  intros q' Hq' Hlast. by apply (Hok q').
Qed.

Lemma astar_start_cell_unchecked_witness :
  exists r,
    (exists f0, forall f, (f0 <= f)%nat ->
       astarGrid f (0, 0) (0, 1) [[1; 0]] = Some (Ret r)) /\
    match r with
    | Some p =>
        (exists q, p = (0, 0) :: q /\ steps [[1; 0]] (0, 0) q /\
           list.last p = Some (0, 1)) /\
        (forall q', steps [[1; 0]] (0, 0) q' ->
           list.last ((0, 0) :: q') = Some (0, 1) ->
           (length p <= S (length q'))%nat)
    | None =>
        forall q', steps [[1; 0]] (0, 0) q' ->
          list.last ((0, 0) :: q') <> Some (0, 1)
    end.
Proof.
  apply (astar_start_cell_unchecked [[1; 0]] [1; 0] (0, 0) (0, 1)).
  - intros row0 [= <-]. repeat constructor.
  - reflexivity.
Defined.

(** X6.  On a rectangular grid without blocked cells, for a start and a goal
    inside the grid, [astarGrid] returns a path, and the number of its cells
    is the Manhattan distance between start and goal plus one. *)
Theorem astar_open_grid_manhattan (grid : list (list Z)) (row0 : list Z)
    (start goal : Z * Z) :
  rectangular grid -> grid !! 0%nat = Some row0 -> obstacle_free grid ->
  0 <= start.1 < Z.of_nat (length grid) ->
  0 <= start.2 < Z.of_nat (length row0) ->
  0 <= goal.1 < Z.of_nat (length grid) ->
  0 <= goal.2 < Z.of_nat (length row0) ->
  exists p,
    (exists f0, forall f, (f0 <= f)%nat ->
       astarGrid f start goal grid = Some (Ret (Some p))) /\
    Z.of_nat (length p)
      = Z.abs (start.1 - goal.1) + Z.abs (start.2 - goal.2) + 1.
Proof.
  intros Hrect Hrow0 Hfree Hsx Hsy Hgx Hgy.
  destruct (astar_from_any_start grid row0 start goal Hrect Hrow0)
    as (r & Hrun & Hok).
  assert (0 <= h goal start.1 start.2) as Hh0 by (unfold h; lia).
  destruct (manhattan_steps grid row0 goal Hrect Hrow0 Hfree Hgx Hgy
              (Z.to_nat (h goal start.1 start.2)) start Hsx Hsy)
    as (q & Hq & Hlast & Hlen); [lia|].
  destruct r as [p|]; [|by destruct (Hok q)].
  exists p. split; [done|].
  destruct Hok as [(q0 & -> & Hq0 & Hlast0) Hmin].
  specialize (Hmin q Hq Hlast). cbn [length] in *.
  pose proof (h_le_steps grid goal start q0 Hq0 Hlast0) as Hlow.
  unfold h in *. lia.
Qed.

Lemma astar_open_grid_manhattan_witness :
  exists p,
    (exists f0, forall f, (f0 <= f)%nat ->
       astarGrid f (0, 0) (1, 1) [[0; 0]; [0; 0]] = Some (Ret (Some p))) /\
    Z.of_nat (length p) = Z.abs (0 - 1) + Z.abs (0 - 1) + 1.
Proof.
  apply (astar_open_grid_manhattan [[0; 0]; [0; 0]] [0; 0] (0, 0) (1, 1)).
  - intros row0 [= <-]. repeat constructor.
  - reflexivity.
  - repeat constructor; lia.
  - simpl; lia.
  - simpl; lia.
  - simpl; lia.
  - simpl; lia.
Defined.

(** X7.  A goal that is not a free cell (a blocked cell, or a coordinate
    outside the grid) and differs from the start is never reached: on a
    rectangular grid with at least one row the result is [null]. *)
Theorem astar_blocked_goal (grid : list (list Z)) (row0 : list Z)
    (start goal : Z * Z) :
  rectangular grid -> grid !! 0%nat = Some row0 ->
  start <> goal -> ~ free_cell grid goal ->
  exists f0, forall f, (f0 <= f)%nat ->
    astarGrid f start goal grid = Some (Ret None).
Proof.
  intros Hrect Hrow0 Hne Hblocked.
  destruct (astar_from_any_start grid row0 start goal Hrect Hrow0)
    as (r & Hrun & Hok).
  destruct r as [p|]; [exfalso|done].
  destruct Hok as [(q & -> & Hq & Hlast) _].
  clear Hrun. revert Hne Hq Hlast. generalize start.
  induction q as [|c q IH]; intros s Hne Hq Hlast.
  - cbn in Hlast. congruence.
  - destruct Hq as (_ & Hc & Hq). rewrite last_cons_cons in Hlast.
    destruct (decide (c = goal)) as [->|Hcg]; [done|]. by apply (IH c).
Qed.

Lemma astar_blocked_goal_witness :
  exists f0, forall f, (f0 <= f)%nat ->
    astarGrid f (0, 0) (0, 1) [[0; 1]] = Some (Ret None).
Proof.
  apply (astar_blocked_goal [[0; 1]] [0; 1] (0, 0) (0, 1)).
  - intros row0 [= <-]. repeat constructor.
  - reflexivity.
  - discriminate.
  - intros (row & v & Hrow & Hv & Hne). vm_compute in Hrow.
    injection Hrow as <-. vm_compute in Hv. injection Hv as <-. by apply Hne.
Defined.

(** X8.  The string keys of the maps are faithful on the integers of
    magnitude up to [2 ^ 53], which a template literal prints digit by
    digit: for such [x] and [y], splitting [key(x, y)] at the comma and
    converting both parts with [Number] gives back [x] and [y] (negative
    ones included), so two such cells have the same key only when they are
    the same cell. *)
Theorem key_round_trip (x y x' y' : Z) :
  Z.abs x <= 2 ^ 53 -> Z.abs y <= 2 ^ 53 ->
  Z.abs x' <= 2 ^ 53 -> Z.abs y' <= 2 ^ 53 ->
  parse_key (node_key x y) = Some (x, y) /\
  (node_key x y = node_key x' y' <-> x = x' /\ y = y').
Proof.
  intros _ _ _ _. split; [apply parse_node_key|]. split.
  - apply node_key_inj.
  - by intros [-> ->].
Qed.

Lemma key_round_trip_witness :
  parse_key (node_key (-3) 12) = Some (-3, 12) /\
  (node_key (-3) 12 = node_key 12 (-3) <-> -3 = 12 /\ 12 = -3).
Proof. apply (key_round_trip (-3) 12 12 (-3)); simpl; lia. Defined.
(** ** More on [LCA] *)

Section lca_queries.
Variables (adj : list (list Z)) (root : Z) (S : Z -> bool)
  (par : Z -> Z) (dep : Z -> nat).
Hypothesis Htree : rooted_tree_on adj root S par dep.
Hypothesis Hsmall : Z.of_nat (length adj) < 2 ^ 32.

(** Every object the constructor returns holds the tables of [new_spec]. *)
Lemma new_tables f o :
  LCA.new f adj root = Some (Ret o) ->
  lca_shape adj o /\ rows_ok adj S par o (LCA.LOG o) /\ depth_ok adj S dep o.
Proof.
  intros Hnew.
  destruct (new_spec adj root S par dep Htree) as (o' & Hnew' & Hspec).
  assert (o = o') as ->; [|done].
  pose proof (new_mono _ (f `max` Datatypes.S (length adj)) _ _ _ Hnew
                ltac:(lia)) as H1.
  pose proof (new_mono _ (f `max` Datatypes.S (length adj)) _ _ _ Hnew'
                ltac:(lia)) as H2.
  congruence.
Qed.

Lemma query_lca f o u v :
  LCA.new f adj root = Some (Ret o) -> S u = true -> S v = true ->
  exists a, LCA.query o u v = Ret (Some a) /\ lowest_common_ancestor par u v a.
Proof.
  intros Hnew HSu HSv.
  destruct (new_tables f o Hnew) as (Hshape & Hrows & Hdepth).
  pose proof (rt_range _ _ _ _ _ Htree u HSu) as Hu.
  pose proof (rt_range _ _ _ _ _ Htree v HSv) as Hv.
  unfold LCA.query. rewrite (Hdepth u Hu), (Hdepth v Hv), HSu, HSv.
  cbn [js_lt js_sub].
  destruct (Z.of_nat (dep u) <? Z.of_nat (dep v)) eqn:Hlt.
  - apply Z.ltb_lt in Hlt.
    rewrite (Hdepth u Hu), (Hdepth v Hv), HSu, HSv. cbn [js_sub].
    destruct (query_ordered adj root S par dep Htree o Hshape Hrows Hsmall v u)
      as (a & Hq & Hlca & _); [done | done | lia |].
    exists a. split; [done|]. by apply lowest_common_ancestor_sym.
  - apply Z.ltb_ge in Hlt.
    rewrite (Hdepth u Hu), (Hdepth v Hv), HSu, HSv. cbn [js_sub].
    destruct (query_ordered adj root S par dep Htree o Hshape Hrows Hsmall u v)
      as (a & Hq & Hlca & _); [done | done | lia |].
    by exists a.
Qed.

Lemma ancestor_trans a b c :
  ancestor par a b -> ancestor par b c -> ancestor par a c.
Proof.
  intros [i Hi] [j Hj]. exists (i + j)%nat. by rewrite Nat.iter_add, Hj.
Qed.

(** Two common ancestors of which none has a proper descendant that is a
    common ancestor are the same node. *)
Lemma lca_unique u v a b :
  S u = true ->
  lowest_common_ancestor par u v a -> lowest_common_ancestor par u v b -> a = b.
Proof.
  intros HSu (Hau & Hav & Hlow) (Hbu & Hbv & Hlow').
  destruct (Nat.le_ge_cases (dep a) (dep b)) as [Hle|Hle].
  - pose proof (anc_chain adj root S par dep Htree u b a HSu Hbu Hau Hle) as Hab.
    destruct (decide (b = a)) as [|Hne]; [done|]. exfalso.
    apply (Hlow b); [by eexists | done | done].
  - pose proof (anc_chain adj root S par dep Htree u a b HSu Hau Hbu Hle) as Hba.
    destruct (decide (a = b)) as [|Hne]; [done|]. exfalso.
    apply (Hlow' a); [by eexists | done | done].
Qed.

Lemma ancestor_lca u v :
  S u = true -> S v = true -> ancestor par u v ->
  lowest_common_ancestor par u v u.
Proof.
  intros HSu HSv Huv. split; [by exists 0%nat|]. split; [done|].
  intros b Hub Hne [Hbu _].
  destruct (anc_depth adj root S par dep Htree u b HSu Hbu) as (HSb & Hle & _).
  apply Hne. symmetry.
  apply (anc_same_depth adj root S par dep Htree b u HSb Hub Hle).
Qed.
End lca_queries.

(** X9.  Only the part of [adj] that hangs from the root has to be a tree.
    When the nodes reachable from the root form a tree (whatever other
    nodes [adj] has), every object the constructor returns answers a query
    between two reachable nodes with their lowest common ancestor. *)
Theorem lca_query_root_component (adj : list (list Z)) (root : Z)
    (S : Z -> bool) (par : Z -> Z) (dep : Z -> nat) (f : nat) (o : LCA.t)
    (u v : Z) :
  rooted_tree_on adj root S par dep ->
  Z.of_nat (length adj) < 2 ^ 32 ->
  LCA.new f adj root = Some (Ret o) ->
  reachable adj root u -> reachable adj root v ->
  exists a, LCA.query o u v = Ret (Some a) /\
    lowest_common_ancestor par u v a /\ reachable adj root a.
Proof.
  intros Htree Hsmall Hnew Hu%(tree_reachable _ _ _ _ _ _ Htree)
    Hv%(tree_reachable _ _ _ _ _ _ Htree).
  destruct (query_lca adj root S par dep Htree Hsmall f o u v Hnew Hu Hv)
    as (a & Hq & Hlca).
  exists a. split; [done|]. split; [done|].
  apply (tree_reachable _ _ _ _ _ _ Htree).
  destruct Hlca as (Hau & _).
  by destruct (anc_depth adj root S par dep Htree u a Hu Hau) as (HSa & _).
Qed.

(** In [small_forest] the nodes 0, 1 and 2 form a tree rooted at 0. *)
Lemma small_forest_tree :
  rooted_tree_on small_forest 0 small_forest_nodes small_par small_dep.
Proof.
  assert (Hr : forall v, small_forest_nodes v = true -> v = 0 \/ v = 1 \/ v = 2).
  { intros v. unfold small_forest_nodes.
    rewrite andb_true_iff, Z.leb_le, Z.ltb_lt. lia. }
  split.
  - intros v Hv%Hr. cbn. lia.
  - done.
  - done.
  - done.
  - intros v Hv%Hr Hne. split; [done|]. unfold small_dep, small_par.
    rewrite decide_False by done. done.
  - intros u vs v Hu%Hr Hvs Hin.
    destruct Hu as [->|[->| ->]]; vm_compute in Hvs; simplify_eq.
    + right. repeat (apply elem_of_cons in Hin as [->|Hin]); try done.
      by apply elem_of_nil in Hin.
    + left. apply list_elem_of_singleton in Hin. done.
    + left. apply list_elem_of_singleton in Hin. done.
  - intros v Hv%Hr Hne. exists [1; 2]. split; [done|].
    destruct Hv as [->|[->| ->]]; [done | by left | by right; left].
Qed.

Lemma lca_query_root_component_witness :
  exists a,
    LCA.query (LCA.mk 4 2 [[0; 0; 0; -1]; [0; 0; 0; -1]] [0; 1; 1; 0]
                 small_forest) 1 2
    = Ret (Some a) /\
    lowest_common_ancestor small_par 1 2 a /\ reachable small_forest 0 a.
Proof.
  apply (lca_query_root_component small_forest 0 small_forest_nodes
           small_par small_dep 5).
  - apply small_forest_tree.
  - simpl. lia.
  - reflexivity.
  - apply (reach_step _ _ 0 1 [1; 2]); [constructor|done|by left].
  - apply (reach_step _ _ 0 2 [1; 2]); [constructor|done|by right; left].
Defined.

(** X10.  On a valid rooted tree, [query] is symmetric: [query(u, v)] and
    [query(v, u)] return the same node. *)
Theorem lca_query_symmetric (adj : list (list Z)) (root : Z)
    (par : Z -> Z) (dep : Z -> nat) (f : nat) (o : LCA.t) (u v : Z) :
  rooted_tree adj root par dep ->
  Z.of_nat (length adj) < 2 ^ 32 ->
  LCA.new f adj root = Some (Ret o) ->
  0 <= u < Z.of_nat (length adj) ->
  0 <= v < Z.of_nat (length adj) ->
  LCA.query o u v = LCA.query o v u.
Proof.
  intros Htree Hsmall Hnew Hu Hv.
  assert (HSu : in_range adj u = true).
  { unfold in_range. rewrite andb_true_iff, Z.leb_le, Z.ltb_lt. lia. }
  assert (HSv : in_range adj v = true).
  { unfold in_range. rewrite andb_true_iff, Z.leb_le, Z.ltb_lt. lia. }
  destruct (query_lca adj root _ par dep Htree Hsmall f o u v Hnew HSu HSv)
    as (a & Hq & Hlca).
  destruct (query_lca adj root _ par dep Htree Hsmall f o v u Hnew HSv HSu)
    as (b & Hq' & Hlca').
  rewrite Hq, Hq'. do 2 f_equal.
  apply (lca_unique adj root _ par dep Htree u v a b HSu Hlca).
  by apply lowest_common_ancestor_sym.
Qed.

Lemma lca_query_symmetric_witness :
  LCA.query (LCA.mk 3 2 [[0; 0; 0]; [0; 0; 0]] [0; 1; 1] small_tree) 1 2
  = LCA.query (LCA.mk 3 2 [[0; 0; 0]; [0; 0; 0]] [0; 1; 1] small_tree) 2 1.
Proof.
  apply (lca_query_symmetric small_tree 0 small_par small_dep 4).
  - apply small_tree_valid.
  - simpl. lia.
  - reflexivity.
  - simpl. lia.
  - simpl. lia.
Defined.

(** X11.  On a valid rooted tree, [query] is an ancestor test:
    [query(u, v)] returns [u] exactly when [u] is an ancestor of [v] (or is
    [v] itself). *)
Theorem lca_query_ancestor_test (adj : list (list Z)) (root : Z)
    (par : Z -> Z) (dep : Z -> nat) (f : nat) (o : LCA.t) (u v : Z) :
  rooted_tree adj root par dep ->
  Z.of_nat (length adj) < 2 ^ 32 ->
  LCA.new f adj root = Some (Ret o) ->
  0 <= u < Z.of_nat (length adj) ->
  0 <= v < Z.of_nat (length adj) ->
  LCA.query o u v = Ret (Some u) <-> ancestor par u v.
Proof.
  intros Htree Hsmall Hnew Hu Hv.
  assert (HSu : in_range adj u = true).
  { unfold in_range. rewrite andb_true_iff, Z.leb_le, Z.ltb_lt. lia. }
  assert (HSv : in_range adj v = true).
  { unfold in_range. rewrite andb_true_iff, Z.leb_le, Z.ltb_lt. lia. }
  destruct (query_lca adj root _ par dep Htree Hsmall f o u v Hnew HSu HSv)
    as (a & Hq & Hlca).
  rewrite Hq. split.
  - intros [= ->]. by destruct Hlca as (_ & Hav & _).
  - intros Hanc. do 2 f_equal.
    apply (lca_unique adj root _ par dep Htree u v a u HSu Hlca).
    by apply (ancestor_lca adj root _ par dep Htree).
Qed.

Lemma lca_query_ancestor_test_witness :
  LCA.query (LCA.mk 3 2 [[0; 0; 0]; [0; 0; 0]] [0; 1; 1] small_tree) 0 2
    = Ret (Some 0) <-> ancestor small_par 0 2.
Proof.
  apply (lca_query_ancestor_test small_tree 0 small_par small_dep 4).
  - apply small_tree_valid.
  - simpl. lia.
  - reflexivity.
  - simpl. lia.
  - simpl. lia.
Defined.

(** X12.  A root outside [0 .. n-1] makes the constructor throw (the
    [TypeError] of iterating [adj[root]]); in particular no [LCA] can be
    built on the empty adjacency. *)
Theorem lca_new_bad_root (adj : list (list Z)) (root : Z) (f : nat) :
  ~ (0 <= root < Z.of_nat (length adj)) -> (1 <= f)%nat ->
  LCA.new f adj root = Some Throw.
Proof.
  intros Hroot Hf. destruct f as [|f]; [lia|].
  unfold LCA.new. cbn [LCA.dfs].
  set (L := Z.log2_up (Z.max 2 (Z.of_nat (length adj)))).
  assert (1 <= L) as HL.
  { unfold L. change 1 with (Z.log2_up 2). apply Z.log2_up_le_mono. lia. }
  unfold LCA.up_set. cbn [LCA.up].
  destruct (Z.to_nat L) as [|m] eqn:Hm; [lia|].
  cbn [replicate]. unfold aget at 1.
  rewrite decide_True by lia. change (Z.to_nat 0) with 0%nat.
  cbn [lookup list_lookup LCA.adj].
  assert (aget adj root = None) as ->; [|done].
  apply aget_None. lia.
Qed.

Lemma lca_new_bad_root_witness : LCA.new 1 [] 0 = Some Throw.
Proof. apply (lca_new_bad_root [] 0 1); simpl; lia. Defined.

(** X13.  Whatever the input, an object the constructor returns has the
    shape the queries rely on: [n] is the number of lists of [adj], [LOG] is
    at least 1 and is the least such number with [n <= 2^LOG], the table
    [up] has [LOG] rows of [n] entries, and [depth] has [n] entries; [adj]
    is the caller's array. *)
Theorem lca_new_table_shape (adj : list (list Z)) (root : Z) (f : nat)
    (o : LCA.t) :
  LCA.new f adj root = Some (Ret o) ->
  LCA.n o = Z.of_nat (length adj) /\ LCA.adj o = adj /\
  1 <= LCA.LOG o /\ LCA.n o <= 2 ^ LCA.LOG o /\
  (1 < LCA.LOG o -> 2 ^ (LCA.LOG o - 1) < LCA.n o) /\
  Z.of_nat (length (LCA.up o)) = LCA.LOG o /\
  Forall (fun row => Z.of_nat (length row) = LCA.n o) (LCA.up o) /\
  Z.of_nat (length (LCA.depth o)) = LCA.n o.
Proof.
  intros Hnew. pose proof (new_shape f adj root o Hnew) as Hs.
  destruct Hs as [Hn HLOG Hadj Hdepth Hup Hrows].
  assert (1 <= LCA.LOG o) as HL.
  { rewrite HLOG. change 1 with (Z.log2_up 2). apply Z.log2_up_le_mono. lia. }
  split_and!; [done | done | done | | | lia | | lia].
  - rewrite HLOG. pose proof (Z.log2_up_spec (Z.max 2 (LCA.n o))). lia.
  - intros H1. rewrite HLOG in *.
    pose proof (Z.log2_up_spec (Z.max 2 (LCA.n o))) as Hspec.
    assert (Z.log2_up (Z.max 2 (LCA.n o)) <> Z.log2_up 2) as Hne
      by (change (Z.log2_up 2) with 1; lia).
    assert (2 < LCA.n o) by (destruct (decide (2 < LCA.n o)); [done|];
      exfalso; apply Hne; f_equal; lia).
    replace (Z.pred (Z.log2_up (Z.max 2 (LCA.n o))))
      with (Z.log2_up (Z.max 2 (LCA.n o)) - 1) in Hspec by lia. lia.
  - eapply Forall_impl; [exact Hrows|]. intros row Hrow. cbn in Hrow. lia.
Qed.

Lemma lca_new_table_shape_witness :
  LCA.n (LCA.mk 2 1 [[0; -1]] [0; 0] two_isolated) = Z.of_nat (length two_isolated) /\
  LCA.adj (LCA.mk 2 1 [[0; -1]] [0; 0] two_isolated) = two_isolated /\
  1 <= LCA.LOG (LCA.mk 2 1 [[0; -1]] [0; 0] two_isolated) /\
  LCA.n (LCA.mk 2 1 [[0; -1]] [0; 0] two_isolated)
    <= 2 ^ LCA.LOG (LCA.mk 2 1 [[0; -1]] [0; 0] two_isolated) /\
  (1 < LCA.LOG (LCA.mk 2 1 [[0; -1]] [0; 0] two_isolated) ->
   2 ^ (LCA.LOG (LCA.mk 2 1 [[0; -1]] [0; 0] two_isolated) - 1)
     < LCA.n (LCA.mk 2 1 [[0; -1]] [0; 0] two_isolated)) /\
  Z.of_nat (length (LCA.up (LCA.mk 2 1 [[0; -1]] [0; 0] two_isolated)))
    = LCA.LOG (LCA.mk 2 1 [[0; -1]] [0; 0] two_isolated) /\
  Forall (fun row => Z.of_nat (length row)
            = LCA.n (LCA.mk 2 1 [[0; -1]] [0; 0] two_isolated))
    (LCA.up (LCA.mk 2 1 [[0; -1]] [0; 0] two_isolated)) /\
  Z.of_nat (length (LCA.depth (LCA.mk 2 1 [[0; -1]] [0; 0] two_isolated)))
    = LCA.n (LCA.mk 2 1 [[0; -1]] [0; 0] two_isolated).
Proof.
  apply (lca_new_table_shape two_isolated 0 2). reflexivity.
Defined.
(** ** [bfs] *)

Lemma bfs_loop_mono f f' adj st r :
  bfs_loop f adj st = Some r -> (f <= f')%nat -> bfs_loop f' adj st = Some r.
Proof.
  revert f' st. induction f as [|f IH]; intros f' st Hrun Hle; [done|].
  destruct f' as [|f']; [lia|]. cbn in *.
  destruct (bs_q st) as [|u q]; [done|].
  destruct (aget adj u) as [vs|]; [|done].
  destruct (bfs_visit vs (bs_visited st) q) as [vis' q'].
  apply IH; [done|lia].
Qed.

(** With more fuel than [adj] has lists, the call ends. *)
Lemma bfs_total adj start f :
  (length adj < f)%nat ->
  (exists out, bfs f adj start = Some (Ret out) /\ bfs_result_ok adj start out) \/
  (bfs f adj start = Some Throw /\
   exists v, reachable adj start v /\ ~ (0 <= v < Z.of_nat (length adj))).
Proof.
  intros Hf. apply (bfs_loop_ends adj start (length adj)); [|lia|done].
  apply bfs_init_inv.
Qed.

(** In a graph whose lists hold nodes of the graph only, the nodes
    reachable from a node of the graph are nodes of the graph. *)
Lemma closed_reachable adj start v :
  Forall (Forall (fun w => 0 <= w < Z.of_nat (length adj))) adj ->
  0 <= start < Z.of_nat (length adj) ->
  reachable adj start v -> 0 <= v < Z.of_nat (length adj).
Proof.
  intros Hadj Hs. induction 1 as [|u v vs _ _ Hvs Hin]; [done|].
  apply aget_Some in Hvs as [_ Hvs]. rewrite Forall_lookup in Hadj.
  specialize (Hadj _ _ Hvs). rewrite Forall_forall in Hadj. by apply Hadj.
Qed.

(** X14.  [bfs(adj, start)] ends, with any fuel above [adj.length], in one
    of two ways.  When every node reachable from [start] (the node [start]
    included) is a node of the graph, it returns a list that begins with
    [start] and holds exactly the nodes reachable from [start], each once.
    When some reachable node is not a node of the graph, it throws (the
    [TypeError] of iterating [adj[u]]). *)
Theorem bfs_reachable_or_throws (adj : list (list Z)) (start : Z) (f : nat) :
  (length adj < f)%nat ->
  ((forall v, reachable adj start v -> 0 <= v < Z.of_nat (length adj)) /\
   exists out,
     bfs f adj start = Some (Ret out) /\
     head out = Some start /\ NoDup out /\
     forall v, v ∈ out <-> reachable adj start v) \/
  ((exists v, reachable adj start v /\ ~ (0 <= v < Z.of_nat (length adj))) /\
   bfs f adj start = Some Throw).
Proof.
  intros Hf. destruct (bfs_total adj start f Hf) as [(out & Hrun & Hok)|[Hrun Hbad]].
  - left. destruct Hok as (Hnd & Hreach & Hhead & Hrange & _). split.
    + intros v Hv. by apply Hrange, Hreach.
    + by exists out.
  - by right.
Qed.

Lemma bfs_reachable_or_throws_witness :
  ((forall v, reachable [[1]; [5]] 0 v -> 0 <= v < Z.of_nat 2) /\
   exists out,
     bfs 3 [[1]; [5]] 0 = Some (Ret out) /\
     head out = Some 0 /\ NoDup out /\
     forall v, v ∈ out <-> reachable [[1]; [5]] 0 v) \/
  ((exists v, reachable [[1]; [5]] 0 v /\ ~ (0 <= v < Z.of_nat 2)) /\
   bfs 3 [[1]; [5]] 0 = Some Throw).
Proof. apply (bfs_reachable_or_throws [[1]; [5]] 0 3). simpl. lia. Defined.

(** X15.  [bfs] lists the nodes by non-decreasing distance from [start]:
    when every reachable node is a node of the graph, each node of the
    returned list has a distance (a least number of edges from [start]), and
    a node is never listed before a node that is nearer to [start]. *)
Theorem bfs_order_by_distance (adj : list (list Z)) (start : Z) :
  (forall v, reachable adj start v -> 0 <= v < Z.of_nat (length adj)) ->
  exists out,
    (forall f, (length adj < f)%nat -> bfs f adj start = Some (Ret out)) /\
    (forall v, v ∈ out -> exists d, level adj start v d) /\
    forall i j u v du dv,
      (i < j)%nat -> out !! i = Some u -> out !! j = Some v ->
      level adj start u du -> level adj start v dv -> (du <= dv)%nat.
Proof.
  intros Hall.
  destruct (bfs_total adj start (S (length adj))) as [(out & Hrun & Hok)|[_ Hbad]];
    [lia| |].
  - exists out. destruct Hok as (_ & _ & _ & _ & Hlev & Hsorted).
    split_and!; [|done|].
    + intros f Hf. apply (bfs_loop_mono _ _ _ _ _ Hrun). lia.
    + intros i j u v du dv Hij Hi Hj Hdu Hdv.
      rewrite <- (take_drop j out) in Hsorted.
      apply (StronglySorted_app_1_elem_of _ _ _ u v Hsorted); [| |done|done].
      * apply list_elem_of_lookup. exists i. by rewrite lookup_take_lt.
      * apply list_elem_of_lookup. exists 0%nat.
        by rewrite lookup_drop, Nat.add_0_r.
  - destruct Hbad as (v & Hv & Hout). by apply Hall in Hv.
Qed.

Lemma bfs_order_by_distance_witness :
  exists out,
    (forall f, (3 < f)%nat -> bfs f [[1; 2]; [2]; [0]] 0 = Some (Ret out)) /\
    (forall v, v ∈ out -> exists d, level [[1; 2]; [2]; [0]] 0 v d) /\
    forall i j u v du dv,
      (i < j)%nat -> out !! i = Some u -> out !! j = Some v ->
      level [[1; 2]; [2]; [0]] 0 u du -> level [[1; 2]; [2]; [0]] 0 v dv ->
      (du <= dv)%nat.
Proof.
  apply (bfs_order_by_distance [[1; 2]; [2]; [0]] 0).
  intros v. apply closed_reachable.
  - repeat constructor; simpl; lia.
  - simpl; lia.
Defined.
(** ** [kruskal] *)

Lemma find_mono f f' parent a r :
  find f parent a = Some r -> (f <= f')%nat -> find f' parent a = Some r.
Proof.
  revert f' parent a r. induction f as [|f IH]; intros f' parent a r Hrun Hle;
    [done|]. destruct f' as [|f']; [lia|]. cbn [find] in *.
  destruct (aget parent a) as [p|]; [|done].
  destruct (decide (p <> a)); [|done].
  destruct (find f parent p) as [[parent1 r1]|] eqn:Hrec; [|done].
  by rewrite (IH f' parent p _ Hrec) by lia.
Qed.

Lemma unite_mono f f' parent rank a b r :
  unite f parent rank a b = Some r -> (f <= f')%nat ->
  unite f' parent rank a b = Some r.
Proof.
  unfold unite. intros Hrun Hle.
  destruct (find f parent a) as [[parent1 ra]|] eqn:Ha; [|done].
  rewrite (find_mono _ f' _ _ _ Ha Hle).
  destruct (find f parent1 b) as [[parent2 rb]|] eqn:Hb; [|done].
  by rewrite (find_mono _ f' _ _ _ Hb Hle).
Qed.

Lemma kruskal_loop_mono f f' es parent rank mst r :
  kruskal_loop f es parent rank mst = Some r -> (f <= f')%nat ->
  kruskal_loop f' es parent rank mst = Some r.
Proof.
  revert parent rank mst. induction es as [|e es IH]; intros parent rank mst Hrun Hle;
    [done|]. cbn [kruskal_loop] in *.
  destruct (unite f parent rank e.1.1 e.1.2) as [[[parent1 rank1] res]|] eqn:Hu;
    [|done].
  rewrite (unite_mono _ f' _ _ _ _ _ Hu Hle). destruct res; by apply IH.
Qed.

(** The call returns, and the invariant holds of what it returns. *)
Lemma kruskal_run n edges :
  0 <= n < 2 ^ 32 -> ends_in_range n edges ->
  exists mst parent rank,
    (forall fuel, (length edges < fuel)%nat ->
       kruskal fuel n edges = Some (Ret mst)) /\
    kruskal_inv n (sort_edges edges) mst parent rank.
Proof.
  intros Hn Hr.
  assert (Hlen : length (sort_edges edges) = length edges)
    by (apply Permutation_length, sort_edges_perm).
  destruct (kruskal_loop_spec n (S (length edges)) (sort_edges edges) [] []
              (seqZ 0 n) (replicate (Z.to_nat n) 0))
    as (mst & parent & rank & Hrun & Hinv).
  { apply kruskal_init_inv. lia. }
  { apply sort_edges_sorted. }
  { unfold ends_in_range. by rewrite sort_edges_perm. }
  { cbn [app]. rewrite Hlen. lia. }
  exists mst, parent, rank. split; [|done].
  intros fuel Hfuel. unfold kruskal.
  assert ((n <? 0) || (2 ^ 32 <=? n) = false) as ->.
  { apply orb_false_iff. split; [apply Z.ltb_ge|apply Z.leb_gt]; lia. }
  by rewrite (kruskal_loop_mono _ fuel _ _ _ _ _ Hrun) by lia.
Qed.

Lemma kruskal_inv_spans n edges mst parent rank x y :
  kruskal_inv n (sort_edges edges) mst parent rank ->
  connected mst x y <-> connected edges x y.
Proof.
  intros Hinv. split.
  - apply connected_mono. intros e He. rewrite <- (sort_edges_perm edges).
    by apply (sublist_subseteq _ _ (ki_sub _ _ _ _ _ Hinv)).
  - apply connected_within. intros e He. rewrite <- (sort_edges_perm edges) in He.
    eapply connected_mono; [|exact (ki_done _ _ _ _ _ Hinv e He)]. apply upto_sub.
Qed.

Lemma kruskal_inv_range n edges mst parent rank :
  ends_in_range n edges ->
  kruskal_inv n (sort_edges edges) mst parent rank -> ends_in_range n mst.
Proof.
  intros Hr Hinv. apply (ends_in_range_sublist n (sort_edges edges)).
  - unfold ends_in_range. by rewrite sort_edges_perm.
  - apply (ki_sub _ _ _ _ _ Hinv).
Qed.

(** X16.  For a valid number of nodes and edges between nodes of the graph,
    [kruskal(n, edges)] returns (with any fuel above the number of edges)
    a list of edges of the input that connects exactly the pairs of nodes
    the input connects, and is a sublist of the edges in stable order of
    weight: its weights do not decrease, and edges of equal weight keep
    their order of the input. *)
Theorem kruskal_spans (n : Z) (edges : list wedge) :
  0 <= n < 2 ^ 32 -> ends_in_range n edges ->
  exists mst,
    (forall fuel, (length edges < fuel)%nat ->
       kruskal fuel n edges = Some (Ret mst)) /\
    (forall e, e ∈ mst -> e ∈ edges) /\
    (forall x y, connected mst x y <-> connected edges x y) /\
    sublist mst (sort_edges edges) /\
    StronglySorted (fun a b => weight a <= weight b) mst.
Proof.
  intros Hn Hr.
  destruct (kruskal_run n edges Hn Hr) as (mst & parent & rank & Hrun & Hinv).
  pose proof (ki_sub _ _ _ _ _ Hinv) as Hsub.
  exists mst. split_and!; [done| | |done|].
  - intros e He. rewrite <- (sort_edges_perm edges).
    by apply (sublist_subseteq _ _ Hsub).
  - intros x y. by eapply kruskal_inv_spans.
  - apply (sorted_sublist (sort_edges edges)); [apply sort_edges_sorted|done].
Qed.

Lemma kruskal_spans_witness :
  exists mst,
    (forall fuel, (5 < fuel)%nat ->
       kruskal fuel 4 [(0,1,10); (0,2,6); (1,2,4); (1,3,8); (2,3,2)]
       = Some (Ret mst)) /\
    (forall e, e ∈ mst -> e ∈ [(0,1,10); (0,2,6); (1,2,4); (1,3,8); (2,3,2)]) /\
    (forall x y, connected mst x y <->
       connected [(0,1,10); (0,2,6); (1,2,4); (1,3,8); (2,3,2)] x y) /\
    sublist mst (sort_edges [(0,1,10); (0,2,6); (1,2,4); (1,3,8); (2,3,2)]) /\
    StronglySorted (fun a b => weight a <= weight b) mst.
Proof.
  apply (kruskal_spans 4 [(0,1,10); (0,2,6); (1,2,4); (1,3,8); (2,3,2)]).
  - lia.
  - repeat constructor; simpl; lia.
Defined.



(** X18.  For a valid number of nodes [n] ([0 <= n < 2^32]) and edges
    between nodes [0 .. n-1], the list [kruskal(n, edges)] returns has the
    least total weight: no list of edges of the input that has no cycle and
    connects every pair of nodes the input connects weighs less (the
    weights are integers, negative ones included, and the totals are exact
    sums). *)
Theorem kruskal_minimal (n : Z) (edges : list wedge) :
  0 <= n < 2 ^ 32 -> ends_in_range n edges ->
  exists mst,
    (forall fuel, (length edges < fuel)%nat ->
       kruskal fuel n edges = Some (Ret mst)) /\
    forall F,
      acyclic F -> (forall e, e ∈ F -> e ∈ edges) ->
      (forall x y, connected edges x y -> connected F x y) ->
      total_weight mst <= total_weight F.
Proof.
  intros Hn Hr.
  destruct (kruskal_run n edges Hn Hr) as (mst & parent & rank & Hrun & Hinv).
  pose proof (kruskal_inv_range _ _ _ _ _ Hr Hinv) as Hrm.
  pose proof (ki_forest _ _ _ _ _ Hinv) as Hforest.
  exists mst. split; [done|]. intros F Hac Hsub Hspan.
  assert (HrF : ends_in_range n F).
  { unfold ends_in_range in *. rewrite Forall_forall in *. auto. }
  pose proof (acyclic_forest_seq F Hac) as HF.
  assert (Hdone : forall e, e ∈ F ->
            connected (upto (weight e) mst) e.1.1 e.1.2).
  { intros e He. apply (ki_done _ _ _ _ _ Hinv).
    rewrite (sort_edges_perm edges). by apply Hsub. }
  assert (Hcount : forall w, (length (upto w F) <= length (upto w mst))%nat).
  { intros w. apply (forest_le n); [lia| | | | |].
    - apply (forest_seq_sublist F); [done|apply sublist_filter].
    - apply (forest_seq_sublist mst); [done|apply sublist_filter].
    - apply (ends_in_range_sublist n F); [done|apply sublist_filter].
    - apply (ends_in_range_sublist n mst); [done|apply sublist_filter].
    - intros e [Hw He]%list_elem_of_filter.
      eapply connected_mono; [|exact (Hdone e He)].
      intros d [Hd1 Hd2]%list_elem_of_filter.
      apply list_elem_of_filter. split; [lia|done]. }
  assert (Hlen : length mst = length F).
  { apply Nat.le_antisymm.
    - apply (forest_le n); [lia|done|done|done|done|].
      intros e He. apply Hspan, connected_edge.
      rewrite <- (sort_edges_perm edges).
      by apply (sublist_subseteq _ _ (ki_sub _ _ _ _ _ Hinv)).
    - apply (forest_le n); [lia|done|done|done|done|].
      intros e He. eapply connected_mono; [|exact (Hdone e He)]. apply upto_sub. }
  rewrite <- (total_weight_perm _ _ (sort_edges_perm F)).
  apply total_weight_major.
  - apply (sorted_sublist (sort_edges edges));
      [apply sort_edges_sorted|apply (ki_sub _ _ _ _ _ Hinv)].
  - apply sort_edges_sorted.
  - rewrite Hlen. symmetry. apply Permutation_length, sort_edges_perm.
  - intros w. unfold upto in *. rewrite (sort_edges_perm F). apply Hcount.
Qed.

Lemma kruskal_minimal_witness :
  exists mst,
    (forall fuel, (3 < fuel)%nat ->
       kruskal fuel 3 [(0,1,5); (1,2,1); (2,0,2)] = Some (Ret mst)) /\
    forall F,
      acyclic F -> (forall e, e ∈ F -> e ∈ [(0,1,5); (1,2,1); (2,0,2)]) ->
      (forall x y, connected [(0,1,5); (1,2,1); (2,0,2)] x y -> connected F x y) ->
      total_weight mst <= total_weight F.
Proof.
  apply (kruskal_minimal 3 [(0,1,5); (1,2,1); (2,0,2)]).
  - lia.
  - repeat constructor; simpl; lia.
Defined.
(** ** [quickSort] *)

(** X19.  Whatever values [Math.random()] returns (in [[0, 1)]),
    [quickSort(arr)] returns, with any fuel above twice the length plus
    five, the sorted arrangement of [arr]: a permutation of [arr] in
    non-decreasing order, the same for every sequence of random values. *)
Theorem quickSort_sorts (arr : list Z) :
  exists out,
    out ≡ₚ arr /\ StronglySorted Z.le out /\
    forall (rnd : randoms) (fuel : nat),
      unit_interval rnd -> (2 * length arr + 6 <= fuel)%nat ->
      quickSort fuel rnd arr = Some out.
Proof.
  destruct (quickSort_spec (fun _ => (0, 1)) arr) as (out & _ & Hperm & Hsorted).
  { intros k. cbn. lia. }
  exists out. split; [done|]. split; [done|].
  intros rnd fuel Hrnd Hfuel.
  destruct (quickSort_spec rnd arr Hrnd) as (out' & Hrun & Hperm' & Hsorted').
  rewrite (Hrun fuel Hfuel). f_equal.
  apply (StronglySorted_unique Z.le); [done|done|]. by rewrite Hperm, Hperm'.
Qed.
(** ** [dfs] *)

(** With more fuel than [adj] has lists, the call ends. *)
Lemma dfs_total adj start f :
  (length adj < f)%nat ->
  (exists out, dfs f adj start = Some (Ret out) /\
     NoDup out /\ head out = Some start /\
     (forall v, v ∈ out <-> reachable adj start v) /\
     (forall v, v ∈ out -> 0 <= v < Z.of_nat (length adj))) \/
  (dfs f adj start = Some Throw /\
   exists v, reachable adj start v /\ ~ (0 <= v < Z.of_nat (length adj))).
Proof.
  intros Hf. unfold dfs.
  set (st0 := (Marks (replicate (length adj) false) [], @nil Z)).
  assert (Hm0 : forall v, marked st0.1 v = false).
  { intros v. unfold marked. cbn.
    destruct (aget (replicate (length adj) false) v) as [b|] eqn:Hv.
    - apply aget_Some in Hv as [_ Hv]. by apply lookup_replicate in Hv as [-> _].
    - apply bool_decide_eq_false. by intros ?%elem_of_nil. }
  assert (Hinv0 : go_inv adj st0).
  { split; cbn.
    - by rewrite length_replicate.
    - constructor.
    - intros v. change (marked st0.1 v = true <-> v ∈ []). rewrite Hm0.
      split; [done|by intros ?%elem_of_nil].
    - by intros v ?%elem_of_nil. }
  pose proof (dfs_go_spec adj start f st0 start Hinv0 (Hm0 start)
                (reach_root adj start) ltac:(cbn; lia)) as Hpost.
  destruct (dfs_go f adj st0 start) as [[st'|]|]; [|by right|done].
  destruct Hpost as (Hinv' & _ & new & Hout & Hnew). cbn in Hout.
  left. exists st'.2. split_and!; [done| | | |].
  - apply (gi_nodup _ _ Hinv').
  - by rewrite Hout.
  - intros v. split.
    + intros Hv. rewrite Hout in Hv. by apply Hnew.
    + induction 1 as [|u v vs _ IH Hvs Hin]; [rewrite Hout; by left|].
      rewrite Hout in IH. by apply (proj2 (Hnew u IH) vs).
  - apply (gi_range _ _ Hinv').
Qed.

Lemma dfs_fuel_mono f f' adj start r :
  dfs f adj start = Some r -> (f <= f')%nat -> dfs f' adj start = Some r.
Proof.
  unfold dfs. intros Hrun Hle.
  destruct (dfs_go f adj _ start) as [o|] eqn:Hgo; [|done].
  by rewrite (dfs_go_mono adj _ f' _ _ _ Hgo Hle).
Qed.

(** X20.  [dfs(adj, start)] ends, with any fuel above [adj.length], in one
    of two ways.  When every node reachable from [start] (the node [start]
    included) is a node of the graph, it returns a list that begins with
    [start] and holds exactly the nodes reachable from [start], each once.
    When some reachable node is not a node of the graph, it throws (the
    [TypeError] of iterating [adj[u]]). *)
Theorem dfs_reachable_or_throws (adj : list (list Z)) (start : Z) (f : nat) :
  (length adj < f)%nat ->
  ((forall v, reachable adj start v -> 0 <= v < Z.of_nat (length adj)) /\
   exists out,
     dfs f adj start = Some (Ret out) /\
     head out = Some start /\ NoDup out /\
     forall v, v ∈ out <-> reachable adj start v) \/
  ((exists v, reachable adj start v /\ ~ (0 <= v < Z.of_nat (length adj))) /\
   dfs f adj start = Some Throw).
Proof.
  intros Hf. destruct (dfs_total adj start f Hf) as [(out & Hrun & Hok)|[Hrun Hbad]].
  - left. destruct Hok as (Hnd & Hhead & Hreach & Hrange). split.
    + intros v Hv. by apply Hrange, Hreach.
    + by exists out.
  - by right.
Qed.

Lemma dfs_reachable_or_throws_witness :
  ((forall v, reachable [[1]; [5]] 0 v -> 0 <= v < Z.of_nat 2) /\
   exists out,
     dfs 3 [[1]; [5]] 0 = Some (Ret out) /\
     head out = Some 0 /\ NoDup out /\
     forall v, v ∈ out <-> reachable [[1]; [5]] 0 v) \/
  ((exists v, reachable [[1]; [5]] 0 v /\ ~ (0 <= v < Z.of_nat 2)) /\
   dfs 3 [[1]; [5]] 0 = Some Throw).
Proof. apply (dfs_reachable_or_throws [[1]; [5]] 0 3). simpl. lia. Defined.

(** X21.  The two traversals visit the same nodes: when every node
    reachable from [start] is a node of the graph, the lists returned by
    [bfs] and [dfs] are permutations of each other. *)
Theorem traversals_agree (adj : list (list Z)) (start : Z) :
  (forall v, reachable adj start v -> 0 <= v < Z.of_nat (length adj)) ->
  exists out_b out_d,
    (forall f, (length adj < f)%nat ->
       bfs f adj start = Some (Ret out_b) /\ dfs f adj start = Some (Ret out_d)) /\
    out_b ≡ₚ out_d.
Proof.
  intros Hall.
  destruct (bfs_total adj start (S (length adj))) as [(ob & Hrb & Hokb)|[_ Hbad]];
    [lia| |].
  2:{ destruct Hbad as (v & Hv & Hout). by apply Hall in Hv. }
  destruct (dfs_total adj start (S (length adj))) as [(od & Hrd & Hokd)|[_ Hbad]];
    [lia| |].
  2:{ destruct Hbad as (v & Hv & Hout). by apply Hall in Hv. }
  exists ob, od. split.
  - intros f Hf. split.
    + apply (bfs_loop_mono _ _ _ _ _ Hrb). lia.
    + apply (dfs_fuel_mono _ _ _ _ _ Hrd). lia.
  - destruct Hokb as (Hndb & Hreachb & _). destruct Hokd as (Hndd & _ & Hreachd & _).
    apply NoDup_Permutation; [done|done|]. intros v. by rewrite Hreachb, Hreachd.
Qed.

Lemma traversals_agree_witness :
  exists out_b out_d,
    (forall f, (3 < f)%nat ->
       bfs f [[1; 2]; [2]; [0]] 0 = Some (Ret out_b) /\
       dfs f [[1; 2]; [2]; [0]] 0 = Some (Ret out_d)) /\
    out_b ≡ₚ out_d.
Proof.
  apply (traversals_agree [[1; 2]; [2]; [0]] 0).
  intros v. apply closed_reachable.
  - repeat constructor; simpl; lia.
  - simpl; lia.
Defined.
(** ** [gcd], [binPow] and [binarySearch] *)

(** X22.  For all integers [a] and [b], [gcd(a, b)] returns (with any fuel
    above [|b|]) the greatest common divisor: a non-negative common divisor
    of [a] and [b] that every common divisor divides; [gcd(0, 0)] is 0. *)
Theorem gcd_greatest_common_divisor (a b : Z) (fuel : nat) :
  (Z.to_nat (Z.abs b) < fuel)%nat ->
  exists g,
    gcd fuel a b = Some g /\ g = Z.gcd a b /\ 0 <= g /\
    (g | a) /\ (g | b) /\ forall d, (d | a) -> (d | b) -> (d | g).
Proof.
  intros Hf. exists (Z.gcd a b). split_and!.
  - unfold gcd. rewrite gcd_loop_spec by lia.
    by rewrite Z.gcd_abs_l, Z.gcd_abs_r.
  - done.
  - apply Z.gcd_nonneg.
  - apply Z.gcd_divide_l.
  - apply Z.gcd_divide_r.
  - intros d. apply Z.gcd_greatest.
Qed.

Lemma gcd_greatest_common_divisor_witness :
  exists g,
    gcd 19 (-48) 18 = Some g /\ g = Z.gcd (-48) 18 /\ 0 <= g /\
    (g | -48) /\ (g | 18) /\ forall d, (d | -48) -> (d | 18) -> (d | g).
Proof. apply (gcd_greatest_common_divisor (-48) 18 19). simpl. lia. Defined.

(** X23.  For an integer base and an integer exponent, [binPow(base, exp)]
    returns (with any fuel above [exp]) the power [base ^ exp] when [exp]
    is not negative, and 1 when it is negative.  A [bigint] base gives a
    [bigint]; a [number] base gives a [number] when the power is at most
    [Number.MAX_SAFE_INTEGER] in absolute value, and a [bigint]
    otherwise. *)
Theorem binPow_power (base : jsint) (exp : Z) (fuel : nat) :
  (Z.to_nat exp < fuel)%nat ->
  exists v,
    binPow fuel base exp = Some v /\
    int_of v = (if exp <? 0 then 1 else int_of base ^ exp) /\
    match base, v with
    | Number _, Number r => Z.abs r <= MAX_SAFE_INTEGER
    | Number _, BigInt r => MAX_SAFE_INTEGER < Z.abs r
    | BigInt _, BigInt _ => True
    | BigInt _, Number _ => False
    end.
Proof.
  intros Hf. unfold binPow. rewrite binPow_loop_spec by done. rewrite Z.mul_1_l.
  assert (Hval : int_of base ^ Z.max 0 exp
                 = if exp <? 0 then 1 else int_of base ^ exp).
  { destruct (exp <? 0) eqn:E.
    - apply Z.ltb_lt in E. by rewrite Z.max_l by lia.
    - apply Z.ltb_ge in E. by rewrite Z.max_r by lia. }
  destruct base as [z|z]; cbn [int_of] in *.
  - destruct (Z.abs (z ^ Z.max 0 exp) <=? MAX_SAFE_INTEGER) eqn:E.
    + apply Z.leb_le in E. by eexists.
    + apply Z.leb_gt in E. by eexists.
  - by eexists.
Qed.

Lemma binPow_power_witness :
  exists v,
    binPow 4 (Number 2) (-3) = Some v /\
    int_of v = (if -3 <? 0 then 1 else int_of (Number 2) ^ (-3)) /\
    match Number 2, v with
    | Number _, Number r => Z.abs r <= MAX_SAFE_INTEGER
    | Number _, BigInt r => MAX_SAFE_INTEGER < Z.abs r
    | BigInt _, BigInt _ => True
    | BigInt _, Number _ => False
    end.
Proof. apply (binPow_power (Number 2) (-3) 4). simpl. lia. Defined.

(** X24.  [binarySearch] never reports a wrong place, sorted input or not:
    on any array of at most [2^30] entries the call returns (with any fuel
    above the length plus one), and the result is -1 or an index at which
    the array holds the target. *)
Theorem binarySearch_sound (arr : list Z) (target : Z) :
  Z.of_nat (length arr) <= 2 ^ 30 ->
  exists r,
    (forall fuel, (S (length arr) < fuel)%nat ->
       binarySearch fuel arr target = Some r) /\
    (r = -1 \/ (0 <= r /\ arr !! Z.to_nat r = Some target)).
Proof.
  intros Hlen.
  destruct (binarySearch_loop_total arr target Hlen (S (S (length arr))) 0
              (Z.of_nat (length arr) - 1)) as [r Hr]; [lia|lia|lia|].
  exists r. split.
  - intros fuel Hf. unfold binarySearch.
    destruct (binarySearch_loop_total arr target Hlen fuel 0
                (Z.of_nat (length arr) - 1)) as [r' Hr']; [lia|lia|lia|].
    rewrite Hr'. f_equal. by eapply binarySearch_loop_agree.
  - apply binarySearch_loop_sound in Hr as [Hr|Hr]; [by left|right].
    by apply aget_Some in Hr.
Qed.

Lemma binarySearch_sound_witness :
  exists r,
    (forall fuel, (4 < fuel)%nat -> binarySearch fuel [5; 1; 5] 5 = Some r) /\
    (r = -1 \/ (0 <= r /\ [5; 1; 5] !! Z.to_nat r = Some 5)).
Proof. apply (binarySearch_sound [5; 1; 5] 5). simpl. lia. Defined.

(** X25.  On an array sorted in non-decreasing order, of at most [2^30]
    entries (so that [lo + hi] stays a 32-bit integer), [binarySearch]
    finds the target whenever it is present: it returns an index that holds
    the target, and returns -1 only when no entry is the target. *)
Theorem binarySearch_sorted (arr : list Z) (target : Z) :
  StronglySorted Z.le arr -> Z.of_nat (length arr) <= 2 ^ 30 ->
  exists r,
    (forall fuel, (S (length arr) < fuel)%nat ->
       binarySearch fuel arr target = Some r) /\
    ((r = -1 /\ target ∉ arr) \/ (0 <= r /\ arr !! Z.to_nat r = Some target)).
Proof.
  intros Hs Hlen.
  assert (Hin : forall k, aget arr k = Some target ->
            0 <= k <= Z.of_nat (length arr) - 1).
  { intros k Hk%aget_lt. lia. }
  destruct (binarySearch_loop_sorted arr target Hs Hlen (S (S (length arr))) 0
              (Z.of_nat (length arr) - 1)) as (r & Hr & Hok); [lia|lia|done|lia|].
  exists r. split.
  - intros fuel Hf. unfold binarySearch.
    destruct (binarySearch_loop_sorted arr target Hs Hlen fuel 0
                (Z.of_nat (length arr) - 1)) as (r' & Hr' & Hok');
      [lia|lia|done|lia|].
    rewrite Hr'. f_equal. by eapply binarySearch_loop_agree.
  - destruct Hok as [?|Hfound]; [by left|right]. by apply aget_Some in Hfound.
Qed.

Lemma binarySearch_sorted_witness :
  exists r,
    (forall fuel, (4 < fuel)%nat -> binarySearch fuel [1; 3; 5] 4 = Some r) /\
    ((r = -1 /\ 4 ∉ [1; 3; 5]) \/ (0 <= r /\ [1; 3; 5] !! Z.to_nat r = Some 4)).
Proof.
  apply (binarySearch_sorted [1; 3; 5] 4).
  - repeat constructor; lia.
  - simpl. lia.
Defined.
(** ** [mergeSort] *)

(** X26.  [mergeSort(arr)] returns, with any fuel above the length plus
    one, the sorted arrangement of [arr]: a permutation of [arr] in
    non-decreasing order.  It is the list [quickSort(arr)] returns, whatever
    the random pivots. *)
Theorem mergeSort_sorts (arr : list Z) :
  exists out,
    out ≡ₚ arr /\ StronglySorted Z.le out /\
    (forall fuel, (length arr + 2 <= fuel)%nat -> mergeSort fuel arr = Some out) /\
    forall (rnd : randoms) (fuel : nat),
      unit_interval rnd -> (2 * length arr + 6 <= fuel)%nat ->
      quickSort fuel rnd arr = Some out.
Proof.
  destruct (mergeSort_spec (length arr + 2) arr) as (out & _ & Hperm & Hsorted);
    [lia|].
  exists out. split; [done|]. split; [done|]. split.
  - intros fuel Hf.
    destruct (mergeSort_spec fuel arr Hf) as (out' & -> & Hperm' & Hsorted').
    f_equal. apply (StronglySorted_unique Z.le); [done|done|].
    by rewrite Hperm, Hperm'.
  - intros rnd fuel Hrnd Hf.
    destruct (quickSort_spec rnd arr Hrnd) as (out' & Hrun & Hperm' & Hsorted').
    rewrite (Hrun fuel Hf). f_equal.
    apply (StronglySorted_unique Z.le); [done|done|]. by rewrite Hperm, Hperm'.
Qed.
(** ** [knapsack] *)

(** X27.  For as many weights as values, all of them integers, no weight
    negative, values whose magnitudes add up to at most [2 ^ 53] (so that
    no sum the code forms is rounded), and a capacity [0 <= W < 2^32 - 1]
    (so that [W + 1] is a valid array length),
    [knapsack(values, weights, W)] returns the greatest total value of a
    selection of items, each taken at most once, whose total weight is at
    most [W]: some selection that fits has this value, and no selection
    that fits has more. *)
Theorem knapsack_optimal (values weights : list Z) (W : Z) :
  length weights = length values ->
  Forall (fun wt => 0 <= wt) weights ->
  total_abs values <= 2 ^ 53 ->
  0 <= W < 2 ^ 32 - 1 ->
  exists r,
    knapsack values weights W = Some (Ret (Some r)) /\
    (exists sel, selected_sum weights sel (length values) <= W /\
       selected_sum values sel (length values) = r) /\
    forall sel, selected_sum weights sel (length values) <= W ->
      selected_sum values sel (length values) <= r.
Proof.
  intros Hlen Hw Hv HW. exists (best_value values weights (length values) W).
  split.
  - unfold knapsack.
    assert ((W + 1 <? 0) || (2 ^ 32 <=? W + 1) = false) as ->.
    { apply orb_false_iff. split; [apply Z.ltb_ge|apply Z.leb_gt]; lia. }
    destruct (knapsack_items_spec values weights W Hw Hv (length values)
                (replicate (Z.to_nat (W + 1)) 0) 0) as (dp & -> & Hdp).
    { rewrite length_replicate. lia. }
    { intros c Hc. cbn. apply aget_Some. split; [lia|].
      apply lookup_replicate. split; [done|lia]. }
    by rewrite (Hdp W) by lia.
  - apply best_value_optimal; [done|lia|lia|lia].
Qed.

Lemma knapsack_optimal_witness :
  exists r,
    knapsack [100; 60; 120; 80] [20; 10; 30; 15] 50 = Some (Ret (Some r)) /\
    (exists sel, selected_sum [20; 10; 30; 15] sel 4 <= 50 /\
       selected_sum [100; 60; 120; 80] sel 4 = r) /\
    forall sel, selected_sum [20; 10; 30; 15] sel 4 <= 50 ->
      selected_sum [100; 60; 120; 80] sel 4 <= r.
Proof.
  apply (knapsack_optimal [100; 60; 120; 80] [20; 10; 30; 15] 50).
  - reflexivity.
  - repeat constructor; lia.
  - simpl. lia.
  - lia.
Defined.
(** ** [topologicalSort] *)

(** X28.  [topologicalSort(adj)] ends, with any fuel above [adj.length], and
    never throws.  It returns a list exactly when the graph has a
    topological order, and the list is one: it holds every node
    [0 .. adj.length - 1] once, and each edge leads from a node to a node
    that is listed later.  It returns [null] exactly when there is no such
    list (the graph has a cycle).  A target that is not a node of the graph
    is ignored. *)
Theorem topologicalSort_correct (adj : list (list Z)) (f : nat) :
  (length adj < f)%nat ->
  (exists order,
     topologicalSort f adj = Some (Ret (Some order)) /\ topological adj order) \/
  (topologicalSort f adj = Some (Ret None) /\
   forall order, ~ topological adj order).
Proof. apply topologicalSort_spec. Qed.

Lemma topologicalSort_correct_witness :
  (exists order,
     topologicalSort 5 [[1; 2]; [3]; [3]; []] = Some (Ret (Some order)) /\
     topological [[1; 2]; [3]; [3]; []] order) \/
  (topologicalSort 5 [[1; 2]; [3]; [3]; []] = Some (Ret None) /\
   forall order, ~ topological [[1; 2]; [3]; [3]; []] order).
Proof. apply (topologicalSort_correct [[1; 2]; [3]; [3]; []] 5). simpl. lia. Defined.
(** ** [kmpSearch] *)

(** X29.  [kmpSearch(text, pattern)] returns, in increasing order, exactly
    the indices at which [pattern] occurs in [text] (overlapping occurrences
    included) when [pattern] is not empty, and no index at all when
    [pattern] is empty. *)
Theorem kmpSearch_all_occurrences {A : Type} `{EqDecision A}
    (text pattern : list A) :
  exists results,
    kmpSearch text pattern = Some results /\
    StronglySorted Z.lt results /\
    forall a : Z,
      a ∈ results <->
      pattern <> [] /\ 0 <= a /\
      take (length pattern) (drop (Z.to_nat a) text) = pattern.
Proof.
  rewrite kmpSearch_spec. eexists. split; [done|].
  case_decide as Hm.
  - split; [constructor|]. intros a. split; [by intros ?%elem_of_nil|].
    intros [Hne _]. by destruct pattern.
  - split; [apply filter_seq_sorted|]. intros a.
    rewrite list_elem_of_fmap. split.
    + intros (a' & -> & [Hocc _]%list_elem_of_filter).
      split_and!; [by intros ->|lia|by rewrite Nat2Z.id].
    + intros (_ & Ha & Hocc). exists (Z.to_nat a). split; [lia|].
      apply list_elem_of_filter. split; [done|]. apply elem_of_seq.
      apply (f_equal length) in Hocc.
      rewrite length_take, length_drop in Hocc. lia.
Qed.
(** ** [isPowerOfTwo] *)

(** X30.  On a length [n] ([0 <= n < 2 ^ 31]) the test [isPowerOfTwo(n)] of
    [fft] holds exactly when [n] is a power of two or [n] is 0: the length
    of an empty input passes the test. *)
Theorem isPowerOfTwo_accepts (n : Z) :
  0 <= n < 2 ^ 31 ->
  isPowerOfTwo n = true <-> n = 0 \/ exists k, 0 <= k /\ n = 2 ^ k.
Proof.
  intros Hn. unfold isPowerOfTwo, js_and.
  rewrite !int32_small by lia. rewrite Z.eqb_eq.
  destruct (decide (n = 0)) as [->|Hpos].
  - split; [by left|done].
  - split.
    + intros Hland. right. exists (Z.log2 n). split; [apply Z.log2_nonneg|].
      destruct (decide (n = 2 ^ Z.log2 n)) as [|Hne]; [done|].
      by destruct (land_pred_top n ltac:(lia) Hne).
    + intros [?|(k & Hk & ->)]; [done|]. by apply land_pred_pow2.
Qed.

Lemma isPowerOfTwo_accepts_witness :
  isPowerOfTwo 0 = true <-> 0 = 0 \/ exists k, 0 <= k /\ 0 = 2 ^ k.
Proof. apply (isPowerOfTwo_accepts 0). lia. Defined.
